(** * CMImportBiF: importing the builtin-function library and lowering builtins

    A shallow embedding of [llvm/tools/clang/lib/CodeGen/CMImportBiF.cpp]:
    the demand-driven walk over the builtin library ([Explore],
    [GetCalledFunctions], [GetBuiltinFunction]), the repair of calls made
    through a cast of a function ([removeFunctionBitcasts]) and the lowering
    of builtin calls to GenX intrinsics ([BIConvert::runOnModule]).

    The IR is the part of LLVM's that the file touches.  Objects that C++
    identifies by address are identified here by a number (instructions) or
    by their name in the module's symbol table (functions, globals).

    The source checks what it relies on with [assert] only.  Whether an
    [assert] does anything is decided when the file is compiled: with the
    macro [NDEBUG] defined, as in a release build of LLVM, the macro expands
    to nothing and the statements behind it run.  The embedding takes the
    build as a parameter, [BuildOptions]: a failed assertion is the outcome
    [Abort] in a build that keeps the assertions, and no event at all in a
    build with [NDEBUG].

    The assertions followed are those of the file and that of
    [getArgOperand] on its index.  The IR carries the types the file reads
    and no more, and what LLVM itself requires of the types of what it is
    handed (that the arguments of a call fit its callee, that a cast is a
    valid one, that an initializer has the type of its variable) is not
    checked here. *)

From Stdlib Require Import String Ascii DecimalString DecimalN.
From Stdlib Require Import NArith ZArith Lia Bool Arith List.
Import ListNotations.
Open Scope string_scope.
Open Scope list_scope.

Set Implicit Arguments.

(* ================================================================== *)
(** ** Outcomes *)

(** What a pass produces: a value, or the text written to [errs()] together
    with the assertion that stopped the compiler. *)
Inductive Result (A : Type) : Type :=
| Ok (a : A)
| Abort (diag : string) (assertion : string).

Arguments Ok {A} a.
Arguments Abort {A} diag assertion.

Definition bind {A B : Type} (r : Result A) (k : A -> Result B) : Result B :=
  match r with
  | Ok a => k a
  | Abort d m => Abort d m
  end.

Declare Scope result_scope.
Delimit Scope result_scope with result.
Notation "x <- r ;; k" := (bind r (fun x => k))
  (at level 100, r at next level, right associativity) : result_scope.
Open Scope result_scope.

Definition isOk {A : Type} (r : Result A) : bool :=
  match r with Ok _ => true | Abort _ _ => false end.

(* ================================================================== *)
(** ** The build *)

(** How the file was compiled: with [NDEBUG] the assertions are compiled
    out, those of the file and those of the inline functions of LLVM's
    headers it calls. *)
Class BuildOptions : Type := {
  NDEBUG : bool
}.

(** [assert(e)], [text] being the expression as the message prints it: the
    text of the assertion that stops the compiler, if it does. *)
Definition assert {Build : BuildOptions} (e : bool) (text : string) : option string :=
  if NDEBUG then None else if e then None else Some text.

(* ================================================================== *)
(** ** Types *)

Inductive Ty : Type :=
| VoidTy
| HalfTy
| FloatTy
| DoubleTy
| LabelTy
| IntegerTy (bits : N)
| PointerTy (addrspace : N)
| VectorTy (num : N) (elt : Ty).

Fixpoint Ty_eqb (a b : Ty) : bool :=
  match a, b with
  | VoidTy, VoidTy | HalfTy, HalfTy | FloatTy, FloatTy
  | DoubleTy, DoubleTy | LabelTy, LabelTy => true
  | IntegerTy n, IntegerTy m => N.eqb n m
  | PointerTy n, PointerTy m => N.eqb n m
  | VectorTy n t, VectorTy m u => N.eqb n m && Ty_eqb t u
  | _, _ => false
  end.

Definition isIntegerTy (t : Ty) : bool :=
  match t with IntegerTy _ => true | _ => false end.

Fixpoint getPrimitiveSizeInBits (t : Ty) : N :=
  match t with
  | HalfTy => 16
  | FloatTy => 32
  | DoubleTy => 64
  | IntegerTy n => n
  | VectorTy n e => n * getPrimitiveSizeInBits e
  | VoidTy | LabelTy | PointerTy _ => 0
  end.

Record FunctionType : Type := mkFunctionType {
  getReturnType : Ty;
  params : list Ty;
  isVarArg : bool
}.

Fixpoint list_eqb {A : Type} (eqb : A -> A -> bool) (l m : list A) : bool :=
  match l, m with
  | [], [] => true
  | a :: l', b :: m' => eqb a b && list_eqb eqb l' m'
  | _, _ => false
  end.

Definition FunctionType_eqb (a b : FunctionType) : bool :=
  Ty_eqb (getReturnType a) (getReturnType b)
  && list_eqb Ty_eqb (params a) (params b)
  && Bool.eqb (isVarArg a) (isVarArg b).

(** [getMangledTypeStr]: the suffix an overloaded intrinsic's name gets for
    a type parameter. *)
Definition decimal (n : N) : string := NilZero.string_of_uint (N.to_uint n).

Fixpoint getMangledTypeStr (t : Ty) : string :=
  match t with
  | VoidTy => "isVoid"
  | HalfTy => "f16"
  | FloatTy => "f32"
  | DoubleTy => "f64"
  | LabelTy => "label"
  | IntegerTy n => ("i" ++ decimal n)%string
  | PointerTy a => ("p" ++ decimal a)%string
  | VectorTy n e => ("v" ++ decimal n ++ getMangledTypeStr e)%string
  end.

(* ================================================================== *)
(** ** Intrinsics *)

Inductive IntrinsicID : Type :=
| not_intrinsic
| lifetime_start | lifetime_end | ctlz | fma
| genx_rnde | genx_rndd | genx_rndu | genx_rndz
| genx_cos | genx_sin | genx_exp | genx_log | genx_sqrt | genx_pow
| genx_cbit | genx_bfrev | genx_fmax | genx_fmin
| genx_ieee_sqrt | genx_ieee_div
| genx_fptosi_sat | genx_fptoui_sat
| genx_lzd.

Definition IntrinsicID_eq_dec (a b : IntrinsicID) : {a = b} + {a <> b}.
Proof. decide equality. Defined.

Definition IntrinsicID_eqb (a b : IntrinsicID) : bool :=
  if IntrinsicID_eq_dec a b then true else false.

(** The names of the intrinsics the pass reads or emits. *)
Definition IntrinsicNameTable : list (string * IntrinsicID) :=
  [ ("llvm.lifetime.start", lifetime_start);
    ("llvm.lifetime.end", lifetime_end);
    ("llvm.ctlz", ctlz);
    ("llvm.fma", fma);
    ("llvm.genx.rnde", genx_rnde);
    ("llvm.genx.rndd", genx_rndd);
    ("llvm.genx.rndu", genx_rndu);
    ("llvm.genx.rndz", genx_rndz);
    ("llvm.genx.cos", genx_cos);
    ("llvm.genx.sin", genx_sin);
    ("llvm.genx.exp", genx_exp);
    ("llvm.genx.log", genx_log);
    ("llvm.genx.sqrt", genx_sqrt);
    ("llvm.genx.pow", genx_pow);
    ("llvm.genx.cbit", genx_cbit);
    ("llvm.genx.bfrev", genx_bfrev);
    ("llvm.genx.fmax", genx_fmax);
    ("llvm.genx.fmin", genx_fmin);
    ("llvm.genx.ieee.sqrt", genx_ieee_sqrt);
    ("llvm.genx.ieee.div", genx_ieee_div);
    ("llvm.genx.fptosi.sat", genx_fptosi_sat);
    ("llvm.genx.fptoui.sat", genx_fptoui_sat);
    ("llvm.genx.lzd", genx_lzd) ].

Definition Intrinsic_baseName (id : IntrinsicID) : string :=
  match find (fun e => IntrinsicID_eqb (snd e) id) IntrinsicNameTable with
  | Some e => fst e
  | None => ""
  end.

(** [Intrinsic::getName(id, Tys)]: the base name and one mangled suffix per
    type parameter. *)
Definition Intrinsic_getName (id : IntrinsicID) (tys : list Ty) : string :=
  (Intrinsic_baseName id
   ++ String.concat "" (map (fun t => "." ++ getMangledTypeStr t) tys))%string.

(** [Function::getIntrinsicID]: LLVM derives it from the name, which has to
    start with [llvm.] and to be a table name, possibly followed by [.] and
    the suffixes of an overloaded instance. *)
Definition matchesIntrinsicName (name base : string) : bool :=
  String.eqb name base || String.prefix (base ++ ".")%string name.

Definition lookupIntrinsicID (name : string) : IntrinsicID :=
  if String.prefix "llvm." name then
    match find (fun e => matchesIntrinsicName name (fst e)) IntrinsicNameTable with
    | Some e => snd e
    | None => not_intrinsic
    end
  else not_intrinsic.

(* ================================================================== *)
(** ** Values, instructions, functions, modules *)

Abbreviation InstId := nat (only parsing).
Abbreviation CallingConv := nat (only parsing).
Abbreviation DebugLoc := nat (only parsing).
Abbreviation AttributeList := nat (only parsing).

(** A value as an operand shows it, with its type as in the textual IR.
    [VBitCast] is the constant expression that casts a constant. *)
Inductive Value : Type :=
| VNull
| VInst (id : InstId) (ty : Ty)
| VArg (idx : nat) (ty : Ty)
| VConst (ty : Ty) (bits : Z)
| VGlobal (name : string)
| VFunc (name : string) (fty : FunctionType)
| VBitCast (v : Value) (ty : Ty)
| VBlock (idx : nat).

Definition getType (v : Value) : Ty :=
  match v with
  | VNull => VoidTy
  | VInst _ t | VArg _ t | VConst t _ | VBitCast _ t => t
  | VGlobal _ | VFunc _ _ => PointerTy 0
  | VBlock _ => LabelTy
  end.

Inductive CastOps : Type := SIToFP | UIToFP.
Inductive BinaryOps : Type := FMul | FAdd.

Inductive InstKind : Type :=
| Call (callee : Value) (args : list Value) (fty : FunctionType) (cc : CallingConv)
| Cast (op : CastOps) (src : Value)
| BinaryOperator (op : BinaryOps) (lhs rhs : Value)
| OtherInst (opcode : nat) (ops : list Value).

Record Instruction : Type := mkInst {
  iid : InstId;
  ity : Ty;
  idbg : DebugLoc;
  ikind : InstKind
}.

Definition BasicBlock := list Instruction.

Inductive LinkageTypes : Type :=
| ExternalLinkage | AvailableExternallyLinkage | LinkOnceAnyLinkage
| LinkOnceODRLinkage | WeakAnyLinkage | WeakODRLinkage | AppendingLinkage
| InternalLinkage | PrivateLinkage | ExternalWeakLinkage | CommonLinkage.

(** A function body still in the bitcode: what [materialize] will produce,
    the blocks or the message of the error. *)
Definition LazyBody := (string + list BasicBlock)%type.

Record Function : Type := mkFunction {
  fname : string;
  ftype : FunctionType;
  flinkage : LinkageTypes;
  fdllexport : bool;
  fcc : CallingConv;
  fattrs : AttributeList;
  fargNames : list string;
  flazy : option LazyBody;
  fblocks : list BasicBlock
}.

Record GlobalVariable : Type := mkGlobal {
  gname : string;
  gtype : Ty;
  glinkage : LinkageTypes;
  ginit : option Value
}.

Record Module : Type := mkModule {
  functions : list Function;
  globals : list GlobalVariable
}.

Definition isMaterializable (f : Function) : bool :=
  match flazy f with Some _ => true | None => false end.

(** [GlobalValue::isDeclaration]: a function without blocks that is not
    waiting to be materialized; a global variable without initializer. *)
Definition isDeclaration (f : Function) : bool :=
  match fblocks f with [] => negb (isMaterializable f) | _ => false end.

Definition Global_isDeclaration (g : GlobalVariable) : bool :=
  match ginit g with None => true | Some _ => false end.

Definition getIntrinsicID (f : Function) : IntrinsicID :=
  lookupIntrinsicID (fname f).

Definition arg_size (f : Function) : nat := length (params (ftype f)).

Definition getFunction (M : Module) (name : string) : option Function :=
  find (fun f => String.eqb (fname f) name) (functions M).

Definition setBlocks (f : Function) (bs : list BasicBlock) : Function :=
  mkFunction (fname f) (ftype f) (flinkage f) (fdllexport f) (fcc f)
             (fattrs f) (fargNames f) (flazy f) bs.

Definition setLinkage (f : Function) (l : LinkageTypes) : Function :=
  mkFunction (fname f) (ftype f) l (fdllexport f) (fcc f)
             (fattrs f) (fargNames f) (flazy f) (fblocks f).

Definition setCallingConv (f : Function) (cc : CallingConv) : Function :=
  mkFunction (fname f) (ftype f) (flinkage f) (fdllexport f) cc
             (fattrs f) (fargNames f) (flazy f) (fblocks f).

Definition Global_setLinkage (g : GlobalVariable) (l : LinkageTypes) : GlobalVariable :=
  mkGlobal (gname g) (gtype g) l (ginit g).

(** Operands. *)
Definition mapOperands (f : Value -> Value) (i : Instruction) : Instruction :=
  mkInst (iid i) (ity i) (idbg i)
    match ikind i with
    | Call c a t cc => Call (f c) (map f a) t cc
    | Cast op s => Cast op (f s)
    | BinaryOperator op a b => BinaryOperator op (f a) (f b)
    | OtherInst opc ops => OtherInst opc (map f ops)
    end.

Definition operands (i : Instruction) : list Value :=
  match ikind i with
  | Call c a _ _ => a ++ [c]
  | Cast _ s => [s]
  | BinaryOperator _ a b => [a; b]
  | OtherInst _ ops => ops
  end.

Definition asValue (i : Instruction) : Value := VInst (iid i) (ity i).

(** One use after [Old->replaceAllUsesWith(New)].  LLVM requires both to
    have one type, so the type written at the use stays. *)
Definition replaceUse (old new : InstId) (v : Value) : Value :=
  match v with
  | VInst id t => if Nat.eqb id old then VInst new t else v
  | _ => v
  end.

Definition mapInFunction (g : Instruction -> Instruction) (f : Function) : Function :=
  setBlocks f (map (map g) (fblocks f)).

Definition instructionsOf (f : Function) : list Instruction := concat (fblocks f).

Definition allInstructions (M : Module) : list Instruction :=
  flat_map instructionsOf (functions M).

Definition maxInstId (l : list Instruction) : InstId :=
  fold_right (fun i m => Nat.max (iid i) m) 0 l.

(* ================================================================== *)
(** ** The target's intrinsics *)

(** The backend description decides the signature and the attributes of an
    intrinsic instantiated with type parameters; the pass only asks for
    them. *)
Class TargetIntrinsics : Type := {
  Intrinsic_getType : IntrinsicID -> list Ty -> FunctionType;
  Intrinsic_getAttributes : IntrinsicID -> AttributeList
}.

Section Passes.
(** The passes, for a build. *)
Context {Build : BuildOptions}.

(* ================================================================== *)
(** ** BIConvert: the rewrite tables *)

Definition map_find {V : Type} (m : list (string * V)) (k : string) : option V :=
  match find (fun e => String.eqb (fst e) k) m with
  | Some e => Some (snd e)
  | None => None
  end.

(** builtins that maps to one intrinsic *)
Definition OneMap : list (string * IntrinsicID) :=
  [ ("__builtin_IB_frnd_ne", genx_rnde);
    ("__builtin_IB_ftoh_rtn", genx_rndd);
    ("__builtin_IB_ftoh_rtp", genx_rndu);
    ("__builtin_IB_ftoh_rtz", genx_rndz);
    ("__builtin_IB_dtoh_rtn", genx_rnde);
    ("__builtin_IB_dtoh_rtp", genx_rndu);
    ("__builtin_IB_dtoh_rtz", genx_rndz);
    ("__builtin_IB_dtof_rtn", genx_rnde);
    ("__builtin_IB_dtof_rtp", genx_rndu);
    ("__builtin_IB_dtof_rtz", genx_rndz);
    ("__builtin_IB_frnd_pi", genx_rndu);
    ("__builtin_IB_frnd_ni", genx_rndd);
    ("__builtin_IB_frnd_zi", genx_rndz);
    ("__builtin_IB_native_cosf", genx_cos);
    ("__builtin_IB_native_cosh", genx_cos);
    ("__builtin_IB_native_sinf", genx_sin);
    ("__builtin_IB_native_sinh", genx_sin);
    ("__builtin_IB_native_exp2f", genx_exp);
    ("__builtin_IB_native_exp2h", genx_exp);
    ("__builtin_IB_native_log2f", genx_log);
    ("__builtin_IB_native_log2h", genx_log);
    ("__builtin_IB_native_sqrtf", genx_sqrt);
    ("__builtin_IB_native_sqrth", genx_sqrt);
    ("__builtin_IB_native_sqrtd", genx_sqrt);
    ("__builtin_IB_popcount_1u32", genx_cbit);
    ("__builtin_IB_popcount_1u16", genx_cbit);
    ("__builtin_IB_popcount_1u8", genx_cbit);
    ("__builtin_IB_native_powrf", genx_pow);
    ("__builtin_IB_fma", fma);
    ("__builtin_IB_fmah", fma);
    ("__builtin_IB_bfrev", genx_bfrev);
    ("__builtin_IB_fmax", genx_fmax);
    ("__builtin_IB_fmin", genx_fmin);
    ("__builtin_IB_HMAX", genx_fmax);
    ("__builtin_IB_HMIN", genx_fmin);
    ("__builtin_IB_dmin", genx_fmin);
    ("__builtin_IB_dmax", genx_fmax);
    ("__builtin_IB_ieee_sqrt", genx_ieee_sqrt);
    ("__builtin_IB_ieee_divide", genx_ieee_div);
    ("__builtin_IB_ieee_divide_f64", genx_ieee_div) ].

(** builtins that maps to two intrinsics *)
Definition TwoMap : list (string * (IntrinsicID * IntrinsicID)) :=
  [ ("__builtin_IB_dtoi8_rtn", (genx_rndd, genx_fptosi_sat));
    ("__builtin_IB_dtoi8_rtp", (genx_rndu, genx_fptosi_sat));
    ("__builtin_IB_dtoi8_rte", (genx_rnde, genx_fptosi_sat));
    ("__builtin_IB_dtoi16_rtn", (genx_rndd, genx_fptosi_sat));
    ("__builtin_IB_dtoi16_rtp", (genx_rndu, genx_fptosi_sat));
    ("__builtin_IB_dtoi16_rte", (genx_rnde, genx_fptosi_sat));
    ("__builtin_IB_dtoi32_rtn", (genx_rndd, genx_fptosi_sat));
    ("__builtin_IB_dtoi32_rtp", (genx_rndu, genx_fptosi_sat));
    ("__builtin_IB_dtoi32_rte", (genx_rnde, genx_fptosi_sat));
    ("__builtin_IB_dtoi64_rtn", (genx_rndd, genx_fptosi_sat));
    ("__builtin_IB_dtoi64_rtp", (genx_rndu, genx_fptosi_sat));
    ("__builtin_IB_dtoi64_rte", (genx_rnde, genx_fptosi_sat));
    ("__builtin_IB_dtoui8_rtn", (genx_rndd, genx_fptoui_sat));
    ("__builtin_IB_dtoui8_rtp", (genx_rndu, genx_fptoui_sat));
    ("__builtin_IB_dtoui8_rte", (genx_rnde, genx_fptoui_sat));
    ("__builtin_IB_dtoui16_rtn", (genx_rndd, genx_fptoui_sat));
    ("__builtin_IB_dtoui16_rtp", (genx_rndu, genx_fptoui_sat));
    ("__builtin_IB_dtoui16_rte", (genx_rnde, genx_fptoui_sat));
    ("__builtin_IB_dtoui32_rtn", (genx_rndd, genx_fptoui_sat));
    ("__builtin_IB_dtoui32_rtp", (genx_rndu, genx_fptoui_sat));
    ("__builtin_IB_dtoui32_rte", (genx_rnde, genx_fptoui_sat));
    ("__builtin_IB_dtoui64_rtn", (genx_rndd, genx_fptoui_sat));
    ("__builtin_IB_dtoui64_rtp", (genx_rndu, genx_fptoui_sat));
    ("__builtin_IB_dtoui64_rte", (genx_rnde, genx_fptoui_sat));
    ("__builtin_IB_fma_rtz_f64", (fma, genx_rndz));
    ("__builtin_IB_fma_rtz_f32", (fma, genx_rndz)) ].

(* ================================================================== *)
(** ** BIConvert::runOnModule *)

(** The three nested loops of [runOnModule] walk the module with iterators.
    The state keeps the module split at the iterators: the functions before
    the open one, the open function, its blocks before the open one, the
    instructions of the open block before the cursor, those from the cursor
    on, and the rest.  [nextId] is the identity the next created instruction
    gets. *)
Record RWState : Type := mkRW {
  fpre : list Function;
  fcur : Function;
  bpre : list BasicBlock;
  ipre : list Instruction;
  ipost : list Instruction;
  bpost : list BasicBlock;
  fpost : list Function;
  nextId : InstId;
  ListDelete : list InstId
}.

(** The state between two functions. *)
Record ModState : Type := mkMS {
  visited : list Function;
  pending : list Function;
  msNext : InstId;
  msDelete : list InstId
}.

Definition functionNames (s : RWState) : list string :=
  map fname (fpre s) ++ fname (fcur s) :: map fname (fpost s).

(** [Instruction::insertBefore] at the cursor. *)
Definition insertBefore (n : Instruction) (s : RWState) : RWState :=
  mkRW (fpre s) (fcur s) (bpre s) (ipre s ++ [n]) (ipost s) (bpost s)
       (fpost s) (nextId s) (ListDelete s).

(** [I++] *)
Definition advance (s : RWState) : RWState :=
  match ipost s with
  | [] => s
  | i :: rest =>
      mkRW (fpre s) (fcur s) (bpre s) (ipre s ++ [i]) rest (bpost s)
           (fpost s) (nextId s) (ListDelete s)
  end.

Definition mapAll (g : Instruction -> Instruction) (s : RWState) : RWState :=
  mkRW (map (mapInFunction g) (fpre s)) (fcur s)
       (map (map g) (bpre s)) (map g (ipre s)) (map g (ipost s))
       (map (map g) (bpost s)) (map (mapInFunction g) (fpost s))
       (nextId s) (ListDelete s).

(** [Old->replaceAllUsesWith(New)]: every use, wherever it is. *)
Definition replaceAllUsesWith (old : InstId) (new : Instruction) (s : RWState) : RWState :=
  mapAll (mapOperands (replaceUse old (iid new))) s.

(** [ListDelete.push_back] *)
Definition push_back (id : InstId) (s : RWState) : RWState :=
  mkRW (fpre s) (fcur s) (bpre s) (ipre s) (ipost s) (bpost s)
       (fpost s) (nextId s) (ListDelete s ++ [id]).

Definition addFunction (f : Function) (s : RWState) : RWState :=
  mkRW (fpre s) (fcur s) (bpre s) (ipre s) (ipost s) (bpost s)
       (fpost s ++ [f]) (nextId s) (ListDelete s).

Definition takeId (s : RWState) : RWState :=
  mkRW (fpre s) (fcur s) (bpre s) (ipre s) (ipost s) (bpost s)
       (fpost s) (S (nextId s)) (ListDelete s).

Section Rewriter.
Context {Target : TargetIntrinsics}.

Definition intrinsicDeclaration (id : IntrinsicID) (tys : list Ty) : Function :=
  let fty := Intrinsic_getType id tys in
  mkFunction (Intrinsic_getName id tys) fty ExternalLinkage false 0
             (Intrinsic_getAttributes id) (map (fun _ => "") (params fty))
             None [].

(** [Intrinsic::getDeclaration(&M, id, Tys)]: the declaration of that name,
    appended to the module's function list when the module has none. *)
Definition getOrInsertFunction (d : Function) (s : RWState) : RWState :=
  if existsb (String.eqb (fname d)) (functionNames s) then s else addFunction d s.

Definition Intrinsic_getDeclaration (id : IntrinsicID) (tys : list Ty)
           (s : RWState) : Function * RWState :=
  let d := intrinsicDeclaration id tys in
  (d, getOrInsertFunction d s).

(** [CallInst::Create(Func, Args, Name, InsertBefore)] followed by
    [setDebugLoc]. *)
Definition CallInst_Create (F : Function) (args : list Value) (dbg : DebugLoc)
           (s : RWState) : Instruction * RWState :=
  let c := mkInst (nextId s) (getReturnType (ftype F)) dbg
                  (Call (VFunc (fname F) (ftype F)) args (ftype F) 0) in
  (c, takeId (insertBefore c s)).

(** [CastInst::Create(Op, S, Ty, Name, InsertBefore)] *)
Definition CastInst_Create (op : CastOps) (S : Value) (ty : Ty) (dbg : DebugLoc)
           (s : RWState) : Instruction * RWState :=
  let c := mkInst (nextId s) ty dbg (Cast op S) in
  (c, takeId (insertBefore c s)).

(** [BinaryOperator::Create(Op, S1, S2, Name, InsertBefore)] *)
Definition BinaryOperator_Create (op : BinaryOps) (S1 S2 : Value) (dbg : DebugLoc)
           (s : RWState) : Instruction * RWState :=
  let c := mkInst (nextId s) (getType S1) dbg (BinaryOperator op S1 S2) in
  (c, takeId (insertBefore c s)).

(** [InstCall->getArgOperand(i)], an inline function of LLVM's headers:
    [assert(i < getNumArgOperands() && "Out of bounds!"); return getOperand(i);].
    The operands of a call are its arguments, then the callee, so without
    the assertion the index that follows the arguments reads the callee.
    Past the operands there is nothing to read and C++ defines no
    behaviour: the embedding gives no module for such a run, which is the
    outcome [Abort] with the text [pastTheOperands]. *)
Definition pastTheOperands : string := "read past the operands of the call".

Definition getArgOperand (callee : Value) (args : list Value) (i : nat)
  : Result Value :=
  match assert (Nat.ltb i (length args)) "i < getNumArgOperands() && Out of bounds!" with
  | Some text => Abort "" text
  | None =>
      match nth_error (args ++ [callee]) i with
      | Some v => Ok v
      | None => Abort "" pastTheOperands
      end
  end.

(** The body of the innermost loop, at the instruction [InstCall] under the
    cursor. *)
Definition visit (InstCall : Instruction) (s : RWState) : Result RWState :=
  match ikind InstCall with
  | Call (VFunc CalleeName calleeTy) args _ _ =>
      let id := lookupIntrinsicID CalleeName in
      (* get rid of lifetime marker, avoid dealing with it in packetizer *)
      if IntrinsicID_eqb id lifetime_start || IntrinsicID_eqb id lifetime_end then
        Ok (push_back (iid InstCall) s)
      else if IntrinsicID_eqb id ctlz then
        (* convert this to genx_ldz, but genx_lzd only support 32-bit input *)
        let Src := hd (VFunc CalleeName calleeTy) args in
        let SrcTy := getType Src in
        match assert (isIntegerTy SrcTy) "SrcTy->isIntegerTy()" with
        | Some text => Abort "" text
        | None =>
        match assert (N.eqb (getPrimitiveSizeInBits SrcTy) 32)
                     "SrcTy->getPrimitiveSizeInBits() == 32" with
        | Some text => Abort "" text
        | None =>
          let '(IntrinFunc, s) := Intrinsic_getDeclaration genx_lzd [SrcTy] s in
          let '(IntrinCall, s) := CallInst_Create IntrinFunc [Src] (idbg InstCall) s in
          let s := replaceAllUsesWith (iid InstCall) IntrinCall s in
          Ok (push_back (iid InstCall) s)
        end
        end
      else
      (* Check if it exists in the one-intrinsic map. *)
      match map_find OneMap CalleeName with
      | Some IID =>
          let tys := [getReturnType calleeTy] in
          let '(IntrinFunc, s) := Intrinsic_getDeclaration IID tys s in
          let '(IntrinCall, s) := CallInst_Create IntrinFunc args (idbg InstCall) s in
          let s := replaceAllUsesWith (iid InstCall) IntrinCall s in
          Ok (push_back (iid InstCall) s)
      | None =>
      (* check if the builtin maps to two intrinsics *)
      match map_find TwoMap CalleeName with
      | Some intrinsics =>
          (* create the 1st intrinsic *)
          arg0 <- getArgOperand (VFunc CalleeName calleeTy) args 0 ;;
          let tys0 := [getType arg0] in
          let '(IntrinFunc0, s) := Intrinsic_getDeclaration (fst intrinsics) tys0 s in
          let '(IntrinCall0, s) := CallInst_Create IntrinFunc0 args (idbg InstCall) s in
          (* create the 2nd intrinsic *)
          let tys1 := [getReturnType calleeTy; ity IntrinCall0] in
          let '(IntrinFunc1, s) := Intrinsic_getDeclaration (snd intrinsics) tys1 s in
          let '(IntrinCall1, s) :=
            CallInst_Create IntrinFunc1 [asValue IntrinCall0] (idbg InstCall) s in
          let s := replaceAllUsesWith (iid InstCall) IntrinCall1 s in
          Ok (push_back (iid InstCall) s)
      | None =>
      (* other cases *)
      if String.prefix "__builtin_IB_itof" CalleeName then
        arg0 <- getArgOperand (VFunc CalleeName calleeTy) args 0 ;;
        let '(Replace, s) :=
          CastInst_Create SIToFP arg0 (getReturnType calleeTy) (idbg InstCall) s in
        let s := replaceAllUsesWith (iid InstCall) Replace s in
        Ok (push_back (iid InstCall) s)
      else if String.prefix "__builtin_IB_uitof" CalleeName then
        arg0 <- getArgOperand (VFunc CalleeName calleeTy) args 0 ;;
        let '(Replace, s) :=
          CastInst_Create UIToFP arg0 (getReturnType calleeTy) (idbg InstCall) s in
        let s := replaceAllUsesWith (iid InstCall) Replace s in
        Ok (push_back (iid InstCall) s)
      else if String.prefix "__builtin_IB_mul_rtz" CalleeName then
        arg0 <- getArgOperand (VFunc CalleeName calleeTy) args 0 ;;
        arg1 <- getArgOperand (VFunc CalleeName calleeTy) args 1 ;;
        let '(Mul, s) := BinaryOperator_Create FMul arg0 arg1 (idbg InstCall) s in
        let tys := [getType arg0] in
        let '(IntrinFunc, s) := Intrinsic_getDeclaration genx_rndz tys s in
        let '(IntrinCall, s) :=
          CallInst_Create IntrinFunc [asValue Mul] (idbg InstCall) s in
        let s := replaceAllUsesWith (iid InstCall) IntrinCall s in
        Ok (push_back (iid InstCall) s)
      else if String.prefix "__builtin_IB_add_rtz" CalleeName then
        arg0 <- getArgOperand (VFunc CalleeName calleeTy) args 0 ;;
        arg1 <- getArgOperand (VFunc CalleeName calleeTy) args 1 ;;
        let '(Add, s) := BinaryOperator_Create FAdd arg0 arg1 (idbg InstCall) s in
        let tys := [getType arg0] in
        let '(IntrinFunc, s) := Intrinsic_getDeclaration genx_rndz tys s in
        let '(IntrinCall, s) :=
          CallInst_Create IntrinFunc [asValue Add] (idbg InstCall) s in
        let s := replaceAllUsesWith (iid InstCall) IntrinCall s in
        Ok (push_back (iid InstCall) s)
      else Ok s
      end
      end
  | _ => Ok s   (* not a call, or no direct callee *)
  end.

(** [for (auto I = BB.begin(), E = BB.end(); I != E; I++)]: [n] counts the
    instructions from the cursor to the end of the block; those the body
    inserts are before the cursor. *)
Fixpoint instLoop (n : nat) (s : RWState) : Result RWState :=
  match n with
  | 0 => Ok s
  | S n' =>
      match ipost s with
      | [] => Ok s
      | Inst :: _ => s' <- visit Inst s ;; instLoop n' (advance s')
      end
  end.

Definition openBlock (BB : BasicBlock) (rest : list BasicBlock) (s : RWState) : RWState :=
  mkRW (fpre s) (fcur s) (bpre s) [] BB rest (fpost s) (nextId s) (ListDelete s).

Definition closeBlock (s : RWState) : RWState :=
  mkRW (fpre s) (fcur s) (bpre s ++ [ipre s ++ ipost s]) [] [] (bpost s)
       (fpost s) (nextId s) (ListDelete s).

(** [for (auto &BB : func)] *)
Fixpoint blockLoop (n : nat) (s : RWState) : Result RWState :=
  match n with
  | 0 => Ok s
  | S n' =>
      match bpost s with
      | [] => Ok s
      | BB :: rest =>
          s' <- instLoop (length BB) (openBlock BB rest s) ;;
          blockLoop n' (closeBlock s')
      end
  end.

Definition openFunction (func : Function) (rest : list Function) (m : ModState) : RWState :=
  mkRW (visited m) func [] [] [] (fblocks func) rest (msNext m) (msDelete m).

Definition closeFunction (s : RWState) : ModState :=
  mkMS (fpre s ++ [setBlocks (fcur s) (bpre s ++ bpost s)]) (fpost s)
       (nextId s) (ListDelete s).

(** [for (Function &func : M)], over [n] functions. *)
Fixpoint funcLoop (n : nat) (m : ModState) : Result ModState :=
  match n with
  | 0 => Ok m
  | S n' =>
      match pending m with
      | [] => Ok m
      | func :: rest =>
          s' <- blockLoop (length (fblocks func)) (openFunction func rest m) ;;
          funcLoop n' (closeFunction s')
      end
  end.

(** [I->eraseFromParent()] for every [I] of [ListDelete]. *)
Definition isDeleted (del : list InstId) (i : Instruction) : bool :=
  existsb (Nat.eqb (iid i)) del.

Definition eraseFromParent (del : list InstId) (f : Function) : Function :=
  setBlocks f (map (filter (fun i => negb (isDeleted del i))) (fblocks f)).

(** The two loops that end [runOnModule]. *)
Definition internalizeGlobal (G : GlobalVariable) : GlobalVariable :=
  if negb (Global_isDeclaration G) then Global_setLinkage G InternalLinkage else G.

Definition internalizeFunction (F : Function) : Function :=
  if IntrinsicID_eqb (getIntrinsicID F) not_intrinsic
     && negb (isDeclaration F) && negb (fdllexport F)
  then setLinkage F InternalLinkage else F.

(** The range-for over the module reaches the functions present when it
    starts and then the declarations [Intrinsic::getDeclaration] appended
    meanwhile. *)
Definition runOnModule (M : Module) : Result Module :=
  let m0 := mkMS [] (functions M) (S (maxInstId (allInstructions M))) [] in
  m1 <- funcLoop (length (functions M)) m0 ;;
  m2 <- funcLoop (length (pending m1)) m1 ;;
  (* clean up the dead calls *)
  let fs := map (eraseFromParent (msDelete m2)) (visited m2 ++ pending m2) in
  Ok (mkModule (map internalizeFunction fs) (map internalizeGlobal (globals M))).
End Rewriter.

(* ================================================================== *)
(** ** The demand-driven walk: GetBuiltinFunction, GetCalledFunctions, Explore *)

(** The two modules of [CMImportBiF].  A [Function *] is the module the
    function is in and its name there.  [errs] is what has been written to
    [errs()]. *)
Inductive ModuleId : Type := InMain | InBiF.

Definition FunctionPtr := (ModuleId * string)%type.

Record LinkState : Type := mkLinkState {
  MainModule : Module;
  BiFModule : Module;
  errs : string
}.

(** The state [CMImportBiF] starts in. *)
Definition mkLink (Main BiF : Module) : LinkState := mkLinkState Main BiF "".

(** [errs() << text] *)
Definition report (text : string) (st : LinkState) : LinkState :=
  mkLinkState (MainModule st) (BiFModule st) (errs st ++ text).

Definition moduleOf (st : LinkState) (m : ModuleId) : Module :=
  match m with InMain => MainModule st | InBiF => BiFModule st end.

Definition deref (st : LinkState) (p : FunctionPtr) : option Function :=
  getFunction (moduleOf st (fst p)) (snd p).

Definition updateFunction (g : Function -> Function) (name : string) (M : Module)
  : Module :=
  mkModule (map (fun f => if String.eqb (fname f) name then g f else f) (functions M))
           (globals M).

Definition update (g : Function -> Function) (p : FunctionPtr) (st : LinkState)
  : LinkState :=
  match fst p with
  | InMain =>
      mkLinkState (updateFunction g (snd p) (MainModule st)) (BiFModule st) (errs st)
  | InBiF =>
      mkLinkState (MainModule st) (updateFunction g (snd p) (BiFModule st)) (errs st)
  end.

(** [GetBuiltinFunction(funcName, BiFModule)] *)
Definition GetBuiltinFunction (funcName : string) (BiF : Module) : option Function :=
  match getFunction BiF funcName with
  | Some pFunc => if negb (isDeclaration pFunc) then Some pFunc else None
  | None => None
  end.

(** The part of [GetCalledFunctions] that writes: every call instruction
    of the function gets the function's calling convention. *)
Definition setCallCallingConv (cc : CallingConv) (i : Instruction) : Instruction :=
  match ikind i with
  | Call callee args fty _ => mkInst (iid i) (ity i) (idbg i) (Call callee args fty cc)
  | _ => i
  end.

Definition getCalledFunction (i : Instruction) : option string :=
  match ikind i with
  | Call (VFunc name _) _ _ _ => Some name
  | _ => None
  end.

(** The part that reads: the direct callees, each once, in the order of
    their first call. *)
Fixpoint calledFunctions (visitedSet : list string) (insts : list Instruction)
  : list string :=
  match insts with
  | [] => []
  | i :: rest =>
      match getCalledFunction i with
      | None => calledFunctions visitedSet rest
      | Some pCalledFunc =>
          if existsb (String.eqb pCalledFunc) visitedSet
          then calledFunctions visitedSet rest
          else pCalledFunc :: calledFunctions (pCalledFunc :: visitedSet) rest
      end
  end.

Definition GetCalledFunctions (pFunc : FunctionPtr) (st : LinkState)
  : LinkState * list FunctionPtr :=
  match deref st pFunc with
  | None => (st, [])
  | Some F =>
      (update (fun f => mapInFunction (setCallCallingConv (fcc f)) f) pFunc st,
       map (fun name => (fst pFunc, name)) (calledFunctions [] (instructionsOf F)))
  end.

(** [pFunc->materialize()]: the blocks, or the message of the error.  The
    walk erases nothing, so what the reader finds for a function is what the
    bitcode holds for it, [flazy].  What a load that fails has put in memory
    of the body before it failed is the reader's business and is not
    followed: the function is as it was. *)
Definition materialize (f : Function) : string + Function :=
  match flazy f with
  | Some (inl msg) => inl msg
  | Some (inr body) =>
      inr (mkFunction (fname f) (ftype f) (flinkage f) (fdllexport f) (fcc f)
                      (fattrs f) (fargNames f) None body)
  | None => inr f
  end.

Definition materialized (f : Function) : Function :=
  match materialize f with inr f' => f' | inl _ => f end.

Definition newline : string := String (ascii_of_nat 10) EmptyString.

(** The function the loop of [Explore] looks at for a callee: the callee
    when it has a body or waits for one, the library's function of that name
    when the callee is a declaration and the library has more than a
    declaration, none otherwise. *)
Definition resolve (st : LinkState) (pCallee : FunctionPtr) : option FunctionPtr :=
  match deref st pCallee with
  | None => None
  | Some callee =>
      if isDeclaration callee then
        match GetBuiltinFunction (snd pCallee) (BiFModule st) with
        | Some pSrcFunc => Some (InBiF, fname pSrcFunc)
        | None => None
        end
      else Some pCallee
  end.

Definition getCallingConv (st : LinkState) (p : FunctionPtr) : CallingConv :=
  match deref st p with Some f => fcc f | None => 0 end.

Section ExploreLoop.
(** The recursive call of [Explore]; [None] when the fuel of the recursion
    runs out. *)
Variable Explore_rec : FunctionPtr -> LinkState -> option (Result LinkState).

(** [for (auto *pCallee : calledFuncs)].  When [materialize] fails the
    message is written and [assert(0 && ...)] follows: the compiler stops
    there in a build that keeps the assertions; with [NDEBUG] the branch
    ends with the message and the loop takes the next callee, the function
    left as it was found, neither given the calling convention nor
    explored. *)
Fixpoint ExploreCallees (pRoot : FunctionPtr) (calledFuncs : list FunctionPtr)
         (st : LinkState) : option (Result LinkState) :=
  match calledFuncs with
  | [] => Some (Ok st)
  | pCallee :: rest =>
      match resolve st pCallee with
      | None => ExploreCallees pRoot rest st            (* continue *)
      | Some pFunc =>
          match deref st pFunc with
          | None => ExploreCallees pRoot rest st
          | Some F =>
              if isMaterializable F then
                match materialize F with
                | inl msg =>
                    let st :=
                      report ("===> Materialize Failure: " ++ msg ++ newline) st in
                    match assert false "0 && Failed to materialize Global Variables" with
                    | Some text => Some (Abort (errs st) text)
                    | None => ExploreCallees pRoot rest st
                    end
                | inr _ =>
                    let st := update materialized pFunc st in
                    let st := update (fun f => setCallingConv f (getCallingConv st pRoot))
                                     pFunc st in
                    match Explore_rec pFunc st with
                    | Some (Ok st) => ExploreCallees pRoot rest st
                    | other => other
                    end
                end
              else ExploreCallees pRoot rest st
          end
      end
  end.
End ExploreLoop.

(** [Explore]: the recursion of the lambda is bounded by [fuel]; every
    recursive call follows the materialization of one more function. *)
Fixpoint Explore (fuel : nat) (pRoot : FunctionPtr) (st : LinkState)
  : option (Result LinkState) :=
  match fuel with
  | 0 => None
  | S fuel' =>
      let '(st, calledFuncs) := GetCalledFunctions pRoot st in
      ExploreCallees (Explore fuel') pRoot calledFuncs st
  end.

Definition countMaterializable (M : Module) : nat :=
  length (filter isMaterializable (functions M)).

Definition pendingBodies (st : LinkState) : nat :=
  countMaterializable (MainModule st) + countMaterializable (BiFModule st).

(** [for (auto &func : *MainModule) Explore(&func);] *)
Fixpoint ExploreAll (roots : list string) (st : LinkState) : option (Result LinkState) :=
  match roots with
  | [] => Some (Ok st)
  | func :: rest =>
      match Explore (S (pendingBodies st)) (InMain, func) st with
      | Some (Ok st) => ExploreAll rest st
      | other => other
      end
  end.

(** The state in which [Explore] is called for a function just loaded. *)
Definition loaded (pRoot pFunc : FunctionPtr) (st : LinkState) : LinkState :=
  let st := update materialized pFunc st in
  update (fun f => setCallingConv f (getCallingConv st pRoot)) pFunc st.

(* ================================================================== *)
(** ** removeFunctionBitcasts *)

(** The loops of [removeFunctionBitcasts] walk the module as those of
    [runOnModule] do; the state is the same split of the module, with
    [ListDelete] for [list_delete], and [bitcastFunctionMap]. *)
Record BCState : Type := mkBC {
  cursor : RWState;
  bitcastFunctionMap : list (string * list string);
  bcGlobals : list GlobalVariable
}.

(** The open function with its blocks as they are at the cursor. *)
Definition currentFunction (s : RWState) : Function :=
  setBlocks (fcur s) (bpre s ++ (ipre s ++ ipost s) :: bpost s).

Definition allFunctions (s : RWState) : list Function :=
  fpre s ++ currentFunction s :: fpost s.

Definition findFunction (s : RWState) (name : string) : option Function :=
  find (fun f => String.eqb (fname f) name) (allFunctions s).

(** [stripPointerCasts] of a constant. *)
Fixpoint stripPointerCasts (v : Value) : Value :=
  match v with
  | VBitCast v' _ => stripPointerCasts v'
  | _ => v
  end.

(** The name a new function gets when [base] is taken: the symbol table
    appends a dot and a number until the name is free.  LLVM takes the
    numbers from a counter that every collision in the module has advanced;
    the embedding takes the first that is free, so that the number of a
    name can be smaller here than there. *)
Definition numberedName (base : string) (n : nat) : string :=
  (base ++ "." ++ decimal (N.of_nat n))%string.

Definition uniqueName (names : list string) (base : string) : string :=
  if existsb (String.eqb base) names then
    match find (fun cand => negb (existsb (String.eqb cand) names))
               (map (numberedName base) (seq 1 (S (length names)))) with
    | Some cand => cand
    | None => base
    end
  else base.

(** [Function::Create(Ty, Linkage, Name, &M)] *)
Definition Function_Create (ty : FunctionType) (linkage : LinkageTypes)
           (name : string) (s : RWState) : Function * RWState :=
  let f := mkFunction (uniqueName (map fname (allFunctions s)) name) ty linkage
                      false 0 0 (map (fun _ => ""%string) (params ty)) None [] in
  (f, addFunction f s).

(** [CloneFunctionInto]: the blocks of the source, every instruction a new
    one, the operands mapped: an argument to the argument of the
    destination at its place, an instruction of the source to its copy.
    [copyAttributesFrom] gives the destination the DLL storage class, the
    calling convention and the attributes of the source. *)
Definition cloneIds (next : InstId) (insts : list Instruction)
  : list (InstId * InstId) :=
  combine (map iid insts) (seq next (length insts)).

Definition lookupId (vmap : list (InstId * InstId)) (id : InstId) : option InstId :=
  match find (fun p => Nat.eqb (fst p) id) vmap with
  | Some p => Some (snd p)
  | None => None
  end.

Definition remapValue (vmap : list (InstId * InstId)) (dstTy : FunctionType)
           (v : Value) : Value :=
  match v with
  | VInst id t =>
      match lookupId vmap id with Some id' => VInst id' t | None => v end
  | VArg idx t =>
      match nth_error (params dstTy) idx with Some t' => VArg idx t' | None => v end
  | _ => v
  end.

Definition cloneInstruction (vmap : list (InstId * InstId)) (dstTy : FunctionType)
           (i : Instruction) : Instruction :=
  let i' := mapOperands (remapValue vmap dstTy) i in
  mkInst (match lookupId vmap (iid i) with Some id' => id' | None => iid i end)
         (ity i') (idbg i') (ikind i').

Definition CloneFunctionInto (pDstFunc src : Function) (next : InstId) : Function :=
  let vmap := cloneIds next (instructionsOf src) in
  mkFunction (fname pDstFunc) (ftype pDstFunc) (flinkage pDstFunc)
             (fdllexport src) (fcc src) (fattrs src)
             (fargNames pDstFunc) None
             (map (map (cloneInstruction vmap (ftype pDstFunc))) (fblocks src)).

(** Whether an operand refers to the function, itself or under casts. *)
Fixpoint mentions (name : string) (v : Value) : bool :=
  match v with
  | VFunc n _ => String.eqb n name
  | VBitCast v' _ => mentions name v'
  | _ => false
  end.

Definition usedBy (name : string) (i : Instruction) : bool :=
  existsb (mentions name) (operands i).

(** [F->use_empty()] *)
Definition use_empty (name : string) (s : BCState) : bool :=
  negb (existsb (fun f => existsb (usedBy name) (instructionsOf f))
                (allFunctions (cursor s)))
  && negb (existsb (fun g => match ginit g with
                             | Some v => mentions name v
                             | None => false
                             end) (bcGlobals s)).

(** [pInstCall->dropAllReferences()], the instruction at the cursor. *)
Definition dropAllReferences (s : RWState) : RWState :=
  match ipost s with
  | [] => s
  | i :: rest =>
      mkRW (fpre s) (fcur s) (bpre s) (ipre s)
           (mapOperands (fun _ => VNull) i :: rest) (bpost s)
           (fpost s) (nextId s) (ListDelete s)
  end.

(** [funcTobeChanged->eraseFromParent()].  The function the iterator is in
    is never the one erased: the clone, which is behind the iterator, still
    calls it. *)
Definition eraseFunction (name : string) (s : RWState) : RWState :=
  let keep := filter (fun f => negb (String.eqb (fname f) name)) in
  mkRW (keep (fpre s)) (fcur s) (bpre s) (ipre s) (ipost s) (bpost s)
       (keep (fpost s)) (nextId s) (ListDelete s).

Definition replaceFunction (f : Function) (s : RWState) : RWState :=
  let put := map (fun g => if String.eqb (fname g) (fname f) then f else g) in
  mkRW (put (fpre s)) (fcur s) (bpre s) (ipre s) (ipost s) (bpost s)
       (put (fpost s)) (nextId s) (ListDelete s).

Definition setNextId (n : InstId) (s : RWState) : RWState :=
  mkRW (fpre s) (fcur s) (bpre s) (ipre s) (ipost s) (bpost s)
       (fpost s) n (ListDelete s).

(** The clones of [bitcastFunctionMap[func]]. *)
Definition clonesOf (cache : list (string * list string)) (func : string)
  : option (list string) := map_find cache func.

Fixpoint cachePush (cache : list (string * list string)) (func clone : string)
  : list (string * list string) :=
  match cache with
  | [] => [(func, [clone])]
  | (k, v) :: rest =>
      if String.eqb k func then (k, v ++ [clone]) :: rest
      else (k, v) :: cachePush rest func clone
  end.

(** The search of the clones for one of the call's function type. *)
Definition findClone (s : RWState) (funcVec : list string) (callTy : FunctionType)
  : option Function :=
  match find (fun F => match findFunction s F with
                       | Some f => FunctionType_eqb callTy (ftype f)
                       | None => false
                       end) funcVec with
  | Some F => findFunction s F
  | None => None
  end.

(** The search of [bitcastFunctionMap] for [pDstFunc]. *)
Definition lookupClone (s : BCState) (func : string) (callTy : FunctionType)
  : option Function :=
  match clonesOf (bitcastFunctionMap s) func with
  | Some funcVec => findClone (cursor s) funcVec callTy
  | None => None
  end.

Definition isNestedCast (v : Value) : bool :=
  match v with VBitCast (VBitCast _ _) _ => true | _ => false end.

(** The end of the loop body, once [pDstFunc] is known: the new call, the
    uses, the references, the function when nothing uses it any more. *)
Definition redirectCall (pInstCall : Instruction) (callee : Value)
           (args : list Value) (cc : CallingConv) (funcTobeChanged : string)
           (pDstFunc : Function) (s : BCState) : BCState :=
  let c := cursor s in
  let newCI := mkInst (nextId c) (getReturnType (ftype pDstFunc)) 0
                      (Call (VFunc (fname pDstFunc) (ftype pDstFunc)) args
                            (ftype pDstFunc) cc) in
  let c := takeId (insertBefore newCI c) in
  let c := replaceAllUsesWith (iid pInstCall) newCI c in
  let c := dropAllReferences c in
  let s := mkBC c (bitcastFunctionMap s) (bcGlobals s) in
  let c := if use_empty funcTobeChanged s && negb (isNestedCast callee)
           then eraseFunction funcTobeChanged c else c in
  mkBC (push_back (iid pInstCall) c) (bitcastFunctionMap s) (bcGlobals s).

(** What is done to [pDstFunc] once the arities agree: the attributes and
    the names of the arguments, the body, the calling convention. *)
Definition cloneInto (pDstFunc funcTobeChanged : Function) (next : InstId) : Function :=
  (* Need to copy the attributes over too. *)
  let pDstFunc :=
    mkFunction (fname pDstFunc) (ftype pDstFunc) (flinkage pDstFunc)
               (fdllexport pDstFunc) (fcc pDstFunc) (fattrs funcTobeChanged)
               (fargNames funcTobeChanged) None [] in
  (* Clone the body of the function into the dest function. *)
  let pDstFunc := CloneFunctionInto pDstFunc funcTobeChanged next in
  setCallingConv pDstFunc (fcc funcTobeChanged).

(** The body of the innermost loop. *)
Definition repairCall (pInstCall : Instruction) (s : BCState) : BCState :=
  match ikind pInstCall with
  | Call (VBitCast v ty) args callTy cc =>
      let constExpr := VBitCast v ty in
      match stripPointerCasts constExpr with
      | VFunc name _ =>
          match findFunction (cursor s) name with
          | None => s
          | Some funcTobeChanged =>
              if isDeclaration funcTobeChanged then s
              else
                match lookupClone s name callTy with
                | Some pDstFunc =>
                    redirectCall pInstCall constExpr args cc name pDstFunc s
                | None =>
                    let '(pDstFunc, c) :=
                      Function_Create callTy (flinkage funcTobeChanged)
                                      (fname funcTobeChanged) (cursor s) in
                    if negb (Nat.eqb (arg_size pDstFunc) (arg_size funcTobeChanged))
                    then mkBC c (bitcastFunctionMap s) (bcGlobals s)   (* continue *)
                    else
                      let pDstFunc := cloneInto pDstFunc funcTobeChanged (nextId c) in
                      let c := setNextId (length (instructionsOf funcTobeChanged)
                                          + nextId c)
                                         (replaceFunction pDstFunc c) in
                      let s := mkBC c (cachePush (bitcastFunctionMap s) name
                                                 (fname pDstFunc))
                                    (bcGlobals s) in
                      redirectCall pInstCall constExpr args cc name pDstFunc s
                end
          end
      | _ => s
      end
  | _ => s
  end.

Definition onCursor (g : RWState -> RWState) (s : BCState) : BCState :=
  mkBC (g (cursor s)) (bitcastFunctionMap s) (bcGlobals s).

Fixpoint bcInstLoop (n : nat) (s : BCState) : BCState :=
  match n with
  | 0 => s
  | S n' =>
      match ipost (cursor s) with
      | [] => s
      | pInstCall :: _ => bcInstLoop n' (onCursor advance (repairCall pInstCall s))
      end
  end.

Fixpoint bcBlockLoop (n : nat) (s : BCState) : BCState :=
  match n with
  | 0 => s
  | S n' =>
      match bpost (cursor s) with
      | [] => s
      | BB :: rest =>
          bcBlockLoop n' (onCursor closeBlock
                            (bcInstLoop (length BB) (onCursor (openBlock BB rest) s)))
      end
  end.

(** The state between two functions. *)
Record BCModState : Type := mkBCM {
  bcm : ModState;
  bcmMap : list (string * list string);
  bcmGlobals : list GlobalVariable
}.

(** [for (Function &func : M)]: the functions the body creates are behind
    the iterator and are visited too; [fuel] bounds the number of functions
    visited, [None] when it runs out.

    The source keeps addresses where the embedding keeps numbers:
    [list_delete] holds every call that was redirected until the last loop
    erases it, [eraseFromParent] of a function frees its instructions, and
    [CloneFunctionInto] reads the operands of every instruction it copies.
    When a function that is called through a cast itself holds a call
    through a cast, a queued call can be freed with its function, or be
    copied after its operands were dropped, and C++ gives no meaning to what
    the source does with it.  The embedding goes on there; what it returns
    is what the source returns whenever no such call is touched. *)
Fixpoint bcFuncLoop (fuel : nat) (m : BCModState) : option BCModState :=
  match pending (bcm m) with
  | [] => Some m
  | func :: rest =>
      match fuel with
      | 0 => None
      | S fuel' =>
          let s := mkBC (openFunction func rest (bcm m)) (bcmMap m) (bcmGlobals m) in
          let s := bcBlockLoop (length (fblocks func)) s in
          bcFuncLoop fuel' (mkBCM (closeFunction (cursor s)) (bitcastFunctionMap s)
                                  (bcGlobals s))
      end
  end.

Definition removeFunctionBitcasts_state (fuel : nat) (M : Module) : option BCModState :=
  bcFuncLoop fuel
    (mkBCM (mkMS [] (functions M) (S (maxInstId (allInstructions M))) [])
           [] (globals M)).

Definition removeFunctionBitcasts (fuel : nat) (M : Module) : option Module :=
  match removeFunctionBitcasts_state fuel M with
  | Some m =>
      Some (mkModule (map (eraseFromParent (msDelete (bcm m)))
                          (visited (bcm m) ++ pending (bcm m)))
                     (bcmGlobals m))
  | None => None
  end.

(* ================================================================== *)
(** ** CMImportBiF *)

(** [materialized_use_empty(F)]: no use of the function by what is in
    memory, the bodies that are loaded and the initializers. *)
Definition materialized_use_empty (M : Module) (F : Function) : bool :=
  negb (existsb (fun f => existsb (usedBy (fname F)) (instructionsOf f)) (functions M))
  && negb (existsb (fun g => match ginit g with
                             | Some v => mentions (fname F) v
                             | None => false
                             end) (globals M)).

(** nuke the unused functions so we can materializeAll() quickly *)
Definition CleanUnused (M : Module) : Module :=
  mkModule
    (filter (fun F => negb ((isDeclaration F || isMaterializable F)
                            && materialized_use_empty M F))
            (functions M))
    (globals M).

(** [BiFModule->materializeAll()] is LLVM's reader at work on what
    [CleanUnused] left of the library: it gives the module as the reader
    leaves it, and the message of the error when it reports one. *)
Class BitcodeReader : Type := {
  materializeAll : Module -> option string * Module
}.

(** The linker is LLVM's own: [linkInModule] gives the main module as the
    linker leaves it, and [true] when it reports an error. *)
Class ModuleLinker : Type := {
  linkInModule : Module -> Module -> bool * Module
}.

(** [GlobalValue::hasLocalLinkage] *)
Definition isLocalLinkage (l : LinkageTypes) : bool :=
  match l with InternalLinkage | PrivateLinkage => true | _ => false end.

(** [InitializeBIFlags].  [M.getGlobalVariable(varName)] does not find a
    variable with local linkage. *)
Definition initializeVarWithValue (varName : string) (value : Z) (M : Module) : Module :=
  mkModule (functions M)
           (map (fun gv => if String.eqb (gname gv) varName
                              && negb (isLocalLinkage (glinkage gv))
                           then mkGlobal (gname gv) (gtype gv) (glinkage gv)
                                         (Some (VConst (IntegerTy 32) value))
                           else gv)
                (globals M)).

Definition InitializeBIFlags (M : Module) : Module :=
  let M := initializeVarWithValue "__FlushDenormals" 1 M in
  let M := initializeVarWithValue "__DashGSpecified" 0 M in
  let M := initializeVarWithValue "__FastRelaxedMath" 0 M in
  let M := initializeVarWithValue "__UseNative64BitSubgroupBuiltin" 1 M in
  let M := initializeVarWithValue "__CRMacros" 1 M in
  let M := initializeVarWithValue "__IsSPIRV" 0 M in
  let M := initializeVarWithValue "__EnableSWSrgbWrites" 0 M in
  initializeVarWithValue "__ProfilingTimerResolution" 0 M.

Section ImportPass.
Context {Target : TargetIntrinsics} {Reader : BitcodeReader} {Linker : ModuleLinker}.

(** The two passes that end [CMImportBiF]: [removeFunctionBitcasts], then
    the converter. *)
Definition rewritePasses (fuel : nat) (Main : Module) : option (Result Module) :=
  match removeFunctionBitcasts fuel Main with
  | None => None
  | Some Main =>
      (* create converter *)
      Some (runOnModule Main)
  end.

(** [CMImportBiF(MainModule, BiFModule)]: the main module at the end and
    what was written to [errs()].  An error of [materializeAll] and an error
    of the linker are answered by [assert(0 && ...)] and nothing else: with
    [NDEBUG] the function goes on with the modules as the failed step left
    them.  (The [Error] that is dropped there unhandled stops the compiler
    only where LLVM's ABI-breaking checks are compiled in, which go with the
    assertions unless the build says otherwise.)  [fuel] bounds the functions [removeFunctionBitcasts] visits; the
    result is [None] when a bound of the model is reached. *)
Definition CMImportBiF (fuel : nat) (Main BiF : Module)
  : option (Result (Module * string)) :=
  match ExploreAll (map fname (functions Main)) (mkLink Main BiF) with
  | None => None
  | Some (Abort d m) => Some (Abort d m)
  | Some (Ok st) =>
      let BiF := CleanUnused (BiFModule st) in
      let '(err, BiF) := materializeAll BiF in
      match match err with
            | Some _ => assert false "0 && materializeAll failed for generic builtin module"
            | None => None
            end with
      | Some text => Some (Abort (errs st) text)
      | None =>
          let '(failed, Main) := linkInModule (MainModule st) BiF in
          match if failed
                then assert false "0 && Error linking generic builtin module"
                else None with
          | Some text => Some (Abort (errs st) text)
          | None =>
              let Main := InitializeBIFlags Main in
              match rewritePasses fuel Main with
              | None => None
              | Some (Ok Main) => Some (Ok (Main, errs st))
              | Some (Abort d m) => Some (Abort (errs st ++ d) m)
              end
          end
      end
  end.
End ImportPass.

(* ================================================================== *)
(** ** What [runOnModule] does to one instruction, as a function

    [classify] reads the decision the loop body takes for an instruction,
    [emit] the instructions it creates for it.  [visit] is proved to act as
    they say ([visit_applyAction]); the results about [runOnModule] are
    stated with them. *)

Inductive Action : Type :=
| Keep
| Drop
| Fail (diag assertion : string)
| OneIntrinsic (id : IntrinsicID) (tys : list Ty) (args : list Value)
| TwoIntrinsics (id0 id1 : IntrinsicID) (ty0 retTy : Ty) (args : list Value)
| Convert (op : CastOps) (src : Value) (ty : Ty)
| RoundedArith (op : BinaryOps) (lhs rhs : Value).

Definition orFail (r : Result Action) : Action :=
  match r with Ok a => a | Abort d m => Fail d m end.

Definition classify (Inst : Instruction) : Action :=
  match ikind Inst with
  | Call (VFunc CalleeName calleeTy) args _ _ =>
      let id := lookupIntrinsicID CalleeName in
      if IntrinsicID_eqb id lifetime_start || IntrinsicID_eqb id lifetime_end then Drop
      else if IntrinsicID_eqb id ctlz then
        let Src := hd (VFunc CalleeName calleeTy) args in
        match assert (isIntegerTy (getType Src)) "SrcTy->isIntegerTy()" with
        | Some text => Fail "" text
        | None =>
        match assert (N.eqb (getPrimitiveSizeInBits (getType Src)) 32)
                     "SrcTy->getPrimitiveSizeInBits() == 32" with
        | Some text => Fail "" text
        | None => OneIntrinsic genx_lzd [getType Src] [Src]
        end
        end
      else
      match map_find OneMap CalleeName with
      | Some IID => OneIntrinsic IID [getReturnType calleeTy] args
      | None =>
      match map_find TwoMap CalleeName with
      | Some ids =>
          orFail (arg0 <- getArgOperand (VFunc CalleeName calleeTy) args 0 ;;
                  Ok (TwoIntrinsics (fst ids) (snd ids) (getType arg0)
                                    (getReturnType calleeTy) args))
      | None =>
      if String.prefix "__builtin_IB_itof" CalleeName then
        orFail (arg0 <- getArgOperand (VFunc CalleeName calleeTy) args 0 ;;
                Ok (Convert SIToFP arg0 (getReturnType calleeTy)))
      else if String.prefix "__builtin_IB_uitof" CalleeName then
        orFail (arg0 <- getArgOperand (VFunc CalleeName calleeTy) args 0 ;;
                Ok (Convert UIToFP arg0 (getReturnType calleeTy)))
      else if String.prefix "__builtin_IB_mul_rtz" CalleeName then
        orFail (arg0 <- getArgOperand (VFunc CalleeName calleeTy) args 0 ;;
                arg1 <- getArgOperand (VFunc CalleeName calleeTy) args 1 ;;
                Ok (RoundedArith FMul arg0 arg1))
      else if String.prefix "__builtin_IB_add_rtz" CalleeName then
        orFail (arg0 <- getArgOperand (VFunc CalleeName calleeTy) args 0 ;;
                arg1 <- getArgOperand (VFunc CalleeName calleeTy) args 1 ;;
                Ok (RoundedArith FAdd arg0 arg1))
      else Keep
      end
      end
  | _ => Keep
  end.

Section RewriterSpec.
Context {Target : TargetIntrinsics}.

(** A call to a declaration, as [CallInst::Create] builds it. *)
Definition callTo (F : Function) (id : InstId) (args : list Value) (dbg : DebugLoc)
  : Instruction :=
  mkInst id (getReturnType (ftype F)) dbg
         (Call (VFunc (fname F) (ftype F)) args (ftype F) 0).

Definition emit (a : Action) (dbg : DebugLoc) (next : InstId) : list Instruction :=
  match a with
  | Keep | Drop | Fail _ _ => []
  | OneIntrinsic id tys args => [callTo (intrinsicDeclaration id tys) next args dbg]
  | TwoIntrinsics id0 id1 ty0 retTy args =>
      let c0 := callTo (intrinsicDeclaration id0 [ty0]) next args dbg in
      [c0; callTo (intrinsicDeclaration id1 [retTy; ity c0]) (S next) [asValue c0] dbg]
  | Convert op src ty => [mkInst next ty dbg (Cast op src)]
  | RoundedArith op lhs rhs =>
      let b := mkInst next (getType lhs) dbg (BinaryOperator op lhs rhs) in
      [b; callTo (intrinsicDeclaration genx_rndz [getType lhs]) (S next) [asValue b] dbg]
  end.

(** The declarations the body asks the module for, in order. *)
Definition requests (a : Action) : list Function :=
  match a with
  | Keep | Drop | Fail _ _ | Convert _ _ _ => []
  | OneIntrinsic id tys _ => [intrinsicDeclaration id tys]
  | TwoIntrinsics id0 id1 ty0 retTy _ =>
      let d0 := intrinsicDeclaration id0 [ty0] in
      [d0; intrinsicDeclaration id1 [retTy; getReturnType (ftype d0)]]
  | RoundedArith _ lhs _ => [intrinsicDeclaration genx_rndz [getType lhs]]
  end.
End RewriterSpec.

Definition newCount (a : Action) : nat :=
  match a with
  | Keep | Drop | Fail _ _ => 0
  | OneIntrinsic _ _ _ | Convert _ _ _ => 1
  | TwoIntrinsics _ _ _ _ _ | RoundedArith _ _ _ => 2
  end.

(** The instruction is queued in [ListDelete]. *)
Definition erases (a : Action) : bool :=
  match a with Keep | Fail _ _ => false | _ => true end.

(** The identity of the instruction that takes over the uses: the last one
    created. *)
Definition replacement (a : Action) (next : InstId) : option InstId :=
  match newCount a with
  | 0 => None
  | S k => Some (k + next)
  end.

Definition replaceUses (p : InstId * InstId) : Value -> Value :=
  replaceUse (fst p) (snd p).

(** The uses after a sequence of [replaceAllUsesWith], first to last. *)
Definition substValue (ps : list (InstId * InstId)) (v : Value) : Value :=
  fold_left (fun v p => replaceUses p v) ps v.

Definition substInst (ps : list (InstId * InstId)) : Instruction -> Instruction :=
  mapOperands (substValue ps).

Fixpoint countNew (l : list Instruction) : nat :=
  match l with
  | [] => 0
  | i :: rest => newCount (classify i) + countNew rest
  end.

Definition pairOf (a : Action) (i : Instruction) (next : InstId)
  : list (InstId * InstId) :=
  match replacement a next with
  | Some n => [(iid i, n)]
  | None => []
  end.

(** The pairs (replaced, replacing) of the [replaceAllUsesWith] calls made
    for a list of instructions, the first new identity being [next]. *)
Fixpoint pairsFrom (next : InstId) (l : list Instruction) : list (InstId * InstId) :=
  match l with
  | [] => []
  | i :: rest =>
      pairOf (classify i) i next ++ pairsFrom (newCount (classify i) + next) rest
  end.

(** A map on operands that renames instruction results and nothing else,
    and leaves the identities from [next] on alone. *)
Definition renames (next : InstId) (r : Value -> Value) : Prop :=
  (forall id ty, exists id', r (VInst id ty) = VInst id' ty)
  /\ (forall id ty, next <= id -> r (VInst id ty) = VInst id ty)
  /\ (forall v, (forall id ty, v <> VInst id ty) -> r v = v).

Definition mapAction (r : Value -> Value) (a : Action) : Action :=
  match a with
  | Keep => Keep
  | Drop => Drop
  | Fail d m => Fail d m
  | OneIntrinsic id tys args => OneIntrinsic id tys (map r args)
  | TwoIntrinsics id0 id1 ty0 retTy args => TwoIntrinsics id0 id1 ty0 retTy (map r args)
  | Convert op src ty => Convert op (r src) ty
  | RoundedArith op lhs rhs => RoundedArith op (r lhs) (r rhs)
  end.

Definition erasedIds (l : list Instruction) : list InstId :=
  map iid (filter (fun i => erases (classify i)) l).

(** The names the body looks for once the intrinsics are set aside: the keys
    of the two maps and the four prefixes. *)
Definition isBuiltinName (name : string) : bool :=
  match map_find OneMap name with Some _ => true | None => false end
  || match map_find TwoMap name with Some _ => true | None => false end
  || String.prefix "__builtin_IB_itof" name
  || String.prefix "__builtin_IB_uitof" name
  || String.prefix "__builtin_IB_mul_rtz" name
  || String.prefix "__builtin_IB_add_rtz" name.

Definition failure (a : Action) : option (string * string) :=
  match a with Fail d m => Some (d, m) | _ => None end.

(** What stops the pass, if an instruction of the list does: the assertion
    the first such instruction fails, or its read past the operands. *)
Fixpoint firstFailure (l : list Instruction) : option (string * string) :=
  match l with
  | [] => None
  | i :: rest =>
      match failure (classify i) with
      | Some e => Some e
      | None => firstFailure rest
      end
  end.

Section RewriterSpec2.
Context {Target : TargetIntrinsics}.

Definition requestsOf (l : list Instruction) : list Function :=
  flat_map (fun i => requests (classify i)) l.

(** The block with the created instructions in place, before any use is
    replaced and before the queued instructions are erased. *)
Fixpoint lowerInsts (next : InstId) (l : list Instruction) : list Instruction :=
  match l with
  | [] => []
  | i :: rest =>
      emit (classify i) (idbg i) next
      ++ i :: lowerInsts (newCount (classify i) + next) rest
  end.

Fixpoint lowerBlocks (next : InstId) (bs : list BasicBlock) : list BasicBlock :=
  match bs with
  | [] => []
  | b :: rest => lowerInsts next b :: lowerBlocks (countNew b + next) rest
  end.

Fixpoint lowerFuncs (next : InstId) (fs : list Function) : list Function :=
  match fs with
  | [] => []
  | f :: rest =>
      setBlocks f (lowerBlocks next (fblocks f))
      :: lowerFuncs (countNew (instructionsOf f) + next) rest
  end.

(** The declarations [getOrInsertFunction] appends for a list of requests,
    [names] being the names the module has. *)
Fixpoint declareAll (names : list string) (ds : list Function) : list Function :=
  match ds with
  | [] => []
  | d :: rest =>
      if existsb (String.eqb (fname d)) names
      then declareAll names rest
      else d :: declareAll (names ++ [fname d]) rest
  end.

(** The effect of the loop body on the state, for an instruction whose
    action is [a]. *)
Definition insertAll (news : list Instruction) (s : RWState) : RWState :=
  mkRW (fpre s) (fcur s) (bpre s) (ipre s ++ news) (ipost s) (bpost s)
       (fpost s) (length news + nextId s) (ListDelete s).

Definition applyAction (a : Action) (Inst : Instruction) (s : RWState) : RWState :=
  let s1 := fold_left (fun s d => getOrInsertFunction d s) (requests a) s in
  let s2 := insertAll (emit a (idbg Inst) (nextId s)) s1 in
  let s3 := match replacement a (nextId s) with
            | Some n => mapAll (mapOperands (replaceUse (iid Inst) n)) s2
            | None => s2
            end in
  if erases a then push_back (iid Inst) s3 else s3.

(** The state when the loop over the instructions [l] of the open block has
    ended, when the loop over the blocks [bs] of the open function has, and
    when the loop over the functions [fs] has, [extra] being the functions
    behind them. *)
Definition afterInsts (l : list Instruction) (s : RWState) : RWState :=
  let g := substInst (pairsFrom (nextId s) l) in
  mkRW (map (mapInFunction g) (fpre s)) (fcur s) (map (map g) (bpre s))
       (map g (ipre s ++ lowerInsts (nextId s) l)) [] (map (map g) (bpost s))
       (map (mapInFunction g) (fpost s)
        ++ declareAll (functionNames s) (requestsOf l))
       (countNew l + nextId s) (ListDelete s ++ erasedIds l).

Definition afterBlocks (bs : list BasicBlock) (s : RWState) : RWState :=
  let l := concat bs in
  let g := substInst (pairsFrom (nextId s) l) in
  mkRW (map (mapInFunction g) (fpre s)) (fcur s)
       (map (map g) (bpre s ++ lowerBlocks (nextId s) bs)) [] [] []
       (map (mapInFunction g) (fpost s)
        ++ declareAll (functionNames s) (requestsOf l))
       (countNew l + nextId s) (ListDelete s ++ erasedIds l).

Definition afterFuncs (fs extra : list Function) (m : ModState) : ModState :=
  let l := flat_map instructionsOf fs in
  let g := substInst (pairsFrom (msNext m) l) in
  mkMS (map (mapInFunction g) (visited m ++ lowerFuncs (msNext m) fs))
       (map (mapInFunction g) extra
        ++ declareAll (map fname (visited m ++ pending m)) (requestsOf l))
       (countNew l + msNext m) (msDelete m ++ erasedIds l).

(** [runOnModule] in one expression. *)
Definition rewrittenModule (M : Module) : Module :=
  let base := S (maxInstId (allInstructions M)) in
  let all := allInstructions M in
  let lowered := map (mapInFunction (substInst (pairsFrom base all)))
                     (lowerFuncs base (functions M)) in
  let decls := declareAll (map fname (functions M)) (requestsOf all) in
  mkModule
    (map internalizeFunction
         (map (eraseFromParent (erasedIds all)) (lowered ++ decls)))
    (map internalizeGlobal (globals M)).

(** Names for what the claims speak of: the first identity given to a new
    instruction, the replaced uses, what an operand of the module has become
    at the end, the erased instructions, and what is left of a run [l] of
    instructions of a block, [k] being the identity the next new instruction
    had when the cursor reached it. *)
Definition firstNewId (M : Module) : InstId := S (maxInstId (allInstructions M)).

Definition replacedUses (M : Module) : list (InstId * InstId) :=
  pairsFrom (firstNewId M) (allInstructions M).

Definition finalValue (M : Module) (v : Value) : Value :=
  substValue (replacedUses M) v.

Definition deletedIds (M : Module) : list InstId := erasedIds (allInstructions M).

Definition residue (M : Module) (k : InstId) (l : list Instruction)
  : list Instruction :=
  filter (fun i => negb (isDeleted (deletedIds M) i))
         (map (mapOperands (finalValue M)) (lowerInsts k l)).

(** The function and the block of the result that stand where a function
    and a block of the module stood. *)
Definition rewrittenFunction (M : Module) (k : InstId) (F : Function) : Function :=
  internalizeFunction
    (setBlocks F
       (map (fun b => filter (fun i => negb (isDeleted (deletedIds M) i)) b)
            (map (map (mapOperands (finalValue M))) (lowerBlocks k (fblocks F))))).

(** The instructions the loops visit before they reach the one that follows
    [pre] in the block that follows [bs1] in the function that follows
    [fs1], and the identity the next new instruction has then. *)
Definition visitedBefore (fs1 : list Function) (bs1 : list BasicBlock)
           (pre : list Instruction) : list Instruction :=
  flat_map instructionsOf fs1 ++ concat bs1 ++ pre.

Definition nextIdAt (M : Module) (fs1 : list Function) (bs1 : list BasicBlock)
           (pre : list Instruction) : InstId :=
  countNew (visitedBefore fs1 bs1 pre) + firstNewId M.

End RewriterSpec2.

(* ================================================================== *)
(** ** The clone cache of [removeFunctionBitcasts] *)

(** The function a call through a cast of a function calls. *)
Definition castTarget (i : Instruction) : option string :=
  match ikind i with
  | Call (VBitCast v ty) _ _ _ =>
      match stripPointerCasts (VBitCast v ty) with
      | VFunc name _ => Some name
      | _ => None
      end
  | _ => None
  end.

Definition targetsOf (f : Function) : list string :=
  flat_map (fun i => match castTarget i with Some n => [n] | None => [] end)
           (instructionsOf f).

Definition castTargets (fs : list Function) : list string := flat_map targetsOf fs.

(** The type of the function of a name. *)
Definition typeOf (fs : list Function) (name : string) : option FunctionType :=
  option_map ftype (find (fun f => String.eqb (fname f) name) fs).

(** The clone [bitcastFunctionMap] holds for a function and a type of call,
    by its name: a module has one function of a name. *)
Definition cloneName (s : BCState) (func : string) (callTy : FunctionType)
  : option string :=
  option_map fname (lookupClone s func callTy).

(** What holds of the functions of the module and of the cache all along the
    pass: the names are those of distinct functions; a cast is of a function
    of the module; a clone is a function of the module that no call reaches
    through a cast; two clones of one function have two types. *)
Record CacheInv (fs : list Function) (cache : list (string * list string)) : Prop :=
  mkCacheInv {
    names_unique : NoDup (map fname fs);
    targets_exist : incl (castTargets fs) (map fname fs);
    clones_exist : forall k vec c,
      map_find cache k = Some vec -> In c vec -> In c (map fname fs);
    clones_not_targets : forall k vec c,
      map_find cache k = Some vec -> In c vec -> ~ In c (castTargets fs);
    one_clone_per_type : forall k vec c1 c2 t,
      map_find cache k = Some vec -> In c1 vec -> In c2 vec ->
      typeOf fs c1 = Some t -> typeOf fs c2 = Some t -> c1 = c2
  }.

Definition cacheInvariant (s : BCState) : Prop :=
  CacheInv (allFunctions (cursor s)) (bitcastFunctionMap s).

(** The modules the pass is given: the functions have distinct names and
    a cast is of a function of the module. *)
Definition wellFormed (M : Module) : Prop :=
  NoDup (map fname (functions M))
  /\ incl (castTargets (functions M)) (map fname (functions M)).

(** The invariant, decided. *)
Definition memb (n : string) (l : list string) : bool := existsb (String.eqb n) l.

Fixpoint nodupb (l : list string) : bool :=
  match l with
  | [] => true
  | a :: l' => negb (memb a l') && nodupb l'
  end.

Definition sameType (a b : option FunctionType) : bool :=
  match a, b with
  | Some t, Some u => FunctionType_eqb t u
  | _, _ => false
  end.


(** The instructions the converter and the repair leave alone: no direct
    call of a lifetime marker, of [llvm.ctlz] or of a name the converter
    looks for, and no call through a cast. *)
Definition untouched (i : Instruction) : bool :=
  match ikind i with
  | Call (VFunc name _) _ _ _ =>
      let id := lookupIntrinsicID name in
      negb (IntrinsicID_eqb id lifetime_start) && negb (IntrinsicID_eqb id lifetime_end)
      && negb (IntrinsicID_eqb id ctlz) && negb (isBuiltinName name)
  | Call (VBitCast _ _) _ _ _ => false
  | _ => true
  end.

(** [cloneName], from the functions and the cache. *)
Definition cloneNameIn (fs : list Function) (cache : list (string * list string))
           (func : string) (callTy : FunctionType) : option string :=
  match map_find cache func with
  | Some vec => find (fun F => sameType (Some callTy) (typeOf fs F)) vec
  | None => None
  end.

(** The cache answers after as it answered before. *)
Definition cacheGrows (fs : list Function) (cache : list (string * list string))
           (fs' : list Function) (cache' : list (string * list string)) : Prop :=
  forall k T x, cloneNameIn fs cache k T = Some x -> cloneNameIn fs' cache' k T = Some x.

(** A function with the name, the type and no more casts than another. *)
Definition refinesF (f f' : Function) : Prop :=
  fname f' = fname f /\ ftype f' = ftype f /\ incl (targetsOf f') (targetsOf f).

Definition otherThan (name : string) (f : Function) : bool :=
  negb (String.eqb (fname f) name).

(* ================================================================== *)
(** ** Names for the further results *)

(** The intrinsics [runOnModule] creates calls of. *)
Definition emittable (id : IntrinsicID) : bool :=
  negb (IntrinsicID_eqb id not_intrinsic)
  && negb (IntrinsicID_eqb id lifetime_start)
  && negb (IntrinsicID_eqb id lifetime_end)
  && negb (IntrinsicID_eqb id ctlz).

(** A function with the name, the type, the attributes, the calling
    convention, the names of the arguments and as many blocks as another:
    all but the linkage and the instructions. *)
Definition sameHeader (F F' : Function) : Prop :=
  fname F' = fname F /\ ftype F' = ftype F /\ fdllexport F' = fdllexport F
  /\ fcc F' = fcc F /\ fattrs F' = fattrs F /\ fargNames F' = fargNames F
  /\ flazy F' = flazy F /\ length (fblocks F') = length (fblocks F).

(** A global variable but for its linkage. *)
Definition sameGlobal (G G' : GlobalVariable) : Prop :=
  gname G' = gname G /\ gtype G' = gtype G /\ ginit G' = ginit G.

(** What [GetCalledFunctions] does to an instruction of a function whose
    calling convention is [cc]: a call, whatever it calls, has that calling
    convention afterwards and is otherwise the call it was; an instruction
    that is not a call is as it was. *)
Definition callGets (cc : CallingConv) (i i' : Instruction) : Prop :=
  iid i' = iid i /\ ity i' = ity i /\ idbg i' = idbg i
  /\ match ikind i with
     | Call callee args fty _ => ikind i' = Call callee args fty cc
     | k => ikind i' = k
     end.

(** What the walk keeps of a function: all but its body, its calling
    convention and those of its calls; a function whose body is loaded
    stays so, with as many blocks. *)
Definition walkKeeps (f f' : Function) : Prop :=
  fname f' = fname f /\ ftype f' = ftype f /\ flinkage f' = flinkage f
  /\ fdllexport f' = fdllexport f /\ fattrs f' = fattrs f
  /\ fargNames f' = fargNames f
  /\ (isMaterializable f = false ->
      isMaterializable f' = false /\ length (fblocks f') = length (fblocks f)).

Definition walkKeepsModule (M M' : Module) : Prop :=
  Forall2 walkKeeps (functions M) (functions M') /\ globals M' = globals M.

Definition walkKeepsState (st st' : LinkState) : Prop :=
  walkKeepsModule (MainModule st) (MainModule st')
  /\ walkKeepsModule (BiFModule st) (BiFModule st').

(** The flags of [InitializeBIFlags]. *)
Definition flagNames : list string :=
  ["__FlushDenormals"; "__DashGSpecified"; "__FastRelaxedMath";
   "__UseNative64BitSubgroupBuiltin"; "__CRMacros"; "__IsSPIRV";
   "__EnableSWSrgbWrites"; "__ProfilingTimerResolution"].

(** What [InitializeBIFlags] may do to a global variable: give it an
    initializer, when its name is one of the flags. *)
Definition flagKeeps (G G' : GlobalVariable) : Prop :=
  gname G' = gname G /\ gtype G' = gtype G /\ glinkage G' = glinkage G
  /\ (G' = G \/ exists value, ginit G' = Some (VConst (IntegerTy 32) value))
  /\ (~ In (gname G) flagNames -> G' = G).

(** What the walk is for.  A callee is pending when the function the loop
    of [Explore] looks at for it still waits for its body; a function calls
    a pending one when its own body is in memory and one of its direct
    callees is pending. *)
Definition pendingCallee (st : LinkState) (pCallee : FunctionPtr) : bool :=
  match resolve st pCallee with
  | Some pFunc =>
      match deref st pFunc with
      | Some F => isMaterializable F
      | None => false
      end
  | None => false
  end.

Definition callsPending (st : LinkState) (p : FunctionPtr) : bool :=
  match deref st p with
  | Some F =>
      negb (isMaterializable F)
      && existsb (fun i => match getCalledFunction i with
                           | Some name => pendingCallee st (fst p, name)
                           | None => false
                           end) (instructionsOf F)
  | None => false
  end.

(** A body that waits to be loaded has a block, as every function body of a
    bitcode file has. *)
Definition bodyNonEmpty (f : Function) : Prop :=
  forall body, flazy f = Some (inr body) -> body <> [].

Definition bodiesNonEmpty (M : Module) : Prop :=
  forall f, In f (functions M) -> bodyNonEmpty f.

(** No body of the module is one that cannot be loaded. *)
Definition noBrokenBody (M : Module) : Prop :=
  forall f msg, In f (functions M) -> flazy f <> Some (inl msg).

Definition noBrokenBodyState (st : LinkState) : Prop :=
  noBrokenBody (MainModule st) /\ noBrokenBody (BiFModule st).

(** What lets the walk reach its end with every callee loaded: the build
    keeps the assertions, so that a body that cannot be loaded stops it, or
    there is no such body. *)
Definition stopsOrLoads (st : LinkState) : Prop :=
  NDEBUG = false \/ noBrokenBodyState st.

(** What the walk keeps of a function, for the lookups of [Explore]. *)
Definition walkStable (f f' : Function) : Prop :=
  bodyNonEmpty f /\ bodyNonEmpty f'
  /\ fname f' = fname f
  /\ isDeclaration f' = isDeclaration f
  /\ (isMaterializable f' = true -> isMaterializable f = true)
  /\ (isMaterializable f = false ->
      map getCalledFunction (instructionsOf f')
      = map getCalledFunction (instructionsOf f)).

Definition walkStableState (st st' : LinkState) : Prop :=
  Forall2 walkStable (functions (MainModule st)) (functions (MainModule st'))
  /\ Forall2 walkStable (functions (BiFModule st)) (functions (BiFModule st')).

Definition bodiesNonEmptyState (st : LinkState) : Prop :=
  bodiesNonEmpty (MainModule st) /\ bodiesNonEmpty (BiFModule st).

(** The calls [removeFunctionBitcasts] repairs, counted: the function and
    the type of a call through a cast of a function. *)
Definition castPair (i : Instruction) : option (string * FunctionType) :=
  match ikind i with
  | Call (VBitCast v ty) _ callTy _ =>
      match stripPointerCasts (VBitCast v ty) with
      | VFunc name _ => Some (name, callTy)
      | _ => None
      end
  | _ => None
  end.

Definition castPairs (insts : list Instruction) : list (string * FunctionType) :=
  flat_map (fun i => match castPair i with Some p => [p] | None => [] end) insts.

Definition pairsOf (f : Function) : list (string * FunctionType) :=
  castPairs (instructionsOf f).

Definition castCalls (f : Function) : nat := length (pairsOf f).

(** No function that is called through a cast holds itself a call through
    a cast.  The source keeps the address of every call it has redirected
    until the end, and reads every instruction of a function it copies:
    when such a function is erased or copied with a redirected call in it,
    the source touches an instruction that is freed or has lost its
    operands.  On the modules of this shape it never does. *)
Definition castsAreOutside (M : Module) : Prop :=
  forall f, In f (functions M) ->
            In (fname f) (castTargets (functions M)) -> targetsOf f = [].

(** Fuel that is enough for [removeFunctionBitcasts]: every function of the
    module is visited, every call through a cast can leave a declaration,
    and every pair of a function and a type can get a clone, which has no
    more such calls than the module. *)
Definition bitcastFuel (M : Module) : nat :=
  let n := length (castPairs (allInstructions M)) in
  length (functions M) + n + S n * n.

(** The measure that decreases along the pass: the calls through a cast
    and the functions that are still to visit, and the pairs without a
    clone. *)
Definition weights (fs : list Function) : nat :=
  fold_right (fun f n => S (castCalls f) + n) 0 fs.

Definition remaining (c : RWState) : nat :=
  length (castPairs (ipost c)) + length (castPairs (concat (bpost c)))
  + weights (fpost c).

Definition uncached (fs : list Function) (cache : list (string * list string))
           (pairs : list (string * FunctionType)) : nat :=
  length (filter (fun p => match cloneNameIn fs cache (fst p) (snd p) with
                           | None => true
                           | Some _ => false
                           end) pairs).

Definition statePairs (c : RWState) : list (list (string * FunctionType)) :=
  map pairsOf (allFunctions c).

Definition boundedL (pairs : list (string * FunctionType))
           (L : list (list (string * FunctionType))) : Prop :=
  forall l, In l L -> incl l pairs /\ length l <= length pairs.

Definition coveredL (L L' : list (list (string * FunctionType))) : Prop :=
  forall l', In l' L' -> exists l, In l L /\ incl l' l /\ length l' <= length l.

Definition measureAt (pairs : list (string * FunctionType)) (s : BCState) : nat :=
  remaining (cursor s)
  + S (length pairs) * uncached (allFunctions (cursor s)) (bitcastFunctionMap s) pairs.

Definition measureBetween (pairs : list (string * FunctionType)) (m : BCModState)
  : nat :=
  weights (pending (bcm m))
  + S (length pairs) * uncached (visited (bcm m) ++ pending (bcm m)) (bcmMap m) pairs.

(** The calls the body of the loop of [removeFunctionBitcasts] redirects: a
    call through a cast of a function of the module that is not a
    declaration and has as many parameters as the type of the call. *)
Definition repairable (fs : list Function) (i : Instruction) : bool :=
  match castPair i with
  | Some (name, callTy) =>
      match find (fun f => String.eqb (fname f) name) fs with
      | Some f =>
          negb (isDeclaration f) && Nat.eqb (length (params callTy)) (arg_size f)
      | None => false
      end
  | None => false
  end.

(** What the lookups of [removeFunctionBitcasts] read of a function. *)
Definition sameSignature (f f' : Function) : Prop :=
  fname f' = fname f /\ ftype f' = ftype f /\ isDeclaration f' = isDeclaration f.

(** The instructions the iterators have gone past. *)
Definition visitedInsts (c : RWState) : list Instruction :=
  flat_map instructionsOf (fpre c) ++ concat (bpre c) ++ ipre c.

Definition doneAt (s : BCState) : Prop :=
  forall i, In i (visitedInsts (cursor s)) ->
            repairable (allFunctions (cursor s)) i = false.

Definition doneBetween (m : BCModState) : Prop :=
  forall i, In i (flat_map instructionsOf (visited (bcm m))) ->
            repairable (visited (bcm m) ++ pending (bcm m)) i = false.

End Passes.

(* ================================================================== *)
(** ** Modules for the examples *)

(** A target description: the signatures of the GenX intrinsics the pass
    emits, overloaded on their first type parameter. *)
Definition sampleTarget : TargetIntrinsics := {|
  Intrinsic_getType := fun id tys =>
    let t0 := hd VoidTy tys in
    match id with
    | fma => mkFunctionType t0 [t0; t0; t0] false
    | genx_fptosi_sat | genx_fptoui_sat =>
        mkFunctionType t0 [nth 1 tys VoidTy] false
    | genx_pow | genx_fmax | genx_fmin | genx_ieee_div =>
        mkFunctionType t0 [t0; t0] false
    | _ => mkFunctionType t0 [t0] false
    end;
  Intrinsic_getAttributes := fun _ => 1
|}.

(** The two builds. *)
Definition withAssertions : BuildOptions := {| NDEBUG := false |}.
Definition withNDEBUG : BuildOptions := {| NDEBUG := true |}.

(** A reader that loads the bodies in order and stops at the first that
    cannot be loaded, and a linker that never fails. *)
Fixpoint loadBodies (fs : list Function) : option string * list Function :=
  match fs with
  | [] => (None, [])
  | f :: rest =>
      match materialize f with
      | inl msg => (Some msg, f :: rest)
      | inr f' => let '(err, rest') := loadBodies rest in (err, f' :: rest')
      end
  end.

Definition sampleReader : BitcodeReader := {|
  materializeAll := fun M =>
    let '(err, fs) := loadBodies (functions M) in (err, mkModule fs (globals M))
|}.

Definition sampleLinker : ModuleLinker := {|
  linkInModule := fun Main BiF =>
    (false,
     mkModule (filter (fun f => negb (isDeclaration f
                                      && existsb (fun g => String.eqb (fname g) (fname f))
                                                 (functions BiF)))
                      (functions Main)
               ++ functions BiF)
              (globals Main ++ globals BiF))
|}.

Definition i32 : Ty := IntegerTy 32.
Definition fmaTy : FunctionType := mkFunctionType FloatTy [FloatTy; FloatTy; FloatTy] false.
Definition dtoiTy : FunctionType := mkFunctionType i32 [DoubleTy] false.
Definition ctlzTy : FunctionType := mkFunctionType i32 [i32; IntegerTy 1] false.
Definition kernelTy : FunctionType :=
  mkFunctionType VoidTy [FloatTy; DoubleTy; i32; PointerTy 0] false.

(** The instructions of a kernel: a call to a key of [OneMap] that uses the
    result of a later call, a call to a key of [TwoMap], a call to
    [llvm.ctlz.i32], a call through a pointer, and a store of the results. *)
Definition callFma : Instruction :=
  mkInst 1 FloatTy 11
    (Call (VFunc "__builtin_IB_fma" fmaTy)
          [VArg 0 FloatTy; VArg 0 FloatTy; VInst 5 FloatTy] fmaTy 0).
Definition callDtoi : Instruction :=
  mkInst 2 i32 12 (Call (VFunc "__builtin_IB_dtoi32_rtn" dtoiTy) [VArg 1 DoubleTy] dtoiTy 0).
Definition callCtlz : Instruction :=
  mkInst 3 i32 13
    (Call (VFunc "llvm.ctlz.i32" ctlzTy) [VArg 2 i32; VConst (IntegerTy 1) 0] ctlzTy 0).
Definition callPointer : Instruction :=
  mkInst 4 FloatTy 14 (Call (VArg 3 (PointerTy 0)) [VInst 1 FloatTy] fmaTy 0).
Definition callMul : Instruction :=
  mkInst 5 FloatTy 15
    (Call (VFunc "__builtin_IB_mul_rtz_f32" fmaTy) [VInst 4 FloatTy; VArg 0 FloatTy] fmaTy 0).
Definition storeAll : Instruction :=
  mkInst 6 VoidTy 16
    (OtherInst 31 [VInst 1 FloatTy; VInst 2 i32; VInst 3 i32; VInst 5 FloatTy]).

Definition kernel : Function :=
  mkFunction "kernel" kernelTy ExternalLinkage false 0 0 ["a"; "d"; "n"; "p"] None
    [[callFma; callDtoi; callCtlz; callPointer; callMul; storeAll]].

(** The builtin [__builtin_IB_fma], defined with a body. *)
Definition definedFma : Function :=
  mkFunction "__builtin_IB_fma" fmaTy ExternalLinkage false 0 0 ["a"; "b"; "c"] None
    [[mkInst 7 FloatTy 17 (OtherInst 1 [VArg 0 FloatTy])]].

Definition sampleModule : Module :=
  mkModule [kernel; definedFma] [mkGlobal "g" i32 ExternalLinkage (Some (VConst i32 0))].




(** A module without any call, and one whose only call is a lifetime
    marker. *)
Definition plainFunction : Function :=
  mkFunction "plain" (mkFunctionType VoidTy [] false) ExternalLinkage false 0 0 [] None
    [[mkInst 1 VoidTy 0 (OtherInst 1 [])]].

Definition plainModule : Module := mkModule [plainFunction] [].

Definition lifetimeTy : FunctionType :=
  mkFunctionType VoidTy [IntegerTy 64; PointerTy 0] false.

Definition markedFunction : Function :=
  mkFunction "marked" (mkFunctionType VoidTy [PointerTy 0] false) InternalLinkage
             false 0 0 ["p"] None
    [[mkInst 1 VoidTy 0
        (Call (VFunc "llvm.lifetime.start.p0i8" lifetimeTy)
              [VConst (IntegerTy 64) 4; VArg 0 (PointerTy 0)] lifetimeTy 0);
      mkInst 2 VoidTy 0 (OtherInst 1 [])]].

Definition markedModule : Module := mkModule [markedFunction] [].

(** The walk: [f] calls [g], defined in the main module; [g] calls [h],
    declared there and defined in the library; [f] calls [ext], which no
    module defines, and [broken], whose body cannot be loaded. *)
Definition voidTy : FunctionType := mkFunctionType VoidTy [] false.

Definition callTo_ (id : InstId) (name : string) : Instruction :=
  mkInst id VoidTy 0 (Call (VFunc name voidTy) [] voidTy 0).

Definition ret (id : InstId) : Instruction := mkInst id VoidTy 0 (OtherInst 1 []).

Definition declare_ (name : string) : Function :=
  mkFunction name voidTy ExternalLinkage false 0 0 [] None [].

Definition define_ (name : string) (cc : CallingConv) (body : list Instruction) : Function :=
  mkFunction name voidTy ExternalLinkage false cc 0 [] None [body].

Definition lazy_ (name : string) (body : LazyBody) : Function :=
  mkFunction name voidTy ExternalLinkage false 0 0 [] (Some body) [].

Definition walkMain : Module :=
  mkModule [define_ "f" 7 [callTo_ 1 "g"; callTo_ 2 "ext"; ret 3];
            define_ "g" 0 [callTo_ 4 "h"; ret 5];
            declare_ "h"; declare_ "ext"; declare_ "broken"] [].

Definition walkBiF : Module :=
  mkModule [lazy_ "h" (inr [[ret 1]]);
            lazy_ "broken" (inl "Malformed block");
            lazy_ "unused" (inr [[ret 2]])] [].

Definition walkState : LinkState := mkLink walkMain walkBiF.

Definition brokenMain : Module :=
  mkModule [define_ "f" 7 [callTo_ 1 "broken"; callTo_ 2 "h"; ret 3];
            declare_ "h"; declare_ "broken"] [].

(** Calls through a cast of a function: [callee], of one [i32], called with
    two arguments; and called twice with one [float]. *)
Definition unaryTy : FunctionType := mkFunctionType VoidTy [i32] false.
Definition binaryTy : FunctionType := mkFunctionType VoidTy [i32; i32] false.
Definition floatUnaryTy : FunctionType := mkFunctionType VoidTy [FloatTy] false.

Definition calleeFunction : Function :=
  mkFunction "callee" unaryTy ExternalLinkage false 0 0 ["x"] None
    [[mkInst 1 VoidTy 0 (OtherInst 31 [VArg 0 i32]); ret 2]].

Definition castCall (id : InstId) (callTy : FunctionType) (args : list Value)
  : Instruction :=
  mkInst id VoidTy 0
    (Call (VBitCast (VFunc "callee" unaryTy) (PointerTy 0)) args callTy 0).

Definition mismatchCall : Instruction :=
  castCall 3 binaryTy [VConst i32 1; VConst i32 2].

Definition mismatchModule : Module :=
  mkModule [calleeFunction; define_ "main" 0 [mismatchCall; ret 4]] [].


Definition sharedMain : Function :=
  define_ "main" 0 [castCall 3 floatUnaryTy [VConst FloatTy 1];
                    castCall 4 floatUnaryTy [VConst FloatTy 2];
                    ret 5].

Definition sharedModule : Module := mkModule [calleeFunction; sharedMain] [].

(** The states of [removeFunctionBitcasts] on [sharedModule] at the first
    call of [main] and at the second, and that on [mismatchModule] at its
    call. *)
Definition atFirstBlock (M : Module) (visitedFs : list Function) (func : Function)
  : BCState :=
  mkBC (openBlock (hd [] (fblocks func)) (tl (fblocks func))
          (openFunction func []
             (mkMS visitedFs [func] (S (maxInstId (allInstructions M))) [])))
       [] (globals M).



Definition mismatchAtCall : BCState :=
  atFirstBlock mismatchModule [calleeFunction] (define_ "main" 0 [mismatchCall; ret 4]).

(** A module that has every function it calls: a conversion of an integer
    through [__builtin_IB_itof_f32], which the module declares, and a call
    of [__builtin_IB_fma], which it defines. *)
Definition itofTy : FunctionType := mkFunctionType FloatTy [i32] false.

Definition callItof : Instruction :=
  mkInst 1 FloatTy 21 (Call (VFunc "__builtin_IB_itof_f32" itofTy) [VArg 0 i32] itofTy 0).

Definition callFmaOfItof : Instruction :=
  mkInst 2 FloatTy 22
    (Call (VFunc "__builtin_IB_fma" fmaTy)
          [VInst 1 FloatTy; VInst 1 FloatTy; VInst 1 FloatTy] fmaTy 0).

Definition storeItof : Instruction :=
  mkInst 3 VoidTy 23 (OtherInst 31 [VInst 1 FloatTy; VInst 2 FloatTy]).

Definition convKernel : Function :=
  mkFunction "conv" (mkFunctionType VoidTy [i32] false) ExternalLinkage false 0 0
             ["n"] None [[callItof; callFmaOfItof; storeItof]].

Definition itofDeclaration : Function :=
  mkFunction "__builtin_IB_itof_f32" itofTy ExternalLinkage false 0 0 ["n"] None [].

Definition closedModule : Module :=
  mkModule [convKernel; itofDeclaration; definedFma] [].

(* ================================================================== *)
(** * Results *)

(** The tables stay folded under [simpl]. *)
Arguments map_find : simpl never.
Arguments lookupIntrinsicID : simpl never.
Arguments String.prefix : simpl never.
Arguments Intrinsic_getName : simpl never.

Section Properties.
(** What follows holds of both builds, unless it says which. *)
Context {Build : BuildOptions}.

(** ** Assertions *)

Lemma assert_true (text : string) : assert true text = None.
Proof. unfold assert. destruct NDEBUG; reflexivity. Qed.


Lemma assert_fails (e : bool) (text : string) :
  NDEBUG = false -> e = false -> assert e text = Some text.
Proof. intros H E. unfold assert. rewrite H, E. reflexivity. Qed.

Lemma assert_Some (e : bool) (text m : string) :
  assert e text = Some m -> NDEBUG = false /\ e = false /\ m = text.
Proof.
  unfold assert. destruct NDEBUG; [discriminate|]. destruct e; [discriminate|].
  intro H. injection H as <-. auto.
Qed.

Lemma getArgOperand_arg (callee : Value) (args : list Value) (i : nat) (v : Value) :
  nth_error args i = Some v -> getArgOperand callee args i = Ok v.
Proof.
  intro H. unfold getArgOperand.
  assert (L : i < length args) by (apply nth_error_Some; congruence).
  apply Nat.ltb_lt in L. rewrite L, assert_true.
  rewrite nth_error_app1 by (apply Nat.ltb_lt; exact L). rewrite H. reflexivity.
Qed.

Lemma getArgOperand_map (r : Value -> Value) (callee : Value) (args : list Value)
      (i : nat) :
  r callee = callee ->
  getArgOperand callee (map r args) i
  = match getArgOperand callee args i with
    | Ok v => Ok (r v)
    | Abort d m => Abort d m
    end.
Proof.
  intro H. unfold getArgOperand. rewrite length_map.
  destruct (assert _ _); [reflexivity|].
  replace (map r args ++ [callee]) with (map r (args ++ [callee]))
    by (rewrite map_app; cbn [map]; rewrite H; reflexivity).
  rewrite nth_error_map. destruct (nth_error _ i); reflexivity.
Qed.

(** ** Records and maps *)

Lemma setBlocks_fblocks (f : Function) : setBlocks f (fblocks f) = f.
Proof. destruct f; reflexivity. Qed.

Lemma setBlocks_setBlocks (f : Function) (a b : list BasicBlock) :
  setBlocks (setBlocks f a) b = setBlocks f b.
Proof. reflexivity. Qed.

Lemma fname_setBlocks (f : Function) (bs : list BasicBlock) :
  fname (setBlocks f bs) = fname f.
Proof. reflexivity. Qed.

Lemma mapInFunction_compose (g h : Instruction -> Instruction) (f : Function) :
  mapInFunction g (mapInFunction h f) = mapInFunction (fun i => g (h i)) f.
Proof.
  destruct f; unfold mapInFunction, setBlocks; simpl. f_equal.
  rewrite map_map. apply map_ext; intro b. apply map_map.
Qed.

Lemma mapInFunction_ext (g h : Instruction -> Instruction) (f : Function) :
  (forall i, g i = h i) -> mapInFunction g f = mapInFunction h f.
Proof.
  intro E. unfold mapInFunction. f_equal.
  apply map_ext; intro b. apply map_ext, E.
Qed.

Lemma mapInFunction_id (g : Instruction -> Instruction) (f : Function) :
  (forall i, g i = i) -> mapInFunction g f = f.
Proof.
  intro E. unfold mapInFunction.
  rewrite (map_ext _ (fun b => b)), map_id. apply setBlocks_fblocks.
  intro b. rewrite (map_ext _ (fun i => i)) by exact E. apply map_id.
Qed.

Lemma mapAll_compose (g h : Instruction -> Instruction) (s : RWState) :
  mapAll g (mapAll h s) = mapAll (fun i => g (h i)) s.
Proof.
  unfold mapAll; simpl. rewrite !map_map.
  f_equal; try (apply map_ext; intro; first [apply mapInFunction_compose | apply map_map]).
Qed.

Lemma mapOperands_compose (g h : Value -> Value) (i : Instruction) :
  mapOperands g (mapOperands h i) = mapOperands (fun v => g (h v)) i.
Proof.
  unfold mapOperands; simpl. destruct (ikind i); simpl; rewrite ?map_map; reflexivity.
Qed.

Lemma mapOperands_ext (g h : Value -> Value) (i : Instruction) :
  (forall v, g v = h v) -> mapOperands g i = mapOperands h i.
Proof.
  intro E. unfold mapOperands. destruct (ikind i); simpl; rewrite ?E;
    try rewrite (map_ext _ _ E); reflexivity.
Qed.

Lemma mapOperands_id (g : Value -> Value) (i : Instruction) :
  (forall v, g v = v) -> mapOperands g i = i.
Proof.
  intro E. destruct i as [n t d k]. unfold mapOperands; simpl.
  destruct k; simpl; rewrite ?E; try rewrite (map_ext _ (fun v => v)) by exact E;
    rewrite ?map_id; reflexivity.
Qed.

Lemma substValue_cons (p : InstId * InstId) (ps : list (InstId * InstId)) (v : Value) :
  substValue (p :: ps) v = substValue ps (replaceUses p v).
Proof. reflexivity. Qed.

Lemma substValue_app (ps qs : list (InstId * InstId)) (v : Value) :
  substValue (ps ++ qs) v = substValue qs (substValue ps v).
Proof. unfold substValue. apply fold_left_app. Qed.

Lemma substInst_app (ps qs : list (InstId * InstId)) (i : Instruction) :
  substInst (ps ++ qs) i = substInst qs (substInst ps i).
Proof.
  unfold substInst. rewrite mapOperands_compose.
  apply mapOperands_ext; intro v. apply substValue_app.
Qed.

Lemma substInst_nil (i : Instruction) : substInst [] i = i.
Proof. apply mapOperands_id; reflexivity. Qed.

(** ** The loop body acts as [classify] and [emit] say *)

Section RewriterFacts.
Context {Target : TargetIntrinsics}.

Lemma insertAll_nil (s : RWState) : insertAll [] s = s.
Proof. destruct s; unfold insertAll; simpl. rewrite app_nil_r. reflexivity. Qed.

Ltac unfold_body :=
  cbv beta iota zeta delta
    [applyAction Intrinsic_getDeclaration CallInst_Create CastInst_Create
     BinaryOperator_Create getOrInsertFunction replaceAllUsesWith push_back
     takeId insertBefore insertAll addFunction mapAll functionNames callTo
     asValue fold_left requests emit erases replacement newCount pairOf
     fpre fcur bpre ipre ipost bpost fpost nextId ListDelete
     length Nat.add fst snd iid ity idbg ikind].

Ltac finish_body :=
  unfold_body;
  repeat (match goal with
          | |- context [existsb ?p ?l] => destruct (existsb p l)
          end; unfold_body);
  rewrite <- ?app_assoc; try reflexivity.

Lemma applyAction_Keep (Inst : Instruction) (s : RWState) :
  applyAction Keep Inst s = s.
Proof.
  unfold applyAction.
  cbv beta iota zeta delta [requests emit fold_left erases replacement newCount].
  apply insertAll_nil.
Qed.

Lemma visit_applyAction (Inst : Instruction) (s : RWState) :
  visit Inst s =
  match classify Inst with
  | Fail d m => Abort d m
  | a => Ok (applyAction a Inst s)
  end.
Proof.
  pose proof (applyAction_Keep Inst s) as K.
  unfold visit, classify.
  destruct (ikind Inst) as [callee args fty cc | | | ]; rewrite ?K; try reflexivity.
  destruct callee as [ | | | | | name calleeTy | | ]; rewrite ?K; try reflexivity.
  destruct (IntrinsicID_eqb (lookupIntrinsicID name) lifetime_start
            || IntrinsicID_eqb (lookupIntrinsicID name) lifetime_end).
  { unfold applyAction. cbv beta iota zeta delta [requests emit fold_left erases replacement newCount].
    rewrite insertAll_nil. reflexivity. }
  destruct (IntrinsicID_eqb (lookupIntrinsicID name) ctlz).
  { destruct (assert (isIntegerTy _) _); [reflexivity|].
    destruct (assert (N.eqb _ 32) _); [reflexivity|]. finish_body. }
  destruct (map_find OneMap name); [finish_body|].
  destruct (map_find TwoMap name) as [ids|].
  { destruct (getArgOperand _ args 0); [|reflexivity].
    cbv beta iota delta [bind orFail]. finish_body. }
  repeat match goal with
  | |- context [if String.prefix ?a ?b then _ else _] =>
      destruct (String.prefix a b)
  end; rewrite ?K; try reflexivity;
  (destruct (getArgOperand _ args 0); [|reflexivity]); cbv beta iota delta [bind orFail];
  try (destruct (getArgOperand _ args 1); [|reflexivity]); cbv beta iota delta [bind orFail];
  finish_body.
Qed.

End RewriterFacts.

(** ** Renaming instruction results does not change what the body decides *)

Lemma renames_getType (next : InstId) (r : Value -> Value) (v : Value) :
  renames next r -> getType (r v) = getType v.
Proof.
  intros (R1 & _ & R3). destruct v;
    try (rewrite R3; [reflexivity | intros; discriminate]).
  destruct (R1 id ty) as [id' E]. rewrite E. reflexivity.
Qed.

Lemma renames_VFunc (next : InstId) (r : Value -> Value) name fty :
  renames next r -> r (VFunc name fty) = VFunc name fty.
Proof. intros (_ & _ & R3). apply R3. intros; discriminate. Qed.

Lemma renames_replaceUse (next old new : InstId) :
  old < next -> renames next (replaceUse old new).
Proof.
  intro L. repeat split.
  - intros id ty. simpl. destruct (Nat.eqb id old); eauto.
  - intros id ty Hle. simpl. destruct (Nat.eqb_spec id old); [lia | reflexivity].
  - intros v Hv. destruct v; try reflexivity. exfalso. eapply Hv; reflexivity.
Qed.

Lemma renames_id (next : InstId) : renames next (fun v => v).
Proof. repeat split; eauto. Qed.

Lemma renames_compose (next : InstId) (r1 r2 : Value -> Value) :
  renames next r1 -> renames next r2 -> renames next (fun v => r2 (r1 v)).
Proof.
  intros (A1 & A2 & A3) (B1 & B2 & B3). repeat split.
  - intros id ty. destruct (A1 id ty) as [i1 E1]. rewrite E1. apply B1.
  - intros id ty L. rewrite A2 by exact L. apply B2, L.
  - intros v Hv. rewrite A3 by exact Hv. apply B3, Hv.
Qed.

Lemma renames_substValue (next : InstId) (ps : list (InstId * InstId)) :
  Forall (fun p => fst p < next) ps -> renames next (substValue ps).
Proof.
  induction ps as [|p ps IH]; intro F.
  - apply renames_id.
  - inversion F; subst.
    apply (@renames_compose next (replaceUses p) (substValue ps)).
    + apply renames_replaceUse; assumption.
    + apply IH; assumption.
Qed.

Lemma renames_nth_error (next : InstId) (r : Value -> Value) args k :
  nth_error (map r args) k = option_map r (nth_error args k).
Proof. apply nth_error_map. Qed.

Lemma classify_renames (next : InstId) (r : Value -> Value) (i : Instruction) :
  renames next r -> classify (mapOperands r i) = mapAction r (classify i).
Proof.
  intro R. unfold classify, mapOperands; simpl.
  destruct (ikind i) as [callee args fty cc | | | ]; try reflexivity.
  destruct callee as [ | id ty | | | | name calleeTy | | ].
  - destruct R as (_ & _ & R3). rewrite R3 by (intros; discriminate). reflexivity.
  - destruct R as (R1 & _). destruct (R1 id ty) as [id' E]. rewrite E. reflexivity.
  - destruct R as (_ & _ & R3). rewrite R3 by (intros; discriminate). reflexivity.
  - destruct R as (_ & _ & R3). rewrite R3 by (intros; discriminate). reflexivity.
  - destruct R as (_ & _ & R3). rewrite R3 by (intros; discriminate). reflexivity.
  - rewrite (renames_VFunc _ _ R).
    destruct (_ || _); [reflexivity|].
    assert (H0 : hd (VFunc name calleeTy) (map r args) = r (hd (VFunc name calleeTy) args)).
    { destruct args; simpl; [symmetry; apply (renames_VFunc _ _ R) | reflexivity]. }
    destruct (IntrinsicID_eqb _ ctlz).
    { rewrite H0, (renames_getType _ R).
      destruct (assert (isIntegerTy _) _); [reflexivity|].
      destruct (assert (N.eqb _ 32) _); reflexivity. }
    destruct (map_find OneMap name); [reflexivity|].
    rewrite !(@getArgOperand_map r _ args _ (renames_VFunc _ _ R)).
    generalize (getArgOperand (VFunc name calleeTy) args 0)
               (getArgOperand (VFunc name calleeTy) args 1). intros a0 a1.
    destruct (map_find TwoMap name).
    { destruct a0; simpl; [|reflexivity].
      rewrite (renames_getType _ R). reflexivity. }
    repeat match goal with
    | |- context [if String.prefix ?a ?b then _ else _] =>
        destruct (String.prefix a b)
    end; try reflexivity;
    destruct a0; simpl; try reflexivity;
    destruct a1; simpl; reflexivity.
  - destruct R as (_ & _ & R3). rewrite R3 by (intros; discriminate). reflexivity.
  - destruct R as (_ & _ & R3). rewrite R3 by (intros; discriminate). reflexivity.
Qed.

Lemma newCount_mapAction r a : newCount (mapAction r a) = newCount a.
Proof. destruct a; reflexivity. Qed.

Lemma erases_mapAction r a : erases (mapAction r a) = erases a.
Proof. destruct a; reflexivity. Qed.

Lemma replacement_mapAction r a n : replacement (mapAction r a) n = replacement a n.
Proof. unfold replacement. rewrite newCount_mapAction. reflexivity. Qed.

Lemma failure_mapAction r a : failure (mapAction r a) = failure a.
Proof. destruct a; reflexivity. Qed.

Lemma iid_mapOperands r i : iid (mapOperands r i) = iid i.
Proof. reflexivity. Qed.

Lemma idbg_mapOperands r i : idbg (mapOperands r i) = idbg i.
Proof. reflexivity. Qed.

Section RewriterInvariance.
Context {Target : TargetIntrinsics}.

Lemma requests_mapAction (next : InstId) r a :
  renames next r -> requests (mapAction r a) = requests a.
Proof.
  intro R. destruct a; simpl; try reflexivity.
  rewrite (renames_getType _ R). reflexivity.
Qed.

Lemma emit_mapAction (next n : InstId) r a dbg :
  renames next r -> next <= n ->
  emit (mapAction r a) dbg n = map (mapOperands r) (emit a dbg n).
Proof.
  intros R L. pose proof R as (R1 & R2 & R3).
  assert (RF : forall nm t, r (VFunc nm t) = VFunc nm t)
    by (intros; apply R3; intros; discriminate).
  destruct a; try reflexivity;
    cbv beta iota zeta delta [emit mapAction map mapOperands callTo asValue
                              iid ity idbg ikind];
    rewrite ?RF, ?(renames_getType _ R), ?(R2 n) by exact L; reflexivity.
Qed.

Lemma countNew_renames (next : InstId) r l :
  renames next r -> countNew (map (mapOperands r) l) = countNew l.
Proof.
  intro R. induction l as [|i l IH]; simpl; [reflexivity|].
  rewrite (classify_renames _ R), newCount_mapAction, IH. reflexivity.
Qed.

Lemma pairsFrom_renames (next : InstId) r l n :
  renames next r -> pairsFrom n (map (mapOperands r) l) = pairsFrom n l.
Proof.
  intro R. revert n. induction l as [|i l IH]; intro n; simpl; [reflexivity|].
  rewrite (classify_renames _ R), newCount_mapAction, IH.
  unfold pairOf. rewrite replacement_mapAction. reflexivity.
Qed.

Lemma erasedIds_renames (next : InstId) r l :
  renames next r -> erasedIds (map (mapOperands r) l) = erasedIds l.
Proof.
  intro R. unfold erasedIds. induction l as [|i l IH]; simpl; [reflexivity|].
  rewrite (classify_renames _ R), erases_mapAction.
  destruct (erases (classify i)); simpl; rewrite IH; reflexivity.
Qed.

Lemma requestsOf_renames (next : InstId) r l :
  renames next r -> requestsOf (map (mapOperands r) l) = requestsOf l.
Proof.
  intro R. unfold requestsOf. induction l as [|i l IH]; simpl; [reflexivity|].
  rewrite (classify_renames _ R), (requests_mapAction _ R), IH. reflexivity.
Qed.

Lemma firstFailure_renames (next : InstId) r l :
  renames next r -> firstFailure (map (mapOperands r) l) = firstFailure l.
Proof.
  intro R. induction l as [|i l IH]; simpl; [reflexivity|].
  rewrite (classify_renames _ R), failure_mapAction, IH. reflexivity.
Qed.

Lemma lowerInsts_renames (next : InstId) r l n :
  renames next r -> next <= n ->
  lowerInsts n (map (mapOperands r) l) = map (mapOperands r) (lowerInsts n l).
Proof.
  intros R. revert n. induction l as [|i l IH]; intros n L; simpl; [reflexivity|].
  rewrite (classify_renames _ R), newCount_mapAction, (emit_mapAction _ _ R L).
  rewrite map_app; simpl. rewrite IH by lia. reflexivity.
Qed.

End RewriterInvariance.

(** ** The functional description over concatenations *)

Lemma countNew_app (l1 l2 : list Instruction) :
  countNew (l1 ++ l2) = countNew l1 + countNew l2.
Proof. induction l1 as [|i l1 IH]; simpl; [reflexivity|]. rewrite IH. lia. Qed.

Lemma pairsFrom_app (n : InstId) (l1 l2 : list Instruction) :
  pairsFrom n (l1 ++ l2) = pairsFrom n l1 ++ pairsFrom (countNew l1 + n) l2.
Proof.
  revert n. induction l1 as [|i l1 IH]; intro n; simpl; [reflexivity|].
  rewrite IH, <- app_assoc.
  replace (countNew l1 + (newCount (classify i) + n))
    with (newCount (classify i) + countNew l1 + n) by lia.
  reflexivity.
Qed.

Lemma erasedIds_app (l1 l2 : list Instruction) :
  erasedIds (l1 ++ l2) = erasedIds l1 ++ erasedIds l2.
Proof. unfold erasedIds. rewrite filter_app, map_app. reflexivity. Qed.

Lemma firstFailure_app (l1 l2 : list Instruction) :
  firstFailure (l1 ++ l2) =
  match firstFailure l1 with Some e => Some e | None => firstFailure l2 end.
Proof.
  induction l1 as [|i l1 IH]; simpl; [reflexivity|].
  destruct (failure (classify i)); [reflexivity | exact IH].
Qed.

Lemma pairsFrom_sources (n : InstId) (l : list Instruction) :
  Forall (fun p => In (fst p) (map iid l)) (pairsFrom n l).
Proof.
  revert n. induction l as [|i l IH]; intro n; simpl; [constructor|].
  apply Forall_app; split.
  - unfold pairOf. destruct (replacement (classify i) n); constructor; simpl; auto.
  - eapply Forall_impl; [|apply IH]. simpl; auto.
Qed.

Lemma pairsFrom_targets (n : InstId) (l : list Instruction) :
  Forall (fun p => n <= snd p) (pairsFrom n l).
Proof.
  revert n. induction l as [|i l IH]; intro n; simpl; [constructor|].
  apply Forall_app; split.
  - unfold pairOf, replacement. destruct (newCount (classify i)); constructor; simpl; [lia|constructor].
  - eapply Forall_impl; [|apply IH]. simpl; intros; lia.
Qed.

Lemma renames_pairsFrom (next n : InstId) (l : list Instruction) :
  Forall (fun i => iid i < next) l -> renames next (substValue (pairsFrom n l)).
Proof.
  intro F. apply renames_substValue.
  eapply Forall_impl; [|apply pairsFrom_sources].
  intros p Hin. apply in_map_iff in Hin. destruct Hin as (i & E & Hi).
  rewrite Forall_forall in F. apply F in Hi. simpl. lia.
Qed.

Section RewriterLists.
Context {Target : TargetIntrinsics}.

Lemma requestsOf_app (l1 l2 : list Instruction) :
  requestsOf (l1 ++ l2) = requestsOf l1 ++ requestsOf l2.
Proof. unfold requestsOf. apply flat_map_app. Qed.

Lemma lowerInsts_app (n : InstId) (l1 l2 : list Instruction) :
  lowerInsts n (l1 ++ l2) = lowerInsts n l1 ++ lowerInsts (countNew l1 + n) l2.
Proof.
  revert n. induction l1 as [|i l1 IH]; intro n; simpl; [reflexivity|].
  rewrite IH, <- app_assoc. simpl.
  replace (countNew l1 + (newCount (classify i) + n))
    with (newCount (classify i) + countNew l1 + n) by lia.
  reflexivity.
Qed.

Lemma length_emit (a : Action) (dbg : DebugLoc) (n : InstId) :
  length (emit a dbg n) = newCount a.
Proof. destruct a; reflexivity. Qed.

Lemma declareAll_app (names : list string) (d1 d2 : list Function) :
  declareAll names (d1 ++ d2) =
  declareAll names d1 ++ declareAll (names ++ map fname (declareAll names d1)) d2.
Proof.
  revert names. induction d1 as [|d d1 IH]; intro names; simpl.
  - rewrite app_nil_r. reflexivity.
  - destruct (existsb _ names); [apply IH|].
    simpl. rewrite IH, <- app_assoc. reflexivity.
Qed.

Lemma declareAll_noBlocks (names : list string) (ds : list Function) :
  Forall (fun d => fblocks d = []) ds ->
  Forall (fun d => fblocks d = []) (declareAll names ds).
Proof.
  revert names. induction ds as [|d ds IH]; intros names F; simpl; [constructor|].
  inversion F; subst. destruct (existsb _ names); [apply IH; assumption|].
  constructor; [assumption | apply IH; assumption].
Qed.

Lemma requests_noBlocks (a : Action) : Forall (fun d => fblocks d = []) (requests a).
Proof. destruct a; simpl; repeat constructor. Qed.

Lemma requestsOf_noBlocks (l : list Instruction) :
  Forall (fun d => fblocks d = []) (requestsOf l).
Proof.
  induction l as [|i l IH]; simpl; [constructor|].
  apply Forall_app; split; [apply requests_noBlocks | exact IH].
Qed.

Lemma mapInFunction_noBlocks (g : Instruction -> Instruction) (ds : list Function) :
  Forall (fun d => fblocks d = []) ds -> map (mapInFunction g) ds = ds.
Proof.
  induction 1 as [|d ds Hd _ IH]; simpl; [reflexivity|].
  rewrite IH. f_equal. destruct d; simpl in Hd; subst. reflexivity.
Qed.

Lemma map_fname_mapInFunction (g : Instruction -> Instruction) (fs : list Function) :
  map fname (map (mapInFunction g) fs) = map fname fs.
Proof. rewrite map_map. apply map_ext. reflexivity. Qed.

Lemma fold_getOrInsert (ds : list Function) (s : RWState) :
  fold_left (fun s d => getOrInsertFunction d s) ds s =
  mkRW (fpre s) (fcur s) (bpre s) (ipre s) (ipost s) (bpost s)
       (fpost s ++ declareAll (functionNames s) ds) (nextId s) (ListDelete s).
Proof.
  revert s. induction ds as [|d ds IH]; intro s; simpl.
  - rewrite app_nil_r. destruct s; reflexivity.
  - rewrite IH. unfold getOrInsertFunction.
    destruct (existsb _ (functionNames s)); [reflexivity|].
    unfold addFunction, functionNames; simpl.
    rewrite map_app, <- app_assoc. simpl.
    rewrite app_comm_cons, app_assoc. reflexivity.
Qed.

End RewriterLists.

(** ** The loops *)

Lemma map_substInst_nil (l : list Instruction) : map (substInst []) l = l.
Proof. rewrite (map_ext _ (fun i => i)) by apply substInst_nil. apply map_id. Qed.

Lemma map_map_substInst_nil (bs : list BasicBlock) : map (map (substInst [])) bs = bs.
Proof. rewrite (map_ext _ (fun b => b)) by apply map_substInst_nil. apply map_id. Qed.

Lemma map_mapInFunction_substInst_nil (fs : list Function) :
  map (mapInFunction (substInst [])) fs = fs.
Proof.
  rewrite (map_ext _ (fun f => f)); [apply map_id|].
  intro f. apply mapInFunction_id, substInst_nil.
Qed.

Lemma map_substInst_app ps qs (l : list Instruction) :
  map (substInst qs) (map (substInst ps) l) = map (substInst (ps ++ qs)) l.
Proof. rewrite map_map. apply map_ext. intro i. symmetry. apply substInst_app. Qed.

Lemma map_map_substInst_app ps qs (bs : list BasicBlock) :
  map (map (substInst qs)) (map (map (substInst ps)) bs)
  = map (map (substInst (ps ++ qs))) bs.
Proof. rewrite map_map. apply map_ext. intro b. apply map_substInst_app. Qed.

Lemma map_mapInFunction_substInst_app ps qs (fs : list Function) :
  map (mapInFunction (substInst qs)) (map (mapInFunction (substInst ps)) fs)
  = map (mapInFunction (substInst (ps ++ qs))) fs.
Proof.
  rewrite map_map. apply map_ext. intro f. rewrite mapInFunction_compose.
  apply mapInFunction_ext. intro i. symmetry. apply substInst_app.
Qed.

Section RewriterLoops.
Context {Target : TargetIntrinsics}.

Lemma advance_applyAction (a : Action) (i : Instruction) (rest : list Instruction)
      (s : RWState) :
  ipost s = i :: rest ->
  advance (applyAction a i s) =
  let g := substInst (pairOf a i (nextId s)) in
  mkRW (map (mapInFunction g) (fpre s)) (fcur s) (map (map g) (bpre s))
       (map g (ipre s ++ emit a (idbg i) (nextId s) ++ [i])) (map g rest)
       (map (map g) (bpost s))
       (map (mapInFunction g) (fpost s)
        ++ declareAll (functionNames s) (requests a))
       (newCount a + nextId s)
       (ListDelete s ++ (if erases a then [iid i] else [])).
Proof.
  intro E. unfold applyAction. rewrite fold_getOrInsert.
  pose proof (declareAll_noBlocks (functionNames s) (requests_noBlocks a)) as NB.
  pose proof (length_emit a (idbg i) (nextId s)) as LE.
  destruct s as [fp fc bp ip io bo fo nx ld]. simpl in E, LE. subst io.
  unfold pairOf.
  cbn [fpre fcur bpre ipre ipost bpost fpost nextId ListDelete].
  destruct (replacement a nx) as [n|];
    cbv beta iota zeta delta [insertAll mapAll push_back advance
      fpre fcur bpre ipre ipost bpost fpost nextId ListDelete];
    rewrite LE.
  - change (mapOperands (replaceUse (iid i) n)) with (substInst [(iid i, n)]).
    destruct (erases a);
      cbn [map];
      cbv beta iota zeta delta [insertAll mapAll push_back advance
        fpre fcur bpre ipre ipost bpost fpost nextId ListDelete];
      rewrite ?app_nil_r; f_equal;
      rewrite ?map_app, <- ?app_assoc, ?(mapInFunction_noBlocks _ NB); reflexivity.
  - rewrite !map_substInst_nil, !map_map_substInst_nil,
      !map_mapInFunction_substInst_nil.
    destruct (erases a);
      cbv beta iota zeta delta [insertAll mapAll push_back advance
        fpre fcur bpre ipre ipost bpost fpost nextId ListDelete];
      rewrite ?app_nil_r, <- ?app_assoc; reflexivity.
Qed.

Lemma instLoop_step (n : nat) (i : Instruction) (rest : list Instruction)
      (s : RWState) :
  ipost s = i :: rest ->
  instLoop (S n) s =
  match failure (classify i) with
  | Some (d, m) => Abort d m
  | None => instLoop n (advance (applyAction (classify i) i s))
  end.
Proof.
  intro E. simpl. rewrite E, visit_applyAction.
  destruct (classify i); reflexivity.
Qed.

Lemma erasedIds_cons (i : Instruction) (l : list Instruction) :
  erasedIds (i :: l) = (if erases (classify i) then [iid i] else []) ++ erasedIds l.
Proof. unfold erasedIds; simpl. destruct (erases (classify i)); reflexivity. Qed.

Lemma renames_pairOf (a : Action) (i : Instruction) (n next : InstId) :
  iid i < next -> renames next (substValue (pairOf a i n)).
Proof.
  intro L. apply renames_substValue. unfold pairOf.
  destruct (replacement a n); repeat constructor. exact L.
Qed.

Lemma instLoop_spec (n : nat) :
  forall (l : list Instruction) (s : RWState),
    length l = n -> ipost s = l ->
    Forall (fun i => iid i < nextId s) l ->
    instLoop n s =
    match firstFailure l with
    | Some (d, m) => Abort d m
    | None => Ok (afterInsts l s)
    end.
Proof.
  induction n as [|n IH]; intros l s Hlen E F.
  - destruct l; [|discriminate]. simpl. f_equal.
    unfold afterInsts. simpl.
    rewrite !map_substInst_nil, !map_map_substInst_nil,
      !map_mapInFunction_substInst_nil, !app_nil_r.
    destruct s; simpl in E; subst; reflexivity.
  - destruct l as [|i rest]; [discriminate|].
    injection Hlen as Hlen.
    pose proof (Forall_inv F) as Hi. pose proof (Forall_inv_tail F) as Frest.
    simpl in Hi.
    rewrite (instLoop_step n s E). simpl firstFailure.
    pose proof (advance_applyAction (classify i) s E) as ST. cbv zeta in ST.
    assert (R : renames (newCount (classify i) + nextId s)
                        (substValue (pairOf (classify i) i (nextId s))))
      by (apply renames_pairOf; lia).
    assert (Fr : Forall (fun j => iid j < newCount (classify i) + nextId s) rest)
      by (eapply Forall_impl; [|exact Frest]; simpl; intros; lia).
    destruct (failure (classify i)) as [[d0 m0]|]; [reflexivity|].
    rewrite ST.
    rewrite (IH (map (substInst (pairOf (classify i) i (nextId s))) rest));
      [ | rewrite length_map; exact Hlen | reflexivity
        | apply Forall_map; exact Fr ].
    unfold substInst at 1. rewrite (firstFailure_renames _ R).
    destruct (firstFailure rest) as [[d m]|]; [reflexivity|].
    f_equal. unfold afterInsts.
    cbn [fpre fcur bpre ipre ipost bpost fpost nextId ListDelete].
    set (p1 := pairOf (classify i) i (nextId s)) in *.
    change (map (substInst p1) rest) with (map (mapOperands (substValue p1)) rest).
    rewrite (pairsFrom_renames _ _ R), (lowerInsts_renames _ R (Nat.le_refl _)),
      (countNew_renames _ R), (erasedIds_renames _ R), (requestsOf_renames _ R).
    change (mapOperands (substValue p1)) with (substInst p1).
    cbn [pairsFrom lowerInsts countNew requestsOf flat_map].
    fold (requestsOf rest). fold p1. rewrite erasedIds_cons.
    set (P := pairsFrom (newCount (classify i) + nextId s) rest).
    f_equal.
    + apply map_mapInFunction_substInst_app.
    + apply map_map_substInst_app.
    + rewrite <- map_app, map_substInst_app, <- !app_assoc. reflexivity.
    + apply map_map_substInst_app.
    + rewrite map_app, map_mapInFunction_substInst_app,
        (mapInFunction_noBlocks _
           (declareAll_noBlocks (functionNames s) (requests_noBlocks (classify i)))),
        declareAll_app, <- app_assoc.
      do 2 f_equal. unfold functionNames.
      cbn [fpre fcur bpre ipre ipost bpost fpost nextId ListDelete].
      rewrite map_app, !map_fname_mapInFunction, <- app_assoc. reflexivity.
    + lia.
    + rewrite <- app_assoc. reflexivity.
Qed.

Lemma instructionsOf_mapInFunction (g : Instruction -> Instruction) (f : Function) :
  instructionsOf (mapInFunction g f) = map g (instructionsOf f).
Proof. unfold instructionsOf, mapInFunction. simpl. symmetry. apply concat_map. Qed.

Lemma flat_map_instructionsOf_map (g : Instruction -> Instruction) (fs : list Function) :
  flat_map instructionsOf (map (mapInFunction g) fs)
  = map g (flat_map instructionsOf fs).
Proof.
  induction fs as [|f fs IH]; simpl; [reflexivity|].
  rewrite IH, instructionsOf_mapInFunction, map_app. reflexivity.
Qed.

Lemma lowerBlocks_renames (next : InstId) r bs n :
  renames next r -> next <= n ->
  lowerBlocks n (map (map (mapOperands r)) bs)
  = map (map (mapOperands r)) (lowerBlocks n bs).
Proof.
  intro R. revert n. induction bs as [|b bs IH]; intros n L; simpl; [reflexivity|].
  rewrite (lowerInsts_renames _ R L), (countNew_renames _ R), IH by lia.
  reflexivity.
Qed.

Lemma lowerFuncs_renames (next : InstId) r fs n :
  renames next r -> next <= n ->
  lowerFuncs n (map (mapInFunction (mapOperands r)) fs)
  = map (mapInFunction (mapOperands r)) (lowerFuncs n fs).
Proof.
  intro R. revert n. induction fs as [|f fs IH]; intros n L; simpl; [reflexivity|].
  rewrite instructionsOf_mapInFunction, (countNew_renames _ R), IH by lia.
  f_equal. unfold mapInFunction at 2. simpl.
  rewrite <- (lowerBlocks_renames _ R L). reflexivity.
Qed.

Lemma blockLoop_spec (n : nat) :
  forall (bs : list BasicBlock) (s : RWState),
    length bs = n -> bpost s = bs -> ipre s = [] -> ipost s = [] ->
    Forall (fun i => iid i < nextId s) (concat bs) ->
    blockLoop n s =
    match firstFailure (concat bs) with
    | Some (d, m) => Abort d m
    | None => Ok (afterBlocks bs s)
    end.
Proof.
  induction n as [|n IH]; intros bs s Hlen E Epre Epost F.
  - destruct bs; [|discriminate]. simpl. f_equal.
    unfold afterBlocks. simpl.
    rewrite !map_map_substInst_nil, !map_mapInFunction_substInst_nil, !app_nil_r.
    destruct s; simpl in *; subst; reflexivity.
  - destruct bs as [|b rest]; [discriminate|].
    injection Hlen as Hlen. simpl in F. apply Forall_app in F. destruct F as [Fb Frest].
    simpl blockLoop. rewrite E.
    rewrite (@instLoop_spec (length b) b (openBlock b rest s) eq_refl eq_refl Fb).
    simpl concat. rewrite firstFailure_app.
    destruct (firstFailure b) as [[d0 m0]|]; [reflexivity|].
    cbv beta iota delta [bind].
    assert (R : renames (countNew b + nextId s) (substValue (pairsFrom (nextId s) b))).
    { apply renames_pairsFrom. eapply Forall_impl; [|exact Fb]. simpl; intros; lia. }
    set (pb := pairsFrom (nextId s) b) in *.
    rewrite (IH (map (map (substInst pb)) rest));
      [ | rewrite length_map; exact Hlen | reflexivity | reflexivity | reflexivity
        | rewrite <- concat_map; apply Forall_map;
          eapply Forall_impl; [|exact Frest]; simpl; intros; lia ].
    rewrite <- concat_map. unfold substInst at 1.
    rewrite (firstFailure_renames _ R).
    destruct (firstFailure (concat rest)) as [[d m]|]; [reflexivity|].
    f_equal. unfold afterBlocks, afterInsts, closeBlock, openBlock.
    cbn [fpre fcur bpre ipre ipost bpost fpost nextId ListDelete].
    fold pb. rewrite <- concat_map.
    change (map (map (substInst pb)) rest)
      with (map (map (mapOperands (substValue pb))) rest).
    change (map (substInst pb) (concat rest))
      with (map (mapOperands (substValue pb)) (concat rest)).
    rewrite (pairsFrom_renames _ _ R), (lowerBlocks_renames _ R (Nat.le_refl _)),
      (countNew_renames _ R), (erasedIds_renames _ R), (requestsOf_renames _ R).
    change (mapOperands (substValue pb)) with (substInst pb).
    cbn [concat lowerBlocks].
    rewrite pairsFrom_app, countNew_app, erasedIds_app, requestsOf_app. fold pb.
    set (P := pairsFrom (countNew b + nextId s) (concat rest)).
    f_equal.
    + apply map_mapInFunction_substInst_app.
    + rewrite !map_app, !map_map_substInst_app. cbn [map app].
      rewrite app_nil_r, map_substInst_app, <- app_assoc. reflexivity.
    + rewrite map_app, map_mapInFunction_substInst_app,
        (mapInFunction_noBlocks _
           (declareAll_noBlocks (functionNames (openBlock b rest s))
                                (requestsOf_noBlocks b))),
        declareAll_app, <- app_assoc.
      do 2 f_equal. unfold functionNames.
      cbn [fpre fcur bpre ipre ipost bpost fpost nextId ListDelete].
      rewrite map_app, !map_fname_mapInFunction, <- app_assoc. reflexivity.
    + lia.
    + rewrite <- app_assoc. reflexivity.
Qed.

Lemma funcLoop_spec (n : nat) :
  forall (fs extra : list Function) (m : ModState),
    length fs = n -> pending m = fs ++ extra ->
    Forall (fun i => iid i < msNext m) (flat_map instructionsOf fs) ->
    funcLoop n m =
    match firstFailure (flat_map instructionsOf fs) with
    | Some (d, m') => Abort d m'
    | None => Ok (afterFuncs fs extra m)
    end.
Proof.
  induction n as [|n IH]; intros fs extra m Hlen E F.
  - destruct fs; [|discriminate]. simpl. f_equal.
    unfold afterFuncs. simpl in *.
    rewrite !map_mapInFunction_substInst_nil, !app_nil_r.
    destruct m; simpl in *; subst; reflexivity.
  - destruct fs as [|f rest]; [discriminate|].
    injection Hlen as Hlen. simpl in F. apply Forall_app in F. destruct F as [Ff Frest].
    simpl in E. simpl funcLoop. rewrite E.
    rewrite (@blockLoop_spec (length (fblocks f)) (fblocks f)
               (openFunction f (rest ++ extra) m) eq_refl eq_refl eq_refl eq_refl Ff).
    fold (instructionsOf f).
    simpl flat_map. rewrite firstFailure_app.
    destruct (firstFailure (instructionsOf f)) as [[d0 m0]|]; [reflexivity|].
    cbv beta iota delta [bind].
    assert (R : renames (countNew (instructionsOf f) + msNext m)
                        (substValue (pairsFrom (msNext m) (instructionsOf f)))).
    { apply renames_pairsFrom. eapply Forall_impl; [|exact Ff]. simpl; intros; lia. }
    set (pf := pairsFrom (msNext m) (instructionsOf f)) in *.
    set (D := declareAll (functionNames (openFunction f (rest ++ extra) m))
                         (requestsOf (instructionsOf f))).
    rewrite (IH (map (mapInFunction (substInst pf)) rest)
                (map (mapInFunction (substInst pf)) extra ++ D));
      [ | rewrite length_map; exact Hlen
        | unfold closeFunction, afterBlocks;
          cbn [fpre fcur bpre ipre ipost bpost fpost nextId ListDelete pending
               openFunction];
          fold (instructionsOf f); fold pf; fold D;
          rewrite map_app, <- app_assoc; reflexivity
        | rewrite flat_map_instructionsOf_map; apply Forall_map;
          eapply Forall_impl; [|exact Frest]; simpl; intros; lia ].
    rewrite flat_map_instructionsOf_map. unfold substInst at 1.
    rewrite (firstFailure_renames _ R).
    destruct (firstFailure (flat_map instructionsOf rest)) as [[d m']|]; [reflexivity|].
    f_equal. unfold afterFuncs, afterBlocks, closeFunction.
    cbn [fpre fcur bpre ipre ipost bpost fpost nextId ListDelete
         visited pending msNext msDelete openFunction].
    fold (instructionsOf f). fold pf. fold D.
    rewrite flat_map_instructionsOf_map.
    change (map (mapInFunction (substInst pf)) rest)
      with (map (mapInFunction (mapOperands (substValue pf))) rest).
    change (map (substInst pf) (flat_map instructionsOf rest))
      with (map (mapOperands (substValue pf)) (flat_map instructionsOf rest)).
    rewrite (pairsFrom_renames _ _ R), (lowerFuncs_renames _ R (Nat.le_refl _)),
      (countNew_renames _ R), (erasedIds_renames _ R), (requestsOf_renames _ R).
    change (mapOperands (substValue pf)) with (substInst pf).
    cbn [lowerFuncs flat_map].
    rewrite pairsFrom_app, countNew_app, erasedIds_app, requestsOf_app. fold pf.
    set (P := pairsFrom (countNew (instructionsOf f) + msNext m)
                        (flat_map instructionsOf rest)).
    assert (NB : Forall (fun d => fblocks d = []) D)
      by (apply declareAll_noBlocks, requestsOf_noBlocks).
    assert (EN : functionNames (openFunction f (rest ++ extra) m)
                 = map fname (visited m ++ pending m)).
    { unfold functionNames, openFunction.
      cbn [fpre fcur bpre ipre ipost bpost fpost nextId ListDelete].
      rewrite E, !map_app. cbn [map]. rewrite ?map_app. reflexivity. }
    f_equal.
    + rewrite !map_app, !map_mapInFunction_substInst_app. cbn [map app].
      rewrite <- app_assoc. cbn [app]. do 2 f_equal.
      unfold mapInFunction. cbn [fblocks setBlocks].
      rewrite app_nil_r, map_map_substInst_app. reflexivity.
    + rewrite map_app, map_mapInFunction_substInst_app,
        (mapInFunction_noBlocks _ NB), declareAll_app, <- app_assoc.
      f_equal. rewrite <- EN. fold D. do 2 f_equal.
      rewrite EN, E, !map_app, !map_fname_mapInFunction.
      cbn [map app fname setBlocks].
      rewrite !map_app, <- !app_assoc. cbn [app].
      rewrite <- ?app_assoc. reflexivity.
    + lia.
    + rewrite <- app_assoc. reflexivity.
Qed.

Lemma maxInstId_bound (l : list Instruction) :
  Forall (fun i => iid i < S (maxInstId l)) l.
Proof.
  induction l as [|i l IH]; simpl; constructor.
  - lia.
  - eapply Forall_impl; [|exact IH]. simpl; intros; lia.
Qed.

Lemma instructions_noBlocks (ds : list Function) :
  Forall (fun d => fblocks d = []) ds -> flat_map instructionsOf ds = [].
Proof.
  induction 1 as [|d ds Hd _ IH]; simpl; [reflexivity|].
  rewrite IH. unfold instructionsOf. rewrite Hd. reflexivity.
Qed.

Lemma lowerFuncs_noBlocks (n : InstId) (ds : list Function) :
  Forall (fun d => fblocks d = []) ds -> lowerFuncs n ds = ds.
Proof.
  intro F. revert n. induction F as [|d ds Hd _ IH]; intro n; simpl; [reflexivity|].
  rewrite IH. f_equal. rewrite Hd. simpl. rewrite <- Hd. apply setBlocks_fblocks.
Qed.

(** [runOnModule] stops at the first failed assertion, and otherwise
    produces [rewrittenModule]. *)
Theorem runOnModule_rewrittenModule (M : Module) :
  runOnModule M =
  match firstFailure (allInstructions M) with
  | Some (d, m) => Abort d m
  | None => Ok (rewrittenModule M)
  end.
Proof.
  unfold runOnModule.
  set (base := S (maxInstId (allInstructions M))).
  set (m0 := mkMS [] (functions M) base []).
  rewrite (@funcLoop_spec (length (functions M)) (functions M) [] m0 eq_refl
             (eq_sym (app_nil_r _)) (maxInstId_bound (allInstructions M))).
  fold (allInstructions M).
  destruct (firstFailure (allInstructions M)) as [[d m]|]; [reflexivity|].
  cbv beta iota delta [bind].
  set (D := declareAll (map fname (functions M)) (requestsOf (allInstructions M))).
  assert (NB : Forall (fun d => fblocks d = []) D)
    by apply declareAll_noBlocks, requestsOf_noBlocks.
  pose proof (instructions_noBlocks NB) as EI.
  assert (E1 : afterFuncs (functions M) [] m0 =
               mkMS (map (mapInFunction (substInst (pairsFrom base (allInstructions M))))
                         (lowerFuncs base (functions M)))
                    D (countNew (allInstructions M) + base)
                    (erasedIds (allInstructions M))) by reflexivity.
  rewrite E1. cbn [pending].
  match goal with
  | |- context [funcLoop (length D) ?m1] =>
      rewrite (@funcLoop_spec (length D) D [] m1 eq_refl (eq_sym (app_nil_r D)))
        by (rewrite EI; constructor)
  end.
  rewrite EI. cbv beta iota delta [firstFailure].
  f_equal. unfold rewrittenModule. fold base. fold D. f_equal. f_equal.
  unfold afterFuncs. rewrite EI.
  cbn [visited pending pairsFrom map app].
  rewrite map_mapInFunction_substInst_nil, (lowerFuncs_noBlocks _ NB).
  cbn [requestsOf flat_map declareAll]. rewrite !app_nil_r. reflexivity.
Qed.

End RewriterLoops.

(** ** Where the rewritten instructions stand *)

Lemma nth_error_middle {A : Type} (l1 l2 : list A) (x : A) :
  nth_error (l1 ++ x :: l2) (length l1) = Some x.
Proof.
  rewrite nth_error_app2 by lia. rewrite Nat.sub_diag. reflexivity.
Qed.

Lemma NoDup_map_eq {A B : Type} (f : A -> B) (l : list A) (x y : A) :
  NoDup (map f l) -> In x l -> In y l -> f x = f y -> x = y.
Proof.
  induction l as [|a l IH]; simpl; intros ND Hx Hy E; [contradiction|].
  inversion ND as [|? ? Hn ND']; subst.
  destruct Hx as [->|Hx], Hy as [->|Hy]; auto.
  - exfalso. apply Hn. rewrite E. apply in_map, Hy.
  - exfalso. apply Hn. rewrite <- E. apply in_map, Hx.
Qed.

Lemma fblocks_internalizeFunction (f : Function) :
  fblocks (internalizeFunction f) = fblocks f.
Proof. unfold internalizeFunction. destruct (_ && _); reflexivity. Qed.

Lemma fname_internalizeFunction (f : Function) :
  fname (internalizeFunction f) = fname f.
Proof. unfold internalizeFunction. destruct (_ && _); reflexivity. Qed.

Section RewriterPosition.
Context {Target : TargetIntrinsics}.

Lemma length_lowerBlocks (n : InstId) (bs : list BasicBlock) :
  length (lowerBlocks n bs) = length bs.
Proof. revert n. induction bs; intro n; simpl; auto. Qed.

Lemma length_lowerFuncs (n : InstId) (fs : list Function) :
  length (lowerFuncs n fs) = length fs.
Proof. revert n. induction fs; intro n; simpl; auto. Qed.

Lemma lowerBlocks_app (n : InstId) (b1 b2 : list BasicBlock) :
  lowerBlocks n (b1 ++ b2)
  = lowerBlocks n b1 ++ lowerBlocks (countNew (concat b1) + n) b2.
Proof.
  revert n. induction b1 as [|b b1 IH]; intro n; simpl; [reflexivity|].
  rewrite IH, countNew_app.
  replace (countNew (concat b1) + (countNew b + n))
    with (countNew b + countNew (concat b1) + n) by lia.
  reflexivity.
Qed.

Lemma lowerFuncs_app (n : InstId) (f1 f2 : list Function) :
  lowerFuncs n (f1 ++ f2)
  = lowerFuncs n f1 ++ lowerFuncs (countNew (flat_map instructionsOf f1) + n) f2.
Proof.
  revert n. induction f1 as [|f f1 IH]; intro n; simpl; [reflexivity|].
  rewrite IH, countNew_app.
  replace (countNew (flat_map instructionsOf f1) + (countNew (instructionsOf f) + n))
    with (countNew (instructionsOf f) + countNew (flat_map instructionsOf f1) + n)
    by lia.
  reflexivity.
Qed.

Lemma concat_lowerBlocks (n : InstId) (bs : list BasicBlock) :
  concat (lowerBlocks n bs) = lowerInsts n (concat bs).
Proof.
  revert n. induction bs as [|b bs IH]; intro n; simpl; [reflexivity|].
  rewrite IH, lowerInsts_app. reflexivity.
Qed.

Lemma instructions_lowerFuncs (n : InstId) (fs : list Function) :
  flat_map instructionsOf (lowerFuncs n fs)
  = lowerInsts n (flat_map instructionsOf fs).
Proof.
  revert n. induction fs as [|f fs IH]; intro n; simpl; [reflexivity|].
  rewrite IH, lowerInsts_app. f_equal.
  unfold instructionsOf at 1. simpl. apply concat_lowerBlocks.
Qed.

Lemma residue_app (M : Module) (k : InstId) (l1 l2 : list Instruction) :
  residue M k (l1 ++ l2) = residue M k l1 ++ residue M (countNew l1 + k) l2.
Proof.
  unfold residue. rewrite lowerInsts_app, map_app, filter_app. reflexivity.
Qed.

Lemma rewrittenModule_function (M : Module) fs1 F fs2 :
  functions M = fs1 ++ F :: fs2 ->
  nth_error (functions (rewrittenModule M)) (length fs1)
  = Some (rewrittenFunction M
            (countNew (flat_map instructionsOf fs1) + firstNewId M) F).
Proof.
  intro E. unfold rewrittenModule. cbn [functions]. rewrite E.
  rewrite lowerFuncs_app. cbn [lowerFuncs].
  rewrite !map_app. cbn [map]. rewrite <- app_assoc. cbn [app].
  match goal with
  | |- nth_error (?a ++ ?x :: ?r) _ = _ =>
      replace (length fs1) with (length a)
        by (rewrite !length_map; apply length_lowerFuncs);
      rewrite nth_error_middle
  end.
  reflexivity.
Qed.

Lemma rewrittenFunction_block (M : Module) (k : InstId) (F : Function) bs1 b bs2 :
  fblocks F = bs1 ++ b :: bs2 ->
  nth_error (fblocks (rewrittenFunction M k F)) (length bs1)
  = Some (residue M (countNew (concat bs1) + k) b).
Proof.
  intro E. unfold rewrittenFunction. rewrite fblocks_internalizeFunction.
  cbn [fblocks setBlocks]. rewrite E, lowerBlocks_app. cbn [lowerBlocks].
  rewrite !map_app. cbn [map].
  match goal with
  | |- nth_error (?a ++ ?x :: ?r) _ = _ =>
      replace (length bs1) with (length a)
        by (rewrite !length_map; apply length_lowerBlocks);
      rewrite nth_error_middle
  end.
  reflexivity.
Qed.

Lemma allInstructions_rewrittenModule (M : Module) :
  allInstructions (rewrittenModule M)
  = residue M (firstNewId M) (allInstructions M).
Proof.
  unfold rewrittenModule, allInstructions at 1. cbn [functions].
  set (D := declareAll _ _).
  assert (NB : Forall (fun d => fblocks d = []) D)
    by apply declareAll_noBlocks, requestsOf_noBlocks.
  assert (G : forall fs, flat_map instructionsOf
                (map internalizeFunction
                   (map (eraseFromParent (erasedIds (allInstructions M))) fs))
              = filter (fun i => negb (isDeleted (deletedIds M) i))
                       (flat_map instructionsOf fs)).
  { induction fs as [|f fs IH]; simpl; [reflexivity|].
    rewrite IH, filter_app. f_equal.
    unfold instructionsOf. rewrite fblocks_internalizeFunction. simpl.
    generalize (fblocks f). intro bs. induction bs as [|b bs IHb]; simpl; [reflexivity|].
    rewrite IHb, filter_app. reflexivity. }
  rewrite G, flat_map_app, (instructions_noBlocks NB), app_nil_r.
  rewrite flat_map_instructionsOf_map, instructions_lowerFuncs. reflexivity.
Qed.

End RewriterPosition.

(** ** Identities: what is erased, what is new, what a use becomes *)

Lemma isDeleted_In (D : list InstId) (i : Instruction) :
  isDeleted D i = true <-> In (iid i) D.
Proof.
  unfold isDeleted. rewrite existsb_exists. split.
  - intros (x & Hx & E). apply Nat.eqb_eq in E. subst. exact Hx.
  - intro H. exists (iid i). split; [exact H | apply Nat.eqb_refl].
Qed.

Lemma erasedIds_In (l : list Instruction) (x : InstId) :
  In x (erasedIds l) <-> exists i, In i l /\ erases (classify i) = true /\ iid i = x.
Proof.
  unfold erasedIds. rewrite in_map_iff. split.
  - intros (i & E & Hi). apply filter_In in Hi. destruct Hi. eauto.
  - intros (i & Hi & He & E). exists i. split; [exact E|]. apply filter_In. auto.
Qed.

Lemma ids_below_firstNewId (M : Module) (i : Instruction) :
  In i (allInstructions M) -> iid i < firstNewId M.
Proof.
  intro H. pose proof (maxInstId_bound (allInstructions M)) as F.
  rewrite Forall_forall in F. apply F, H.
Qed.

Lemma deletedIds_below (M : Module) (x : InstId) :
  In x (deletedIds M) -> x < firstNewId M.
Proof.
  intro H. apply erasedIds_In in H. destruct H as (i & Hi & _ & <-).
  apply ids_below_firstNewId, Hi.
Qed.

Lemma substValue_other (ps : list (InstId * InstId)) (x : InstId) (t : Ty) :
  ~ In x (map fst ps) -> substValue ps (VInst x t) = VInst x t.
Proof.
  induction ps as [|p ps IH]; intro H; [reflexivity|].
  rewrite substValue_cons. unfold replaceUses, replaceUse.
  destruct (Nat.eqb_spec x (fst p)) as [->|N].
  - exfalso. apply H. left. reflexivity.
  - apply IH. intro Hin. apply H. right. exact Hin.
Qed.

Lemma substValue_replaced (ps qs : list (InstId * InstId)) (x n : InstId) (t : Ty) :
  ~ In x (map fst ps) -> ~ In n (map fst qs) ->
  substValue (ps ++ (x, n) :: qs) (VInst x t) = VInst n t.
Proof.
  intros Hx Hn. rewrite substValue_app, (@substValue_other ps x t Hx), substValue_cons.
  unfold replaceUses, replaceUse. simpl. rewrite Nat.eqb_refl.
  apply substValue_other, Hn.
Qed.

(** No use of a replaced instruction is left: a use is never renamed to an
    old identity. *)
Lemma substValue_never (ps : list (InstId * InstId)) (x : InstId) :
  In x (map fst ps) -> Forall (fun p => snd p <> x) ps ->
  forall v t, substValue ps v <> VInst x t.
Proof.
  assert (K : forall qs, Forall (fun p => snd p <> x) qs ->
              forall v, (forall t, v <> VInst x t) ->
              forall t, substValue qs v <> VInst x t).
  { induction qs as [|q qs IH]; intros F v Hv t; [apply Hv|].
    inversion F; subst. rewrite substValue_cons. apply IH; [assumption|].
    intro t'. unfold replaceUses, replaceUse. destruct v; try apply Hv.
    destruct (Nat.eqb id (fst q)); [|apply Hv].
    intro E. injection E as E _. congruence. }
  induction ps as [|p ps IH]; intros Hin F v t; [contradiction|].
  inversion F as [|? ? Hp F']; subst. rewrite substValue_cons.
  destruct (Nat.eq_dec (fst p) x) as [E|N].
  - apply K; [exact F'|]. intro t'. unfold replaceUses, replaceUse.
    destruct v; try discriminate. rewrite E.
    destruct (Nat.eqb_spec id x) as [->|N'].
    + intro E'. injection E' as E' _. congruence.
    + intro E'. injection E' as E' _. congruence.
  - apply IH; [|exact F'].
    destruct Hin as [Hin|Hin]; [contradiction | exact Hin].
Qed.

Section RewriterIdentities.
Context {Target : TargetIntrinsics}.

Lemma emit_ids (a : Action) (dbg : DebugLoc) (k : InstId) (j : Instruction) :
  In j (emit a dbg k) -> k <= iid j < newCount a + k.
Proof.
  destruct a; simpl; intro H;
    repeat (destruct H as [<-|H]; [simpl; lia|]); contradiction.
Qed.

Lemma emit_kept (a : Action) : erases a = false -> forall dbg k, emit a dbg k = [].
Proof. destruct a; simpl; intro H; try discriminate; reflexivity. Qed.

Lemma newCount_kept (a : Action) : erases a = false -> newCount a = 0.
Proof. destruct a; simpl; intro H; try discriminate; reflexivity. Qed.

Lemma In_lowerInsts (n : InstId) (l : list Instruction) (i : Instruction) :
  In i l -> In i (lowerInsts n l).
Proof.
  revert n. induction l as [|a l IH]; intros n H; [contradiction|].
  simpl. apply in_or_app. right. destruct H as [->|H]; [left; reflexivity|].
  right. apply IH, H.
Qed.

Lemma filter_all {A : Type} (p : A -> bool) (l : list A) :
  (forall x, In x l -> p x = true) -> filter p l = l.
Proof.
  induction l as [|a l IH]; simpl; intro H; [reflexivity|].
  rewrite (H a (or_introl eq_refl)), IH; auto.
Qed.

(** What the result has for an erased instruction: the instructions created
    for it. *)
Lemma residue_erased (M : Module) (k : InstId) (c : Instruction)
      (l : list Instruction) :
  In c (allInstructions M) -> erases (classify c) = true -> firstNewId M <= k ->
  residue M k (c :: l)
  = map (mapOperands (finalValue M)) (emit (classify c) (idbg c) k)
    ++ residue M (newCount (classify c) + k) l.
Proof.
  intros Hc He Hk. unfold residue. cbn [lowerInsts].
  rewrite map_app, filter_app. cbn [map filter]. f_equal.
  - apply filter_all. intros j Hj. apply in_map_iff in Hj.
    destruct Hj as (j0 & <- & Hj0). apply emit_ids in Hj0.
    destruct (isDeleted (deletedIds M) (mapOperands (finalValue M) j0)) eqn:E;
      [|reflexivity].
    apply isDeleted_In, deletedIds_below in E. simpl in E. lia.
  - assert (E : isDeleted (deletedIds M) (mapOperands (finalValue M) c) = true).
    { apply isDeleted_In. apply erasedIds_In. exists c. auto. }
    rewrite E. reflexivity.
Qed.

(** What it has for another instruction: the instruction, its uses renamed. *)
Lemma residue_kept (M : Module) (k : InstId) (c : Instruction)
      (l : list Instruction) :
  NoDup (map iid (allInstructions M)) ->
  In c (allInstructions M) -> erases (classify c) = false ->
  residue M k (c :: l) = mapOperands (finalValue M) c :: residue M k l.
Proof.
  intros ND Hc He. unfold residue. cbn [lowerInsts].
  rewrite (emit_kept _ He), (newCount_kept _ He). cbn [app map filter plus].
  destruct (isDeleted (deletedIds M) (mapOperands (finalValue M) c)) eqn:E;
    [|reflexivity].
  exfalso. apply isDeleted_In, erasedIds_In in E.
  destruct E as (j & Hj & Hej & Eid). simpl in Eid.
  rewrite (NoDup_map_eq iid _ j c ND Hj Hc Eid) in Hej. congruence.
Qed.

Lemma rewritten_not_deleted (M : Module) (j : Instruction) :
  In j (allInstructions (rewrittenModule M)) -> ~ In (iid j) (deletedIds M).
Proof.
  rewrite allInstructions_rewrittenModule. unfold residue. intro H.
  apply filter_In in H. destruct H as [_ H].
  intro Hin. apply isDeleted_In in Hin. rewrite Hin in H. discriminate.
Qed.

Lemma rewritten_operands (M : Module) (j : Instruction) :
  In j (allInstructions (rewrittenModule M)) ->
  exists j0, j = mapOperands (finalValue M) j0.
Proof.
  rewrite allInstructions_rewrittenModule. unfold residue. intro H.
  apply filter_In in H. destruct H as [H _]. apply in_map_iff in H.
  destruct H as (j0 & <- & _). eauto.
Qed.

Lemma operands_mapOperands (r : Value -> Value) (i : Instruction) :
  operands (mapOperands r i) = map r (operands i).
Proof.
  unfold operands, mapOperands. simpl.
  destruct (ikind i); simpl; rewrite ?map_app; reflexivity.
Qed.

End RewriterIdentities.

Section RewriterAt.
Context {Target : TargetIntrinsics}.

Lemma module_split (M : Module) fs1 F fs2 bs1 pre c post bs2 :
  functions M = fs1 ++ F :: fs2 ->
  fblocks F = bs1 ++ (pre ++ c :: post) :: bs2 ->
  allInstructions M
  = visitedBefore fs1 bs1 pre
    ++ c :: (post ++ concat bs2 ++ flat_map instructionsOf fs2).
Proof.
  intros EF EB. unfold allInstructions, visitedBefore. rewrite EF, flat_map_app.
  cbn [flat_map]. unfold instructionsOf at 2. rewrite EB, concat_app.
  cbn [concat]. rewrite <- !app_assoc. reflexivity.
Qed.

Lemma rewritten_at (M : Module) fs1 F fs2 bs1 pre c post bs2 :
  functions M = fs1 ++ F :: fs2 ->
  fblocks F = bs1 ++ (pre ++ c :: post) :: bs2 ->
  exists F',
    nth_error (functions (rewrittenModule M)) (length fs1) = Some F'
    /\ nth_error (fblocks F') (length bs1)
       = Some (residue M (nextIdAt M fs1 bs1 []) pre
               ++ residue M (nextIdAt M fs1 bs1 pre) (c :: post)).
Proof.
  intros EF EB. eexists. split; [apply (rewrittenModule_function M _ _ _ EF)|].
  rewrite (rewrittenFunction_block M _ F _ _ _ EB), residue_app.
  unfold nextIdAt, visitedBefore. rewrite !app_nil_r, !countNew_app.
  f_equal. f_equal; f_equal; lia.
Qed.

Lemma nextIdAt_ge (M : Module) fs1 bs1 pre : firstNewId M <= nextIdAt M fs1 bs1 pre.
Proof. unfold nextIdAt. lia. Qed.

Lemma pairsFrom_fst_lt (M : Module) (n : InstId) (l : list Instruction) (x : InstId) :
  (forall i, In i l -> In i (allInstructions M)) ->
  In x (map fst (pairsFrom n l)) -> x < firstNewId M.
Proof.
  intros Sub H. apply in_map_iff in H. destruct H as (p & <- & Hp).
  pose proof (pairsFrom_sources n l) as F. rewrite Forall_forall in F.
  specialize (F p Hp). apply in_map_iff in F. destruct F as (i & <- & Hi).
  apply ids_below_firstNewId, Sub, Hi.
Qed.

(** New identities are never renamed. *)
Lemma finalValue_new (M : Module) (x : InstId) (t : Ty) :
  firstNewId M <= x -> finalValue M (VInst x t) = VInst x t.
Proof.
  intro L. unfold finalValue. apply substValue_other. intro H.
  apply (pairsFrom_fst_lt M) in H; [lia | auto].
Qed.

Lemma finalValue_VFunc (M : Module) name fty :
  finalValue M (VFunc name fty) = VFunc name fty.
Proof.
  unfold finalValue. induction (replacedUses M) as [|p ps IH]; [reflexivity|].
  rewrite substValue_cons. exact IH.
Qed.

Lemma finalValue_VFunc_inv (M : Module) (v : Value) name fty :
  finalValue M v = VFunc name fty -> v = VFunc name fty.
Proof.
  unfold finalValue. revert v. induction (replacedUses M) as [|p ps IH]; intros v E;
    [exact E|].
  rewrite substValue_cons in E. apply IH in E.
  destruct v; simpl in E; try exact E.
  destruct (Nat.eqb id (fst p)); discriminate.
Qed.

Lemma finalValue_getType (M : Module) (v : Value) :
  getType (finalValue M v) = getType v.
Proof.
  unfold finalValue. revert v. induction (replacedUses M) as [|p ps IH]; intro v;
    [reflexivity|].
  rewrite substValue_cons, IH. unfold replaceUses, replaceUse.
  destruct v; try reflexivity. destruct (Nat.eqb id (fst p)); reflexivity.
Qed.

(** The uses of a replaced instruction become uses of its replacement. *)
Lemma finalValue_replaced (M : Module) A c B (n : InstId) (t : Ty) :
  allInstructions M = A ++ c :: B ->
  NoDup (map iid (allInstructions M)) ->
  replacement (classify c) (countNew A + firstNewId M) = Some n ->
  finalValue M (VInst (iid c) t) = VInst n t.
Proof.
  intros E ND Hr. unfold finalValue, replacedUses.
  rewrite E, pairsFrom_app. cbn [pairsFrom]. unfold pairOf. rewrite Hr.
  cbn [app]. apply substValue_replaced.
  - intro H. rewrite E, map_app in ND. apply NoDup_remove_2 in ND.
    apply ND, in_or_app. left.
    pose proof (pairsFrom_sources (firstNewId M) A) as F. rewrite Forall_forall in F.
    apply in_map_iff in H. destruct H as (p & <- & Hp). apply F, Hp.
  - intro H. apply (pairsFrom_fst_lt M) in H.
    + unfold replacement in Hr. destruct (newCount (classify c)); [discriminate|].
      injection Hr as <-. lia.
    + intros i Hi. rewrite E. apply in_or_app. right. right. exact Hi.
Qed.

Lemma pairsFrom_has (n : InstId) (l : list Instruction) (c : Instruction) :
  In c l -> newCount (classify c) <> 0 -> In (iid c) (map fst (pairsFrom n l)).
Proof.
  revert n. induction l as [|i l IH]; intros n H Hn; [contradiction|].
  cbn [pairsFrom]. rewrite map_app. apply in_or_app.
  destruct H as [->|H]; [left | right; apply IH; assumption].
  unfold pairOf, replacement. destruct (newCount (classify c)); [congruence|].
  left. reflexivity.
Qed.

Lemma no_use_left (M : Module) (c j : Instruction) (v : Value) (t : Ty) :
  In c (allInstructions M) -> newCount (classify c) <> 0 ->
  In j (allInstructions (rewrittenModule M)) -> In v (operands j) ->
  v <> VInst (iid c) t.
Proof.
  intros Hc Hn Hj Hv. apply rewritten_operands in Hj. destruct Hj as (j0 & ->).
  rewrite operands_mapOperands in Hv. apply in_map_iff in Hv.
  destruct Hv as (v0 & <- & _). unfold finalValue, replacedUses.
  apply substValue_never.
  - apply pairsFrom_has; assumption.
  - pose proof (pairsFrom_targets (firstNewId M) (allInstructions M)) as F.
    eapply Forall_impl; [|exact F]. simpl. intros p Hp.
    pose proof (ids_below_firstNewId M c Hc). lia.
Qed.

Lemma survivors (M : Module) (u : Instruction) :
  NoDup (map iid (allInstructions M)) ->
  In u (allInstructions M) -> erases (classify u) = false ->
  In (mapOperands (finalValue M) u) (allInstructions (rewrittenModule M)).
Proof.
  intros ND Hu He. rewrite allInstructions_rewrittenModule.
  apply in_split in Hu. destruct Hu as (A & B & E). rewrite E at 1.
  rewrite residue_app. apply in_or_app. right.
  rewrite (residue_kept M _ u B ND); [left; reflexivity | | exact He].
  rewrite E. apply in_or_app. right. left. reflexivity.
Qed.

Lemma erased_gone (M : Module) (c j : Instruction) :
  In c (allInstructions M) -> erases (classify c) = true ->
  In j (allInstructions (rewrittenModule M)) -> iid j <> iid c.
Proof.
  intros Hc He Hj E. apply (rewritten_not_deleted M j Hj).
  rewrite E. apply erasedIds_In. exists c. auto.
Qed.

Lemma firstFailure_None (l : list Instruction) (c : Instruction) :
  firstFailure l = None -> In c l -> failure (classify c) = None.
Proof.
  induction l as [|i l IH]; intros H Hc; [contradiction|].
  simpl in H. destruct (failure (classify i)) eqn:E; [discriminate|].
  destruct Hc as [->|Hc]; [exact E | apply IH; assumption].
Qed.


End RewriterAt.

(** ** The tables *)

Lemma map_find_In {V : Type} (m : list (string * V)) (k : string) (v : V) :
  map_find m k = Some v -> In (k, v) m.
Proof.
  unfold map_find. destruct (find _ m) as [e|] eqn:E; [|discriminate].
  intro H. injection H as <-. apply find_some in E. destruct E as [Hin Heq].
  apply String.eqb_eq in Heq. subst. destruct e; exact Hin.
Qed.

Ltac each_entry H :=
  simpl in H;
  repeat (destruct H as [H|H]; [injection H as <- <-|]); try contradiction.

(** A key of [OneMap] is not the name of an intrinsic. *)
Lemma OneMap_not_intrinsic (name : string) (IID : IntrinsicID) :
  map_find OneMap name = Some IID -> lookupIntrinsicID name = not_intrinsic.
Proof. intro H. apply map_find_In in H. each_entry H; reflexivity. Qed.

Lemma TwoMap_not_intrinsic (name : string) (ids : IntrinsicID * IntrinsicID) :
  map_find TwoMap name = Some ids -> lookupIntrinsicID name = not_intrinsic.
Proof. intro H. apply map_find_In in H. each_entry H; reflexivity. Qed.

(** No two keys collide between the two maps. *)
Lemma TwoMap_not_OneMap (name : string) (ids : IntrinsicID * IntrinsicID) :
  map_find TwoMap name = Some ids -> map_find OneMap name = None.
Proof. intro H. apply map_find_In in H. each_entry H; reflexivity. Qed.

Lemma not_intrinsic_dispatch (name : string) :
  lookupIntrinsicID name = not_intrinsic ->
  IntrinsicID_eqb (lookupIntrinsicID name) lifetime_start
  || IntrinsicID_eqb (lookupIntrinsicID name) lifetime_end = false
  /\ IntrinsicID_eqb (lookupIntrinsicID name) ctlz = false.
Proof. intros ->. split; reflexivity. Qed.

Lemma classify_OneMap (c : Instruction) name calleeTy args fty cc IID :
  ikind c = Call (VFunc name calleeTy) args fty cc ->
  map_find OneMap name = Some IID ->
  classify c = OneIntrinsic IID [getReturnType calleeTy] args.
Proof.
  intros K H. unfold classify. rewrite K.
  destruct (not_intrinsic_dispatch _ (OneMap_not_intrinsic _ H)) as [-> ->].
  rewrite H. reflexivity.
Qed.

Lemma classify_TwoMap (c : Instruction) name calleeTy arg0 rest fty cc ids :
  ikind c = Call (VFunc name calleeTy) (arg0 :: rest) fty cc ->
  map_find TwoMap name = Some ids ->
  classify c = TwoIntrinsics (fst ids) (snd ids) (getType arg0)
                             (getReturnType calleeTy) (arg0 :: rest).
Proof.
  intros K H. unfold classify. rewrite K.
  destruct (not_intrinsic_dispatch _ (TwoMap_not_intrinsic _ H)) as [-> ->].
  rewrite (TwoMap_not_OneMap _ H), H.
  rewrite (@getArgOperand_arg (VFunc name calleeTy) (arg0 :: rest) 0 arg0 eq_refl).
  reflexivity.
Qed.






Lemma classify_indirect (c : Instruction) callee args fty cc :
  ikind c = Call callee args fty cc ->
  (forall name calleeTy, callee <> VFunc name calleeTy) ->
  classify c = Keep.
Proof.
  intros K H. unfold classify. rewrite K.
  destruct callee; try reflexivity. exfalso. eapply H. reflexivity.
Qed.

Lemma prefix_underscore_not_llvm (p name : string) :
  String.prefix (String "_" p) name = true -> String.prefix "llvm." name = false.
Proof.
  destruct name as [|c0 s]; intro H; [discriminate H|].
  unfold String.prefix in H; fold String.prefix in H.
  destruct (ascii_dec "_" c0) as [<-|]; [reflexivity | discriminate H].
Qed.

Lemma OneMap_key_not_llvm (name : string) (IID : IntrinsicID) :
  map_find OneMap name = Some IID ->
  String.prefix "llvm." name = false /\ IID <> not_intrinsic.
Proof.
  intro H. apply map_find_In in H. each_entry H; split; (reflexivity || discriminate).
Qed.

Lemma TwoMap_key_not_llvm (name : string) (ids : IntrinsicID * IntrinsicID) :
  map_find TwoMap name = Some ids ->
  String.prefix "llvm." name = false
  /\ fst ids <> not_intrinsic /\ snd ids <> not_intrinsic.
Proof.
  intro H. apply map_find_In in H.
  each_entry H; repeat split; (reflexivity || discriminate).
Qed.

Lemma builtin_name_not_llvm (name : string) :
  isBuiltinName name = true -> String.prefix "llvm." name = false.
Proof.
  unfold isBuiltinName. intro H.
  destruct (map_find OneMap name) eqn:E1; [apply (OneMap_key_not_llvm _ E1)|].
  destruct (map_find TwoMap name) eqn:E2; [apply (TwoMap_key_not_llvm _ E2)|].
  simpl in H. repeat (apply orb_prop in H; destruct H as [H|H]);
    eapply prefix_underscore_not_llvm; exact H.
Qed.

Lemma builtin_not_intrinsic (name : string) :
  isBuiltinName name = true -> lookupIntrinsicID name = not_intrinsic.
Proof.
  intro H. unfold lookupIntrinsicID. rewrite (builtin_name_not_llvm _ H). reflexivity.
Qed.

Lemma intrinsic_name_llvm (id : IntrinsicID) (tys : list Ty) :
  id <> not_intrinsic -> String.prefix "llvm." (Intrinsic_getName id tys) = true.
Proof. intro H. destruct id; try congruence; reflexivity. Qed.

Lemma classify_builtin (c : Instruction) name calleeTy args fty cc :
  ikind c = Call (VFunc name calleeTy) args fty cc ->
  isBuiltinName name = true ->
  failure (classify c) = None ->
  erases (classify c) = true /\ newCount (classify c) <> 0.
Proof.
  intros K H NF. revert NF. unfold classify. rewrite K.
  destruct (not_intrinsic_dispatch _ (builtin_not_intrinsic _ H)) as [-> ->].
  unfold isBuiltinName in H.
  destruct (map_find OneMap name); [simpl; auto|].
  generalize (getArgOperand (VFunc name calleeTy) args 0)
             (getArgOperand (VFunc name calleeTy) args 1). intros a0 a1.
  destruct (map_find TwoMap name); [destruct a0; simpl; intro; auto; discriminate|].
  simpl in H.
  repeat match goal with
  | |- context [if String.prefix ?a ?b then _ else _] =>
      destruct (String.prefix a b)
  end; try discriminate;
  destruct a0; simpl; try discriminate; auto;
  destruct a1; simpl; try discriminate; auto.
Qed.

Section RewriterCallees.
Context {Target : TargetIntrinsics}.

(** The calls created for a builtin call are calls to intrinsics. *)
Lemma emitted_callee (c : Instruction) name calleeTy args fty cc :
  ikind c = Call (VFunc name calleeTy) args fty cc ->
  isBuiltinName name = true ->
  forall dbg k j nm' fty' a f cc',
    In j (emit (classify c) dbg k) ->
    ikind j = Call (VFunc nm' fty') a f cc' ->
    String.prefix "llvm." nm' = true.
Proof.
  intros K H dbg k j nm' fty' a f cc'. unfold classify. rewrite K.
  destruct (not_intrinsic_dispatch _ (builtin_not_intrinsic _ H)) as [-> ->].
  destruct (map_find OneMap name) as [IID|] eqn:E1.
  { destruct (OneMap_key_not_llvm _ E1) as [_ N].
    simpl. intros [<-|[]] E. simpl in E. injection E as <- _ _ _ _.
    apply intrinsic_name_llvm, N. }
  generalize (getArgOperand (VFunc name calleeTy) args 0)
             (getArgOperand (VFunc name calleeTy) args 1). intros a0 a1.
  destruct (map_find TwoMap name) as [ids|] eqn:E2.
  { destruct (TwoMap_key_not_llvm _ E2) as (_ & N1 & N2).
    destruct a0; simpl; [|contradiction].
    intros [<-|[<-|[]]] E; simpl in E; injection E as <- _ _ _ _;
      apply intrinsic_name_llvm; assumption. }
  repeat match goal with
  | |- context [if String.prefix ?p ?b then _ else _] =>
      destruct (String.prefix p b)
  end;
  try (simpl; contradiction);
  destruct a0; simpl; try contradiction;
  try (intros [<-|[]] E; simpl in E; discriminate);
  destruct a1; simpl; try contradiction;
  intros [<-|[<-|[]]] E; simpl in E; try discriminate;
  injection E as <- _ _ _ _; apply intrinsic_name_llvm; discriminate.
Qed.

End RewriterCallees.

(* ================================================================== *)
(** ** removeFunctionBitcasts: names and types *)

Lemma Ty_eqb_eq (a b : Ty) : Ty_eqb a b = true <-> a = b.
Proof.
  revert b. induction a; destruct b; simpl; split; intro H;
    try reflexivity; try discriminate.
  - apply N.eqb_eq in H. congruence.
  - injection H as ->. apply N.eqb_refl.
  - apply N.eqb_eq in H. congruence.
  - injection H as ->. apply N.eqb_refl.
  - apply andb_true_iff in H. destruct H as [H1 H2].
    apply N.eqb_eq in H1. apply IHa in H2. congruence.
  - injection H as -> <-. rewrite N.eqb_refl. simpl. apply IHa. reflexivity.
Qed.

Lemma list_eqb_eq (A : Type) (eqb : A -> A -> bool) :
  (forall a b, eqb a b = true <-> a = b) ->
  forall l m, list_eqb eqb l m = true <-> l = m.
Proof.
  intros He. induction l as [|a l IH]; destruct m as [|b m]; simpl; split; intro H;
    try reflexivity; try discriminate.
  - apply andb_true_iff in H. destruct H as [H1 H2].
    apply He in H1. apply IH in H2. congruence.
  - injection H as -> <-. apply andb_true_iff. split; [apply He | apply IH]; reflexivity.
Qed.

Lemma FunctionType_eqb_eq (a b : FunctionType) : FunctionType_eqb a b = true <-> a = b.
Proof.
  unfold FunctionType_eqb. destruct a as [r p v], b as [r' p' v']. simpl.
  rewrite !andb_true_iff, Ty_eqb_eq, (list_eqb_eq Ty_eqb Ty_eqb_eq).
  split.
  - intros [[-> ->] H]. apply Bool.eqb_prop in H. congruence.
  - intro H. injection H as -> -> ->. repeat split. apply Bool.eqb_reflx.
Qed.

Lemma FunctionType_eqb_refl (a : FunctionType) : FunctionType_eqb a a = true.
Proof. apply FunctionType_eqb_eq. reflexivity. Qed.

Lemma memb_In (n : string) (l : list string) : memb n l = true <-> In n l.
Proof.
  unfold memb. rewrite existsb_exists. split.
  - intros (x & Hx & E). apply String.eqb_eq in E. subst. exact Hx.
  - intro H. exists n. split; [exact H | apply String.eqb_refl].
Qed.

Lemma memb_false (n : string) (l : list string) : memb n l = false <-> ~ In n l.
Proof.
  rewrite <- memb_In. destruct (memb n l); split; intro H; try reflexivity;
    try discriminate; try (intro; discriminate). exfalso. apply H. reflexivity.
Qed.

Lemma nodupb_NoDup (l : list string) : nodupb l = true -> NoDup l.
Proof.
  induction l as [|a l IH]; simpl; intro H; [constructor|].
  apply andb_true_iff in H. destruct H as [H1 H2].
  constructor; [|apply IH; exact H2].
  apply memb_false. apply negb_true_iff. exact H1.
Qed.

Lemma append_inj_l (s a b : string) : (s ++ a)%string = (s ++ b)%string -> a = b.
Proof. induction s as [|c s IH]; simpl; intro H; [exact H|]. injection H as H. auto. Qed.

Lemma to_uint_not_Nil (n : N) : N.to_uint n <> Decimal.Nil.
Proof.
  destruct n as [|p]; [discriminate|]. simpl.
  apply DecimalPos.Unsigned.to_uint_nonnil.
Qed.

Lemma decimal_inj (n m : N) : decimal n = decimal m -> n = m.
Proof.
  unfold decimal. intro H.
  apply (f_equal NilZero.uint_of_string) in H.
  rewrite !NilZero.usu in H by apply to_uint_not_Nil.
  injection H as H. apply Unsigned.to_uint_inj. exact H.
Qed.

Lemma numberedName_inj (base : string) (n m : nat) :
  numberedName base n = numberedName base m -> n = m.
Proof.
  unfold numberedName. intro H.
  apply append_inj_l in H. apply (append_inj_l ".") in H.
  apply decimal_inj in H. lia.
Qed.

Lemma NoDup_map_injective (A B : Type) (f : A -> B) (l : list A) :
  (forall a b, f a = f b -> a = b) -> NoDup l -> NoDup (map f l).
Proof.
  intros Hf H. induction H as [|a l Ha H IH]; simpl; constructor; [|exact IH].
  intro Hin. apply in_map_iff in Hin. destruct Hin as (b & E & Hb).
  apply Hf in E. subst. contradiction.
Qed.

(** The name [Function::Create] gives is that of no function of the
    module. *)
Lemma uniqueName_fresh (names : list string) (base : string) :
  ~ In (uniqueName names base) names.
Proof.
  unfold uniqueName. fold (memb base names).
  destruct (memb base names) eqn:E; [|apply memb_false; exact E].
  destruct (find _ _) as [cand|] eqn:F.
  - apply find_some in F. destruct F as [_ F]. fold (memb cand names) in F.
    apply memb_false. apply negb_true_iff. exact F.
  - exfalso.
    set (cands := map (numberedName base) (seq 1 (S (length names)))) in *.
    assert (I : incl cands names).
    { intros c Hc. apply (find_none _ _ F) in Hc. fold (memb c names) in Hc.
      apply memb_In. apply negb_false_iff. exact Hc. }
    assert (N : NoDup cands).
    { apply NoDup_map_injective; [apply numberedName_inj | apply seq_NoDup]. }
    pose proof (NoDup_incl_length N I) as L.
    unfold cands in L. rewrite length_map, length_seq in L. lia.
Qed.

Lemma find_append (A : Type) (p : A -> bool) (l m : list A) :
  find p (l ++ m) = match find p l with Some x => Some x | None => find p m end.
Proof. induction l as [|a l IH]; simpl; [reflexivity|]. destruct (p a); auto. Qed.

Lemma find_name (fs : list Function) (n : string) (f : Function) :
  find (fun f => String.eqb (fname f) n) fs = Some f -> In f fs /\ fname f = n.
Proof.
  intro H. apply find_some in H. destruct H as [H E].
  apply String.eqb_eq in E. split; assumption.
Qed.

Lemma find_name_None (fs : list Function) (n : string) :
  find (fun f => String.eqb (fname f) n) fs = None <-> ~ In n (map fname fs).
Proof.
  induction fs as [|f fs IH]; simpl; [tauto|].
  destruct (String.eqb (fname f) n) eqn:E.
  - apply String.eqb_eq in E. split; [discriminate | tauto].
  - apply String.eqb_neq in E. rewrite IH. tauto.
Qed.

Lemma typeOf_In_names (fs : list Function) (n : string) (t : FunctionType) :
  typeOf fs n = Some t -> In n (map fname fs).
Proof.
  unfold typeOf. destruct (find _ fs) as [f|] eqn:F; [|discriminate].
  intros _. apply find_name in F. destruct F as [F <-]. apply in_map. exact F.
Qed.

Lemma typeOf_app_l (fs gs : list Function) (n : string) :
  In n (map fname fs) -> typeOf (fs ++ gs) n = typeOf fs n.
Proof.
  unfold typeOf. intro H. rewrite find_append.
  destruct (find _ fs) eqn:F; [reflexivity|].
  apply find_name_None in F. contradiction.
Qed.

Lemma typeOf_app_r (fs gs : list Function) (n : string) :
  ~ In n (map fname fs) -> typeOf (fs ++ gs) n = typeOf gs n.
Proof.
  unfold typeOf. intro H. rewrite find_append.
  apply find_name_None in H. rewrite H. reflexivity.
Qed.

Lemma typeOf_single (g : Function) : typeOf [g] (fname g) = Some (ftype g).
Proof. unfold typeOf. simpl. rewrite String.eqb_refl. reflexivity. Qed.

(* ================================================================== *)
(** ** removeFunctionBitcasts: the invariant of the cache *)

Lemma map_find_cachePush_same (cache : list (string * list string)) (k c : string) :
  map_find (cachePush cache k c) k
  = Some (match map_find cache k with Some vec => vec ++ [c] | None => [c] end).
Proof.
  unfold map_find. induction cache as [|[k0 v] cache IH]; simpl.
  - rewrite String.eqb_refl. reflexivity.
  - destruct (String.eqb k0 k) eqn:E; simpl; rewrite E; [reflexivity|].
    rewrite IH. destruct (find _ cache); reflexivity.
Qed.

Lemma map_find_cachePush_other (cache : list (string * list string)) (k c k' : string) :
  k' <> k -> map_find (cachePush cache k c) k' = map_find cache k'.
Proof.
  intro N. unfold map_find. induction cache as [|[k0 v] cache IH]; simpl.
  - destruct (String.eqb k k') eqn:E; [|reflexivity].
    apply String.eqb_eq in E. congruence.
  - destruct (String.eqb k0 k) eqn:E; simpl.
    + apply String.eqb_eq in E. subst k0.
      destruct (String.eqb k k') eqn:E'; [|reflexivity].
      apply String.eqb_eq in E'. congruence.
    + destruct (String.eqb k0 k'); [reflexivity | exact IH].
Qed.

Lemma find_ext_in (A : Type) (p q : A -> bool) (l : list A) :
  (forall x, In x l -> p x = q x) -> find p l = find q l.
Proof.
  induction l as [|a l IH]; intro H; simpl; [reflexivity|].
  rewrite (H a (or_introl eq_refl)). destruct (q a); [reflexivity|].
  apply IH. intros x Hx. apply H. right. exact Hx.
Qed.

Lemma NoDup_snoc (A : Type) (l : list A) (x : A) :
  NoDup l -> ~ In x l -> NoDup (l ++ [x]).
Proof.
  intros H Hx. induction H as [|a l Ha H IH]; simpl.
  - constructor; [intros []|constructor].
  - constructor.
    + rewrite in_app_iff. simpl. intros [I|[I|[]]]; [contradiction|].
      subst. apply Hx. left. reflexivity.
    + apply IH. intro I. apply Hx. right. exact I.
Qed.

Lemma castTargets_app (fs gs : list Function) :
  castTargets (fs ++ gs) = castTargets fs ++ castTargets gs.
Proof. apply flat_map_app. Qed.

Lemma castTargets_In (fs : list Function) (n : string) :
  In n (castTargets fs) <->
  exists f i, In f fs /\ In i (instructionsOf f) /\ castTarget i = Some n.
Proof.
  unfold castTargets, targetsOf. rewrite in_flat_map. split.
  - intros (f & Hf & H). apply in_flat_map in H. destruct H as (i & Hi & H).
    exists f, i. destruct (castTarget i) as [m|]; [|destruct H].
    destruct H as [<-|[]]. repeat split; assumption.
  - intros (f & i & Hf & Hi & E). exists f. split; [exact Hf|].
    apply in_flat_map. exists i. split; [exact Hi|]. rewrite E. left. reflexivity.
Qed.

Section CacheSteps.
Variables (fs fs' : list Function) (cache : list (string * list string)).
Hypothesis Inv : CacheInv fs cache.

Section Shrink.
Hypothesis names' : NoDup (map fname fs').
Hypothesis targets' : incl (castTargets fs') (castTargets fs).
Hypothesis kept : forall n, In n (map fname fs) ->
  In n (map fname fs') \/
  (~ In n (castTargets fs') /\ forall k vec, map_find cache k = Some vec -> ~ In n vec).
Hypothesis types' : forall n, In n (map fname fs') -> typeOf fs' n = typeOf fs n.

Lemma clone_kept (k : string) (vec : list string) (c : string) :
  map_find cache k = Some vec -> In c vec -> In c (map fname fs').
Proof.
  intros Hk Hc. assert (E : In c (map fname fs)) by (eapply (clones_exist Inv); eassumption).
  destruct (kept _ E) as [H|[_ H]]; [exact H|]. exfalso. exact (H _ _ Hk Hc).
Qed.

(** The invariant goes from the functions to fewer of them, with fewer
    casts, when what goes is neither cast nor a clone. *)
Lemma CacheInv_shrink : CacheInv fs' cache.
Proof.
  constructor.
  - exact names'.
  - intros n Hn. pose proof (targets' _ Hn) as H.
    apply (targets_exist Inv) in H. destruct (kept _ H) as [K|[K _]]; [exact K|].
    contradiction.
  - exact clone_kept.
  - intros k vec c Hk Hc H. apply targets' in H.
    eapply (clones_not_targets Inv); eassumption.
  - intros k vec c1 c2 t Hk H1 H2 T1 T2.
    rewrite types' in T1 by (eapply clone_kept; eassumption).
    rewrite types' in T2 by (eapply clone_kept; eassumption).
    eapply (one_clone_per_type Inv); eassumption.
Qed.

Lemma cloneNameIn_shrink (k : string) (T : FunctionType) :
  cloneNameIn fs' cache k T = cloneNameIn fs cache k T.
Proof.
  unfold cloneNameIn. destruct (map_find cache k) as [vec|] eqn:Hk; [|reflexivity].
  apply find_ext_in. intros c Hc. rewrite types' by (eapply clone_kept; eassumption).
  reflexivity.
Qed.
End Shrink.

Section Add.
Variable g : Function.
Hypothesis fresh : ~ In (fname g) (map fname fs).
Hypothesis targets_g : incl (targetsOf g) (castTargets fs).

Lemma castTargets_add (n : string) :
  In n (castTargets (fs ++ [g])) -> In n (castTargets fs).
Proof.
  rewrite castTargets_app, in_app_iff. intros [H|H]; [exact H|].
  unfold castTargets in H. simpl in H. rewrite app_nil_r in H.
  apply targets_g. exact H.
Qed.

(** The invariant when a function of a new name is added whose body casts
    what the others do. *)
Lemma CacheInv_add : CacheInv (fs ++ [g]) cache.
Proof.
  constructor.
  - rewrite map_app. simpl. apply NoDup_snoc; [exact (names_unique Inv) | exact fresh].
  - intros n Hn. apply castTargets_add in Hn. rewrite map_app, in_app_iff. left.
    exact (targets_exist Inv _ Hn).
  - intros k vec c Hk Hc. rewrite map_app, in_app_iff. left.
    eapply (clones_exist Inv); eassumption.
  - intros k vec c Hk Hc H. apply castTargets_add in H.
    eapply (clones_not_targets Inv); eassumption.
  - intros k vec c1 c2 t Hk H1 H2 T1 T2.
    rewrite typeOf_app_l in T1 by (eapply (clones_exist Inv); eassumption).
    rewrite typeOf_app_l in T2 by (eapply (clones_exist Inv); eassumption).
    eapply (one_clone_per_type Inv); eassumption.
Qed.

Lemma cloneNameIn_add (k : string) (T : FunctionType) :
  cloneNameIn (fs ++ [g]) cache k T = cloneNameIn fs cache k T.
Proof.
  unfold cloneNameIn. destruct (map_find cache k) as [vec|] eqn:Hk; [|reflexivity].
  apply find_ext_in. intros c Hc.
  rewrite typeOf_app_l by (eapply (clones_exist Inv); eassumption). reflexivity.
Qed.
End Add.

Section Push.
Variables (k c : string) (T : FunctionType).
Hypothesis c_exists : In c (map fname fs).
Hypothesis c_not_target : ~ In c (castTargets fs).
Hypothesis c_type : typeOf fs c = Some T.
Hypothesis miss : cloneNameIn fs cache k T = None.

(** The invariant when the clone made for a type the cache had no clone of
    is pushed. *)
Lemma CacheInv_push : CacheInv fs (cachePush cache k c).
Proof.
  assert (Old : forall k' vec' x, map_find (cachePush cache k c) k' = Some vec' ->
                  In x vec' ->
                  (exists vec, map_find cache k' = Some vec /\ In x vec)
                  \/ (k' = k /\ x = c)).
  { intros k' vec' x Hk Hx. destruct (string_dec k' k) as [->|N].
    - rewrite map_find_cachePush_same in Hk. injection Hk as <-.
      destruct (map_find cache k) as [vec|].
      + apply in_app_iff in Hx. destruct Hx as [Hx|[<-|[]]]; [left|right; tauto].
        exists vec. tauto.
      + destruct Hx as [<-|[]]. right. tauto.
    - rewrite map_find_cachePush_other in Hk by exact N. left. exists vec'. tauto. }
  constructor.
  - exact (names_unique Inv).
  - exact (targets_exist Inv).
  - intros k' vec' x Hk Hx. destruct (Old _ _ _ Hk Hx) as [(vec & Hv & Hi)|[_ ->]];
      [eapply (clones_exist Inv); eassumption | exact c_exists].
  - intros k' vec' x Hk Hx. destruct (Old _ _ _ Hk Hx) as [(vec & Hv & Hi)|[_ ->]];
      [eapply (clones_not_targets Inv); eassumption | exact c_not_target].
  - assert (No : forall vec x, map_find cache k = Some vec -> In x vec ->
                   typeOf fs x <> Some T).
    { intros vec x Hv Hx E. unfold cloneNameIn in miss. rewrite Hv in miss.
      apply (find_none _ _ miss) in Hx. rewrite E in Hx. simpl in Hx.
      rewrite FunctionType_eqb_refl in Hx. discriminate. }
    intros k' vec' c1 c2 t Hk H1 H2 T1 T2.
    destruct (Old _ _ _ Hk H1) as [(v1 & Hv1 & Hi1)|[-> ->]];
      destruct (Old _ _ _ Hk H2) as [(v2 & Hv2 & Hi2)|[E2 ->]].
    + rewrite Hv1 in Hv2. injection Hv2 as <-.
      eapply (one_clone_per_type Inv); eassumption.
    + subst k'. exfalso. rewrite c_type in T2. injection T2 as <-.
      eapply No; eassumption.
    + exfalso. rewrite c_type in T1. injection T1 as <-.
      eapply No; eassumption.
    + reflexivity.
Qed.

Lemma cloneNameIn_push_new : cloneNameIn fs (cachePush cache k c) k T = Some c.
Proof.
  unfold cloneNameIn in *. rewrite map_find_cachePush_same.
  destruct (map_find cache k) as [vec|].
  - rewrite find_append, miss. simpl. rewrite c_type. simpl.
    rewrite FunctionType_eqb_refl. reflexivity.
  - simpl. rewrite c_type. simpl. rewrite FunctionType_eqb_refl. reflexivity.
Qed.

Lemma cloneNameIn_push_old (k' : string) (T' : FunctionType) (x : string) :
  cloneNameIn fs cache k' T' = Some x ->
  cloneNameIn fs (cachePush cache k c) k' T' = Some x.
Proof.
  unfold cloneNameIn. destruct (string_dec k' k) as [->|N].
  - rewrite map_find_cachePush_same.
    destruct (map_find cache k) as [vec|]; [|discriminate].
    intro H. rewrite find_append, H. reflexivity.
  - rewrite map_find_cachePush_other by exact N. auto.
Qed.
End Push.
End CacheSteps.

(* ================================================================== *)
(** ** removeFunctionBitcasts: what the steps do to the functions *)

Lemma targetsOf_In (f : Function) (n : string) :
  In n (targetsOf f) <-> exists i, In i (instructionsOf f) /\ castTarget i = Some n.
Proof.
  unfold targetsOf. rewrite in_flat_map. split.
  - intros (i & Hi & H). exists i. destruct (castTarget i) as [m|]; [|destruct H].
    destruct H as [<-|[]]. split; [exact Hi | reflexivity].
  - intros (i & Hi & E). exists i. split; [exact Hi|]. rewrite E. left. reflexivity.
Qed.

Lemma refinesF_refl (f : Function) : refinesF f f.
Proof. repeat split. apply incl_refl. Qed.

Lemma refines_refl (fs : list Function) : Forall2 refinesF fs fs.
Proof. induction fs; constructor; [apply refinesF_refl | assumption]. Qed.

Lemma refines_names (fs fs' : list Function) :
  Forall2 refinesF fs fs' -> map fname fs' = map fname fs.
Proof.
  induction 1 as [|f f' fs fs' (N & _ & _) _ IH]; simpl; [reflexivity|].
  rewrite N, IH. reflexivity.
Qed.

Lemma refines_typeOf (fs fs' : list Function) (n : string) :
  Forall2 refinesF fs fs' -> typeOf fs' n = typeOf fs n.
Proof.
  unfold typeOf.
  induction 1 as [|f f' fs fs' (N & T & _) _ IH]; simpl; [reflexivity|].
  rewrite N. destruct (String.eqb (fname f) n); [simpl; rewrite T; reflexivity | exact IH].
Qed.

Lemma refines_targets (fs fs' : list Function) :
  Forall2 refinesF fs fs' -> incl (castTargets fs') (castTargets fs).
Proof.
  unfold castTargets.
  induction 1 as [|f f' fs fs' (_ & _ & I) _ IH]; simpl; [apply incl_refl|].
  apply incl_app; [apply incl_appl; exact I | apply incl_appr; exact IH].
Qed.

Lemma CacheInv_refines (fs fs' : list Function) (cache : list (string * list string)) :
  CacheInv fs cache -> Forall2 refinesF fs fs' ->
  CacheInv fs' cache
  /\ forall k T, cloneNameIn fs' cache k T = cloneNameIn fs cache k T.
Proof.
  intros Inv R.
  assert (N : NoDup (map fname fs'))
    by (rewrite (refines_names R); exact (names_unique Inv)).
  assert (K : forall n, In n (map fname fs) ->
            In n (map fname fs') \/
            (~ In n (castTargets fs') /\
             forall k vec, map_find cache k = Some vec -> ~ In n vec))
    by (intros n Hn; left; rewrite (refines_names R); exact Hn).
  assert (Ty : forall n, In n (map fname fs') -> typeOf fs' n = typeOf fs n)
    by (intros n _; apply refines_typeOf; exact R).
  pose proof (refines_targets R) as Tg.
  split.
  - eapply CacheInv_shrink; eassumption.
  - eapply cloneNameIn_shrink; eassumption.
Qed.

Lemma instructionsOf_current (c : RWState) :
  instructionsOf (currentFunction c)
  = concat (bpre c) ++ (ipre c ++ ipost c) ++ concat (bpost c).
Proof.
  unfold instructionsOf, currentFunction. simpl. rewrite concat_app. reflexivity.
Qed.

Lemma refines_zipper (c c' : RWState) :
  Forall2 refinesF (fpre c) (fpre c') ->
  Forall2 refinesF (fpost c) (fpost c') ->
  fname (fcur c') = fname (fcur c) ->
  ftype (fcur c') = ftype (fcur c) ->
  (forall i n, In i (instructionsOf (currentFunction c')) -> castTarget i = Some n ->
     exists j, In j (instructionsOf (currentFunction c)) /\ castTarget j = Some n) ->
  Forall2 refinesF (allFunctions c) (allFunctions c').
Proof.
  intros Hpre Hpost N T I. unfold allFunctions.
  apply Forall2_app; [exact Hpre|]. constructor; [|exact Hpost].
  repeat split; [exact N | exact T|].
  intros n Hn. apply targetsOf_In in Hn. destruct Hn as (i & Hi & E).
  apply targetsOf_In. exact (I _ _ Hi E).
Qed.

Lemma castTarget_mapOperands (g : Value -> Value) (i : Instruction) (n : string) :
  (forall v w t, g v = VBitCast w t -> v = VBitCast w t) ->
  castTarget (mapOperands g i) = Some n -> castTarget i = Some n.
Proof.
  intro Hg. unfold castTarget, mapOperands. simpl.
  destruct (ikind i) as [callee a t cc| | |]; try discriminate.
  destruct (g callee) as [| | | | | |w ty|] eqn:E; try discriminate.
  apply Hg in E. subst callee. auto.
Qed.

Lemma replaceUse_cast (old new : InstId) (v w : Value) (t : Ty) :
  replaceUse old new v = VBitCast w t -> v = VBitCast w t.
Proof.
  destruct v; simpl; try (intro; assumption). destruct (Nat.eqb id old); intro H;
    [discriminate | exact H].
Qed.

Lemma remapValue_cast (vmap : list (InstId * InstId)) (dstTy : FunctionType)
      (v w : Value) (t : Ty) :
  remapValue vmap dstTy v = VBitCast w t -> v = VBitCast w t.
Proof.
  destruct v; simpl; try (intro; assumption).
  - destruct (lookupId vmap id); intro H; [discriminate | exact H].
  - destruct (nth_error (params dstTy) idx); intro H; [discriminate | exact H].
Qed.

Lemma refinesF_mapInFunction (g : Instruction -> Instruction) (f : Function) :
  (forall i n, castTarget (g i) = Some n -> castTarget i = Some n) ->
  refinesF f (mapInFunction g f).
Proof.
  intro Hg. repeat split. intros n Hn. apply targetsOf_In in Hn.
  destruct Hn as (i & Hi & E). apply targetsOf_In.
  unfold instructionsOf, mapInFunction in Hi. simpl in Hi.
  rewrite <- concat_map in Hi. apply in_map_iff in Hi. destruct Hi as (j & <- & Hj).
  exists j. split; [exact Hj | exact (Hg _ _ E)].
Qed.

Lemma refines_map (g : Instruction -> Instruction) (fs : list Function) :
  (forall i n, castTarget (g i) = Some n -> castTarget i = Some n) ->
  Forall2 refinesF fs (map (mapInFunction g) fs).
Proof.
  intro Hg. induction fs; simpl; constructor;
    [apply refinesF_mapInFunction; exact Hg | assumption].
Qed.

Ltac in_current :=
  rewrite instructionsOf_current in *; simpl in *;
  repeat (rewrite ?in_app_iff in *; simpl in * ).

Lemma refines_insertBefore (n : Instruction) (c : RWState) :
  castTarget n = None ->
  Forall2 refinesF (allFunctions c) (allFunctions (insertBefore n c)).
Proof.
  intro Hn. apply refines_zipper; try apply refines_refl; try reflexivity.
  intros i m Hi E. exists i. split; [|exact E]. in_current.
  destruct Hi as [H|[[[H|[H|[]]]|H]|H]]; try tauto.
  subst i. congruence.
Qed.

Lemma refines_mapAll (g : Instruction -> Instruction) (c : RWState) :
  (forall i n, castTarget (g i) = Some n -> castTarget i = Some n) ->
  Forall2 refinesF (allFunctions c) (allFunctions (mapAll g c)).
Proof.
  intro Hg. apply refines_zipper; try apply refines_map; try exact Hg; try reflexivity.
  intros i m Hi E. rewrite instructionsOf_current in Hi. simpl in Hi.
  rewrite <- !concat_map, <- !map_app in Hi.
  apply in_map_iff in Hi. destruct Hi as (j & <- & Hj).
  exists j. split; [|exact (Hg _ _ E)]. rewrite instructionsOf_current. exact Hj.
Qed.

Lemma refines_dropAllReferences (c : RWState) :
  Forall2 refinesF (allFunctions c) (allFunctions (dropAllReferences c)).
Proof.
  unfold dropAllReferences. destruct (ipost c) as [|i rest] eqn:P;
    [apply refines_refl|].
  apply refines_zipper; try apply refines_refl; try reflexivity.
  intros j m Hj E. exists j. split; [|exact E]. in_current. rewrite P. simpl.
  destruct Hj as [H|[[H|[H|H]]|H]]; try tauto.
  subst j. exfalso. revert E. unfold castTarget, mapOperands. simpl.
  destruct (ikind i); discriminate.
Qed.

Lemma refines_advance (c : RWState) :
  Forall2 refinesF (allFunctions c) (allFunctions (advance c)).
Proof.
  unfold advance. destruct (ipost c) as [|i rest] eqn:P; [apply refines_refl|].
  apply refines_zipper; try apply refines_refl; try reflexivity.
  intros j m Hj E. exists j. split; [|exact E]. in_current. rewrite P. simpl.
  tauto.
Qed.

Lemma refines_openBlock (BB : BasicBlock) (rest : list BasicBlock) (c : RWState) :
  bpost c = BB :: rest ->
  Forall2 refinesF (allFunctions c) (allFunctions (openBlock BB rest c)).
Proof.
  intro P. apply refines_zipper; try apply refines_refl; try reflexivity.
  intros j m Hj E. exists j. split; [|exact E]. in_current. rewrite P. simpl.
  rewrite in_app_iff. tauto.
Qed.

Lemma refines_closeBlock (c : RWState) :
  Forall2 refinesF (allFunctions c) (allFunctions (closeBlock c)).
Proof.
  apply refines_zipper; try apply refines_refl; try reflexivity.
  intros j m Hj E. exists j. split; [|exact E]. in_current.
  rewrite concat_app in Hj. simpl in Hj. rewrite app_nil_r in Hj.
  rewrite !in_app_iff in Hj. tauto.
Qed.

Lemma mentions_strip (v : Value) (n : string) (t : FunctionType) :
  stripPointerCasts v = VFunc n t -> mentions n v = true.
Proof.
  induction v; simpl; intro H; try discriminate.
  - injection H as -> _. apply String.eqb_refl.
  - auto.
Qed.

Lemma castTarget_usedBy (i : Instruction) (n : string) :
  castTarget i = Some n -> usedBy n i = true.
Proof.
  unfold castTarget, usedBy, operands.
  destruct (ikind i) as [callee a t cc| | |]; try discriminate.
  destruct callee as [| | | | | |v ty|]; try discriminate.
  destruct (stripPointerCasts (VBitCast v ty)) eqn:E; try discriminate.
  intro H. injection H as ->. rewrite existsb_app. apply orb_true_iff. right.
  simpl. rewrite orb_false_r. exact (mentions_strip (VBitCast v ty) E).
Qed.

(** A function without use is the target of no cast. *)
Lemma use_empty_not_target (name : string) (s : BCState) :
  use_empty name s = true -> ~ In name (castTargets (allFunctions (cursor s))).
Proof.
  unfold use_empty. intros H Hin. apply andb_true_iff in H. destruct H as [H _].
  apply negb_true_iff in H.
  apply castTargets_In in Hin. destruct Hin as (f & i & Hf & Hi & E).
  assert (X : existsb (fun f => existsb (usedBy name) (instructionsOf f))
                      (allFunctions (cursor s)) = true).
  { apply existsb_exists. exists f. split; [exact Hf|].
    apply existsb_exists. exists i. split; [exact Hi | apply castTarget_usedBy; exact E]. }
  congruence.
Qed.

Lemma names_filter (name : string) (fs : list Function) :
  map fname (filter (otherThan name) fs)
  = filter (fun n => negb (String.eqb n name)) (map fname fs).
Proof.
  induction fs as [|f fs IH]; simpl; [reflexivity|]. unfold otherThan at 1.
  destruct (String.eqb (fname f) name); simpl; rewrite IH; reflexivity.
Qed.

Lemma typeOf_filter (name n : string) (fs : list Function) :
  n <> name -> typeOf (filter (otherThan name) fs) n = typeOf fs n.
Proof.
  intro N. unfold typeOf. f_equal.
  induction fs as [|f fs IH]; simpl; [reflexivity|]. unfold otherThan at 1.
  destruct (String.eqb (fname f) name) eqn:E; simpl.
  - apply String.eqb_eq in E. rewrite E.
    destruct (String.eqb name n) eqn:E'; [|exact IH].
    apply String.eqb_eq in E'. congruence.
  - rewrite IH. reflexivity.
Qed.

Lemma castTargets_filter (p : Function -> bool) (fs : list Function) :
  incl (castTargets (filter p fs)) (castTargets fs).
Proof.
  intros n Hn. apply castTargets_In in Hn. destruct Hn as (f & i & Hf & Hi & E).
  apply filter_In in Hf. apply castTargets_In. exists f, i. tauto.
Qed.

(** [eraseFromParent] of a function, on the functions of the module. *)
Lemma allFunctions_eraseFunction (name : string) (c : RWState) :
  NoDup (map fname (allFunctions c)) ->
  allFunctions (eraseFunction name c) = filter (otherThan name) (allFunctions c)
  \/ allFunctions (eraseFunction name c) = allFunctions c.
Proof.
  intro N. unfold allFunctions, eraseFunction in *. simpl.
  change (currentFunction (mkRW _ _ _ _ _ _ _ _ _)) with (currentFunction c).
  fold (otherThan name).
  destruct (otherThan name (currentFunction c)) eqn:E.
  - left. rewrite filter_app. simpl. rewrite E. reflexivity.
  - right. unfold otherThan in E. apply negb_false_iff in E. apply String.eqb_eq in E.
    rewrite map_app in N. cbn [map] in N. rewrite E in N.
    pose proof (NoDup_remove_2 _ _ _ N) as X. rewrite in_app_iff in X.
    assert (K : forall l, ~ In name (map fname l) -> filter (otherThan name) l = l).
    { intros l Hl. apply filter_all. intros x Hx. unfold otherThan.
      apply negb_true_iff. apply String.eqb_neq. intro Ex. apply Hl.
      rewrite <- Ex. apply in_map. exact Hx. }
    rewrite !K by tauto. reflexivity.
Qed.

(** [Function::Create] and the clone put in the place of what it made. *)
Lemma allFunctions_create (ty : FunctionType) (linkage : LinkageTypes)
      (base : string) (c : RWState) :
  allFunctions (snd (Function_Create ty linkage base c))
  = allFunctions c ++ [fst (Function_Create ty linkage base c)].
Proof.
  unfold Function_Create, allFunctions, addFunction. simpl.
  change (currentFunction (mkRW _ _ _ _ _ _ _ _ _)) with (currentFunction c).
  rewrite <- app_assoc. reflexivity.
Qed.

Lemma Function_Create_fresh (ty : FunctionType) (linkage : LinkageTypes)
      (base : string) (c : RWState) :
  ~ In (fname (fst (Function_Create ty linkage base c))) (map fname (allFunctions c)).
Proof. unfold Function_Create. simpl. apply uniqueName_fresh. Qed.

Lemma allFunctions_replaceFunction (g d : Function) (c : RWState) :
  fname g = fname d -> ~ In (fname d) (map fname (allFunctions c)) ->
  allFunctions (replaceFunction g (addFunction d c)) = allFunctions c ++ [g].
Proof.
  intros E N. unfold allFunctions, replaceFunction, addFunction in *. simpl.
  change (currentFunction (mkRW _ _ _ _ _ _ _ _ _)) with (currentFunction c).
  rewrite map_app in N. simpl in N. rewrite in_app_iff in N. simpl in N.
  assert (K : forall l, ~ In (fname d) (map fname l) ->
                map (fun f => if String.eqb (fname f) (fname g) then g else f) l = l).
  { intros l Hl. rewrite <- (map_id l) at 2. apply map_ext_in. intros x Hx.
    destruct (String.eqb (fname x) (fname g)) eqn:Ex; [|reflexivity].
    apply String.eqb_eq in Ex. exfalso. apply Hl. rewrite <- E, <- Ex.
    apply in_map. exact Hx. }
  rewrite map_app, !K by tauto. simpl. rewrite E, String.eqb_refl.
  rewrite <- app_assoc. reflexivity.
Qed.

Lemma allFunctions_setNextId (n : InstId) (c : RWState) :
  allFunctions (setNextId n c) = allFunctions c.
Proof. reflexivity. Qed.

Lemma castTarget_cloneInstruction (vmap : list (InstId * InstId))
      (dstTy : FunctionType) (i : Instruction) (n : string) :
  castTarget (cloneInstruction vmap dstTy i) = Some n -> castTarget i = Some n.
Proof.
  intro H. apply (@castTarget_mapOperands (remapValue vmap dstTy));
    [apply remapValue_cast | exact H].
Qed.

Lemma targetsOf_CloneFunctionInto (dst src : Function) (next : InstId) :
  incl (targetsOf (CloneFunctionInto dst src next)) (targetsOf src).
Proof.
  intros n Hn. apply targetsOf_In in Hn. destruct Hn as (i & Hi & E).
  unfold instructionsOf, CloneFunctionInto in Hi. simpl in Hi.
  rewrite <- concat_map in Hi. apply in_map_iff in Hi. destruct Hi as (j & <- & Hj).
  apply targetsOf_In. exists j. split; [exact Hj|].
  exact (castTarget_cloneInstruction _ _ _ E).
Qed.

Lemma targetsOf_castTargets (f : Function) (fs : list Function) :
  In f fs -> incl (targetsOf f) (castTargets fs).
Proof.
  intros Hf n Hn. unfold castTargets. apply in_flat_map. exists f. tauto.
Qed.

Lemma findFunction_In (c : RWState) (n : string) (f : Function) :
  findFunction c n = Some f -> In f (allFunctions c) /\ fname f = n.
Proof. apply find_name. Qed.

Lemma typeOf_findFunction (c : RWState) (n : string) :
  typeOf (allFunctions c) n = option_map ftype (findFunction c n).
Proof. reflexivity. Qed.

(** [cloneName] is [cloneNameIn] of the functions and the cache of the
    state. *)
Lemma cloneName_eq (s : BCState) (k : string) (T : FunctionType) :
  cloneName s k T = cloneNameIn (allFunctions (cursor s)) (bitcastFunctionMap s) k T.
Proof.
  unfold cloneName, lookupClone, clonesOf, cloneNameIn, findClone.
  destruct (map_find (bitcastFunctionMap s) k) as [vec|]; [|reflexivity].
  rewrite (find_ext_in _ (fun F => sameType (Some T) (typeOf (allFunctions (cursor s)) F))).
  - destruct (find _ vec) as [F|] eqn:E; [|reflexivity].
    apply find_some in E. destruct E as [_ E]. rewrite typeOf_findFunction in E.
    destruct (findFunction (cursor s) F) as [f|] eqn:EF; [|discriminate].
    apply findFunction_In in EF. simpl. f_equal. tauto.
  - intros F _. rewrite typeOf_findFunction.
    destruct (findFunction (cursor s) F); reflexivity.
Qed.


Lemma lookupClone_None (s : BCState) (k : string) (T : FunctionType) :
  lookupClone s k T = None -> cloneName s k T = None.
Proof. intro H. unfold cloneName. rewrite H. reflexivity. Qed.

Lemma refinesF_trans (f g h : Function) : refinesF f g -> refinesF g h -> refinesF f h.
Proof.
  intros (N1 & T1 & I1) (N2 & T2 & I2). repeat split; try congruence.
  eapply incl_tran; eassumption.
Qed.

Lemma refines_trans (fs gs hs : list Function) :
  Forall2 refinesF fs gs -> Forall2 refinesF gs hs -> Forall2 refinesF fs hs.
Proof.
  intro H. revert hs. induction H as [|f g fs gs R _ IH]; intros hs H2;
    inversion H2; subst; constructor; [eapply refinesF_trans; eassumption | auto].
Qed.

Lemma at_cursor_target (c : RWState) (i : Instruction) (rest : list Instruction)
      (n : string) :
  ipost c = i :: rest -> castTarget i = Some n -> In n (castTargets (allFunctions c)).
Proof.
  intros P E. apply castTargets_In. exists (currentFunction c), i.
  split; [unfold allFunctions; apply in_or_app; right; left; reflexivity|].
  split; [|exact E]. rewrite instructionsOf_current, P, !in_app_iff. simpl. tauto.
Qed.

(** What is left of the functions when one of a name goes. *)
Lemma filter_step (name : string) (fs : list Function) :
  NoDup (map fname fs) ->
  let fs' := filter (otherThan name) fs in
  NoDup (map fname fs')
  /\ incl (castTargets fs') (castTargets fs)
  /\ incl (map fname fs') (map fname fs)
  /\ (forall n, In n (map fname fs) -> n <> name -> In n (map fname fs'))
  /\ (forall n, In n (map fname fs') -> typeOf fs' n = typeOf fs n).
Proof.
  intros N fs'. unfold fs'. rewrite names_filter.
  split; [apply NoDup_filter; exact N|].
  split; [apply castTargets_filter|].
  split; [intros n Hn; apply filter_In in Hn; tauto|].
  split.
  - intros n Hn Ne. apply filter_In. split; [exact Hn|].
    apply negb_true_iff. apply String.eqb_neq. exact Ne.
  - intros n Hn. apply filter_In in Hn. destruct Hn as [_ Hn].
    apply negb_true_iff in Hn. apply String.eqb_neq in Hn.
    apply typeOf_filter. exact Hn.
Qed.

Section Redirect.
Variables (pInstCall : Instruction) (callee : Value) (args : list Value)
          (cc : CallingConv) (name : string) (pDstFunc : Function) (s : BCState)
          (rest : list Instruction).
Hypothesis Inv : cacheInvariant s.
Hypothesis at_cursor : ipost (cursor s) = pInstCall :: rest.
Hypothesis target : castTarget pInstCall = Some name.

Let s' := redirectCall pInstCall callee args cc name pDstFunc s.
Let fs := allFunctions (cursor s).
Let fs' := allFunctions (cursor s').

Lemma redirectCall_cache : bitcastFunctionMap s' = bitcastFunctionMap s.
Proof. reflexivity. Qed.



Lemma redirectCall_ipost :
  exists dead, ipost (cursor s') = dead :: map (mapOperands (replaceUse (iid pInstCall) (nextId (cursor s)))) rest
               /\ iid dead = iid pInstCall /\ castTarget dead = None.
Proof.
  unfold s', redirectCall. cbv zeta. cbn [cursor].
  match goal with |- context [if ?b then _ else _] => destruct b end;
    cbn [push_back eraseFunction ipost];
    unfold dropAllReferences, replaceAllUsesWith, mapAll, takeId, insertBefore;
    cbn [ipost ipre iid]; rewrite at_cursor; cbn [map ipost];
    (eexists; split; [reflexivity|]; split; [reflexivity|]);
    unfold castTarget, mapOperands; simpl; destruct (ikind pInstCall); reflexivity.
Qed.

Lemma redirectCall_functions :
  NoDup (map fname fs')
  /\ incl (castTargets fs') (castTargets fs)
  /\ incl (map fname fs') (map fname fs)
  /\ (forall n, In n (map fname fs) -> n <> name -> In n (map fname fs'))
  /\ (In name (map fname fs') \/ ~ In name (castTargets fs'))
  /\ (forall n, In n (map fname fs') -> typeOf fs' n = typeOf fs n).
Proof.
  set (newCI := mkInst (nextId (cursor s)) (getReturnType (ftype pDstFunc)) 0
                       (Call (VFunc (fname pDstFunc) (ftype pDstFunc)) args
                             (ftype pDstFunc) cc)).
  set (c3 := dropAllReferences
               (replaceAllUsesWith (iid pInstCall) newCI
                  (takeId (insertBefore newCI (cursor s))))).
  assert (R : Forall2 refinesF fs (allFunctions c3)).
  { unfold c3, fs.
    eapply refines_trans; [|apply refines_dropAllReferences].
    eapply refines_trans; [|apply refines_mapAll].
    - exact (@refines_insertBefore newCI (cursor s) eq_refl).
    - intros i n. apply castTarget_mapOperands. apply replaceUse_cast. }
  assert (N3 : NoDup (map fname (allFunctions c3)))
    by (rewrite (refines_names R); exact (names_unique Inv)).
  assert (Same : fs' = allFunctions c3 ->
            NoDup (map fname fs')
            /\ incl (castTargets fs') (castTargets fs)
            /\ incl (map fname fs') (map fname fs)
            /\ (forall n, In n (map fname fs) -> n <> name -> In n (map fname fs'))
            /\ (In name (map fname fs') \/ ~ In name (castTargets fs'))
            /\ (forall n, In n (map fname fs') -> typeOf fs' n = typeOf fs n)).
  { intros ->. rewrite (refines_names R).
    split; [exact (names_unique Inv)|].
    split; [exact (refines_targets R)|].
    split; [apply incl_refl|].
    split; [tauto|].
    split; [left; apply (targets_exist Inv);
            exact (at_cursor_target _ at_cursor target)|].
    intros n _. apply refines_typeOf. exact R. }
  assert (E : fs' = allFunctions c3 \/
              (fs' = filter (otherThan name) (allFunctions c3)
               /\ ~ In name (castTargets (allFunctions c3)))).
  { unfold fs', s', redirectCall. cbv zeta. cbn [cursor]. fold newCI. fold c3.
    destruct (use_empty name (mkBC c3 (bitcastFunctionMap s) (bcGlobals s))) eqn:U;
      [|left; reflexivity].
    apply use_empty_not_target in U. cbn [cursor] in U.
    destruct (negb (isNestedCast callee)); [|left; reflexivity].
    cbn [andb].
    change (allFunctions (push_back (iid pInstCall) (eraseFunction name c3)))
      with (allFunctions (eraseFunction name c3)).
    destruct (@allFunctions_eraseFunction name c3 N3) as [F|F]; rewrite F;
      [right; split; [reflexivity | exact U] | left; reflexivity]. }
  destruct E as [E|[E U]]; [exact (Same E)|].
  destruct (@filter_step name _ N3) as (A & B & C & D & T). rewrite <- E in A, B, C, D, T.
  split; [exact A|].
  split; [eapply incl_tran; [exact B | exact (refines_targets R)]|].
  split; [rewrite <- (refines_names R); exact C|].
  split; [intros n Hn; apply D; rewrite (refines_names R); exact Hn|].
  split; [right; intro H; apply U; apply B; exact H|].
  intros n Hn. rewrite (T n Hn). apply refines_typeOf. exact R.
Qed.

(** The invariant after the call is redirected, and the clones the cache
    answers with. *)
Lemma redirectCall_invariant :
  cacheInvariant s'
  /\ forall k T, cloneName s' k T = cloneName s k T.
Proof.
  destruct redirectCall_functions as (A & B & C & D & G & T).
  assert (K : forall n, In n (map fname fs) ->
            In n (map fname fs') \/
            (~ In n (castTargets fs') /\
             forall k vec, map_find (bitcastFunctionMap s) k = Some vec -> ~ In n vec)).
  { intros n Hn. destruct (string_dec n name) as [->|Ne]; [|left; exact (D n Hn Ne)].
    destruct G as [G|G]; [left; exact G|]. right. split; [exact G|].
    intros k vec Hk Hc. eapply (clones_not_targets Inv); try eassumption.
    exact (at_cursor_target _ at_cursor target). }
  split.
  - unfold cacheInvariant. rewrite redirectCall_cache.
    eapply CacheInv_shrink; eassumption.
  - intros k T0. rewrite !cloneName_eq, redirectCall_cache.
    eapply cloneNameIn_shrink; eassumption.
Qed.
End Redirect.

(* ================================================================== *)
(** ** removeFunctionBitcasts: the body of the loop *)

Lemma targetsOf_cloneInto (d f : Function) (next : InstId) :
  incl (targetsOf (cloneInto d f next)) (targetsOf f).
Proof.
  unfold cloneInto. cbv zeta.
  change (targetsOf (setCallingConv ?g _))
    with (targetsOf g).
  apply targetsOf_CloneFunctionInto.
Qed.

Section Repair.
Variables (pInstCall : Instruction) (s : BCState) (rest : list Instruction).
Hypothesis Inv : cacheInvariant s.
Hypothesis at_cursor : ipost (cursor s) = pInstCall :: rest.

Variables (v : Value) (ty : Ty) (args : list Value) (callTy : FunctionType)
          (cc : CallingConv) (name : string) (fty : FunctionType)
          (funcTobeChanged : Function).
Hypothesis is_call : ikind pInstCall = Call (VBitCast v ty) args callTy cc.
Hypothesis strip : stripPointerCasts (VBitCast v ty) = VFunc name fty.
Hypothesis found : findFunction (cursor s) name = Some funcTobeChanged.
Hypothesis defined : isDeclaration funcTobeChanged = false.

Let fs := allFunctions (cursor s).
Let decl := fst (Function_Create callTy (flinkage funcTobeChanged)
                                 (fname funcTobeChanged) (cursor s)).
Let clone := cloneInto decl funcTobeChanged (nextId (cursor s)).
Let s2 := mkBC (setNextId (length (instructionsOf funcTobeChanged) + nextId (cursor s))
                          (replaceFunction clone (addFunction decl (cursor s))))
               (cachePush (bitcastFunctionMap s) name (fname clone))
               (bcGlobals s).

Lemma repair_target : castTarget pInstCall = Some name.
Proof. unfold castTarget. rewrite is_call, strip. reflexivity. Qed.

Lemma repairCall_hit (d : Function) :
  lookupClone s name callTy = Some d ->
  repairCall pInstCall s = redirectCall pInstCall (VBitCast v ty) args cc name d s.
Proof.
  intro L. unfold repairCall. rewrite is_call. cbv zeta.
  rewrite strip, found, defined, L. reflexivity.
Qed.

Lemma repairCall_mismatch :
  lookupClone s name callTy = None ->
  length (params callTy) <> arg_size funcTobeChanged ->
  repairCall pInstCall s
  = mkBC (addFunction decl (cursor s)) (bitcastFunctionMap s) (bcGlobals s).
Proof.
  intros L A. unfold repairCall. rewrite is_call. cbv zeta.
  rewrite strip, found, defined, L. unfold Function_Create. cbv zeta.
  unfold arg_size at 1. cbn [ftype].
  apply Nat.eqb_neq in A. rewrite A. reflexivity.
Qed.

Lemma repairCall_miss :
  lookupClone s name callTy = None ->
  length (params callTy) = arg_size funcTobeChanged ->
  repairCall pInstCall s
  = redirectCall pInstCall (VBitCast v ty) args cc name clone s2.
Proof.
  intros L A. unfold repairCall. rewrite is_call. cbv zeta.
  rewrite strip, found, defined, L. unfold Function_Create. cbv zeta.
  unfold arg_size at 1. cbn [ftype].
  apply Nat.eqb_eq in A. rewrite A. reflexivity.
Qed.

Lemma decl_fresh : ~ In (fname decl) (map fname fs).
Proof. apply Function_Create_fresh. Qed.

Lemma decl_type : ftype decl = callTy.
Proof. reflexivity. Qed.

Lemma clone_name : fname clone = fname decl.
Proof. reflexivity. Qed.

Lemma clone_type : ftype clone = callTy.
Proof. reflexivity. Qed.

Lemma functions_s2 : allFunctions (cursor s2) = fs ++ [clone].
Proof.
  unfold s2. cbn [cursor]. rewrite allFunctions_setNextId.
  apply allFunctions_replaceFunction; [apply clone_name | apply decl_fresh].
Qed.

Lemma clone_targets : incl (targetsOf clone) (castTargets fs).
Proof.
  eapply incl_tran; [apply targetsOf_cloneInto|].
  apply targetsOf_castTargets. apply (findFunction_In _ _ found).
Qed.

Lemma clone_not_target : ~ In (fname clone) (castTargets (fs ++ [clone])).
Proof.
  intro H. apply (@castTargets_add fs clone clone_targets) in H.
  apply (targets_exist Inv) in H. exact (decl_fresh H).
Qed.

Lemma clone_typeOf : typeOf (fs ++ [clone]) (fname clone) = Some callTy.
Proof.
  rewrite typeOf_app_r by exact decl_fresh. apply typeOf_single.
Qed.

(** The state before the call is redirected to the clone just made. *)
Lemma invariant_s2 :
  lookupClone s name callTy = None ->
  cacheInvariant s2
  /\ cloneName s2 name callTy = Some (fname clone)
  /\ forall k T x, cloneName s k T = Some x -> cloneName s2 k T = Some x.
Proof.
  intro L. apply lookupClone_None in L. rewrite cloneName_eq in L.
  assert (I1 : CacheInv (fs ++ [clone]) (bitcastFunctionMap s))
    by (eapply CacheInv_add; [exact Inv | exact decl_fresh | exact clone_targets]).
  assert (M : cloneNameIn (fs ++ [clone]) (bitcastFunctionMap s) name callTy = None).
  { erewrite cloneNameIn_add; [exact L | exact Inv]. }
  assert (E : In (fname clone) (map fname (fs ++ [clone]))).
  { rewrite map_app, in_app_iff. right. left. reflexivity. }
  split; [|split].
  - unfold cacheInvariant. rewrite functions_s2. unfold s2. cbn [bitcastFunctionMap].
    eapply CacheInv_push; [exact I1 | exact E | exact clone_not_target
                           | exact clone_typeOf | exact M].
  - rewrite cloneName_eq, functions_s2. unfold s2. cbn [bitcastFunctionMap].
    eapply cloneNameIn_push_new; [exact clone_typeOf | exact M].
  - intros k T x H. rewrite cloneName_eq in *. rewrite functions_s2.
    unfold s2. cbn [bitcastFunctionMap]. apply cloneNameIn_push_old.
    erewrite cloneNameIn_add; [exact H | exact Inv].
Qed.

Lemma invariant_mismatch :
  let s' := mkBC (addFunction decl (cursor s)) (bitcastFunctionMap s) (bcGlobals s) in
  cacheInvariant s'
  /\ forall k T, cloneName s' k T = cloneName s k T.
Proof.
  intro s'.
  assert (F : allFunctions (cursor s') = fs ++ [decl]).
  { unfold s'. cbn [cursor].
    exact (allFunctions_create callTy (flinkage funcTobeChanged)
                               (fname funcTobeChanged) (cursor s)). }
  assert (T : incl (targetsOf decl) (castTargets fs)) by (intros n []).
  split.
  - unfold cacheInvariant. rewrite F.
    eapply CacheInv_add; [exact Inv | exact decl_fresh | exact T].
  - intros k T0. rewrite !cloneName_eq, F. unfold s'. cbn [bitcastFunctionMap].
    eapply cloneNameIn_add. exact Inv.
Qed.
End Repair.

(** The body of the loop keeps the invariant, whatever the instruction, and
    the cache answers after as it answered before. *)
Lemma repairCall_invariant (pInstCall : Instruction) (s : BCState)
      (rest : list Instruction) :
  cacheInvariant s -> ipost (cursor s) = pInstCall :: rest ->
  cacheInvariant (repairCall pInstCall s)
  /\ forall k T x, cloneName s k T = Some x ->
                   cloneName (repairCall pInstCall s) k T = Some x.
Proof.
  intros Inv P.
  assert (Skip : repairCall pInstCall s = s ->
            cacheInvariant (repairCall pInstCall s)
            /\ forall k T x, cloneName s k T = Some x ->
                             cloneName (repairCall pInstCall s) k T = Some x)
    by (intros ->; split; [exact Inv | auto]).
  destruct (ikind pInstCall) as [callee args callTy cc| | |] eqn:K;
    try (apply Skip; unfold repairCall; rewrite K; reflexivity).
  destruct callee as [| | | | | |v ty|];
    try (apply Skip; unfold repairCall; rewrite K; reflexivity).
  destruct (stripPointerCasts (VBitCast v ty)) as [| | | | |name fty| |] eqn:S;
    try (apply Skip; unfold repairCall; rewrite K; cbv zeta; rewrite S; reflexivity).
  destruct (findFunction (cursor s) name) as [f|] eqn:F;
    [|apply Skip; unfold repairCall; rewrite K; cbv zeta; rewrite S, F; reflexivity].
  destruct (isDeclaration f) eqn:D;
    [apply Skip; unfold repairCall; rewrite K; cbv zeta; rewrite S, F, D; reflexivity|].
  pose proof (repair_target pInstCall K S) as Tg.
  destruct (lookupClone s name callTy) as [d|] eqn:L.
  - rewrite (repairCall_hit _ _ K S F D L).
    destruct (@redirectCall_invariant pInstCall (VBitCast v ty) args cc name d s rest
                                      Inv P Tg) as [I E].
    split; [exact I|]. intros k T x H. rewrite E. exact H.
  - destruct (Nat.eq_dec (length (params callTy)) (arg_size f)) as [A|A].
    + rewrite (repairCall_miss _ _ K S F D L A).
      destruct (@invariant_s2 s Inv callTy name f F L) as (I2 & _ & E2).
      match goal with |- cacheInvariant (redirectCall _ _ _ _ _ ?c ?s2) /\ _ =>
        destruct (@redirectCall_invariant pInstCall (VBitCast v ty) args cc name c s2
                                          rest I2 P Tg) as [I E]
      end.
      split; [exact I|]. intros k T x H. rewrite E. apply E2. exact H.
    + rewrite (repairCall_mismatch _ _ K S F D L A).
      destruct (invariant_mismatch Inv callTy f) as [I E].
      split; [exact I|]. intros k T x H. rewrite E. exact H.
Qed.

Lemma onCursor_invariant (g : RWState -> RWState) (s : BCState) :
  Forall2 refinesF (allFunctions (cursor s)) (allFunctions (g (cursor s))) ->
  cacheInvariant s ->
  cacheInvariant (onCursor g s)
  /\ forall k T, cloneName (onCursor g s) k T = cloneName s k T.
Proof.
  intros R Inv. destruct (CacheInv_refines Inv R) as [I E]. split; [exact I|].
  intros k T. rewrite !cloneName_eq. apply E.
Qed.

Lemma bcInstLoop_invariant (n : nat) (s : BCState) :
  cacheInvariant s ->
  cacheInvariant (bcInstLoop n s)
  /\ forall k T x, cloneName s k T = Some x -> cloneName (bcInstLoop n s) k T = Some x.
Proof.
  revert s. induction n as [|n IH]; intros s Inv; simpl; [split; auto|].
  destruct (ipost (cursor s)) as [|i rest] eqn:P; [split; auto|].
  destruct (repairCall_invariant Inv P) as [I1 E1].
  destruct (onCursor_invariant advance (refines_advance _) I1) as [I2 E2].
  destruct (IH _ I2) as [I3 E3].
  split; [exact I3|]. intros k T x H. apply E3. rewrite E2. apply E1. exact H.
Qed.

Lemma bcBlockLoop_invariant (n : nat) (s : BCState) :
  cacheInvariant s ->
  cacheInvariant (bcBlockLoop n s)
  /\ forall k T x, cloneName s k T = Some x -> cloneName (bcBlockLoop n s) k T = Some x.
Proof.
  revert s. induction n as [|n IH]; intros s Inv; simpl; [split; auto|].
  destruct (bpost (cursor s)) as [|BB rest] eqn:P; [split; auto|].
  destruct (onCursor_invariant (openBlock BB rest) (refines_openBlock _ P) Inv)
    as [I1 E1].
  destruct (bcInstLoop_invariant (length BB) I1) as [I2 E2].
  destruct (onCursor_invariant closeBlock (refines_closeBlock _) I2) as [I3 E3].
  destruct (IH _ I3) as [I4 E4].
  split; [exact I4|]. intros k T x H. apply E4. rewrite E3. apply E2. rewrite E1.
  exact H.
Qed.

Lemma refines_openFunction (func : Function) (rest : list Function) (m : ModState) :
  Forall2 refinesF (visited m ++ func :: rest) (allFunctions (openFunction func rest m)).
Proof.
  unfold allFunctions, openFunction. simpl.
  apply Forall2_app; [apply refines_refl|]. constructor; [|apply refines_refl].
  repeat split. intros n Hn. apply targetsOf_In in Hn. destruct Hn as (i & Hi & E).
  apply targetsOf_In. exists i. split; [exact Hi | exact E].
Qed.

Lemma refines_closeFunction (c : RWState) :
  Forall2 refinesF (allFunctions c)
          (visited (closeFunction c) ++ pending (closeFunction c)).
Proof.
  unfold allFunctions, closeFunction. simpl. rewrite <- app_assoc. simpl.
  apply Forall2_app; [apply refines_refl|]. constructor; [|apply refines_refl].
  repeat split. intros n Hn. apply targetsOf_In in Hn. destruct Hn as (i & Hi & E).
  apply targetsOf_In. exists i. split; [|exact E].
  rewrite instructionsOf_current. unfold instructionsOf in Hi. simpl in Hi.
  rewrite concat_app in Hi. rewrite !in_app_iff in *. tauto.
Qed.

(** The loop over the functions keeps the invariant. *)
Lemma bcFuncLoop_invariant (fuel : nat) (m m' : BCModState) :
  CacheInv (visited (bcm m) ++ pending (bcm m)) (bcmMap m) ->
  bcFuncLoop fuel m = Some m' ->
  CacheInv (visited (bcm m') ++ pending (bcm m')) (bcmMap m')
  /\ cacheGrows (visited (bcm m) ++ pending (bcm m)) (bcmMap m)
                (visited (bcm m') ++ pending (bcm m')) (bcmMap m').
Proof.
  revert m. induction fuel as [|fuel IH]; intros m Inv H; simpl in H.
  - destruct (pending (bcm m)) eqn:P; [|discriminate]. injection H as <-.
    rewrite P. split; [exact Inv | intros k T x Hx; exact Hx].
  - destruct (pending (bcm m)) as [|func rest] eqn:P.
    + injection H as <-. rewrite P. split; [exact Inv|].
      intros k T x Hx; exact Hx.
    + set (s0 := mkBC (openFunction func rest (bcm m)) (bcmMap m) (bcmGlobals m)) in *.
      destruct (CacheInv_refines Inv (refines_openFunction func rest (bcm m)))
        as [I0 E0].
      destruct (@bcBlockLoop_invariant (length (fblocks func)) s0 I0) as [I1 E1].
      set (s1 := bcBlockLoop (length (fblocks func)) s0) in *.
      destruct (CacheInv_refines I1 (refines_closeFunction (cursor s1))) as [I2 E2].
      destruct (IH (mkBCM (closeFunction (cursor s1)) (bitcastFunctionMap s1)
                          (bcGlobals s1)) I2 H) as [I3 E3].
      split; [exact I3|].
      intros k T x Hx. apply E3. cbn [bcm bcmMap]. rewrite E2.
      rewrite <- cloneName_eq. apply E1. rewrite cloneName_eq. unfold s0.
      cbn [cursor bitcastFunctionMap]. rewrite E0. exact Hx.
Qed.

(** On a well-formed module the pass ends with the invariant. *)
Lemma removeFunctionBitcasts_invariant (fuel : nat) (M : Module) (m : BCModState) :
  wellFormed M -> removeFunctionBitcasts_state fuel M = Some m ->
  CacheInv (visited (bcm m) ++ pending (bcm m)) (bcmMap m).
Proof.
  intros [N T] H. unfold removeFunctionBitcasts_state in H.
  apply bcFuncLoop_invariant in H; [tauto|]. simpl.
  constructor; try assumption; intros; discriminate.
Qed.





(* ================================================================== *)
(** ** removeFunctionBitcasts: when there is no cast *)

Lemma untouched_repairCall (i : Instruction) (s : BCState) :
  untouched i = true -> repairCall i s = s.
Proof.
  unfold untouched, repairCall.
  destruct (ikind i) as [callee a t cc| | |]; try reflexivity.
  destruct callee; try reflexivity. discriminate.
Qed.

Lemma bcInstLoop_untouched (cache : list (string * list string))
      (gl : list GlobalVariable) fp fc bp bpo fpo nid ld (post pre : list Instruction) :
  (forall i, In i post -> untouched i = true) ->
  bcInstLoop (length post) (mkBC (mkRW fp fc bp pre post bpo fpo nid ld) cache gl)
  = mkBC (mkRW fp fc bp (pre ++ post) [] bpo fpo nid ld) cache gl.
Proof.
  revert pre. induction post as [|i post IH]; intros pre H; simpl.
  - rewrite app_nil_r. reflexivity.
  - rewrite untouched_repairCall by (apply H; left; reflexivity).
    unfold onCursor, advance. simpl. rewrite IH by (intros j Hj; apply H; right; exact Hj).
    rewrite <- app_assoc. reflexivity.
Qed.

Lemma bcBlockLoop_untouched (cache : list (string * list string))
      (gl : list GlobalVariable) fp fc fpo nid ld (bs bp : list BasicBlock) :
  (forall i, In i (concat bs) -> untouched i = true) ->
  bcBlockLoop (length bs) (mkBC (mkRW fp fc bp [] [] bs fpo nid ld) cache gl)
  = mkBC (mkRW fp fc (bp ++ bs) [] [] [] fpo nid ld) cache gl.
Proof.
  revert bp. induction bs as [|b bs IH]; intros bp H; simpl.
  - rewrite app_nil_r. reflexivity.
  - unfold onCursor at 2. unfold openBlock. simpl.
    rewrite bcInstLoop_untouched
      by (intros i Hi; apply H; simpl; apply in_or_app; left; exact Hi).
    unfold onCursor, closeBlock. simpl. rewrite app_nil_r.
    rewrite IH by (intros i Hi; apply H; simpl; apply in_or_app; right; exact Hi).
    rewrite <- app_assoc. reflexivity.
Qed.

Lemma bcFuncLoop_untouched (cache : list (string * list string))
      (gl : list GlobalVariable) nid ld (fuel : nat) (pend vis : list Function) :
  (forall i, In i (flat_map instructionsOf pend) -> untouched i = true) ->
  length pend <= fuel ->
  bcFuncLoop fuel (mkBCM (mkMS vis pend nid ld) cache gl)
  = Some (mkBCM (mkMS (vis ++ pend) [] nid ld) cache gl).
Proof.
  revert pend vis. induction fuel as [|fuel IH]; intros pend vis H L.
  - destruct pend; [|simpl in L; lia]. simpl. rewrite app_nil_r. reflexivity.
  - destruct pend as [|f pend]; [simpl; rewrite app_nil_r; reflexivity|].
    cbn [bcFuncLoop bcm pending bcmMap bcmGlobals]. unfold openFunction.
    cbn [visited msNext msDelete].
    rewrite bcBlockLoop_untouched
      by (intros i Hi; apply H; simpl; apply in_or_app; left; exact Hi).
    unfold closeFunction. cbn [cursor fpre fcur bpre bpost fpost nextId ListDelete
                               bitcastFunctionMap bcGlobals].
    rewrite !app_nil_r, setBlocks_fblocks.
    rewrite IH; [rewrite <- app_assoc; reflexivity | | simpl in L; lia].
    intros i Hi. apply H. simpl. apply in_or_app. right. exact Hi.
Qed.

(** Without a call through a cast the pass gives the module back. *)
Lemma removeFunctionBitcasts_untouched (fuel : nat) (M : Module) :
  (forall i, In i (allInstructions M) -> untouched i = true) ->
  length (functions M) <= fuel ->
  removeFunctionBitcasts fuel M = Some M.
Proof.
  intros H L. unfold removeFunctionBitcasts, removeFunctionBitcasts_state.
  rewrite bcFuncLoop_untouched by assumption. cbn [bcm visited pending msDelete bcmGlobals].
  rewrite app_nil_r. simpl app.
  rewrite (map_ext _ (fun f => f)), map_id; [destruct M; reflexivity|].
  intro f. unfold eraseFromParent. simpl.
  rewrite (map_ext _ (fun b => b)), map_id; [apply setBlocks_fblocks|].
  intro b. apply filter_all. reflexivity.
Qed.

Lemma untouched_classify (i : Instruction) : untouched i = true -> classify i = Keep.
Proof.
  unfold untouched, classify.
  destruct (ikind i) as [callee a t cc| | |]; try reflexivity.
  destruct callee; try reflexivity. intro H.
  apply andb_true_iff in H. destruct H as [H B].
  apply andb_true_iff in H. destruct H as [H C].
  apply andb_true_iff in H. destruct H as [S E].
  apply negb_true_iff in S, E, C, B. cbv zeta. rewrite S, E, C. cbn [orb].
  unfold isBuiltinName in B.
  repeat (apply orb_false_iff in B; destruct B as [B ?]).
  destruct (map_find OneMap name); [discriminate|].
  destruct (map_find TwoMap name); [discriminate|].
  repeat match goal with H : String.prefix _ _ = false |- _ => rewrite H; clear H end.
  reflexivity.
Qed.

(* ================================================================== *)
(** * The Call Rewriter *)

Section RewriterClaims.
Context {Target : TargetIntrinsics}.

Lemma In_module_split (M : Module) fs1 F fs2 bs1 pre c post bs2 :
  functions M = fs1 ++ F :: fs2 ->
  fblocks F = bs1 ++ (pre ++ c :: post) :: bs2 ->
  In c (allInstructions M).
Proof.
  intros EF EB. rewrite (module_split M _ _ _ _ _ _ _ _ EF EB).
  apply in_or_app. right. left. reflexivity.
Qed.

(** What the claims about an erased instruction share. *)
Lemma replaced_at (M : Module) fs1 F fs2 bs1 pre c post bs2 :
  functions M = fs1 ++ F :: fs2 ->
  fblocks F = bs1 ++ (pre ++ c :: post) :: bs2 ->
  NoDup (map iid (allInstructions M)) ->
  firstFailure (allInstructions M) = None ->
  erases (classify c) = true ->
  let k := nextIdAt M fs1 bs1 pre in
  runOnModule M = Ok (rewrittenModule M)
  /\ (exists F',
        nth_error (functions (rewrittenModule M)) (length fs1) = Some F'
        /\ nth_error (fblocks F') (length bs1)
           = Some (residue M (nextIdAt M fs1 bs1 []) pre
                   ++ map (mapOperands (finalValue M)) (emit (classify c) (idbg c) k)
                   ++ residue M (newCount (classify c) + k) post))
  /\ (forall j, In j (allInstructions (rewrittenModule M)) -> iid j <> iid c)
  /\ (forall u, In u (allInstructions M) -> erases (classify u) = false ->
         In (mapOperands (finalValue M) u) (allInstructions (rewrittenModule M)))
  /\ (forall n, replacement (classify c) k = Some n ->
         (forall t, finalValue M (VInst (iid c) t) = VInst n t)
         /\ (forall j v t, In j (allInstructions (rewrittenModule M)) ->
                In v (operands j) -> v <> VInst (iid c) t)).
Proof.
  intros EF EB ND NF He k.
  pose proof (In_module_split M _ _ _ _ _ _ _ _ EF EB) as Hc.
  destruct (rewritten_at M _ _ _ _ _ _ _ _ EF EB) as (F' & HF & HB).
  rewrite runOnModule_rewrittenModule, NF.
  split; [reflexivity|]. split; [|split; [|split]].
  - exists F'. split; [exact HF|]. rewrite HB. do 2 f_equal.
    apply residue_erased; [exact Hc | exact He | apply nextIdAt_ge].
  - intros j Hj. eapply erased_gone; eassumption.
  - intros u Hu Hu'. apply survivors; assumption.
  - intros n Hn. split.
    + intro t. eapply finalValue_replaced;
        [ apply (module_split M _ _ _ _ _ _ _ _ EF EB) | exact ND | exact Hn ].
    + intros j v t Hj Hv. eapply no_use_left; [exact Hc | | exact Hj | exact Hv].
      unfold replacement in Hn. destruct (newCount (classify c)); [discriminate|].
      discriminate.
Qed.

Lemma new_id_fresh (M : Module) (x : InstId) :
  firstNewId M <= x -> ~ In x (map iid (allInstructions M)).
Proof.
  intros L H. apply in_map_iff in H. destruct H as (j & E & Hj).
  apply ids_below_firstNewId in Hj. lia.
Qed.

(** C1.  A call whose direct callee's name is a key of [OneMap] is, after
    [runOnModule], no longer in the module; where it stood stands one new
    call to the mapped intrinsic, instantiated with the callee's return
    type, with the arguments of the original call in order; every use of
    the original call's result is a use of the new call's result.  The
    arguments and the other operands of the module are read through
    [finalValue], which renames the results of the calls the pass replaced
    and nothing else. *)
Theorem OneMap_call_is_replaced
  (M : Module) fs1 F fs2 bs1 pre c post bs2 name calleeTy args fty cc IID :
  functions M = fs1 ++ F :: fs2 ->
  fblocks F = bs1 ++ (pre ++ c :: post) :: bs2 ->
  ikind c = Call (VFunc name calleeTy) args fty cc ->
  map_find OneMap name = Some IID ->
  NoDup (map iid (allInstructions M)) ->
  firstFailure (allInstructions M) = None ->
  exists M' F' n,
    runOnModule M = Ok M'
    /\ nth_error (functions M') (length fs1) = Some F'
    /\ nth_error (fblocks F') (length bs1)
       = Some (residue M (nextIdAt M fs1 bs1 []) pre
               ++ n :: residue M (S (iid n)) post)
    /\ n = callTo (intrinsicDeclaration IID [getReturnType calleeTy]) (iid n)
                  (map (finalValue M) args) (idbg c)
    /\ ~ In (iid n) (map iid (allInstructions M))
    /\ (forall j, In j (allInstructions M') -> iid j <> iid c)
    /\ (forall t, finalValue M (VInst (iid c) t) = VInst (iid n) t)
    /\ (forall j v t, In j (allInstructions M') -> In v (operands j) ->
                      v <> VInst (iid c) t)
    /\ (forall u, In u (allInstructions M) -> erases (classify u) = false ->
                  In (mapOperands (finalValue M) u) (allInstructions M')).
Proof.
  intros EF EB K HM ND NF.
  pose proof (In_module_split M _ _ _ _ _ _ _ _ EF EB) as Hc.
  pose proof (classify_OneMap c K HM) as C.
  destruct (rewritten_at M _ _ _ _ _ _ _ _ EF EB) as (F' & HF & HB).
  set (k := nextIdAt M fs1 bs1 pre) in *.
  exists (rewrittenModule M), F',
    (callTo (intrinsicDeclaration IID [getReturnType calleeTy]) k
            (map (finalValue M) args) (idbg c)).
  rewrite runOnModule_rewrittenModule, NF.
  repeat split.
  - exact HF.
  - rewrite HB. do 2 f_equal.
    rewrite residue_erased;
      [ | exact Hc | rewrite C; reflexivity | apply nextIdAt_ge ].
    rewrite C. cbn [emit map newCount app]. unfold callTo, mapOperands.
    cbn [ikind iid ity idbg]. rewrite finalValue_VFunc. reflexivity.
  - cbn [callTo iid]. intro H. apply in_map_iff in H. destruct H as (j & E & Hj).
    apply ids_below_firstNewId in Hj. pose proof (nextIdAt_ge M fs1 bs1 pre).
    fold k in H. lia.
  - intros j Hj.
    eapply erased_gone; [exact Hc | rewrite C; reflexivity | exact Hj].
  - intro t. cbn [callTo iid].
    eapply finalValue_replaced;
      [ apply (module_split M _ _ _ _ _ _ _ _ EF EB) | exact ND
      | rewrite C; reflexivity ].
  - intros j v t Hj Hv.
    eapply no_use_left; [exact Hc | rewrite C; discriminate | exact Hj | exact Hv].
  - intros u Hu He. apply survivors; assumption.
Qed.


(** C2.  A call whose direct callee's name is a key of [TwoMap] is, after
    [runOnModule], no longer in the module; where it stood stand two new
    calls, chained: the first to the first intrinsic, instantiated with the
    type of the original call's first argument, with all the original
    arguments; the second to the second intrinsic, instantiated with the
    callee's return type and the first call's type, with the first call's
    result as its only argument; every use of the original call's result is
    a use of the second call's result. *)
Theorem TwoMap_call_is_replaced
  (M : Module) fs1 F fs2 bs1 pre c post bs2 name calleeTy arg0 rest fty cc ids :
  functions M = fs1 ++ F :: fs2 ->
  fblocks F = bs1 ++ (pre ++ c :: post) :: bs2 ->
  ikind c = Call (VFunc name calleeTy) (arg0 :: rest) fty cc ->
  map_find TwoMap name = Some ids ->
  NoDup (map iid (allInstructions M)) ->
  firstFailure (allInstructions M) = None ->
  exists M' F' n0 n1,
    runOnModule M = Ok M'
    /\ nth_error (functions M') (length fs1) = Some F'
    /\ nth_error (fblocks F') (length bs1)
       = Some (residue M (nextIdAt M fs1 bs1 []) pre
               ++ n0 :: n1 :: residue M (S (iid n1)) post)
    /\ n0 = callTo (intrinsicDeclaration (fst ids) [getType arg0]) (iid n0)
                   (map (finalValue M) (arg0 :: rest)) (idbg c)
    /\ n1 = callTo (intrinsicDeclaration (snd ids)
                                         [getReturnType calleeTy; ity n0])
                   (iid n1) [asValue n0] (idbg c)
    /\ ~ In (iid n0) (map iid (allInstructions M))
    /\ ~ In (iid n1) (map iid (allInstructions M))
    /\ iid n0 <> iid n1
    /\ (forall j, In j (allInstructions M') -> iid j <> iid c)
    /\ (forall t, finalValue M (VInst (iid c) t) = VInst (iid n1) t)
    /\ (forall j v t, In j (allInstructions M') -> In v (operands j) ->
                      v <> VInst (iid c) t)
    /\ (forall u, In u (allInstructions M) -> erases (classify u) = false ->
                  In (mapOperands (finalValue M) u) (allInstructions M')).
Proof.
  intros EF EB K HM ND NF.
  pose proof (classify_TwoMap c K HM) as C.
  assert (He : erases (classify c) = true) by (rewrite C; reflexivity).
  destruct (replaced_at M _ _ _ _ _ _ _ _ EF EB ND NF He)
    as (R & (F' & HF & HB) & Gone & Surv & Uses).
  set (k := nextIdAt M fs1 bs1 pre) in *.
  destruct (Uses (S k)) as [U1 U2]; [rewrite C; reflexivity|].
  pose proof (nextIdAt_ge M fs1 bs1 pre) as Lk. fold k in Lk.
  set (n0 := callTo (intrinsicDeclaration (fst ids) [getType arg0]) k
                    (map (finalValue M) (arg0 :: rest)) (idbg c)).
  exists (rewrittenModule M), F', n0,
    (callTo (intrinsicDeclaration (snd ids) [getReturnType calleeTy; ity n0])
            (S k) [asValue n0] (idbg c)).
  repeat split; try assumption.
  - rewrite HB, C. cbn [emit map newCount app]. unfold callTo, mapOperands, asValue.
    cbn [ikind iid ity idbg map plus].
    rewrite !finalValue_VFunc, finalValue_new by exact Lk. reflexivity.
  - apply new_id_fresh. exact Lk.
  - apply new_id_fresh. cbn [callTo iid]. lia.
  - cbn [callTo iid n0]. lia.
Qed.



Lemma kept_at (M : Module) fs1 F fs2 bs1 pre c post bs2 :
  functions M = fs1 ++ F :: fs2 ->
  fblocks F = bs1 ++ (pre ++ c :: post) :: bs2 ->
  NoDup (map iid (allInstructions M)) ->
  firstFailure (allInstructions M) = None ->
  erases (classify c) = false ->
  runOnModule M = Ok (rewrittenModule M)
  /\ exists F',
       nth_error (functions (rewrittenModule M)) (length fs1) = Some F'
       /\ nth_error (fblocks F') (length bs1)
          = Some (residue M (nextIdAt M fs1 bs1 []) pre
                  ++ mapOperands (finalValue M) c
                  :: residue M (nextIdAt M fs1 bs1 pre) post).
Proof.
  intros EF EB ND NF He.
  pose proof (In_module_split M _ _ _ _ _ _ _ _ EF EB) as Hc.
  destruct (rewritten_at M _ _ _ _ _ _ _ _ EF EB) as (F' & HF & HB).
  rewrite runOnModule_rewrittenModule, NF. split; [reflexivity|].
  exists F'. split; [exact HF|]. rewrite HB. do 2 f_equal.
  apply residue_kept; assumption.
Qed.

(** C10.  [runOnModule] looks at the direct callee's name and at nothing
    else of the callee.  A call to a function whose name is a key of a map
    or starts with one of the four prefixes is erased and instructions that
    do not call that function stand in its place, also when the module
    defines the function with a body.  A call whose callee is not a
    function is kept where it is, with its identity, its callee and its
    arguments (read through [finalValue]). *)
Theorem rewriter_dispatches_on_callee_name
  (M : Module) fs1 F fs2 bs1 pre c post bs2 callee args fty cc :
  functions M = fs1 ++ F :: fs2 ->
  fblocks F = bs1 ++ (pre ++ c :: post) :: bs2 ->
  ikind c = Call callee args fty cc ->
  NoDup (map iid (allInstructions M)) ->
  firstFailure (allInstructions M) = None ->
  (forall name calleeTy G,
      callee = VFunc name calleeTy -> isBuiltinName name = true ->
      getFunction M name = Some G -> isDeclaration G = false ->
      exists M' F' news,
        runOnModule M = Ok M'
        /\ nth_error (functions M') (length fs1) = Some F'
        /\ nth_error (fblocks F') (length bs1)
           = Some (residue M (nextIdAt M fs1 bs1 []) pre ++ news
                   ++ residue M (length news + nextIdAt M fs1 bs1 pre) post)
        /\ news <> []
        /\ (forall j, In j (allInstructions M') -> iid j <> iid c)
        /\ (forall j, In j news ->
               ~ In (iid j) (map iid (allInstructions M))
               /\ forall ty' a f cc', ikind j <> Call (VFunc name ty') a f cc'))
  /\ ((forall name calleeTy, callee <> VFunc name calleeTy) ->
      exists M' F' c',
        runOnModule M = Ok M'
        /\ nth_error (functions M') (length fs1) = Some F'
        /\ nth_error (fblocks F') (length bs1)
           = Some (residue M (nextIdAt M fs1 bs1 []) pre
                   ++ c' :: residue M (nextIdAt M fs1 bs1 pre) post)
        /\ iid c' = iid c
        /\ ikind c' = Call (finalValue M callee) (map (finalValue M) args) fty cc).
Proof.
  intros EF EB K ND NF.
  pose proof (In_module_split M _ _ _ _ _ _ _ _ EF EB) as Hc.
  split.
  - intros name calleeTy G -> HB _ _.
    destruct (classify_builtin c K HB (firstFailure_None _ c NF Hc)) as [He Hn].
    destruct (replaced_at M _ _ _ _ _ _ _ _ EF EB ND NF He)
      as (R & (F' & HF & HBk) & Gone & _ & _).
    set (k := nextIdAt M fs1 bs1 pre) in *.
    exists (rewrittenModule M), F',
      (map (mapOperands (finalValue M)) (emit (classify c) (idbg c) k)).
    rewrite length_map, length_emit.
    repeat split; try assumption.
    + intro E. apply (f_equal (@length _)) in E.
      rewrite length_map, length_emit in E. exact (Hn E).
    + apply in_map_iff in H. destruct H as (j0 & <- & Hj0).
      apply new_id_fresh. apply emit_ids in Hj0.
      pose proof (nextIdAt_ge M fs1 bs1 pre). fold k in H. simpl. lia.
    + intros ty' a f cc' E.
      apply in_map_iff in H. destruct H as (j0 & <- & Hj0).
      unfold mapOperands in E. simpl in E.
      destruct (ikind j0) as [callee0 a0 f0 cc0| | |] eqn:Ej; try discriminate.
      injection E as E _ _ _.
      apply finalValue_VFunc_inv in E. subst callee0.
      pose proof (emitted_callee c K HB _ _ _ Hj0 Ej) as P.
      rewrite (builtin_name_not_llvm _ HB) in P. discriminate.
  - intro NFn.
    destruct (kept_at M _ _ _ _ _ _ _ _ EF EB ND NF)
      as (R & F' & HF & HBk).
    { rewrite (classify_indirect c K NFn). reflexivity. }
    exists (rewrittenModule M), F', (mapOperands (finalValue M) c).
    repeat split; try assumption.
    unfold mapOperands. simpl. rewrite K. reflexivity.
Qed.

Lemma all_kept (l : list Instruction) :
  (forall i, In i l -> classify i = Keep) ->
  forall n, firstFailure l = None /\ pairsFrom n l = []
            /\ erasedIds l = [] /\ requestsOf l = []
            /\ lowerInsts n l = l /\ countNew l = 0.
Proof.
  induction l as [|i l IH]; intros Hl n; [repeat split|].
  destruct (IH (fun j Hj => Hl j (or_intror Hj)) n) as (A & B & C & D & E & Fc).
  pose proof (Hl i (or_introl eq_refl)) as Ki.
  unfold erasedIds in *. simpl. unfold pairOf. rewrite Ki. simpl.
  rewrite A, B, C, D, E, Fc. repeat split.
Qed.

Lemma lowerBlocks_all_kept (bs : list BasicBlock) (n : InstId) :
  (forall i, In i (concat bs) -> classify i = Keep) -> lowerBlocks n bs = bs.
Proof.
  revert n. induction bs as [|b bs IH]; intros n H; [reflexivity|]. simpl.
  assert (Hb : forall i, In i b -> classify i = Keep)
    by (intros i Hi; apply H; simpl; apply in_or_app; left; exact Hi).
  destruct (all_kept b Hb n) as (_ & _ & _ & _ & Eb & Zb). rewrite Eb, Zb. simpl.
  rewrite IH; [reflexivity|].
  intros i Hi. apply H. simpl. apply in_or_app. right. exact Hi.
Qed.

Lemma lowerFuncs_all_kept (fs : list Function) (n : InstId) :
  (forall i, In i (flat_map instructionsOf fs) -> classify i = Keep) ->
  lowerFuncs n fs = fs.
Proof.
  revert n. induction fs as [|f fs IH]; intros n H; [reflexivity|]. simpl.
  assert (Hf : forall i, In i (instructionsOf f) -> classify i = Keep)
    by (intros i Hi; apply H; simpl; apply in_or_app; left; exact Hi).
  destruct (all_kept _ Hf n) as (_ & _ & _ & _ & _ & Z). rewrite Z. simpl.
  rewrite (lowerBlocks_all_kept _ n Hf), setBlocks_fblocks.
  rewrite IH; [reflexivity|].
  intros i Hi. apply H. simpl. apply in_or_app. right. exact Hi.
Qed.

(** When the body keeps every instruction, [runOnModule] only sets the
    linkages. *)
Lemma runOnModule_all_kept (M : Module) :
  (forall i, In i (allInstructions M) -> classify i = Keep) ->
  runOnModule M = Ok (mkModule (map internalizeFunction (functions M))
                               (map internalizeGlobal (globals M))).
Proof.
  intro H. rewrite runOnModule_rewrittenModule.
  destruct (all_kept _ H (firstNewId M)) as (A & B & C & D & E & Fc).
  rewrite A. f_equal. unfold rewrittenModule. fold (firstNewId M).
  rewrite B, C, D. cbn [declareAll]. rewrite app_nil_r.
  rewrite map_mapInFunction_substInst_nil. f_equal. f_equal.
  rewrite (lowerFuncs_all_kept _ _ H).
  rewrite (map_ext _ (fun f => f)), map_id; [reflexivity|].
  intro f. unfold eraseFromParent. simpl.
  rewrite (map_ext _ (fun b => b)), map_id; [apply setBlocks_fblocks|].
  intro b. apply filter_all. reflexivity.
Qed.

End RewriterClaims.

(* ================================================================== *)
(** * The demand-driven walk *)

Lemma getFunction_updateFunction (g : Function -> Function) (name n : string)
      (M : Module) :
  (forall f, fname (g f) = fname f) ->
  getFunction (updateFunction g name M) n
  = if String.eqb n name then option_map g (getFunction M n) else getFunction M n.
Proof.
  intro Hg. unfold getFunction, updateFunction. cbn [functions].
  induction (functions M) as [|f fs IH]; simpl.
  - destruct (String.eqb n name); reflexivity.
  - destruct (String.eqb_spec (fname f) name) as [E|N].
    + rewrite Hg. destruct (String.eqb_spec (fname f) n) as [E'|N'].
      * subst. rewrite String.eqb_refl. reflexivity.
      * exact IH.
    + destruct (String.eqb_spec (fname f) n) as [E'|N']; [|exact IH].
      subst. destruct (String.eqb_spec (fname f) name); [contradiction | reflexivity].
Qed.

Lemma deref_update (g : Function -> Function) (p : FunctionPtr) (st : LinkState) :
  (forall f, fname (g f) = fname f) ->
  deref (update g p st) p = option_map g (deref st p).
Proof.
  intro Hg. destruct p as [[|] name]; unfold deref, update; simpl;
    rewrite (getFunction_updateFunction _ _ _ _ Hg), String.eqb_refl; reflexivity.
Qed.

Lemma fname_materialized (f : Function) : fname (materialized f) = fname f.
Proof.
  unfold materialized, materialize. destruct (flazy f) as [[msg|body]|]; reflexivity.
Qed.

Lemma fcc_materialized (f : Function) : fcc (materialized f) = fcc f.
Proof.
  unfold materialized, materialize. destruct (flazy f) as [[msg|body]|]; reflexivity.
Qed.

Lemma getCallingConv_materialized (pRoot pFunc : FunctionPtr) (st : LinkState) :
  getCallingConv (update materialized pFunc st) pRoot = getCallingConv st pRoot.
Proof.
  unfold getCallingConv, deref.
  destruct pFunc as [[|] name], pRoot as [[|] root]; unfold update; simpl;
    try reflexivity;
    rewrite (getFunction_updateFunction _ _ _ _ fname_materialized);
    destruct (String.eqb root name); try reflexivity;
    destruct (getFunction _ root); simpl; try reflexivity; apply fcc_materialized.
Qed.

Lemma deref_loaded (pRoot pFunc : FunctionPtr) (st : LinkState) (F : Function) :
  deref st pFunc = Some F ->
  deref (loaded pRoot pFunc st) pFunc
  = Some (setCallingConv (materialized F) (getCallingConv st pRoot)).
Proof.
  intro H. unfold loaded.
  rewrite deref_update by reflexivity.
  rewrite (deref_update _ _ _ fname_materialized), H. simpl.
  rewrite getCallingConv_materialized. reflexivity.
Qed.

(** C8.  A callee that is only declared and whose name the library does not
    define is skipped: the loop of [Explore] goes on to the next callee in
    the state it was in, nothing is loaded, written or reported; with no
    callee left the exploration ends without an error. *)
Theorem unresolved_callee_is_skipped
  (Explore_rec : FunctionPtr -> LinkState -> option (Result LinkState))
  (pRoot pCallee : FunctionPtr) (rest : list FunctionPtr) (st : LinkState)
  (callee : Function) :
  deref st pCallee = Some callee ->
  isDeclaration callee = true ->
  (forall F, getFunction (BiFModule st) (snd pCallee) = Some F ->
             isDeclaration F = true) ->
  ExploreCallees Explore_rec pRoot (pCallee :: rest) st
  = ExploreCallees Explore_rec pRoot rest st
  /\ ExploreCallees Explore_rec pRoot [pCallee] st = Some (Ok st).
Proof.
  intros D Hd HB.
  assert (R : resolve st pCallee = None).
  { unfold resolve. rewrite D, Hd. unfold GetBuiltinFunction.
    destruct (getFunction (BiFModule st) (snd pCallee)) as [F|] eqn:E; [|reflexivity].
    rewrite (HB F eq_refl). reflexivity. }
  split; simpl; rewrite R; reflexivity.
Qed.


(** C3, as the code has it.  For a callee that is defined, the loop of
    [Explore] does nothing when its body is loaded already, and goes on to
    the next callee; it calls [Explore] for it only when it has just loaded
    its body. *)
Theorem defined_callee_is_explored_when_loaded_now
  (Explore_rec : FunctionPtr -> LinkState -> option (Result LinkState))
  (pRoot pCallee : FunctionPtr) (rest : list FunctionPtr) (st : LinkState)
  (callee : Function) :
  deref st pCallee = Some callee ->
  isDeclaration callee = false ->
  (isMaterializable callee = false ->
     ExploreCallees Explore_rec pRoot (pCallee :: rest) st
     = ExploreCallees Explore_rec pRoot rest st)
  /\ (forall body, flazy callee = Some (inr body) ->
        ExploreCallees Explore_rec pRoot (pCallee :: rest) st
        = match Explore_rec pCallee (loaded pRoot pCallee st) with
          | Some (Ok st') => ExploreCallees Explore_rec pRoot rest st'
          | other => other
          end).
Proof.
  intros D Hd.
  assert (R : resolve st pCallee = Some pCallee)
    by (unfold resolve; rewrite D, Hd; reflexivity).
  split.
  - intro Hm. simpl. rewrite R, D, Hm. reflexivity.
  - intros body L. simpl. rewrite R, D. unfold isMaterializable, materialize.
    rewrite L. reflexivity.
Qed.

(** ** The recursion of [Explore] ends *)

Lemma count_update_le (g : Function -> Function) (name : string) (M : Module) :
  (forall f, isMaterializable (g f) = true -> isMaterializable f = true) ->
  countMaterializable (updateFunction g name M) <= countMaterializable M.
Proof.
  intro Hg. unfold countMaterializable, updateFunction. cbn [functions].
  induction (functions M) as [|f fs IH]; simpl; [lia|].
  destruct (String.eqb (fname f) name).
  - destruct (isMaterializable (g f)) eqn:E.
    + rewrite (Hg _ E). simpl. lia.
    + destruct (isMaterializable f); simpl; lia.
  - destruct (isMaterializable f); simpl; lia.
Qed.

Lemma count_update_lt (g : Function -> Function) (name : string) (M : Module)
      (F : Function) :
  (forall f, isMaterializable (g f) = true -> isMaterializable f = true) ->
  getFunction M name = Some F ->
  isMaterializable F = true -> isMaterializable (g F) = false ->
  countMaterializable (updateFunction g name M) < countMaterializable M.
Proof.
  intros Hg HF Hm Hn. unfold countMaterializable, updateFunction, getFunction in *.
  cbn [functions]. induction (functions M) as [|f fs IH]; simpl in *; [discriminate|].
  destruct (String.eqb (fname f) name) eqn:E.
  - injection HF as ->. rewrite Hn, Hm. simpl.
    pose proof (@count_update_le g name (mkModule fs []) Hg) as L.
    unfold countMaterializable, updateFunction in L. simpl in L. lia.
  - specialize (IH HF). destruct (isMaterializable f); simpl; lia.
Qed.

Lemma materialized_materializable (f : Function) :
  isMaterializable (materialized f) = true -> isMaterializable f = true.
Proof.
  unfold materialized, materialize, isMaterializable.
  destruct (flazy f) as [[msg|body]|] eqn:E; simpl; rewrite ?E; auto.
Qed.

Lemma pendingBodies_update_le (g : Function -> Function) (p : FunctionPtr)
      (st : LinkState) :
  (forall f, isMaterializable (g f) = true -> isMaterializable f = true) ->
  pendingBodies (update g p st) <= pendingBodies st.
Proof.
  intro Hg. destruct p as [[|] name]; unfold pendingBodies, update; simpl;
    pose proof (@count_update_le g name (MainModule st) Hg);
    pose proof (@count_update_le g name (BiFModule st) Hg); lia.
Qed.

Lemma pendingBodies_loaded (pRoot pFunc : FunctionPtr) (st : LinkState)
      (F : Function) (body : list BasicBlock) :
  deref st pFunc = Some F -> flazy F = Some (inr body) ->
  pendingBodies (loaded pRoot pFunc st) < pendingBodies st.
Proof.
  intros D L. unfold loaded.
  eapply Nat.le_lt_trans; [apply pendingBodies_update_le; auto|].
  assert (Hm : isMaterializable F = true) by (unfold isMaterializable; rewrite L; auto).
  assert (Hn : isMaterializable (materialized F) = false)
    by (unfold materialized, materialize, isMaterializable; rewrite L; auto).
  destruct pFunc as [[|] name]; unfold pendingBodies, update, deref in *; simpl in *.
  - pose proof (@count_update_lt materialized name (MainModule st) F
                  materialized_materializable D Hm Hn). lia.
  - pose proof (@count_update_lt materialized name (BiFModule st) F
                  materialized_materializable D Hm Hn). lia.
Qed.

Lemma pendingBodies_GetCalledFunctions (pFunc : FunctionPtr) (st : LinkState) :
  pendingBodies (fst (GetCalledFunctions pFunc st)) <= pendingBodies st.
Proof.
  unfold GetCalledFunctions. destruct (deref st pFunc); simpl; [|lia].
  apply pendingBodies_update_le. intros g H. exact H.
Qed.

(** With more fuel than bodies to load, [Explore] has an outcome, and leaves
    no more bodies to load than it found. *)
Theorem Explore_enough_fuel (fuel : nat) :
  forall (pRoot : FunctionPtr) (st : LinkState),
    pendingBodies st < fuel ->
    exists r, Explore fuel pRoot st = Some r
              /\ forall st', r = Ok st' -> pendingBodies st' <= pendingBodies st.
Proof.
  induction fuel as [|fuel IH]; intros pRoot st L; [lia|].
  simpl. pose proof (pendingBodies_GetCalledFunctions pRoot st) as G.
  destruct (GetCalledFunctions pRoot st) as [st1 called]. simpl in G.
  assert (K : forall cs s, pendingBodies s <= pendingBodies st1 ->
              exists r, ExploreCallees (Explore fuel) pRoot cs s = Some r
                        /\ forall st', r = Ok st' ->
                                       pendingBodies st' <= pendingBodies st1).
  { induction cs as [|c cs IHc]; intros s Ls; simpl.
    - eexists. split; [reflexivity|]. intros st' E. injection E as <-. exact Ls.
    - destruct (resolve s c) as [pFunc|]; [|apply IHc, Ls].
      destruct (deref s pFunc) as [F|] eqn:D; [|apply IHc, Ls].
      destruct (isMaterializable F) eqn:Hm; [|apply IHc, Ls].
      unfold materialize. unfold isMaterializable in Hm.
      destruct (flazy F) as [[msg|body]|] eqn:Lz; try discriminate.
      + destruct (assert false _) as [text|].
        * eexists. split; [reflexivity|]. intros st' E. discriminate.
        * apply IHc. exact Ls.
      + pose proof (pendingBodies_loaded pRoot pFunc s D Lz) as Lt.
        fold (loaded pRoot pFunc s).
        destruct (IH pFunc (loaded pRoot pFunc s)) as (r & Er & Hr); [lia|].
        rewrite Er. destruct r as [st2|d m].
        * apply IHc. specialize (Hr st2 eq_refl). lia.
        * eexists. split; [reflexivity|]. intros st' E. discriminate. }
  destruct (K called st1 (Nat.le_refl _)) as (r & Er & Hr).
  exists r. split; [exact Er|]. intros st' E. specialize (Hr st' E). lia.
Qed.

(** The loop over the roots has an outcome. *)
Theorem ExploreAll_total (roots : list string) :
  forall st, exists r, ExploreAll roots st = Some r.
Proof.
  induction roots as [|func roots IH]; intro st; simpl; [eauto|].
  destruct (@Explore_enough_fuel (S (pendingBodies st)) (InMain, func) st)
    as (r & Er & _); [lia|].
  simpl in Er. rewrite Er. destruct r; [apply IH | eauto].
Qed.

(* ================================================================== *)
(** ** Claims on the repair of the signatures *)


(** C4.  At a call through a cast of a defined function whose number of
    parameters is not the number of arguments of the call, when the cache
    holds no clone for the type of the call, the repair leaves the call, the
    cache and the list of the instructions to delete as they were, but the
    module has one function more: the declaration [Function::Create] made
    before the numbers were compared, under a new name, with the type of the
    call and without a body. *)
Theorem arity_mismatch_leaves_a_declaration
        (s : BCState) (pInstCall : Instruction)
        (v : Value) (ty : Ty) (args : list Value) (callTy : FunctionType)
        (cc : CallingConv) (name : string) (fty : FunctionType)
        (funcTobeChanged : Function) :
  ikind pInstCall = Call (VBitCast v ty) args callTy cc ->
  stripPointerCasts (VBitCast v ty) = VFunc name fty ->
  findFunction (cursor s) name = Some funcTobeChanged ->
  isDeclaration funcTobeChanged = false ->
  lookupClone s name callTy = None ->
  length (params callTy) <> arg_size funcTobeChanged ->
  let s' := repairCall pInstCall s in
  exists pDstFunc : Function,
    allFunctions (cursor s') = allFunctions (cursor s) ++ [pDstFunc]
    /\ ~ In (fname pDstFunc) (map fname (allFunctions (cursor s)))
    /\ ftype pDstFunc = callTy
    /\ isDeclaration pDstFunc = true
    /\ ipre (cursor s') = ipre (cursor s)
    /\ ipost (cursor s') = ipost (cursor s)
    /\ ListDelete (cursor s') = ListDelete (cursor s)
    /\ bitcastFunctionMap s' = bitcastFunctionMap s.
Proof.
  intros K S F D L A s'. unfold s'.
  rewrite (repairCall_mismatch pInstCall s K S F D L A).
  eexists. split; [apply allFunctions_create|].
  split; [apply Function_Create_fresh|].
  repeat split.
Qed.

Section PassesClaims.
Context {Target : TargetIntrinsics}.

(** C9, amended.  On a module without a direct call of a lifetime marker, of
    [llvm.ctlz] or of a name the converter looks for, and without a call
    through a cast, the two passes keep every instruction and every function
    in place; what they change is the linkage: a defined function that is
    neither an intrinsic nor a dllexport and a defined global are made
    internal. *)
Theorem rewrite_passes_only_internalize (M : Module) (fuel : nat) :
  (forall i, In i (allInstructions M) -> untouched i = true) ->
  length (functions M) <= fuel ->
  rewritePasses fuel M
  = Some (Ok (mkModule (map internalizeFunction (functions M))
                       (map internalizeGlobal (globals M)))).
Proof.
  intros H L. unfold rewritePasses.
  rewrite (removeFunctionBitcasts_untouched M H L).
  rewrite runOnModule_all_kept; [reflexivity|].
  intros i Hi. apply untouched_classify. apply H. exact Hi.
Qed.
End PassesClaims.

(* ================================================================== *)
(** * More on the Call Rewriter *)

(** No key of the maps starts with one of the four prefixes. *)
Lemma OneMap_key_no_prefix (name : string) (IID : IntrinsicID) :
  map_find OneMap name = Some IID ->
  String.prefix "__builtin_IB_itof" name = false
  /\ String.prefix "__builtin_IB_uitof" name = false
  /\ String.prefix "__builtin_IB_mul_rtz" name = false
  /\ String.prefix "__builtin_IB_add_rtz" name = false.
Proof. intro H. apply map_find_In in H. each_entry H; repeat split. Qed.

Lemma TwoMap_key_no_prefix (name : string) (ids : IntrinsicID * IntrinsicID) :
  map_find TwoMap name = Some ids ->
  String.prefix "__builtin_IB_itof" name = false
  /\ String.prefix "__builtin_IB_uitof" name = false
  /\ String.prefix "__builtin_IB_mul_rtz" name = false
  /\ String.prefix "__builtin_IB_add_rtz" name = false.
Proof. intro H. apply map_find_In in H. each_entry H; repeat split. Qed.

Lemma prefix_not_in_maps (p name : string) :
  In p ["__builtin_IB_itof"; "__builtin_IB_uitof"; "__builtin_IB_mul_rtz";
        "__builtin_IB_add_rtz"] ->
  String.prefix p name = true ->
  map_find OneMap name = None /\ map_find TwoMap name = None
  /\ lookupIntrinsicID name = not_intrinsic.
Proof.
  intros Hp H.
  assert (L : String.prefix "llvm." name = false).
  { simpl in Hp. destruct Hp as [<-|[<-|[<-|[<-|[]]]]];
      exact (prefix_underscore_not_llvm _ _ H). }
  split; [|split].
  - destruct (map_find OneMap name) eqn:E; [|reflexivity].
    destruct (OneMap_key_no_prefix _ E) as (A & B & C & D).
    simpl in Hp. destruct Hp as [<-|[<-|[<-|[<-|[]]]]]; congruence.
  - destruct (map_find TwoMap name) eqn:E; [|reflexivity].
    destruct (TwoMap_key_no_prefix _ E) as (A & B & C & D).
    simpl in Hp. destruct Hp as [<-|[<-|[<-|[<-|[]]]]]; congruence.
  - unfold lookupIntrinsicID. rewrite L. reflexivity.
Qed.

Ltac prefix_step H :=
  match type of H with
  | String.prefix (String ?a ?p) ?name = true =>
      let c0 := fresh "c" in
      destruct name as [|c0 name]; [discriminate H|];
      unfold String.prefix in H; fold String.prefix in H;
      destruct (ascii_dec a c0) as [<-|]; [|discriminate H];
      unfold String.prefix; fold String.prefix;
      match goal with
      | |- context [ascii_dec ?x ?y] =>
          let E := fresh "E" in
          destruct (ascii_dec x y) as [E|E];
          [try discriminate E; clear E | try reflexivity]
      end
  end.

(** A name starts with one of the four prefixes at most. *)
Lemma builtin_prefixes_disjoint (p q name : string) :
  In p ["__builtin_IB_itof"; "__builtin_IB_uitof"; "__builtin_IB_mul_rtz";
        "__builtin_IB_add_rtz"] ->
  In q ["__builtin_IB_itof"; "__builtin_IB_uitof"; "__builtin_IB_mul_rtz";
        "__builtin_IB_add_rtz"] ->
  p <> q -> String.prefix p name = true -> String.prefix q name = false.
Proof.
  intros Hp Hq N H. simpl in Hp, Hq.
  destruct Hp as [<-|[<-|[<-|[<-|[]]]]];
    destruct Hq as [<-|[<-|[<-|[<-|[]]]]]; try congruence;
    repeat prefix_step H.
Qed.

Lemma classify_prefix (c : Instruction) p name calleeTy args fty cc :
  ikind c = Call (VFunc name calleeTy) args fty cc ->
  In p ["__builtin_IB_itof"; "__builtin_IB_uitof"; "__builtin_IB_mul_rtz";
        "__builtin_IB_add_rtz"] ->
  String.prefix p name = true ->
  classify c
  = if String.eqb p "__builtin_IB_itof" then
      orFail (arg0 <- getArgOperand (VFunc name calleeTy) args 0 ;;
              Ok (Convert SIToFP arg0 (getReturnType calleeTy)))
    else if String.eqb p "__builtin_IB_uitof" then
      orFail (arg0 <- getArgOperand (VFunc name calleeTy) args 0 ;;
              Ok (Convert UIToFP arg0 (getReturnType calleeTy)))
    else if String.eqb p "__builtin_IB_mul_rtz" then
      orFail (arg0 <- getArgOperand (VFunc name calleeTy) args 0 ;;
              arg1 <- getArgOperand (VFunc name calleeTy) args 1 ;;
              Ok (RoundedArith FMul arg0 arg1))
    else
      orFail (arg0 <- getArgOperand (VFunc name calleeTy) args 0 ;;
              arg1 <- getArgOperand (VFunc name calleeTy) args 1 ;;
              Ok (RoundedArith FAdd arg0 arg1)).
Proof.
  intros K Hp H. unfold classify. rewrite K.
  destruct (@prefix_not_in_maps p name Hp H) as (O & T & I).
  destruct (not_intrinsic_dispatch _ I) as [-> ->]. rewrite O, T.
  pose proof (fun q Hq N => @builtin_prefixes_disjoint p q name Hp Hq N H) as D.
  simpl in Hp. destruct Hp as [<-|[<-|[<-|[<-|[]]]]].
  - rewrite H. reflexivity.
  - rewrite (D "__builtin_IB_itof") by (simpl; auto || discriminate).
    rewrite H. reflexivity.
  - rewrite (D "__builtin_IB_itof") by (simpl; auto || discriminate).
    rewrite (D "__builtin_IB_uitof") by (simpl; auto || discriminate).
    rewrite H. reflexivity.
  - rewrite (D "__builtin_IB_itof") by (simpl; auto || discriminate).
    rewrite (D "__builtin_IB_uitof") by (simpl; auto || discriminate).
    rewrite (D "__builtin_IB_mul_rtz") by (simpl; auto || discriminate).
    rewrite H. reflexivity.
Qed.

Lemma prefix_longer_false (a b name : string) :
  String.prefix a name = false -> String.prefix (a ++ b) name = false.
Proof.
  revert name. induction a as [|x a IH]; intros name H; [destruct name; discriminate H|].
  destruct name as [|y name]; [reflexivity|].
  cbn [String.append]. unfold String.prefix in *; fold String.prefix in *.
  destruct (ascii_dec x y); [apply IH; exact H | reflexivity].
Qed.

Lemma prefix_refl (s : string) : String.prefix s s = true.
Proof.
  induction s as [|x s IH]; [reflexivity|].
  unfold String.prefix; fold String.prefix.
  destruct (ascii_dec x x); [exact IH | contradiction].
Qed.

Lemma matchesIntrinsicName_false (name a b : string) :
  String.prefix a name = false ->
  matchesIntrinsicName name (a ++ b) = false.
Proof.
  intro H. unfold matchesIntrinsicName. apply orb_false_iff. split.
  - destruct (String.eqb name (a ++ b)) eqn:E; [|reflexivity].
    apply String.eqb_eq in E.
    pose proof (prefix_longer_false a b _ H) as P.
    rewrite E, prefix_refl in P. discriminate.
  - assert (A : forall x y z : string, ((x ++ y) ++ z = x ++ (y ++ z))%string).
    { intros x y z. induction x as [|c x IH]; simpl; [reflexivity|].
      rewrite IH. reflexivity. }
    rewrite A. apply prefix_longer_false. exact H.
Qed.

Lemma emittable_dispatch (id : IntrinsicID) :
  emittable id = true \/ id = not_intrinsic ->
  IntrinsicID_eqb id lifetime_start || IntrinsicID_eqb id lifetime_end = false
  /\ IntrinsicID_eqb id ctlz = false.
Proof. intros [H| ->]; [destruct id; try discriminate H|]; split; reflexivity. Qed.

(** The name of an intrinsic is a marker's or that of [llvm.ctlz] only if
    it starts like theirs. *)
Lemma lookupIntrinsicID_late (name : string) :
  String.prefix "llvm.lifetime" name = false ->
  String.prefix "llvm.ctlz" name = false ->
  emittable (lookupIntrinsicID name) = true \/ lookupIntrinsicID name = not_intrinsic.
Proof.
  intros L C. unfold lookupIntrinsicID.
  destruct (String.prefix "llvm." name); [|right; reflexivity].
  unfold IntrinsicNameTable. cbn [find fst snd].
  pose proof (matchesIntrinsicName_false name "llvm.lifetime" ".start" L) as M1.
  pose proof (matchesIntrinsicName_false name "llvm.lifetime" ".end" L) as M2.
  pose proof (matchesIntrinsicName_false name "llvm.ctlz" "" C) as M3.
  change ("llvm.lifetime" ++ ".start")%string with "llvm.lifetime.start" in M1.
  change ("llvm.lifetime" ++ ".end")%string with "llvm.lifetime.end" in M2.
  change ("llvm.ctlz" ++ "")%string with "llvm.ctlz" in M3.
  rewrite M1, M2, M3.
  repeat match goal with
  | |- context [if matchesIntrinsicName name ?b then _ else _] =>
      destruct (matchesIntrinsicName name b); [left; reflexivity|]
  end.
  right. reflexivity.
Qed.

Lemma getName_late (id : IntrinsicID) (tys : list Ty) :
  emittable id = true ->
  String.prefix "llvm.lifetime" (Intrinsic_getName id tys) = false
  /\ String.prefix "llvm.ctlz" (Intrinsic_getName id tys) = false.
Proof.
  intro H. unfold Intrinsic_getName.
  generalize (String.concat "" (map (fun t => "." ++ getMangledTypeStr t) tys))%string.
  intro sfx. destruct id; try discriminate H; split; reflexivity.
Qed.

Lemma OneMap_value_emittable (name : string) (IID : IntrinsicID) :
  map_find OneMap name = Some IID -> emittable IID = true.
Proof. intro H. apply map_find_In in H. each_entry H; reflexivity. Qed.

Lemma TwoMap_value_emittable (name : string) (ids : IntrinsicID * IntrinsicID) :
  map_find TwoMap name = Some ids ->
  emittable (fst ids) = true /\ emittable (snd ids) = true.
Proof. intro H. apply map_find_In in H. each_entry H; split; reflexivity. Qed.

(** The body keeps a call of a function whose name starts with [llvm.] and
    is neither a marker's nor that of [llvm.ctlz]. *)
Lemma classify_llvm_name (j : Instruction) name ty args fty cc :
  ikind j = Call (VFunc name ty) args fty cc ->
  String.prefix "llvm." name = true ->
  String.prefix "llvm.lifetime" name = false ->
  String.prefix "llvm.ctlz" name = false ->
  classify j = Keep.
Proof.
  intros K P L C. unfold classify. rewrite K. cbv zeta.
  destruct (emittable_dispatch (lookupIntrinsicID_late name L C)) as [-> ->].
  destruct (map_find OneMap name) eqn:E1;
    [destruct (OneMap_key_not_llvm _ E1); congruence|].
  destruct (map_find TwoMap name) eqn:E2;
    [destruct (TwoMap_key_not_llvm _ E2); congruence|].
  repeat match goal with
  | |- context [if String.prefix ?p name then _ else _] =>
      destruct (String.prefix p name) eqn:?;
      [pose proof (prefix_underscore_not_llvm _ name ltac:(eassumption));
       congruence|]
  end.
  reflexivity.
Qed.

Section RewriterExtras.
Context {Target : TargetIntrinsics}.

Lemma classify_intrinsic_call (id : IntrinsicID) (tys : list Ty) (k : InstId)
      (args : list Value) (dbg : DebugLoc) :
  emittable id = true ->
  classify (callTo (intrinsicDeclaration id tys) k args dbg) = Keep.
Proof.
  intro H. destruct (getName_late id tys H) as [L C].
  eapply classify_llvm_name; [reflexivity | | exact L | exact C].
  apply intrinsic_name_llvm. intros ->. discriminate H.
Qed.

(** The instructions the body creates are instructions it keeps. *)
Lemma emitted_kept (c : Instruction) (dbg : DebugLoc) (k : InstId) (j : Instruction) :
  In j (emit (classify c) dbg k) -> classify j = Keep.
Proof.
  unfold classify at 1.
  destruct (ikind c) as [callee args fty cc| | |]; try (intros []).
  destruct callee as [| | | | |name calleeTy| |]; try (intros []).
  cbv zeta.
  destruct (_ || _); [intros []|].
  destruct (IntrinsicID_eqb _ ctlz).
  { destruct (assert (isIntegerTy _) _); [intros []|].
    destruct (assert (N.eqb _ 32) _); [intros []|].
    intros [<-|[]]. apply classify_intrinsic_call. reflexivity. }
  destruct (map_find OneMap name) as [IID|] eqn:E1.
  { intros [<-|[]]. apply classify_intrinsic_call.
    exact (OneMap_value_emittable _ E1). }
  generalize (getArgOperand (VFunc name calleeTy) args 0)
             (getArgOperand (VFunc name calleeTy) args 1). intros a0 a1.
  destruct (map_find TwoMap name) as [ids|] eqn:E2.
  { destruct (TwoMap_value_emittable _ E2) as [A B].
    destruct a0; [|intros []].
    intros [<-|[<-|[]]]; apply classify_intrinsic_call; assumption. }
  repeat match goal with
  | |- context [if String.prefix ?p name then _ else _] =>
      destruct (String.prefix p name)
  end;
  try (intros []);
  (destruct a0; [|intros []]);
  try (intros [<-|[]]; reflexivity);
  (destruct a1; [|intros []]);
  (intros [<-|[<-|[]]]; [reflexivity | apply classify_intrinsic_call; reflexivity]).
Qed.

Lemma classify_lifetime (c : Instruction) name calleeTy args fty cc :
  ikind c = Call (VFunc name calleeTy) args fty cc ->
  lookupIntrinsicID name = lifetime_start \/ lookupIntrinsicID name = lifetime_end ->
  classify c = Drop.
Proof.
  intros K H. unfold classify. rewrite K. destruct H as [-> | ->]; reflexivity.
Qed.

(** X1.  A direct call of a lifetime marker is, after [runOnModule], no
    longer in the module, and nothing stands in its place: the block is
    what the pass leaves of the instructions before it, followed by what it
    leaves of those behind. *)
Theorem lifetime_marker_is_dropped
  (M : Module) fs1 F fs2 bs1 pre c post bs2 name calleeTy args fty cc :
  functions M = fs1 ++ F :: fs2 ->
  fblocks F = bs1 ++ (pre ++ c :: post) :: bs2 ->
  ikind c = Call (VFunc name calleeTy) args fty cc ->
  lookupIntrinsicID name = lifetime_start \/ lookupIntrinsicID name = lifetime_end ->
  firstFailure (allInstructions M) = None ->
  exists M' F',
    runOnModule M = Ok M'
    /\ nth_error (functions M') (length fs1) = Some F'
    /\ nth_error (fblocks F') (length bs1)
       = Some (residue M (nextIdAt M fs1 bs1 []) pre
               ++ residue M (nextIdAt M fs1 bs1 pre) post)
    /\ (forall j, In j (allInstructions M') -> iid j <> iid c).
Proof.
  intros EF EB K HI NF.
  pose proof (In_module_split M _ _ _ _ _ _ _ _ EF EB) as Hc.
  pose proof (classify_lifetime c K HI) as C.
  destruct (rewritten_at M _ _ _ _ _ _ _ _ EF EB) as (F' & HF & HB).
  exists (rewrittenModule M), F'.
  rewrite runOnModule_rewrittenModule, NF.
  split; [reflexivity|]. split; [exact HF|]. split.
  - rewrite HB. do 2 f_equal.
    rewrite residue_erased;
      [ | exact Hc | rewrite C; reflexivity | apply nextIdAt_ge ].
    rewrite C. reflexivity.
  - intros j Hj.
    eapply erased_gone; [exact Hc | rewrite C; reflexivity | exact Hj].
Qed.

(** X2.  A call of a function whose name starts with [__builtin_IB_itof],
    or with [__builtin_IB_uitof], that has an argument is, after
    [runOnModule], no longer in the module; where it stood stands one
    conversion of its first argument to the callee's return type, signed or
    unsigned, with the debug location of the call; every use of the call's
    result is a use of the conversion's. *)
Theorem itof_call_becomes_a_cast
  (M : Module) fs1 F fs2 bs1 pre c post bs2 name calleeTy arg0 rest fty cc op :
  functions M = fs1 ++ F :: fs2 ->
  fblocks F = bs1 ++ (pre ++ c :: post) :: bs2 ->
  ikind c = Call (VFunc name calleeTy) (arg0 :: rest) fty cc ->
  (String.prefix "__builtin_IB_itof" name = true /\ op = SIToFP)
  \/ (String.prefix "__builtin_IB_uitof" name = true /\ op = UIToFP) ->
  NoDup (map iid (allInstructions M)) ->
  firstFailure (allInstructions M) = None ->
  exists M' F' n,
    runOnModule M = Ok M'
    /\ nth_error (functions M') (length fs1) = Some F'
    /\ nth_error (fblocks F') (length bs1)
       = Some (residue M (nextIdAt M fs1 bs1 []) pre
               ++ n :: residue M (S (iid n)) post)
    /\ n = mkInst (iid n) (getReturnType calleeTy) (idbg c)
                  (Cast op (finalValue M arg0))
    /\ ~ In (iid n) (map iid (allInstructions M))
    /\ (forall j, In j (allInstructions M') -> iid j <> iid c)
    /\ (forall t, finalValue M (VInst (iid c) t) = VInst (iid n) t)
    /\ (forall j v t, In j (allInstructions M') -> In v (operands j) ->
                      v <> VInst (iid c) t).
Proof.
  intros EF EB K HP ND NF.
  assert (C : classify c = Convert op arg0 (getReturnType calleeTy)).
  { destruct HP as [[H ->]|[H ->]].
    - rewrite (@classify_prefix c "__builtin_IB_itof" _ _ _ _ _ K) by (simpl; auto).
      rewrite (@getArgOperand_arg (VFunc name calleeTy) (arg0 :: rest) 0 arg0 eq_refl).
      reflexivity.
    - rewrite (@classify_prefix c "__builtin_IB_uitof" _ _ _ _ _ K) by (simpl; auto).
      rewrite (@getArgOperand_arg (VFunc name calleeTy) (arg0 :: rest) 0 arg0 eq_refl).
      reflexivity. }
  assert (He : erases (classify c) = true) by (rewrite C; reflexivity).
  destruct (replaced_at M _ _ _ _ _ _ _ _ EF EB ND NF He)
    as (R & (F' & HF & HB) & Gone & Surv & Uses).
  set (k := nextIdAt M fs1 bs1 pre) in *.
  destruct (Uses k) as [U1 U2]; [rewrite C; reflexivity|].
  pose proof (nextIdAt_ge M fs1 bs1 pre) as Lk. fold k in Lk.
  exists (rewrittenModule M), F',
    (mkInst k (getReturnType calleeTy) (idbg c) (Cast op (finalValue M arg0))).
  repeat split; try assumption.
  - rewrite HB, C. reflexivity.
  - apply new_id_fresh. exact Lk.
Qed.

(** X3.  A call of a function whose name starts with
    [__builtin_IB_mul_rtz], or with [__builtin_IB_add_rtz], that has two
    arguments is, after [runOnModule], no longer in the module; where it
    stood stand the product, or the sum, of its first two arguments and a
    call of [genx_rndz], instantiated with the type of the first argument,
    on that result; every use of the call's result is a use of the result
    of the call of [genx_rndz]. *)
Theorem rtz_call_becomes_rounded_arithmetic
  (M : Module) fs1 F fs2 bs1 pre c post bs2 name calleeTy arg0 arg1 rest fty cc op :
  functions M = fs1 ++ F :: fs2 ->
  fblocks F = bs1 ++ (pre ++ c :: post) :: bs2 ->
  ikind c = Call (VFunc name calleeTy) (arg0 :: arg1 :: rest) fty cc ->
  (String.prefix "__builtin_IB_mul_rtz" name = true /\ op = FMul)
  \/ (String.prefix "__builtin_IB_add_rtz" name = true /\ op = FAdd) ->
  NoDup (map iid (allInstructions M)) ->
  firstFailure (allInstructions M) = None ->
  exists M' F' n0 n1,
    runOnModule M = Ok M'
    /\ nth_error (functions M') (length fs1) = Some F'
    /\ nth_error (fblocks F') (length bs1)
       = Some (residue M (nextIdAt M fs1 bs1 []) pre
               ++ n0 :: n1 :: residue M (S (iid n1)) post)
    /\ n0 = mkInst (iid n0) (getType arg0) (idbg c)
                   (BinaryOperator op (finalValue M arg0) (finalValue M arg1))
    /\ n1 = callTo (intrinsicDeclaration genx_rndz [getType arg0]) (iid n1)
                   [asValue n0] (idbg c)
    /\ ~ In (iid n0) (map iid (allInstructions M))
    /\ ~ In (iid n1) (map iid (allInstructions M))
    /\ iid n0 <> iid n1
    /\ (forall j, In j (allInstructions M') -> iid j <> iid c)
    /\ (forall t, finalValue M (VInst (iid c) t) = VInst (iid n1) t)
    /\ (forall j v t, In j (allInstructions M') -> In v (operands j) ->
                      v <> VInst (iid c) t).
Proof.
  intros EF EB K HP ND NF.
  assert (C : classify c = RoundedArith op arg0 arg1).
  { destruct HP as [[H ->]|[H ->]].
    - rewrite (@classify_prefix c "__builtin_IB_mul_rtz" _ _ _ _ _ K)
        by (simpl; auto).
      rewrite (@getArgOperand_arg (VFunc name calleeTy) (arg0 :: arg1 :: rest) 0 arg0
                                  eq_refl),
              (@getArgOperand_arg (VFunc name calleeTy) (arg0 :: arg1 :: rest) 1 arg1
                                  eq_refl).
      reflexivity.
    - rewrite (@classify_prefix c "__builtin_IB_add_rtz" _ _ _ _ _ K)
        by (simpl; auto).
      rewrite (@getArgOperand_arg (VFunc name calleeTy) (arg0 :: arg1 :: rest) 0 arg0
                                  eq_refl),
              (@getArgOperand_arg (VFunc name calleeTy) (arg0 :: arg1 :: rest) 1 arg1
                                  eq_refl).
      reflexivity. }
  assert (He : erases (classify c) = true) by (rewrite C; reflexivity).
  destruct (replaced_at M _ _ _ _ _ _ _ _ EF EB ND NF He)
    as (R & (F' & HF & HB) & Gone & Surv & Uses).
  set (k := nextIdAt M fs1 bs1 pre) in *.
  destruct (Uses (S k)) as [U1 U2]; [rewrite C; reflexivity|].
  pose proof (nextIdAt_ge M fs1 bs1 pre) as Lk. fold k in Lk.
  set (n0 := mkInst k (getType arg0) (idbg c)
                    (BinaryOperator op (finalValue M arg0) (finalValue M arg1))).
  exists (rewrittenModule M), F', n0,
    (callTo (intrinsicDeclaration genx_rndz [getType arg0]) (S k)
            [asValue n0] (idbg c)).
  repeat split; try assumption.
  - rewrite HB, C. cbn [emit map newCount app]. unfold callTo, mapOperands, asValue.
    cbn [ikind iid ity idbg map plus n0].
    rewrite !finalValue_VFunc, finalValue_new by exact Lk. reflexivity.
  - apply new_id_fresh. exact Lk.
  - apply new_id_fresh. cbn [callTo iid]. lia.
  - cbn [callTo iid n0]. lia.
Qed.

Lemma renames_finalValue (M : Module) : renames (firstNewId M) (finalValue M).
Proof.
  unfold finalValue, replacedUses. apply renames_pairsFrom.
  apply Forall_forall. intros i Hi. apply ids_below_firstNewId. exact Hi.
Qed.

Lemma In_lowerInsts_inv (k : InstId) (l : list Instruction) (j : Instruction) :
  In j (lowerInsts k l) ->
  In j l \/ exists i k', In i l /\ In j (emit (classify i) (idbg i) k').
Proof.
  revert k. induction l as [|i l IH]; intros k H; [destruct H|].
  cbn [lowerInsts] in H. apply in_app_or in H. destruct H as [H|[<-|H]].
  - right. exists i, k. split; [left; reflexivity | exact H].
  - left. left. reflexivity.
  - destruct (IH _ H) as [A|(i0 & k' & A & B)].
    + left. right. exact A.
    + right. exists i0, k'. split; [right; exact A | exact B].
Qed.

Lemma runOnModule_Ok_inv (M M' : Module) :
  runOnModule M = Ok M' ->
  firstFailure (allInstructions M) = None /\ M' = rewrittenModule M.
Proof.
  rewrite runOnModule_rewrittenModule.
  destruct (firstFailure (allInstructions M)) as [[d m]|]; [discriminate|].
  intro H. injection H as <-. split; reflexivity.
Qed.

(** After the pass the body would keep every instruction of the module. *)
Lemma rewritten_all_kept (M : Module) (j : Instruction) :
  firstFailure (allInstructions M) = None ->
  In j (allInstructions (rewrittenModule M)) -> classify j = Keep.
Proof.
  intros NF H. pose proof (rewritten_not_deleted M j H) as ND.
  rewrite allInstructions_rewrittenModule in H. unfold residue in H.
  apply filter_In in H. destruct H as [H _]. apply in_map_iff in H.
  destruct H as (j0 & <- & Hj0).
  rewrite (classify_renames j0 (renames_finalValue M)).
  destruct (In_lowerInsts_inv _ _ _ Hj0) as [A|(i & k' & A & B)].
  - pose proof (firstFailure_None _ j0 NF A) as NFj.
    destruct (erases (classify j0)) eqn:E.
    + exfalso. apply ND. apply erasedIds_In. exists j0. auto.
    + destruct (classify j0); try discriminate; reflexivity.
  - rewrite (emitted_kept _ _ _ _ B). reflexivity.
Qed.

Lemma classify_Keep_inv (j : Instruction) name ty args fty cc :
  ikind j = Call (VFunc name ty) args fty cc ->
  classify j = Keep ->
  isBuiltinName name = false
  /\ IntrinsicID_eqb (lookupIntrinsicID name) lifetime_start = false
  /\ IntrinsicID_eqb (lookupIntrinsicID name) lifetime_end = false
  /\ IntrinsicID_eqb (lookupIntrinsicID name) ctlz = false.
Proof.
  intro K. unfold classify, isBuiltinName. rewrite K. cbv zeta.
  destruct (IntrinsicID_eqb (lookupIntrinsicID name) lifetime_start);
    [discriminate|].
  destruct (IntrinsicID_eqb (lookupIntrinsicID name) lifetime_end);
    [discriminate|].
  cbn [orb].
  destruct (IntrinsicID_eqb (lookupIntrinsicID name) ctlz).
  { destruct (assert (isIntegerTy _) _); [discriminate|].
    destruct (assert (N.eqb _ 32) _); discriminate. }
  destruct (map_find OneMap name); [discriminate|].
  generalize (getArgOperand (VFunc name ty) args 0)
             (getArgOperand (VFunc name ty) args 1). intros a0 a1.
  destruct (map_find TwoMap name); [destruct a0; discriminate|].
  repeat match goal with
  | |- context [if String.prefix ?p name then _ else _] =>
      destruct (String.prefix p name);
      [destruct a0; try discriminate; destruct a1; discriminate|]
  end.
  intros _. repeat split.
Qed.

(** X5.  When [runOnModule] succeeds, the module it leaves has no direct
    call of a function whose name is a key of a map or starts with one of
    the four prefixes, no direct call of a lifetime marker and none of
    [llvm.ctlz]. *)
Theorem no_builtin_call_is_left (M M' : Module) (j : Instruction) name ty args fty cc :
  runOnModule M = Ok M' ->
  In j (allInstructions M') ->
  ikind j = Call (VFunc name ty) args fty cc ->
  isBuiltinName name = false
  /\ lookupIntrinsicID name <> lifetime_start
  /\ lookupIntrinsicID name <> lifetime_end
  /\ lookupIntrinsicID name <> ctlz.
Proof.
  intros R Hj K. destruct (runOnModule_Ok_inv _ R) as [NF ->].
  destruct (classify_Keep_inv _ K (rewritten_all_kept _ _ NF Hj)) as (A & B & C & D).
  split; [exact A|].
  repeat split; intro E; rewrite E in *; discriminate.
Qed.

Lemma internalizeFunction_idempotent (F : Function) :
  internalizeFunction (internalizeFunction F) = internalizeFunction F.
Proof.
  unfold internalizeFunction at 2.
  destruct (_ && _) eqn:E; [|unfold internalizeFunction; rewrite E; reflexivity].
  unfold internalizeFunction, getIntrinsicID, isDeclaration, isMaterializable in *.
  cbn [setLinkage fname fblocks flazy fdllexport]. rewrite E. reflexivity.
Qed.

Lemma internalizeGlobal_idempotent (G : GlobalVariable) :
  internalizeGlobal (internalizeGlobal G) = internalizeGlobal G.
Proof.
  unfold internalizeGlobal at 2.
  destruct (negb (Global_isDeclaration G)) eqn:E;
    [|unfold internalizeGlobal; rewrite E; reflexivity].
  unfold internalizeGlobal, Global_isDeclaration in *.
  cbn [Global_setLinkage ginit]. rewrite E. reflexivity.
Qed.

(** X6.  [runOnModule] does nothing to the module it has left: a second
    run succeeds and gives the same module. *)
Theorem runOnModule_idempotent (M M' : Module) :
  runOnModule M = Ok M' -> runOnModule M' = Ok M'.
Proof.
  intro R. destruct (runOnModule_Ok_inv _ R) as [NF ->].
  rewrite runOnModule_all_kept
    by (intros i Hi; exact (rewritten_all_kept _ _ NF Hi)).
  f_equal. unfold rewrittenModule. cbn [functions globals].
  f_equal.
  - rewrite map_map with (g := internalizeFunction).
    apply map_ext. intro F. apply internalizeFunction_idempotent.
  - rewrite map_map. apply map_ext. intro G. apply internalizeGlobal_idempotent.
Qed.

Lemma sameHeader_internalizeFunction (F : Function) :
  sameHeader F (internalizeFunction F).
Proof. unfold internalizeFunction. destruct (_ && _); repeat split. Qed.

Lemma sameHeader_trans (F G H : Function) :
  sameHeader F G -> sameHeader G H -> sameHeader F H.
Proof. unfold sameHeader. intuition congruence. Qed.

Lemma sameHeader_lowered (D : list InstId) (g : Instruction -> Instruction)
      (n : InstId) (F : Function) :
  sameHeader F
    (internalizeFunction
       (eraseFromParent D (mapInFunction g (setBlocks F (lowerBlocks n (fblocks F)))))).
Proof.
  eapply sameHeader_trans; [|apply sameHeader_internalizeFunction].
  repeat split. cbn [eraseFromParent mapInFunction setBlocks fblocks].
  rewrite !length_map. apply length_lowerBlocks.
Qed.

Lemma Forall2_lowerFuncs (D : list InstId) (g : Instruction -> Instruction)
      (n : InstId) (fs : list Function) :
  Forall2 sameHeader fs
    (map internalizeFunction
       (map (eraseFromParent D) (map (mapInFunction g) (lowerFuncs n fs)))).
Proof.
  revert n. induction fs as [|F fs IH]; intro n; cbn [lowerFuncs map];
    constructor; [apply sameHeader_lowered | apply IH].
Qed.

Lemma declareAll_In (names : list string) (ds : list Function) (d : Function) :
  In d (declareAll names ds) -> In d ds /\ ~ In (fname d) names.
Proof.
  revert names. induction ds as [|d0 ds IH]; intros names H; [destruct H|].
  cbn [declareAll] in H.
  destruct (existsb (String.eqb (fname d0)) names) eqn:E.
  - destruct (IH _ H). split; [right|]; assumption.
  - destruct H as [<-|H].
    + split; [left; reflexivity|]. fold (memb (fname d0) names) in E.
      apply memb_false. exact E.
    + destruct (IH _ H) as [A B]. split; [right; exact A|].
      intro I. apply B. apply in_or_app. left. exact I.
Qed.

Lemma declareAll_NoDup (names : list string) (ds : list Function) :
  NoDup (map fname (declareAll names ds)).
Proof.
  revert names. induction ds as [|d0 ds IH]; intro names; [constructor|].
  cbn [declareAll]. destruct (existsb _ names); [apply IH|].
  cbn [map]. constructor; [|apply IH].
  intro H. apply in_map_iff in H. destruct H as (d & E & Hd).
  apply declareAll_In in Hd. destruct Hd as [_ Hd]. apply Hd.
  rewrite E. apply in_or_app. right. left. reflexivity.
Qed.

Lemma declareAll_covers (names : list string) (ds : list Function) (d : Function) :
  In d ds -> In (fname d) (names ++ map fname (declareAll names ds)).
Proof.
  revert names. induction ds as [|d0 ds IH]; intros names H; [destruct H|].
  cbn [declareAll]. destruct (existsb (String.eqb (fname d0)) names) eqn:E.
  - destruct H as [<-|H]; [|apply IH; exact H].
    fold (memb (fname d0) names) in E. apply memb_In in E.
    apply in_or_app. left. exact E.
  - cbn [map].
    assert (X : forall x, In x ((names ++ [fname d0])
                                ++ map fname (declareAll (names ++ [fname d0]) ds)) ->
                          In x (names ++ fname d0
                                :: map fname (declareAll (names ++ [fname d0]) ds))).
    { intros x Hx. rewrite <- app_assoc in Hx. exact Hx. }
    destruct H as [<-|H].
    + apply in_or_app. right. left. reflexivity.
    + apply X, IH, H.
Qed.

Lemma requests_intrinsic (c : Instruction) (d : Function) :
  In d (requests (classify c)) ->
  exists id tys, d = intrinsicDeclaration id tys /\ emittable id = true.
Proof.
  unfold classify.
  destruct (ikind c) as [callee args fty cc| | |]; try (intros []).
  destruct callee as [| | | | |name calleeTy| |]; try (intros []).
  cbv zeta.
  destruct (_ || _); [intros []|].
  destruct (IntrinsicID_eqb _ ctlz).
  { destruct (assert (isIntegerTy _) _); [intros []|].
    destruct (assert (N.eqb _ 32) _); [intros []|].
    intros [<-|[]]. eexists _, _. split; reflexivity. }
  destruct (map_find OneMap name) as [IID|] eqn:E1.
  { intros [<-|[]]. eexists _, _. split; [reflexivity|].
    exact (OneMap_value_emittable _ E1). }
  generalize (getArgOperand (VFunc name calleeTy) args 0)
             (getArgOperand (VFunc name calleeTy) args 1). intros a0 a1.
  destruct (map_find TwoMap name) as [ids|] eqn:E2.
  { destruct (TwoMap_value_emittable _ E2) as [A B].
    destruct a0; [|intros []].
    intros [<-|[<-|[]]]; eexists _, _; (split; [reflexivity | assumption]). }
  repeat match goal with
  | |- context [if String.prefix ?p name then _ else _] =>
      destruct (String.prefix p name)
  end;
  try (intros []);
  (destruct a0; [|intros []]);
  try (intros []);
  (destruct a1; [|intros []]);
  (intros [<-|[]]; eexists _, _; split; reflexivity).
Qed.

Lemma requestsOf_intrinsic (l : list Instruction) (d : Function) :
  In d (requestsOf l) ->
  exists id tys, d = intrinsicDeclaration id tys /\ emittable id = true.
Proof.
  unfold requestsOf. intro H. apply in_flat_map in H. destruct H as (c & _ & H).
  exact (requests_intrinsic _ _ H).
Qed.

Lemma declaration_untouched (D : list InstId) (d : Function) :
  isDeclaration d = true -> internalizeFunction (eraseFromParent D d) = d.
Proof.
  intro H.
  assert (E : eraseFromParent D d = d).
  { destruct d as [n t l e c a an lz bl]. unfold eraseFromParent, isDeclaration in *.
    cbn [fblocks] in *. destruct bl; [reflexivity | discriminate]. }
  rewrite E. unfold internalizeFunction. rewrite H.
  rewrite andb_false_r. reflexivity.
Qed.

(** The name [Intrinsic::getName] gives an intrinsic is a name
    [getIntrinsicID] reads as that intrinsic. *)
Lemma lookupIntrinsicID_getName (id : IntrinsicID) (tys : list Ty) :
  lookupIntrinsicID (Intrinsic_getName id tys) = id.
Proof.
  unfold Intrinsic_getName.
  assert (S : exists r, (String.concat "" (map (fun t => "." ++ getMangledTypeStr t) tys)
                         = "")%string
                        \/ (String.concat "" (map (fun t => "." ++ getMangledTypeStr t) tys)
                            = String "." r)%string).
  { destruct tys as [|t [|t' tys]]; cbn [map String.concat].
    - exists ""%string. left. reflexivity.
    - eexists. right. reflexivity.
    - eexists. right. reflexivity. }
  destruct S as (r & [-> | ->]); [|destruct r]; destruct id; reflexivity.
Qed.

(** X7.  [runOnModule] removes no function and moves none: the functions of
    the result are those of the module, in order, each with its name, its
    type, its attributes and as many blocks as before, followed by
    declarations of intrinsics under names the module did not have, one for
    a name.  The names of the functions stay distinct when they were.  The
    globals are those of the module, in order, with their names, types and
    initializers. *)
Theorem runOnModule_keeps_the_functions (M M' : Module) :
  runOnModule M = Ok M' ->
  exists kept decls,
    functions M' = kept ++ decls
    /\ Forall2 sameHeader (functions M) kept
    /\ (forall d, In d decls ->
          isDeclaration d = true
          /\ getIntrinsicID d <> not_intrinsic
          /\ ~ In (fname d) (map fname (functions M)))
    /\ NoDup (map fname decls)
    /\ (NoDup (map fname (functions M)) -> NoDup (map fname (functions M')))
    /\ Forall2 sameGlobal (globals M) (globals M').
Proof.
  intro R. destruct (runOnModule_Ok_inv _ R) as [NF ->].
  unfold rewrittenModule. cbn [functions globals].
  set (D := erasedIds (allInstructions M)).
  set (g := substInst _).
  set (ds := declareAll (map fname (functions M)) (requestsOf (allInstructions M))).
  assert (Hd : forall d, In d ds ->
             isDeclaration d = true /\ getIntrinsicID d <> not_intrinsic
             /\ ~ In (fname d) (map fname (functions M))).
  { intros d Hd. apply declareAll_In in Hd. destruct Hd as [Hr Hn].
    destruct (requestsOf_intrinsic _ _ Hr) as (id & tys & -> & E).
    split; [reflexivity|]. split; [|exact Hn].
    unfold getIntrinsicID. cbn [intrinsicDeclaration fname].
    rewrite lookupIntrinsicID_getName. intros ->. discriminate E. }
  assert (Same : map internalizeFunction (map (eraseFromParent D) ds) = ds).
  { rewrite map_map. rewrite <- (map_id ds) at 2. apply map_ext_in.
    intros d Hin. apply declaration_untouched. apply (Hd d Hin). }
  assert (Hk : Forall2 sameHeader (functions M)
                 (map internalizeFunction
                    (map (eraseFromParent D)
                       (map (mapInFunction g)
                            (lowerFuncs (S (maxInstId (allInstructions M)))
                                        (functions M))))))
    by apply Forall2_lowerFuncs.
  eexists. exists ds.
  split; [rewrite !map_app, Same; reflexivity|].
  split; [exact Hk|]. split; [exact Hd|]. split; [apply declareAll_NoDup|].
  split.
  - intro N. rewrite !map_app, Same.
    assert (En : map fname
                   (map internalizeFunction
                      (map (eraseFromParent D)
                         (map (mapInFunction g)
                              (lowerFuncs (S (maxInstId (allInstructions M)))
                                          (functions M)))))
                 = map fname (functions M)).
    { clear - Hk. induction Hk as [|F F' fs fs' (E & _) _ IH]; cbn [map];
        [reflexivity | rewrite E, IH; reflexivity]. }
    rewrite En.
    assert (A : forall (l1 l2 : list string), NoDup l1 -> NoDup l2 ->
                  (forall x, In x l2 -> ~ In x l1) -> NoDup (l1 ++ l2)).
    { intros l1 l2 N1 N2 Dj. induction N1 as [|a l1 Ha N1 IH]; [exact N2|].
      cbn. constructor.
      - rewrite in_app_iff. intros [I|I]; [exact (Ha I)|].
        apply (Dj a I). left. reflexivity.
      - apply IH. intros x Hx I. apply (Dj x Hx). right. exact I. }
    apply A; [exact N | apply declareAll_NoDup|].
    intros x Hx. apply in_map_iff in Hx. destruct Hx as (d & <- & Hin).
    apply (Hd d Hin).
  - induction (globals M) as [|G gs IH]; cbn [map]; constructor; [|exact IH].
    unfold internalizeGlobal. destruct (negb _); repeat split.
Qed.

Lemma linkage_lowered (D : list InstId) (g : Instruction -> Instruction)
      (n : InstId) (F : Function) :
  internalizeFunction
    (eraseFromParent D (mapInFunction g (setBlocks F (lowerBlocks n (fblocks F)))))
  = setBlocks (internalizeFunction F)
      (map (filter (fun i => negb (isDeleted D i)))
           (map (map g) (lowerBlocks n (fblocks F)))).
Proof.
  unfold internalizeFunction, getIntrinsicID, isDeclaration, isMaterializable.
  cbn [eraseFromParent mapInFunction setBlocks fblocks fname flazy fdllexport].
  assert (E : forall (A B : Type) (l : list A) (m : list B) (x y : bool),
            length l = length m ->
            match l with [] => x | _ :: _ => y end
            = match m with [] => x | _ :: _ => y end).
  { intros A B l m x y L. destruct l, m; try discriminate L; reflexivity. }
  rewrite (E _ _ (map (filter (fun i => negb (isDeleted D i)))
                      (map (map g) (lowerBlocks n (fblocks F))))
             (fblocks F))
    by (rewrite !length_map; apply length_lowerBlocks).
  destruct (_ && _); reflexivity.
Qed.

(** X8.  The linkage after [runOnModule]: a function of the module that is
    not an intrinsic, has a body or waits for one, and is not a dllexport
    has internal linkage, every other one has the linkage it had; a global
    with an initializer has internal linkage, every other one the linkage
    it had. *)
Theorem runOnModule_sets_the_linkage (M M' : Module) :
  runOnModule M = Ok M' ->
  exists kept decls,
    functions M' = kept ++ decls
    /\ Forall2 (fun F F' =>
                  flinkage F'
                  = if IntrinsicID_eqb (getIntrinsicID F) not_intrinsic
                       && negb (isDeclaration F) && negb (fdllexport F)
                    then InternalLinkage else flinkage F)
               (functions M) kept
    /\ Forall2 (fun G G' =>
                  glinkage G'
                  = if Global_isDeclaration G then glinkage G else InternalLinkage)
               (globals M) (globals M').
Proof.
  intro R. destruct (runOnModule_Ok_inv _ R) as [NF ->].
  unfold rewrittenModule. cbn [functions globals].
  rewrite !map_app. eexists. eexists. split; [reflexivity|]. split.
  - generalize (S (maxInstId (allInstructions M))) at 2.
    generalize (erasedIds (allInstructions M)).
    generalize (substInst (pairsFrom (S (maxInstId (allInstructions M)))
                                     (allInstructions M))).
    intros g D n. revert n.
    induction (functions M) as [|F fs IH]; intro n; cbn [lowerFuncs map];
      constructor; [|apply IH].
    rewrite linkage_lowered. unfold internalizeFunction.
    destruct (_ && _); reflexivity.
  - induction (globals M) as [|G gs IH]; cbn [map]; constructor; [|exact IH].
    unfold internalizeGlobal. destruct (Global_isDeclaration G); reflexivity.
Qed.

Lemma emit_callee_requested (a : Action) (dbg : DebugLoc) (k : InstId)
      (j : Instruction) name ty args fty cc :
  In j (emit a dbg k) -> ikind j = Call (VFunc name ty) args fty cc ->
  exists d, In d (requests a) /\ fname d = name.
Proof.
  destruct a; cbn [emit requests In]; intros H K;
    repeat match goal with
    | H : _ \/ _ |- _ => destruct H as [H|H]
    | H : False |- _ => destruct H
    end;
    subst j; cbn [ikind callTo] in K; try discriminate K;
    injection K as <- _ _ _ _; eexists;
    first [ split; [left; reflexivity | reflexivity]
          | split; [right; left; reflexivity | reflexivity] ].
Qed.

Lemma names_rewrittenModule (M : Module) :
  map fname (functions (rewrittenModule M))
  = map fname (functions M)
    ++ map fname (declareAll (map fname (functions M))
                             (requestsOf (allInstructions M))).
Proof.
  unfold rewrittenModule. cbn [functions].
  rewrite !map_map.
  rewrite (map_ext _ fname)
    by (intro f; rewrite fname_internalizeFunction; reflexivity).
  rewrite map_app. f_equal. rewrite map_map.
  generalize (S (maxInstId (allInstructions M))) at 2. intro n. revert n.
  induction (functions M) as [|F fs IH]; intro n; cbn [lowerFuncs map];
    [reflexivity | rewrite IH; reflexivity].
Qed.

(** X9.  The calls [runOnModule] creates are calls of functions the
    module declares: when every direct callee of the module is a function
    of the module, every direct callee of the result is a function of the
    result. *)
Theorem created_calls_are_declared (M M' : Module) :
  runOnModule M = Ok M' ->
  (forall i name ty args fty cc,
     In i (allInstructions M) -> ikind i = Call (VFunc name ty) args fty cc ->
     In name (map fname (functions M))) ->
  forall j name ty args fty cc,
    In j (allInstructions M') -> ikind j = Call (VFunc name ty) args fty cc ->
    In name (map fname (functions M')).
Proof.
  intros R WF j name ty args fty cc Hj K.
  destruct (runOnModule_Ok_inv _ R) as [NF ->].
  rewrite names_rewrittenModule.
  rewrite allInstructions_rewrittenModule in Hj. unfold residue in Hj.
  apply filter_In in Hj. destruct Hj as [Hj _]. apply in_map_iff in Hj.
  destruct Hj as (j0 & <- & Hj0).
  assert (K0 : exists args0, ikind j0 = Call (VFunc name ty) args0 fty cc).
  { unfold mapOperands in K. cbn [ikind] in K.
    destruct (ikind j0) as [callee0 a0 f0 c0| | |]; try discriminate K.
    injection K as E _ <- <-. apply finalValue_VFunc_inv in E. subst callee0.
    eexists. reflexivity. }
  destruct K0 as (args0 & K0).
  destruct (In_lowerInsts_inv _ _ _ Hj0) as [A|(i & k' & A & B)].
  - apply in_or_app. left. exact (WF _ _ _ _ _ _ A K0).
  - destruct (emit_callee_requested _ _ _ _ B K0) as (d & Hd & <-).
    apply declareAll_covers. unfold requestsOf. apply in_flat_map.
    exists i. split; assumption.
Qed.
End RewriterExtras.

(* ================================================================== *)
(** * More on the walk and on the import *)

Lemma calledFunctions_spec (insts : list Instruction) :
  forall visitedSet,
    NoDup (calledFunctions visitedSet insts)
    /\ forall n, In n (calledFunctions visitedSet insts)
                 <-> ~ In n visitedSet
                     /\ exists i, In i insts /\ getCalledFunction i = Some n.
Proof.
  induction insts as [|i insts IH]; intro vis; cbn [calledFunctions].
  - split; [constructor|]. intro n. split; [intros [] | intros (_ & j & [] & _)].
  - destruct (getCalledFunction i) as [c|] eqn:G.
    + fold (memb c vis). destruct (memb c vis) eqn:E.
      * destruct (IH vis) as [N S]. split; [exact N|]. intro n. rewrite S.
        apply memb_In in E. split.
        -- intros (A & j & Hj & Ej). split; [exact A|]. exists j. split;
             [right; exact Hj | exact Ej].
        -- intros (A & j & [<-|Hj] & Ej).
           ++ rewrite G in Ej. injection Ej as <-. contradiction.
           ++ split; [exact A|]. exists j. split; assumption.
      * apply memb_false in E. destruct (IH (c :: vis)) as [N S]. split.
        -- constructor; [|exact N]. rewrite S. intros (A & _). apply A.
           left. reflexivity.
        -- intro n. cbn [In]. rewrite S. split.
           ++ intros [<-|(A & j & Hj & Ej)].
              ** split; [exact E|]. exists i. split; [left; reflexivity | exact G].
              ** split; [intro B; apply A; right; exact B|].
                 exists j. split; [right; exact Hj | exact Ej].
           ++ intros (A & j & [<-|Hj] & Ej).
              ** rewrite G in Ej. injection Ej as <-. left. reflexivity.
              ** destruct (string_dec c n) as [<-|Ne]; [left; reflexivity|].
                 right. split; [intros [B|B]; [exact (Ne B) | exact (A B)]|].
                 exists j. split; assumption.
    + destruct (IH vis) as [N S]. split; [exact N|]. intro n. rewrite S. split.
      * intros (A & j & Hj & Ej). split; [exact A|]. exists j. split;
          [right; exact Hj | exact Ej].
      * intros (A & j & [<-|Hj] & Ej); [rewrite G in Ej; discriminate|].
        split; [exact A|]. exists j. split; assumption.
Qed.

Lemma deref_update_other (g : Function -> Function) (p q : FunctionPtr)
      (st : LinkState) :
  (forall f, fname (g f) = fname f) -> q <> p ->
  deref (update g p st) q = deref st q.
Proof.
  intros Hg N. destruct p as [[|] name], q as [[|] n]; unfold deref, update;
    cbn [fst snd moduleOf MainModule BiFModule]; try reflexivity;
    rewrite (getFunction_updateFunction _ _ _ _ Hg);
    (destruct (String.eqb_spec n name) as [->|]; [congruence | reflexivity]).
Qed.

Lemma callGets_setCallCallingConv (cc : CallingConv) (i : Instruction) :
  callGets cc i (setCallCallingConv cc i).
Proof.
  unfold callGets, setCallCallingConv.
  destruct (ikind i) eqn:K; cbn [iid ity idbg ikind]; rewrite ?K; auto.
Qed.

(** X10.  [GetCalledFunctions] gives the functions the instructions of
    [pFunc] call directly, each once, in the module of [pFunc].  It also
    writes: the function is afterwards what it was but for its
    instructions, block by block and instruction by instruction; every call
    instruction, direct or not, has the calling convention of [pFunc] and
    the callee, the arguments, the type, the identity and the debug
    location it had, and every other instruction is unchanged.  The other
    functions are as they were, and nothing is written to [errs()]. *)
Theorem GetCalledFunctions_lists_the_callees
        (pFunc : FunctionPtr) (st st' : LinkState) (F : Function)
        (calledFuncs : list FunctionPtr) :
  deref st pFunc = Some F ->
  GetCalledFunctions pFunc st = (st', calledFuncs) ->
  NoDup calledFuncs
  /\ (forall p, In p calledFuncs
                <-> fst p = fst pFunc
                    /\ exists i, In i (instructionsOf F)
                                 /\ getCalledFunction i = Some (snd p))
  /\ (exists F',
        deref st' pFunc = Some F'
        /\ setBlocks F' (fblocks F) = F
        /\ Forall2 (Forall2 (callGets (fcc F))) (fblocks F) (fblocks F'))
  /\ (forall q, q <> pFunc -> deref st' q = deref st q)
  /\ errs st' = errs st.
Proof.
  intros D G. unfold GetCalledFunctions in G. rewrite D in G.
  injection G as <- <-.
  destruct (calledFunctions_spec (instructionsOf F) []) as [N S].
  split; [|split; [|split; [|split]]].
  - apply NoDup_map_injective; [|exact N]. intros a b E. congruence.
  - intros [m n]. rewrite in_map_iff. cbn [fst snd]. split.
    + intros (x & E & Hx). injection E as <- <-. split; [reflexivity|].
      apply S in Hx. tauto.
    + intros (-> & Hi). exists n. split; [reflexivity|]. apply S.
      split; [intros []|exact Hi].
  - exists (mapInFunction (setCallCallingConv (fcc F)) F). split; [|split].
    + rewrite deref_update by reflexivity. rewrite D. reflexivity.
    + destruct F; reflexivity.
    + unfold mapInFunction. cbn [setBlocks fblocks].
      induction (fblocks F) as [|b bs IHb]; cbn [map]; constructor; [|exact IHb].
      induction b as [|i b IHi]; cbn [map]; constructor; [|exact IHi].
      apply callGets_setCallCallingConv.
  - intros q Nq. apply deref_update_other; [reflexivity | exact Nq].
  - unfold update. destruct (fst pFunc); reflexivity.
Qed.

(** X11.  The walk over the functions of the main module ends, whatever the
    call graph: every recursive call of [Explore] follows the loading of one
    more body.  It leaves no more bodies to load than it found. *)
Theorem walk_terminates (roots : list string) :
  forall st : LinkState,
    exists r, ExploreAll roots st = Some r
              /\ forall st', r = Ok st' -> pendingBodies st' <= pendingBodies st.
Proof.
  induction roots as [|func roots IH]; intro st; cbn [ExploreAll].
  - eexists. split; [reflexivity|]. intros st' E. injection E as <-. lia.
  - destruct (@Explore_enough_fuel (S (pendingBodies st)) (InMain, func) st)
      as (r & Er & Hr); [lia|].
    rewrite Er. destruct r as [st1|d m].
    + destruct (IH st1) as (r' & Er' & Hr'). exists r'. split; [exact Er'|].
      intros st' E. specialize (Hr' st' E). specialize (Hr st1 eq_refl). lia.
    + eexists. split; [reflexivity|]. intros st' E. discriminate.
Qed.

(** ** What the walk keeps *)

Lemma walkKeeps_refl (f : Function) : walkKeeps f f.
Proof. unfold walkKeeps. tauto. Qed.

Lemma walkKeeps_trans (f g h : Function) :
  walkKeeps f g -> walkKeeps g h -> walkKeeps f h.
Proof.
  unfold walkKeeps. intros (A1 & A2 & A3 & A4 & A5 & A6 & A7)
                           (B1 & B2 & B3 & B4 & B5 & B6 & B7).
  repeat (split; [congruence|]). intro H. destruct (A7 H) as [H1 L1].
  destruct (B7 H1) as [H2 L2]. split; congruence.
Qed.

Lemma walkKeepsModule_refl (M : Module) : walkKeepsModule M M.
Proof.
  split; [|reflexivity]. induction (functions M); constructor;
    [apply walkKeeps_refl | assumption].
Qed.

Lemma Forall2_trans_gen {A : Type} (R : A -> A -> Prop) :
  (forall a b c, R a b -> R b c -> R a c) ->
  forall l m n, Forall2 R l m -> Forall2 R m n -> Forall2 R l n.
Proof.
  intros T l m n H. revert n. induction H; intros n K; inversion K; subst;
    constructor; eauto.
Qed.

Lemma walkKeepsModule_trans (M1 M2 M3 : Module) :
  walkKeepsModule M1 M2 -> walkKeepsModule M2 M3 -> walkKeepsModule M1 M3.
Proof.
  intros [A1 A2] [B1 B2]. split; [|congruence].
  eapply Forall2_trans_gen; eauto using walkKeeps_trans.
Qed.

Lemma walkKeepsModule_update (g : Function -> Function) (name : string)
      (M : Module) :
  (forall f, walkKeeps f (g f)) -> walkKeepsModule M (updateFunction g name M).
Proof.
  intro Hg. split; [|reflexivity]. unfold updateFunction. cbn [functions].
  induction (functions M) as [|f fs IH]; cbn [map]; constructor; [|exact IH].
  destruct (String.eqb (fname f) name); [apply Hg | apply walkKeeps_refl].
Qed.

Lemma walkKeepsState_refl (st : LinkState) : walkKeepsState st st.
Proof. split; apply walkKeepsModule_refl. Qed.

Lemma walkKeepsState_trans (s1 s2 s3 : LinkState) :
  walkKeepsState s1 s2 -> walkKeepsState s2 s3 -> walkKeepsState s1 s3.
Proof. intros [A B] [C D]. split; eapply walkKeepsModule_trans; eauto. Qed.

Lemma walkKeepsState_update (g : Function -> Function) (p : FunctionPtr)
      (st : LinkState) :
  (forall f, walkKeeps f (g f)) -> walkKeepsState st (update g p st).
Proof.
  intro Hg. destruct p as [[|] name]; unfold update; cbn [fst snd]; split;
    cbn [MainModule BiFModule];
    first [apply walkKeepsModule_refl | apply walkKeepsModule_update, Hg].
Qed.

Lemma walkKeeps_setCallCallingConv (f : Function) :
  walkKeeps f (mapInFunction (setCallCallingConv (fcc f)) f).
Proof.
  unfold walkKeeps, mapInFunction, setBlocks, isMaterializable. cbn.
  repeat split; try assumption. apply length_map.
Qed.

Lemma walkKeeps_materialized (f : Function) : walkKeeps f (materialized f).
Proof.
  unfold walkKeeps, materialized, materialize, isMaterializable.
  destruct (flazy f) as [[msg|body]|] eqn:E; cbn; rewrite ?E;
    repeat split; try reflexivity; try discriminate.
Qed.

Lemma walkKeeps_setCallingConv (cc : CallingConv) (f : Function) :
  walkKeeps f (setCallingConv f cc).
Proof. unfold walkKeeps, setCallingConv, isMaterializable. cbn. tauto. Qed.

Lemma walkKeepsState_report (text : string) (st : LinkState) :
  walkKeepsState st (report text st).
Proof. split; apply walkKeepsModule_refl. Qed.

Lemma walkKeepsState_loaded (pRoot pFunc : FunctionPtr) (st : LinkState) :
  walkKeepsState st (loaded pRoot pFunc st).
Proof.
  unfold loaded. eapply walkKeepsState_trans.
  - apply walkKeepsState_update, walkKeeps_materialized.
  - apply walkKeepsState_update. intro f. apply walkKeeps_setCallingConv.
Qed.

Lemma walkKeepsState_GetCalledFunctions (pFunc : FunctionPtr) (st : LinkState) :
  walkKeepsState st (fst (GetCalledFunctions pFunc st)).
Proof.
  unfold GetCalledFunctions. destruct (deref st pFunc); cbn [fst].
  - apply walkKeepsState_update, walkKeeps_setCallCallingConv.
  - apply walkKeepsState_refl.
Qed.

Lemma Explore_walkKeeps (fuel : nat) :
  forall (pRoot : FunctionPtr) (st st' : LinkState),
    Explore fuel pRoot st = Some (Ok st') -> walkKeepsState st st'.
Proof.
  induction fuel as [|fuel IH]; intros pRoot st st' E; [discriminate|].
  cbn [Explore] in E.
  pose proof (walkKeepsState_GetCalledFunctions pRoot st) as G.
  destruct (GetCalledFunctions pRoot st) as [st1 called]. cbn [fst] in G.
  eapply walkKeepsState_trans; [exact G|]. clear G.
  revert st1 E. induction called as [|c cs IHc]; intros s E; cbn [ExploreCallees] in E.
  - injection E as <-. apply walkKeepsState_refl.
  - destruct (resolve s c) as [pFunc|]; [|apply IHc, E].
    destruct (deref s pFunc) as [F|] eqn:D; [|apply IHc, E].
    destruct (isMaterializable F) eqn:Hm; [|apply IHc, E].
    destruct (materialize F) as [msg|F'].
    { destruct (assert false _); [discriminate|].
      eapply walkKeepsState_trans; [apply walkKeepsState_report|]. apply IHc, E. }
    fold (loaded pRoot pFunc s) in E.
    destruct (Explore fuel pFunc (loaded pRoot pFunc s)) as [[st2|d m]|] eqn:R;
      try discriminate.
    eapply walkKeepsState_trans; [apply walkKeepsState_loaded|].
    eapply walkKeepsState_trans; [eapply IH, R|]. apply IHc, E.
Qed.

(** X12.  The walk adds, removes and renames no function, and changes no
    signature, linkage, attribute or argument name, in the main module or
    in the library; a function whose body was loaded keeps as many blocks;
    the global variables of both modules are untouched. *)
Theorem walk_keeps_the_modules (roots : list string) :
  forall st st' : LinkState,
    ExploreAll roots st = Some (Ok st') ->
    walkKeepsModule (MainModule st) (MainModule st')
    /\ walkKeepsModule (BiFModule st) (BiFModule st').
Proof.
  induction roots as [|func roots IH]; intros st st' E; cbn [ExploreAll] in E.
  - injection E as <-. apply walkKeepsState_refl.
  - destruct (Explore (S (pendingBodies st)) (InMain, func) st)
      as [[st1|d m]|] eqn:R; try discriminate.
    apply (@walkKeepsState_trans st st1 st');
      [eapply Explore_walkKeeps, R | apply IH, E].
Qed.

(* ================================================================== *)
(** * More on the steps of [CMImportBiF] after the walk *)







(** ** [materialize] *)

Lemma materialize_inr (f f' : Function) :
  materialize f = inr f' -> f' = materialized f /\ isMaterializable f' = false.
Proof.
  unfold materialized. intro E. rewrite E. split; [reflexivity|].
  unfold materialize in E. unfold isMaterializable.
  destruct (flazy f) as [[msg|body]|] eqn:L; try discriminate;
    injection E as <-; [reflexivity | rewrite L; reflexivity].
Qed.

Lemma materialize_inl (f : Function) (msg : string) :
  materialize f = inl msg <-> flazy f = Some (inl msg).
Proof.
  unfold materialize. destruct (flazy f) as [[m|body]|]; split; intro E;
    try discriminate; injection E as ->; reflexivity.
Qed.

(** ** [InitializeBIFlags] *)

Lemma flagKeeps_refl (G : GlobalVariable) : flagKeeps G G.
Proof. unfold flagKeeps. repeat split; auto. Qed.

Lemma flagKeeps_trans (G1 G2 G3 : GlobalVariable) :
  flagKeeps G1 G2 -> flagKeeps G2 G3 -> flagKeeps G1 G3.
Proof.
  unfold flagKeeps. intros (A1 & A2 & A3 & A4 & A5) (B1 & B2 & B3 & B4 & B5).
  repeat (split; [congruence|]). split.
  - destruct B4 as [->|B4]; [exact A4 | right; exact B4].
  - intro N. rewrite <- (A5 N). apply B5. rewrite (A5 N). exact N.
Qed.

Lemma initializeVarWithValue_flagKeeps (varName : string) (value : Z) (M : Module) :
  In varName flagNames ->
  functions (initializeVarWithValue varName value M) = functions M
  /\ Forall2 flagKeeps (globals M) (globals (initializeVarWithValue varName value M)).
Proof.
  intro Hn. split; [reflexivity|]. unfold initializeVarWithValue. cbn [globals].
  induction (globals M) as [|G gs IH]; cbn [map]; constructor; [|exact IH].
  destruct (String.eqb_spec (gname G) varName) as [E|E]; cbn [andb];
    [|apply flagKeeps_refl].
  destruct (isLocalLinkage (glinkage G)); cbn [negb]; [apply flagKeeps_refl|].
  unfold flagKeeps. cbn [gname gtype glinkage ginit].
  repeat (split; [reflexivity|]). split; [right; eauto|].
  intro N. rewrite E in N. contradiction.
Qed.

Lemma initializeVarWithValue_twice (n1 n2 : string) (v1 v2 : Z) (M : Module) :
  initializeVarWithValue n1 v1 (initializeVarWithValue n2 v2 M)
  = if String.eqb n1 n2 then initializeVarWithValue n1 v1 M
    else initializeVarWithValue n2 v2 (initializeVarWithValue n1 v1 M).
Proof.
  unfold initializeVarWithValue. cbn [functions globals]. rewrite !map_map.
  destruct (String.eqb_spec n1 n2) as [->|N]; f_equal; apply map_ext; intro G.
  - destruct (String.eqb (gname G) n2 && negb (isLocalLinkage (glinkage G))) eqn:E;
      cbn [gname glinkage]; rewrite E; reflexivity.
  - destruct (isLocalLinkage (glinkage G)) eqn:L; cbn [negb];
      [rewrite !andb_false_r, L, !andb_false_r; reflexivity|].
    rewrite !andb_true_r.
    destruct (String.eqb_spec (gname G) n2) as [E2|E2];
      destruct (String.eqb_spec (gname G) n1) as [E1|E1];
      cbn [gname gtype glinkage]; rewrite ?L; cbn [negb]; rewrite ?andb_true_r;
      try congruence.
    + destruct (String.eqb_spec (gname G) n1); [congruence|].
      destruct (String.eqb_spec (gname G) n2); [reflexivity | congruence].
    + destruct (String.eqb_spec (gname G) n1); [|congruence].
      destruct (String.eqb_spec (gname G) n2); [congruence | reflexivity].
    + destruct (String.eqb_spec (gname G) n1); [congruence|].
      destruct (String.eqb_spec (gname G) n2); [congruence | reflexivity].
Qed.

Lemma initializeVarWithValue_idem (n : string) (v : Z) (M : Module) :
  initializeVarWithValue n v (initializeVarWithValue n v M)
  = initializeVarWithValue n v M.
Proof. rewrite initializeVarWithValue_twice, String.eqb_refl. reflexivity. Qed.

Lemma initializeVarWithValue_comm (n1 n2 : string) (v1 v2 : Z) (M : Module) :
  String.eqb n1 n2 = false ->
  initializeVarWithValue n1 v1 (initializeVarWithValue n2 v2 M)
  = initializeVarWithValue n2 v2 (initializeVarWithValue n1 v1 M).
Proof. intro N. rewrite initializeVarWithValue_twice, N. reflexivity. Qed.

Lemma initializeFlags_comm (flags : list (string * Z)) (n : string) (v : Z) :
  ~ In n (map fst flags) ->
  forall M,
    initializeVarWithValue n v
      (fold_left (fun M f => initializeVarWithValue (fst f) (snd f) M) flags M)
    = fold_left (fun M f => initializeVarWithValue (fst f) (snd f) M) flags
                (initializeVarWithValue n v M).
Proof.
  induction flags as [|[n' v'] flags IH]; intros N M; cbn [fold_left fst snd];
    [reflexivity|].
  cbn [map fst In] in N. rewrite IH by tauto. f_equal.
  apply initializeVarWithValue_comm. apply String.eqb_neq. intro E. apply N.
  left. symmetry. exact E.
Qed.

Lemma initializeFlags_idem (flags : list (string * Z)) :
  NoDup (map fst flags) ->
  forall M,
    fold_left (fun M f => initializeVarWithValue (fst f) (snd f) M) flags
      (fold_left (fun M f => initializeVarWithValue (fst f) (snd f) M) flags M)
    = fold_left (fun M f => initializeVarWithValue (fst f) (snd f) M) flags M.
Proof.
  induction flags as [|[n v] flags IH]; intros N M; cbn [fold_left fst snd];
    [reflexivity|].
  cbn [map fst] in N. inversion N as [|? ? N1 N2]; subst.
  rewrite (@initializeFlags_comm flags n v N1), initializeVarWithValue_idem.
  apply IH, N2.
Qed.

(** X15.  [InitializeBIFlags] touches no function and adds, removes and
    renames no global variable; it changes neither the type nor the linkage
    of one, and a variable whose name is not one of the eight flags is left
    as it was.  Running it twice is running it once. *)
Theorem InitializeBIFlags_only_sets_the_flags (M : Module) :
  functions (InitializeBIFlags M) = functions M
  /\ Forall2 flagKeeps (globals M) (globals (InitializeBIFlags M))
  /\ InitializeBIFlags (InitializeBIFlags M) = InitializeBIFlags M.
Proof.
  split; [reflexivity|]. split.
  - unfold InitializeBIFlags.
    repeat match goal with
           | |- Forall2 flagKeeps _ (globals (initializeVarWithValue ?n ?v ?N)) =>
               apply (@Forall2_trans_gen _ flagKeeps flagKeeps_trans _ (globals N));
               [|apply initializeVarWithValue_flagKeeps; unfold flagNames;
                 cbn [In]; tauto]
           end.
    induction (globals M); constructor; [apply flagKeeps_refl | assumption].
  - apply (@initializeFlags_idem
             [("__FlushDenormals", 1%Z); ("__DashGSpecified", 0%Z);
              ("__FastRelaxedMath", 0%Z);
              ("__UseNative64BitSubgroupBuiltin", 1%Z); ("__CRMacros", 1%Z);
              ("__IsSPIRV", 0%Z); ("__EnableSWSrgbWrites", 0%Z);
              ("__ProfilingTimerResolution", 0%Z)]).
    apply nodupb_NoDup. vm_compute. reflexivity.
Qed.

(* ================================================================== *)
(** * The walk loads what the loaded code calls *)

Lemma walkStable_refl (f : Function) : bodyNonEmpty f -> walkStable f f.
Proof. intro H. unfold walkStable. tauto. Qed.

Lemma walkStable_trans (f g h : Function) :
  walkStable f g -> walkStable g h -> walkStable f h.
Proof.
  unfold walkStable. intros (A1 & A2 & A3 & A4 & A5 & A6) (B1 & B2 & B3 & B4 & B5 & B6).
  split; [exact A1|]. split; [exact B2|]. split; [congruence|].
  split; [congruence|]. split; [auto|]. intro H. rewrite <- (A6 H). apply B6.
  destruct (isMaterializable g) eqn:E; [|reflexivity]. rewrite (A5 eq_refl) in H.
  discriminate.
Qed.

Lemma Forall2_walkStable_refl (fs : list Function) :
  (forall f, In f fs -> bodyNonEmpty f) -> Forall2 walkStable fs fs.
Proof.
  induction fs as [|f fs IH]; intro H; constructor.
  - apply walkStable_refl, H. left. reflexivity.
  - apply IH. intros g Hg. apply H. right. exact Hg.
Qed.

Lemma Forall2_walkStable_bodies (fs fs' : list Function) :
  Forall2 walkStable fs fs' -> forall f, In f fs' -> bodyNonEmpty f.
Proof.
  induction 1 as [|f f' fs fs' R _ IH]; intros g Hg; [destruct Hg|].
  destruct Hg as [<-|Hg]; [apply R | apply IH, Hg].
Qed.

Lemma walkStableState_refl (st : LinkState) :
  bodiesNonEmptyState st -> walkStableState st st.
Proof. intros [A B]. split; apply Forall2_walkStable_refl; assumption. Qed.

Lemma walkStableState_trans (s1 s2 s3 : LinkState) :
  walkStableState s1 s2 -> walkStableState s2 s3 -> walkStableState s1 s3.
Proof.
  intros [A B] [C D].
  split; eapply Forall2_trans_gen; eauto using walkStable_trans.
Qed.

Lemma walkStableState_bodies (st st' : LinkState) :
  walkStableState st st' -> bodiesNonEmptyState st'.
Proof.
  intros [A B]. split; intros f Hf;
    [exact (@Forall2_walkStable_bodies _ _ A f Hf)
    | exact (@Forall2_walkStable_bodies _ _ B f Hf)].
Qed.

Lemma walkStableState_update (g : Function -> Function) (p : FunctionPtr)
      (st : LinkState) :
  bodiesNonEmptyState st ->
  (forall f, bodyNonEmpty f -> walkStable f (g f)) ->
  walkStableState st (update g p st).
Proof.
  intros [A B] Hg.
  assert (U : forall name M, bodiesNonEmpty M ->
                Forall2 walkStable (functions M)
                        (functions (updateFunction g name M))).
  { intros name M HM. unfold updateFunction. cbn [functions].
    unfold bodiesNonEmpty in HM.
    induction (functions M) as [|f fs IH]; cbn [map]; constructor.
    - destruct (String.eqb (fname f) name);
        [apply Hg | apply walkStable_refl]; apply HM; left; reflexivity.
    - apply IH. intros h Hh. apply HM. right. exact Hh. }
  destruct p as [[|] name]; unfold update; cbn [fst snd]; split;
    cbn [MainModule BiFModule];
    first [apply U; assumption | apply Forall2_walkStable_refl; assumption].
Qed.

Lemma getCalledFunction_setCallCallingConv (cc : CallingConv) (i : Instruction) :
  getCalledFunction (setCallCallingConv cc i) = getCalledFunction i.
Proof.
  unfold getCalledFunction, setCallCallingConv.
  destruct (ikind i) eqn:E; cbn [ikind]; rewrite ?E; reflexivity.
Qed.

Lemma walkStable_setCallCallingConv (f : Function) :
  bodyNonEmpty f -> walkStable f (mapInFunction (setCallCallingConv (fcc f)) f).
Proof.
  intro H. unfold walkStable. split; [exact H|]. split; [exact H|].
  split; [reflexivity|]. split; [|split; [auto|]].
  - unfold isDeclaration, mapInFunction, setBlocks, isMaterializable. cbn.
    destruct (fblocks f); reflexivity.
  - intros _. rewrite instructionsOf_mapInFunction, map_map.
    apply map_ext. intro i. apply getCalledFunction_setCallCallingConv.
Qed.

Lemma walkStable_materialized (f : Function) :
  bodyNonEmpty f -> walkStable f (materialized f).
Proof.
  intro H. unfold materialized, materialize.
  destruct (flazy f) as [[msg|body]|] eqn:L; try (apply walkStable_refl, H).
  unfold walkStable. split; [exact H|].
  split; [intros b E; discriminate E|]. split; [reflexivity|].
  split; [|split].
  - unfold isDeclaration, isMaterializable. cbn [fblocks flazy]. rewrite L.
    pose proof (H body L) as N. destruct body; [contradiction|].
    destruct (fblocks f); reflexivity.
  - intros _. unfold isMaterializable. rewrite L. reflexivity.
  - unfold isMaterializable. rewrite L. discriminate.
Qed.

Lemma walkStable_setCallingConv (cc : CallingConv) (f : Function) :
  bodyNonEmpty f -> walkStable f (setCallingConv f cc).
Proof.
  intro H. unfold walkStable. split; [exact H|]. split; [exact H|].
  unfold setCallingConv, isDeclaration, isMaterializable, instructionsOf. cbn.
  tauto.
Qed.

Lemma walkStableState_loaded (pRoot pFunc : FunctionPtr) (st : LinkState) :
  bodiesNonEmptyState st -> walkStableState st (loaded pRoot pFunc st).
Proof.
  intro H. unfold loaded.
  pose proof (@walkStableState_update materialized pFunc st H
                walkStable_materialized) as A.
  eapply walkStableState_trans; [exact A|].
  apply walkStableState_update; [eapply walkStableState_bodies, A|].
  intros f. apply walkStable_setCallingConv.
Qed.

Lemma walkStableState_GetCalledFunctions (pFunc : FunctionPtr) (st : LinkState) :
  bodiesNonEmptyState st ->
  walkStableState st (fst (GetCalledFunctions pFunc st)).
Proof.
  intro H. unfold GetCalledFunctions. destruct (deref st pFunc); cbn [fst].
  - apply walkStableState_update; [exact H | apply walkStable_setCallCallingConv].
  - apply walkStableState_refl, H.
Qed.

Lemma walkStableState_report (text : string) (st : LinkState) :
  bodiesNonEmptyState st -> walkStableState st (report text st).
Proof. intros [A B]. split; apply Forall2_walkStable_refl; assumption. Qed.

Lemma Explore_walkStable (fuel : nat) :
  forall (pRoot : FunctionPtr) (st st' : LinkState),
    bodiesNonEmptyState st ->
    Explore fuel pRoot st = Some (Ok st') -> walkStableState st st'.
Proof.
  induction fuel as [|fuel IH]; intros pRoot st st' B E; [discriminate|].
  cbn [Explore] in E.
  pose proof (walkStableState_GetCalledFunctions pRoot B) as G.
  destruct (GetCalledFunctions pRoot st) as [st1 called]. cbn [fst] in G.
  eapply walkStableState_trans; [exact G|].
  pose proof (walkStableState_bodies G) as B1. clear G B.
  revert st1 B1 E.
  induction called as [|c cs IHc]; intros s B E; cbn [ExploreCallees] in E.
  - injection E as <-. apply walkStableState_refl, B.
  - destruct (resolve s c) as [pFunc|]; [|apply IHc; assumption].
    destruct (deref s pFunc) as [F|] eqn:D; [|apply IHc; assumption].
    destruct (isMaterializable F) eqn:Hm; [|apply IHc; assumption].
    destruct (materialize F) as [msg|F'].
    { destruct (assert false _); [discriminate|].
      pose proof (walkStableState_report
                    ("===> Materialize Failure: " ++ msg ++ newline) B) as S0.
      eapply walkStableState_trans; [exact S0|].
      apply IHc; [eapply walkStableState_bodies, S0 | exact E]. }
    fold (loaded pRoot pFunc s) in E.
    destruct (Explore fuel pFunc (loaded pRoot pFunc s)) as [[st2|d m]|] eqn:R;
      try discriminate.
    pose proof (walkStableState_loaded pRoot pFunc B) as S1.
    pose proof (IH _ _ _ (walkStableState_bodies S1) R) as S2.
    eapply walkStableState_trans; [exact S1|].
    eapply walkStableState_trans; [exact S2|].
    apply IHc; [eapply walkStableState_bodies, S2 | exact E].
Qed.

(** ** The lookups in two states of the walk *)

Lemma find_walkStable (n : string) (fs fs' : list Function) :
  Forall2 walkStable fs fs' ->
  match find (fun f => String.eqb (fname f) n) fs,
        find (fun f => String.eqb (fname f) n) fs' with
  | Some F, Some F' => walkStable F F'
  | None, None => True
  | _, _ => False
  end.
Proof.
  induction 1 as [|f f' fs fs' R _ IH]; cbn [find]; [exact I|].
  assert (E : fname f' = fname f) by apply R. rewrite E.
  destruct (String.eqb (fname f) n); [exact R | exact IH].
Qed.

Lemma deref_walkStable (st st' : LinkState) (q : FunctionPtr) :
  walkStableState st st' ->
  match deref st q, deref st' q with
  | Some F, Some F' => walkStable F F'
  | None, None => True
  | _, _ => False
  end.
Proof.
  intros [A B]. destruct q as [[|] n]; unfold deref, getFunction;
    cbn [fst snd moduleOf]; apply find_walkStable; assumption.
Qed.

Lemma resolve_walkStable (st st' : LinkState) (c : FunctionPtr) :
  walkStableState st st' -> resolve st' c = resolve st c.
Proof.
  intro S. unfold resolve. pose proof (deref_walkStable c S) as D.
  destruct (deref st c) as [F|], (deref st' c) as [F'|]; try contradiction;
    [|reflexivity].
  destruct D as (_ & _ & _ & -> & _). destruct (isDeclaration F); [|reflexivity].
  unfold GetBuiltinFunction.
  pose proof (deref_walkStable (InBiF, snd c) S) as D'.
  unfold deref in D'. cbn [fst snd moduleOf] in D'.
  destruct (getFunction (BiFModule st) (snd c)) as [G|],
           (getFunction (BiFModule st') (snd c)) as [G'|]; try contradiction;
    [|reflexivity].
  destruct D' as (_ & _ & En & -> & _). destruct (isDeclaration G); cbn [negb];
    [reflexivity | rewrite En; reflexivity].
Qed.

Lemma pendingCallee_walkStable (st st' : LinkState) (c : FunctionPtr) :
  walkStableState st st' ->
  pendingCallee st' c = true -> pendingCallee st c = true.
Proof.
  intros S. unfold pendingCallee. rewrite (resolve_walkStable c S).
  destruct (resolve st c) as [q|]; [|auto].
  pose proof (deref_walkStable q S) as D.
  destruct (deref st q) as [F|], (deref st' q) as [F'|]; try contradiction; [|auto].
  apply D.
Qed.

Lemma callsPending_inv (st : LinkState) (q : FunctionPtr) :
  callsPending st q = true ->
  exists F n, deref st q = Some F /\ isMaterializable F = false
              /\ In (Some n) (map getCalledFunction (instructionsOf F))
              /\ pendingCallee st (fst q, n) = true.
Proof.
  unfold callsPending. destruct (deref st q) as [F|]; [|discriminate].
  intro H. apply andb_true_iff in H. destruct H as [Hm Hx].
  apply negb_true_iff in Hm. apply existsb_exists in Hx.
  destruct Hx as (i & Hi & Hp). destruct (getCalledFunction i) as [n|] eqn:G;
    [|discriminate].
  exists F, n. split; [reflexivity|]. split; [exact Hm|]. split; [|exact Hp].
  apply in_map_iff. exists i. split; assumption.
Qed.

Lemma callsPending_intro (st : LinkState) (q : FunctionPtr) (F : Function)
      (n : string) :
  deref st q = Some F -> isMaterializable F = false ->
  In (Some n) (map getCalledFunction (instructionsOf F)) ->
  pendingCallee st (fst q, n) = true ->
  callsPending st q = true.
Proof.
  intros D Hm Hn Hp. unfold callsPending. rewrite D, Hm. cbn [negb andb].
  apply existsb_exists. apply in_map_iff in Hn. destruct Hn as (i & G & Hi).
  exists i. split; [exact Hi|]. rewrite G. exact Hp.
Qed.

Lemma callsPending_walkStable (st st' : LinkState) (q : FunctionPtr) :
  walkStableState st st' ->
  callsPending st' q = true ->
  (forall F, deref st q = Some F -> isMaterializable F = false) ->
  callsPending st q = true.
Proof.
  intros S H L. apply callsPending_inv in H.
  destruct H as (F' & n & D' & Hm & Hn & Hp).
  pose proof (deref_walkStable q S) as D. rewrite D' in D.
  destruct (deref st q) as [F|] eqn:E; [|contradiction].
  destruct D as (_ & _ & _ & _ & _ & K). specialize (L F eq_refl).
  apply (@callsPending_intro st q F n); [exact E | exact L | |].
  - rewrite <- (K L). exact Hn.
  - eapply pendingCallee_walkStable; eassumption.
Qed.

Lemma FunctionPtr_eq_dec (p q : FunctionPtr) : {p = q} + {p <> q}.
Proof.
  destruct p as [m n], q as [m' n']. destruct (string_dec n n') as [->|N].
  - destruct m, m'; first [left; reflexivity | right; discriminate].
  - right. intro E. apply N. congruence.
Qed.

Lemma deref_loaded_other (pRoot pFunc q : FunctionPtr) (st : LinkState) :
  q <> pFunc -> deref (loaded pRoot pFunc st) q = deref st q.
Proof.
  intro N. unfold loaded.
  rewrite deref_update_other by (try reflexivity; exact N).
  apply deref_update_other; [apply fname_materialized | exact N].
Qed.

(** ** No body becomes one that cannot be loaded *)

Lemma noBrokenBody_update (g : Function -> Function) (name : string) (M : Module) :
  (forall f msg, flazy f <> Some (inl msg) -> flazy (g f) <> Some (inl msg)) ->
  noBrokenBody M -> noBrokenBody (updateFunction g name M).
Proof.
  intros Hg H h msg Hh. unfold updateFunction in Hh. cbn [functions] in Hh.
  apply in_map_iff in Hh. destruct Hh as (f0 & E & Hf0). subst h.
  destruct (String.eqb (fname f0) name); [apply Hg|]; apply H, Hf0.
Qed.

Lemma noBrokenBodyState_update (g : Function -> Function) (p : FunctionPtr)
      (st : LinkState) :
  (forall f msg, flazy f <> Some (inl msg) -> flazy (g f) <> Some (inl msg)) ->
  noBrokenBodyState st -> noBrokenBodyState (update g p st).
Proof.
  intros Hg [A B]. destruct p as [[|] name]; unfold update; cbn [fst snd]; split;
    cbn [MainModule BiFModule]; try assumption; apply noBrokenBody_update; assumption.
Qed.

Lemma noBrokenBodyState_loaded (pRoot pFunc : FunctionPtr) (st : LinkState) :
  noBrokenBodyState st -> noBrokenBodyState (loaded pRoot pFunc st).
Proof.
  intro H. unfold loaded. apply noBrokenBodyState_update; [intros f msg K; exact K|].
  apply noBrokenBodyState_update; [|exact H].
  intros f msg K. unfold materialized, materialize.
  destruct (flazy f) as [[m|body]|] eqn:L; cbn [flazy]; rewrite ?L; congruence.
Qed.

Lemma noBrokenBodyState_GetCalledFunctions (pFunc : FunctionPtr) (st : LinkState) :
  noBrokenBodyState st -> noBrokenBodyState (fst (GetCalledFunctions pFunc st)).
Proof.
  intro H. unfold GetCalledFunctions. destruct (deref st pFunc); cbn [fst];
    [|exact H].
  apply noBrokenBodyState_update; [intros g msg K; exact K | exact H].
Qed.

Lemma noBrokenBodyState_deref (st : LinkState) (p : FunctionPtr) (F : Function)
      (msg : string) :
  noBrokenBodyState st -> deref st p = Some F -> flazy F <> Some (inl msg).
Proof.
  intros [A B] D. unfold deref, getFunction in D. apply find_some in D.
  destruct D as [D _]. destruct p as [[|] n]; cbn [fst moduleOf] in D;
    [apply A | apply B]; exact D.
Qed.

Lemma stopsOrLoads_loaded (pRoot pFunc : FunctionPtr) (st : LinkState) :
  stopsOrLoads st -> stopsOrLoads (loaded pRoot pFunc st).
Proof. intros [H|H]; [left; exact H | right; apply noBrokenBodyState_loaded, H]. Qed.

Lemma stopsOrLoads_GetCalledFunctions (pFunc : FunctionPtr) (st : LinkState) :
  stopsOrLoads st -> stopsOrLoads (fst (GetCalledFunctions pFunc st)).
Proof.
  intros [H|H]; [left; exact H | right].
  apply noBrokenBodyState_GetCalledFunctions, H.
Qed.

Lemma Explore_stopsOrLoads (fuel : nat) :
  forall (pRoot : FunctionPtr) (st st' : LinkState),
    stopsOrLoads st -> Explore fuel pRoot st = Some (Ok st') -> stopsOrLoads st'.
Proof.
  induction fuel as [|fuel IH]; intros pRoot st st' H E; [discriminate|].
  cbn [Explore] in E.
  pose proof (stopsOrLoads_GetCalledFunctions pRoot H) as G.
  destruct (GetCalledFunctions pRoot st) as [st1 called]. cbn [fst] in G.
  clear H. revert st1 G E.
  induction called as [|c cs IHc]; intros s G E; cbn [ExploreCallees] in E.
  - injection E as <-. exact G.
  - destruct (resolve s c) as [pFunc|]; [|apply (IHc s); assumption].
    destruct (deref s pFunc) as [F|] eqn:D; [|apply (IHc s); assumption].
    destruct (isMaterializable F) eqn:Hm; [|apply (IHc s); assumption].
    destruct (materialize F) as [msg|F'].
    { destruct (assert false _); [discriminate|].
      refine (IHc _ _ E). destruct G as [G|[G1 G2]]; [left; exact G|].
      right. split; assumption. }
    fold (loaded pRoot pFunc s) in E.
    destruct (Explore fuel pFunc (loaded pRoot pFunc s)) as [[st2|d m]|] eqn:R;
      try discriminate.
    apply (IHc st2); [|exact E].
    apply (IH _ _ _ (stopsOrLoads_loaded pRoot pFunc G) R).
Qed.

Lemma materialize_stops (s : LinkState) (pFunc : FunctionPtr) (F : Function)
      (msg : string) :
  stopsOrLoads s -> deref s pFunc = Some F -> materialize F = inl msg ->
  assert false "0 && Failed to materialize Global Variables"
  = Some "0 && Failed to materialize Global Variables".
Proof.
  intros [H|H] D Mz; [apply assert_fails; [exact H | reflexivity]|].
  exfalso. apply materialize_inl in Mz.
  exact (@noBrokenBodyState_deref s pFunc F msg H D Mz).
Qed.

Section Closure.
Variable fuel : nat.
Hypothesis Explore_closes_rec :
  forall (p : FunctionPtr) (st st' : LinkState) (P : FunctionPtr -> Prop),
    bodiesNonEmptyState st -> stopsOrLoads st ->
    Explore fuel p st = Some (Ok st') ->
    (forall q, callsPending st q = true -> q = p \/ P q) ->
    forall q, callsPending st' q = true -> P q.

Lemma ExploreCallees_closes (pRoot : FunctionPtr) (Q : FunctionPtr -> Prop)
      (cs : list FunctionPtr) :
  forall s s_end : LinkState,
    bodiesNonEmptyState s -> stopsOrLoads s ->
    ExploreCallees (Explore fuel) pRoot cs s = Some (Ok s_end) ->
    (forall q, callsPending s q = true -> Q q) ->
    walkStableState s s_end
    /\ (forall q, callsPending s_end q = true -> Q q)
    /\ (forall c, In c cs -> pendingCallee s_end c = false).
Proof.
  induction cs as [|c cs IHc]; intros s s_end B SL E I1; cbn [ExploreCallees] in E.
  - injection E as <-. split; [apply walkStableState_refl, B|].
    split; [exact I1 | intros c []].
  - assert (Skip : pendingCallee s c = false ->
                   ExploreCallees (Explore fuel) pRoot cs s = Some (Ok s_end) ->
                   walkStableState s s_end
                   /\ (forall q, callsPending s_end q = true -> Q q)
                   /\ (forall c', In c' (c :: cs) -> pendingCallee s_end c' = false)).
    { intros Hc E'. destruct (IHc s s_end B SL E' I1) as (S & J1 & J2).
      split; [exact S|]. split; [exact J1|]. intros c' [<-|Hc']; [|apply J2, Hc'].
      destruct (pendingCallee s_end c) eqn:X; [|reflexivity].
      rewrite (pendingCallee_walkStable c S X) in Hc. discriminate. }
    destruct (resolve s c) as [pFunc|] eqn:R;
      [|apply Skip; [unfold pendingCallee; rewrite R; reflexivity | exact E]].
    destruct (deref s pFunc) as [F|] eqn:D;
      [|apply Skip; [unfold pendingCallee; rewrite R, D; reflexivity | exact E]].
    destruct (isMaterializable F) eqn:Hm;
      [|apply Skip; [unfold pendingCallee; rewrite R, D; exact Hm | exact E]].
    clear Skip. destruct (materialize F) as [msg|F'] eqn:Mz.
    { rewrite (@materialize_stops s pFunc F msg SL D Mz) in E. discriminate. }
    fold (loaded pRoot pFunc s) in E.
    destruct (Explore fuel pFunc (loaded pRoot pFunc s)) as [[s2|d m]|] eqn:X;
      try discriminate.
    pose proof (walkStableState_loaded pRoot pFunc B) as S1.
    pose proof (walkStableState_bodies S1) as B1.
    pose proof (Explore_walkStable _ _ B1 X) as S2.
    pose proof (walkStableState_bodies S2) as B2.
    pose proof (stopsOrLoads_loaded pRoot pFunc SL) as SL1.
    pose proof (Explore_stopsOrLoads _ _ SL1 X) as SL2.
    assert (J : forall q, callsPending s2 q = true -> Q q).
    { apply (@Explore_closes_rec pFunc (loaded pRoot pFunc s) s2 Q B1 SL1 X).
      intros q Hq. destruct (FunctionPtr_eq_dec q pFunc) as [->|N];
        [left; reflexivity|]. right. apply I1.
      apply (callsPending_walkStable q S1 Hq).
      intros G DG. apply callsPending_inv in Hq.
      destruct Hq as (G' & n & DG' & HG' & _).
      rewrite (deref_loaded_other pRoot s N), DG in DG'. injection DG' as <-.
      exact HG'. }
    destruct (IHc s2 s_end B2 SL2 E J) as (S3 & J1 & J2).
    assert (S : walkStableState s s_end)
      by (eapply walkStableState_trans; [exact S1|];
          eapply walkStableState_trans; eassumption).
    split; [exact S|]. split; [exact J1|]. intros c' [<-|Hc']; [|apply J2, Hc'].
    unfold pendingCallee. rewrite (resolve_walkStable c S), R.
    pose proof (deref_walkStable pFunc (walkStableState_trans S2 S3)) as DD.
    rewrite (deref_loaded pRoot pFunc s D) in DD.
    destruct (deref s_end pFunc) as [Fe|]; [|reflexivity].
    destruct DD as (_ & _ & _ & _ & K & _).
    destruct (isMaterializable Fe) eqn:He; [|reflexivity].
    specialize (K eq_refl). destruct (materialize_inr _ Mz) as [-> K'].
    unfold setCallingConv, isMaterializable in K. cbn [flazy] in K.
    unfold isMaterializable in K'. rewrite K' in K. discriminate K.
Qed.
End Closure.

Lemma Explore_closes (fuel : nat) :
  forall (p : FunctionPtr) (st st' : LinkState) (P : FunctionPtr -> Prop),
    bodiesNonEmptyState st -> stopsOrLoads st ->
    Explore fuel p st = Some (Ok st') ->
    (forall q, callsPending st q = true -> q = p \/ P q) ->
    forall q, callsPending st' q = true -> P q.
Proof.
  induction fuel as [|fuel IH]; intros p st st' P B SL E Pre; [discriminate|].
  cbn [Explore] in E.
  pose proof (walkStableState_GetCalledFunctions p B) as S1.
  pose proof (stopsOrLoads_GetCalledFunctions p SL) as SL1.
  unfold GetCalledFunctions in SL1.
  unfold GetCalledFunctions in E, S1.
  destruct (deref st p) as [F|] eqn:D.
  - cbn [fst] in S1, SL1. pose proof (walkStableState_bodies S1) as B1.
    set (st1 := update (fun f => mapInFunction (setCallCallingConv (fcc f)) f) p st)
      in *.
    assert (D1 : deref st1 p = Some (mapInFunction (setCallCallingConv (fcc F)) F))
      by (unfold st1; rewrite deref_update by reflexivity; rewrite D; reflexivity).
    assert (Back : forall q, callsPending st1 q = true -> callsPending st q = true).
    { intros q Hq. apply (callsPending_walkStable q S1 Hq). intros G DG.
      apply callsPending_inv in Hq. destruct Hq as (G' & n & DG' & HG' & _).
      destruct (FunctionPtr_eq_dec q p) as [->|N].
      - rewrite D1 in DG'. injection DG' as <-. rewrite D in DG.
        injection DG as <-. exact HG'.
      - unfold st1 in DG'. rewrite deref_update_other in DG'
          by (try reflexivity; exact N).
        rewrite DG in DG'. injection DG' as <-. exact HG'. }
    destruct (isMaterializable F) eqn:Hm.
    + destruct (@ExploreCallees_closes fuel IH p P _ st1 st' B1 SL1 E) as (_ & J & _);
        [|exact J].
      intros q Hq. pose proof (Back q Hq) as Hq0.
      destruct (Pre q Hq0) as [->|HP]; [|exact HP].
      unfold callsPending in Hq0. rewrite D, Hm in Hq0. discriminate.
    + destruct (@ExploreCallees_closes fuel IH p (fun q => q = p \/ P q) _ st1 st'
                  B1 SL1 E) as (S2 & J1 & J2).
      { intros q Hq. apply Pre, Back, Hq. }
      intros q Hq. destruct (J1 q Hq) as [->|HP]; [|exact HP]. exfalso.
      apply callsPending_inv in Hq. destruct Hq as (Fe & n & De & He & Hn & Hp).
      pose proof (deref_walkStable p S2) as DD. rewrite D1, De in DD.
      destruct DD as (_ & _ & _ & _ & _ & K).
      rewrite K in Hn
        by (unfold mapInFunction, setBlocks, isMaterializable; cbn [flazy];
            exact Hm).
      rewrite instructionsOf_mapInFunction, map_map in Hn.
      rewrite (map_ext _ _ (getCalledFunction_setCallCallingConv (fcc F))) in Hn.
      apply in_map_iff in Hn. destruct Hn as (i & Gi & Hi).
      assert (C : In (fst p, n)
                     (map (fun name => (fst p, name))
                          (calledFunctions [] (instructionsOf F)))).
      { apply in_map. apply (calledFunctions_spec (instructionsOf F) []).
        split; [intros []|]. exists i. split; assumption. }
      rewrite (J2 _ C) in Hp. discriminate.
  - cbn [ExploreCallees] in E. injection E as <-. intros q Hq.
    destruct (Pre q Hq) as [->|HP]; [|exact HP].
    unfold callsPending in Hq. rewrite D in Hq. discriminate.
Qed.

Lemma ExploreAll_closes (roots : list string) :
  forall st st' : LinkState,
    bodiesNonEmptyState st -> stopsOrLoads st ->
    ExploreAll roots st = Some (Ok st') ->
    (forall q, callsPending st q = true -> exists r, In r roots /\ q = (InMain, r)) ->
    forall q, callsPending st' q = false.
Proof.
  induction roots as [|func roots IH]; intros st st' B SL E Pre q;
    cbn [ExploreAll] in E.
  - injection E as <-. destruct (callsPending st q) eqn:H; [|reflexivity].
    destruct (Pre q H) as (r & [] & _).
  - destruct (Explore (S (pendingBodies st)) (InMain, func) st)
      as [[st1|d m]|] eqn:R; try discriminate.
    apply (IH st1 st'); [| |exact E|].
    + eapply walkStableState_bodies, Explore_walkStable; eassumption.
    + eapply Explore_stopsOrLoads; eassumption.
    + apply (@Explore_closes _ (InMain, func) st st1
               (fun q => exists r, In r roots /\ q = (InMain, r)) B SL R).
      intros q' Hq'. destruct (Pre q' Hq') as (r & [<-|Hr] & ->);
        [left; reflexivity | right; eauto].
Qed.

(** X16.  What the walk is for.  Let every body that waits to be loaded
    have a block, and let no function of the library whose body is in
    memory call a function that waits for its body (as when the library is
    loaded lazily).  Let the build keep the assertions, or let no body be
    one that cannot be loaded: a build with [NDEBUG] walks past such a body
    and leaves its function waiting.  When the walk over the functions of
    the main module succeeds, no function in memory, of the main module or
    of the library, directly calls a function that still waits for its
    body: every such callee has been loaded, together with what it calls in
    turn. *)
Theorem walk_loads_every_callee (Main BiF : Module) (st' : LinkState) :
  bodiesNonEmpty Main -> bodiesNonEmpty BiF ->
  NDEBUG = false \/ (noBrokenBody Main /\ noBrokenBody BiF) ->
  (forall name, callsPending (mkLink Main BiF) (InBiF, name) = false) ->
  ExploreAll (map fname (functions Main)) (mkLink Main BiF) = Some (Ok st') ->
  forall p, callsPending st' p = false.
Proof.
  intros BM BB SL HB E.
  apply (@ExploreAll_closes (map fname (functions Main)) (mkLink Main BiF) st');
    [split; assumption | exact SL | exact E|].
  intros [[|] n] Hq; [|rewrite HB in Hq; discriminate].
  exists n. split; [|reflexivity]. apply callsPending_inv in Hq.
  destruct Hq as (F & _ & D & _). unfold deref, getFunction in D.
  cbn [fst snd moduleOf MainModule] in D. apply find_some in D.
  destruct D as [HF HE]. apply String.eqb_eq in HE. subst n.
  apply in_map, HF.
Qed.

(* ================================================================== *)
(** * More on [removeFunctionBitcasts] *)

Lemma refinesF_eraseFromParent (del : list InstId) (f : Function) :
  refinesF f (eraseFromParent del f).
Proof.
  split; [reflexivity|]. split; [reflexivity|]. intros n Hn.
  apply targetsOf_In in Hn. destruct Hn as (i & Hi & E). apply targetsOf_In.
  exists i. split; [|exact E]. unfold instructionsOf, eraseFromParent, setBlocks in *.
  cbn [fblocks] in Hi. apply in_concat in Hi. destruct Hi as (b & Hb & Hi).
  apply in_map_iff in Hb. destruct Hb as (b0 & <- & Hb0).
  apply filter_In in Hi. apply in_concat. exists b0. split; [exact Hb0 | apply Hi].
Qed.

Lemma refines_eraseFromParent (del : list InstId) (fs : list Function) :
  Forall2 refinesF fs (map (eraseFromParent del) fs).
Proof.
  induction fs as [|f fs IH]; cbn [map]; constructor;
    [apply refinesF_eraseFromParent | exact IH].
Qed.

(** X17.  [removeFunctionBitcasts] keeps a module in order: when the
    functions of the module have distinct names and every function called
    through a cast is a function of the module, the same holds of the module
    the pass leaves, whatever it has created and erased. *)
Theorem removeFunctionBitcasts_keeps_well_formed (fuel : nat) (M M' : Module) :
  wellFormed M -> removeFunctionBitcasts fuel M = Some M' -> wellFormed M'.
Proof.
  intros W H. unfold removeFunctionBitcasts in H.
  destruct (removeFunctionBitcasts_state fuel M) as [m|] eqn:E; [|discriminate].
  injection H as <-. pose proof (removeFunctionBitcasts_invariant _ W E) as Inv.
  pose proof (refines_eraseFromParent (msDelete (bcm m))
                                      (visited (bcm m) ++ pending (bcm m))) as R.
  unfold wellFormed. cbn [functions]. rewrite (refines_names R). split.
  - exact (names_unique Inv).
  - intros n Hn. apply (targets_exist Inv). exact (refines_targets R n Hn).
Qed.

(* ================================================================== *)
(** * [removeFunctionBitcasts] ends *)

(** A call that has been redirected stays in its block, its references
    dropped, until the pass ends; a function cloned in between is cloned
    with it.  [CloneFunctionInto] is taken to copy such a call as it is:
    the copy is no call through a cast any more. *)

(** ** The calls through a cast, counted *)

Lemma castPairs_app (l m : list Instruction) :
  castPairs (l ++ m) = castPairs l ++ castPairs m.
Proof. apply flat_map_app. Qed.

Lemma castPair_mapOperands (g : Value -> Value) (i : Instruction) :
  (forall w t, g (VBitCast w t) = VBitCast w t) ->
  (forall v w t, g v = VBitCast w t -> v = VBitCast w t) ->
  castPair (mapOperands g i) = castPair i.
Proof.
  intros H1 H2. unfold castPair, mapOperands. cbn [ikind].
  destruct (ikind i) as [callee a t cc| | |]; try reflexivity.
  destruct callee as [| | | | | |w ty|];
    try (match goal with
         | |- match g ?v with _ => _ end = _ =>
             destruct (g v) eqn:E; try reflexivity; apply H2 in E; discriminate E
         end).
  rewrite H1. reflexivity.
Qed.

Lemma castPairs_one (i : Instruction) :
  castPairs [i] = match castPair i with Some p => [p] | None => [] end.
Proof. unfold castPairs. cbn [flat_map]. apply app_nil_r. Qed.

Lemma castPairs_map (g : Instruction -> Instruction) (l : list Instruction) :
  (forall i, castPair (g i) = castPair i) -> castPairs (map g l) = castPairs l.
Proof.
  intro H. unfold castPairs. induction l as [|i l IH]; cbn [map flat_map];
    [reflexivity|]. rewrite H, IH. reflexivity.
Qed.

Lemma castPair_replaceUse (old new : InstId) (i : Instruction) :
  castPair (mapOperands (replaceUse old new) i) = castPair i.
Proof.
  apply castPair_mapOperands; [reflexivity|].
  intros v w t. apply replaceUse_cast.
Qed.

Lemma castPair_cloneInstruction (vmap : list (InstId * InstId))
      (dstTy : FunctionType) (i : Instruction) :
  castPair (cloneInstruction vmap dstTy i) = castPair i.
Proof.
  transitivity (castPair (mapOperands (remapValue vmap dstTy) i)); [reflexivity|].
  apply castPair_mapOperands; [reflexivity|].
  intros v w t. apply remapValue_cast.
Qed.

Lemma castPair_dropped (i : Instruction) :
  castPair (mapOperands (fun _ => VNull) i) = None.
Proof.
  unfold castPair, mapOperands. cbn [ikind]. destruct (ikind i); reflexivity.
Qed.

Lemma castPair_castTarget (i : Instruction) :
  castTarget i = option_map fst (castPair i).
Proof.
  unfold castTarget, castPair. destruct (ikind i) as [callee a t cc| | |];
    try reflexivity.
  destruct callee as [| | | | | |w ty|]; try reflexivity.
  destruct (stripPointerCasts (VBitCast w ty)); reflexivity.
Qed.

Lemma pairsOf_mapInFunction (g : Instruction -> Instruction) (f : Function) :
  (forall i, castPair (g i) = castPair i) -> pairsOf (mapInFunction g f) = pairsOf f.
Proof.
  intro H. unfold pairsOf. rewrite instructionsOf_mapInFunction.
  apply castPairs_map, H.
Qed.

Lemma pairsOf_cloneInto (d f : Function) (next : InstId) :
  pairsOf (cloneInto d f next) = pairsOf f.
Proof.
  unfold pairsOf, cloneInto, CloneFunctionInto, setCallingConv, instructionsOf.
  cbv zeta. cbn [fblocks ftype]. rewrite <- concat_map.
  apply castPairs_map. intro i. apply castPair_cloneInstruction.
Qed.

Lemma pairsOf_current (c : RWState) :
  pairsOf (currentFunction c)
  = castPairs (concat (bpre c))
    ++ (castPairs (ipre c) ++ castPairs (ipost c))
    ++ castPairs (concat (bpost c)).
Proof.
  unfold pairsOf. rewrite instructionsOf_current, !castPairs_app. reflexivity.
Qed.

Lemma pairsOf_In (f : Function) (i : Instruction) (p : string * FunctionType) :
  In i (instructionsOf f) -> castPair i = Some p -> In p (pairsOf f).
Proof.
  intros Hi E. unfold pairsOf, castPairs. apply in_flat_map. exists i.
  split; [exact Hi|]. rewrite E. left. reflexivity.
Qed.

Lemma weights_app (fs gs : list Function) : weights (fs ++ gs) = weights fs + weights gs.
Proof.
  induction fs as [|f fs IH]; cbn [app weights fold_right]; [reflexivity|].
  fold (weights (fs ++ gs)) (weights fs). rewrite IH. lia.
Qed.

Lemma weights_filter (p : Function -> bool) (fs : list Function) :
  weights (filter p fs) <= weights fs.
Proof.
  induction fs as [|f fs IH]; cbn [filter]; [lia|].
  destruct (p f); cbn [weights fold_right]; fold (weights (filter p fs)) (weights fs);
    lia.
Qed.

Lemma weights_map (g : Function -> Function) (fs : list Function) :
  (forall f, castCalls (g f) = castCalls f) -> weights (map g fs) = weights fs.
Proof.
  intro H. induction fs as [|f fs IH]; cbn [map weights fold_right]; [reflexivity|].
  fold (weights (map g fs)) (weights fs). rewrite H, IH. reflexivity.
Qed.

(** ** What the steps do to the measure *)

Lemma remaining_mapAll (g : Instruction -> Instruction) (c : RWState) :
  (forall i, castPair (g i) = castPair i) -> remaining (mapAll g c) = remaining c.
Proof.
  intro H. unfold remaining, mapAll. cbn [ipost bpost fpost].
  rewrite (castPairs_map _ _ H), <- concat_map, (castPairs_map _ _ H).
  rewrite weights_map; [reflexivity|]. intro f. unfold castCalls.
  rewrite (pairsOf_mapInFunction _ _ H). reflexivity.
Qed.

Lemma remaining_dropAllReferences (c : RWState) :
  remaining (dropAllReferences c) <= remaining c.
Proof.
  unfold dropAllReferences. destruct (ipost c) as [|i rest] eqn:P; [lia|].
  unfold remaining. cbn [ipost bpost fpost]. rewrite P.
  change (i :: rest) with ([i] ++ rest).
  change (mapOperands (fun _ => VNull) i :: rest)
    with ([mapOperands (fun _ => VNull) i] ++ rest).
  rewrite !castPairs_app, !length_app, castPairs_one, castPair_dropped.
  cbn [length]. lia.
Qed.

Lemma remaining_eraseFunction (name : string) (c : RWState) :
  remaining (eraseFunction name c) <= remaining c.
Proof.
  unfold remaining, eraseFunction. cbn [ipost bpost fpost].
  pose proof (weights_filter (fun f => negb (String.eqb (fname f) name)) (fpost c)).
  lia.
Qed.

Lemma remaining_advance (c : RWState) : remaining (advance c) <= remaining c.
Proof.
  unfold advance. destruct (ipost c) as [|i rest] eqn:P; [lia|].
  unfold remaining. cbn [ipost bpost fpost]. rewrite P.
  change (i :: rest) with ([i] ++ rest). rewrite castPairs_app, length_app. lia.
Qed.

Lemma remaining_advance_cast (c : RWState) (i : Instruction)
      (rest : list Instruction) (p : string * FunctionType) :
  ipost c = i :: rest -> castPair i = Some p ->
  S (remaining (advance c)) = remaining c.
Proof.
  intros P E. unfold advance. rewrite P. unfold remaining.
  cbn [ipost bpost fpost]. rewrite P.
  change (i :: rest) with ([i] ++ rest). rewrite castPairs_app, length_app.
  rewrite castPairs_one, E. cbn [length]. lia.
Qed.

Lemma remaining_openBlock (BB : BasicBlock) (rest : list BasicBlock) (c : RWState) :
  bpost c = BB :: rest -> remaining (openBlock BB rest c) <= remaining c.
Proof.
  intro P. unfold remaining, openBlock. cbn [ipost bpost fpost]. rewrite P.
  cbn [concat]. rewrite castPairs_app, length_app. lia.
Qed.

Lemma remaining_closeBlock (c : RWState) : remaining (closeBlock c) <= remaining c.
Proof. unfold remaining, closeBlock. cbn [ipost bpost fpost castPairs flat_map length]. lia. Qed.

(** ** What the steps do to the calls of the functions *)

Lemma coveredL_refl (L : list (list (string * FunctionType))) : coveredL L L.
Proof. intros l Hl. exists l. split; [exact Hl|]. split; [apply incl_refl | lia]. Qed.

Lemma coveredL_trans (L1 L2 L3 : list (list (string * FunctionType))) :
  coveredL L1 L2 -> coveredL L2 L3 -> coveredL L1 L3.
Proof.
  intros A B l3 H3. destruct (B l3 H3) as (l2 & H2 & I2 & N2).
  destruct (A l2 H2) as (l1 & H1 & I1 & N1). exists l1.
  split; [exact H1|]. split; [eapply incl_tran; eassumption | lia].
Qed.

Lemma boundedL_covered (pairs : list (string * FunctionType))
      (L L' : list (list (string * FunctionType))) :
  boundedL pairs L -> coveredL L L' -> boundedL pairs L'.
Proof.
  intros B C l' H'. destruct (C l' H') as (l & H & I & N).
  destruct (B l H) as [I0 N0]. split; [eapply incl_tran; eassumption | lia].
Qed.

Lemma statePairs_split (c : RWState) :
  statePairs c
  = map pairsOf (fpre c) ++ pairsOf (currentFunction c) :: map pairsOf (fpost c).
Proof. unfold statePairs, allFunctions. rewrite map_app. reflexivity. Qed.

Lemma coveredL_zipper (c c' : RWState) :
  map pairsOf (fpre c') = map pairsOf (fpre c) ->
  map pairsOf (fpost c') = map pairsOf (fpost c) ->
  incl (pairsOf (currentFunction c')) (pairsOf (currentFunction c)) ->
  length (pairsOf (currentFunction c')) <= length (pairsOf (currentFunction c)) ->
  coveredL (statePairs c) (statePairs c').
Proof.
  intros A B I N. rewrite !statePairs_split, A, B. intros l Hl.
  apply in_app_or in Hl. destruct Hl as [Hl|[<-|Hl]].
  - exists l. split; [apply in_or_app; left; exact Hl|].
    split; [apply incl_refl | lia].
  - exists (pairsOf (currentFunction c)).
    split; [apply in_or_app; right; left; reflexivity|]. split; assumption.
  - exists l. split; [apply in_or_app; right; right; exact Hl|].
    split; [apply incl_refl | lia].
Qed.

Lemma map_pairsOf_map (g : Instruction -> Instruction) (fs : list Function) :
  (forall i, castPair (g i) = castPair i) ->
  map pairsOf (map (mapInFunction g) fs) = map pairsOf fs.
Proof.
  intro H. rewrite map_map. apply map_ext. intro f. apply pairsOf_mapInFunction, H.
Qed.

Lemma covered_insertBefore (n : Instruction) (c : RWState) :
  castPair n = None -> coveredL (statePairs c) (statePairs (insertBefore n c)).
Proof.
  intro Hn.
  assert (E : pairsOf (currentFunction (insertBefore n c)) = pairsOf (currentFunction c)).
  { rewrite !pairsOf_current. unfold insertBefore. cbn [bpre ipre ipost bpost].
    rewrite castPairs_app, castPairs_one, Hn, app_nil_r. reflexivity. }
  apply coveredL_zipper; try reflexivity; rewrite E; [apply incl_refl | lia].
Qed.

Lemma covered_mapAll (g : Instruction -> Instruction) (c : RWState) :
  (forall i, castPair (g i) = castPair i) ->
  coveredL (statePairs c) (statePairs (mapAll g c)).
Proof.
  intro H.
  assert (E : pairsOf (currentFunction (mapAll g c)) = pairsOf (currentFunction c)).
  { rewrite !pairsOf_current. unfold mapAll. cbn [bpre ipre ipost bpost].
    rewrite <- !concat_map, !(castPairs_map _ _ H). reflexivity. }
  apply coveredL_zipper; try (apply map_pairsOf_map, H);
    rewrite E; [apply incl_refl | lia].
Qed.

Lemma covered_dropAllReferences (c : RWState) :
  coveredL (statePairs c) (statePairs (dropAllReferences c)).
Proof.
  unfold dropAllReferences. destruct (ipost c) as [|i rest] eqn:P;
    [apply coveredL_refl|].
  apply coveredL_zipper; try reflexivity; rewrite !pairsOf_current;
    cbn [bpre ipre ipost bpost]; rewrite P;
    change (i :: rest) with ([i] ++ rest);
    change (mapOperands (fun _ => VNull) i :: rest)
      with ([mapOperands (fun _ => VNull) i] ++ rest);
    rewrite !castPairs_app, !castPairs_one, castPair_dropped; cbn [app].
  - intros p Hp. rewrite !in_app_iff in *. tauto.
  - rewrite !length_app. lia.
Qed.

Lemma covered_eraseFunction (name : string) (c : RWState) :
  coveredL (statePairs c) (statePairs (eraseFunction name c)).
Proof.
  rewrite !statePairs_split. unfold eraseFunction. cbn [fpre fpost].
  change (currentFunction (mkRW _ _ _ _ _ _ _ _ _)) with (currentFunction c).
  intros l Hl. exists l. split; [|split; [apply incl_refl | lia]].
  apply in_app_or in Hl. apply in_or_app. destruct Hl as [Hl|[<-|Hl]].
  - left. apply in_map_iff in Hl. destruct Hl as (f & <- & Hf).
    apply filter_In in Hf. apply in_map, Hf.
  - right. left. reflexivity.
  - right. right. apply in_map_iff in Hl. destruct Hl as (f & <- & Hf).
    apply filter_In in Hf. apply in_map, Hf.
Qed.

Lemma statePairs_advance (c : RWState) : statePairs (advance c) = statePairs c.
Proof.
  unfold advance. destruct (ipost c) as [|i rest] eqn:P; [reflexivity|].
  rewrite !statePairs_split. cbn [fpre fpost]. f_equal. f_equal.
  rewrite !pairsOf_current. cbn [bpre ipre ipost bpost]. rewrite P.
  change (i :: rest) with ([i] ++ rest). rewrite !castPairs_app, <- !app_assoc.
  reflexivity.
Qed.

Lemma covered_openBlock (BB : BasicBlock) (rest : list BasicBlock) (c : RWState) :
  bpost c = BB :: rest -> coveredL (statePairs c) (statePairs (openBlock BB rest c)).
Proof.
  intro P. apply coveredL_zipper; try reflexivity; rewrite !pairsOf_current;
    unfold openBlock; cbn [bpre ipre ipost bpost]; rewrite P; cbn [concat];
    rewrite castPairs_app; cbn [castPairs flat_map app].
  - intros p Hp. rewrite !in_app_iff in *. tauto.
  - rewrite !length_app. lia.
Qed.

Lemma statePairs_closeBlock (c : RWState) : statePairs (closeBlock c) = statePairs c.
Proof.
  rewrite !statePairs_split. unfold closeBlock at 1 3. cbn [fpre fpost]. f_equal. f_equal.
  rewrite !pairsOf_current. unfold closeBlock. cbn [bpre ipre ipost bpost].
  rewrite concat_app, castPairs_app. cbn [concat castPairs flat_map app].
  rewrite app_nil_r, castPairs_app, <- !app_assoc. reflexivity.
Qed.

(** ** The pairs without a clone *)

Lemma filter_length_mono {A : Type} (p q : A -> bool) (l : list A) :
  (forall x, In x l -> q x = true -> p x = true) ->
  length (filter q l) <= length (filter p l).
Proof.
  induction l as [|a l IH]; intro H; cbn [filter]; [lia|].
  assert (IH' : length (filter q l) <= length (filter p l))
    by (apply IH; intros x Hx; apply H; right; exact Hx).
  destruct (q a) eqn:Q.
  - rewrite (H a (or_introl eq_refl) Q). cbn [length]. lia.
  - destruct (p a); cbn [length]; lia.
Qed.

Lemma filter_length_strict {A : Type} (p q : A -> bool) (l : list A) (x0 : A) :
  (forall x, In x l -> q x = true -> p x = true) ->
  In x0 l -> p x0 = true -> q x0 = false ->
  length (filter q l) < length (filter p l).
Proof.
  induction l as [|a l IH]; intros H Hx P Q; [destruct Hx|]. cbn [filter].
  assert (M : length (filter q l) <= length (filter p l))
    by (apply filter_length_mono; intros x Hx'; apply H; right; exact Hx').
  destruct Hx as [->|Hx].
  - rewrite P, Q. cbn [length]. lia.
  - assert (IH' : length (filter q l) < length (filter p l))
      by (apply IH; try assumption; intros x Hx'; apply H; right; exact Hx').
    destruct (q a) eqn:Qa.
    + rewrite (H a (or_introl eq_refl) Qa). cbn [length]. lia.
    + destruct (p a); cbn [length]; lia.
Qed.

Lemma uncached_le (fs fs' : list Function) (cache cache' : list (string * list string))
      (pairs : list (string * FunctionType)) :
  cacheGrows fs cache fs' cache' ->
  uncached fs' cache' pairs <= uncached fs cache pairs.
Proof.
  intro G. unfold uncached. apply filter_length_mono. intros [k T] _. cbn [fst snd].
  destruct (cloneNameIn fs cache k T) as [x|] eqn:E; [|reflexivity].
  rewrite (G k T x E). intro H. exact H.
Qed.

Lemma uncached_lt (fs fs' : list Function) (cache cache' : list (string * list string))
      (pairs : list (string * FunctionType)) (k : string) (T : FunctionType)
      (x : string) :
  cacheGrows fs cache fs' cache' ->
  In (k, T) pairs ->
  cloneNameIn fs cache k T = None -> cloneNameIn fs' cache' k T = Some x ->
  uncached fs' cache' pairs < uncached fs cache pairs.
Proof.
  intros G Hp N S. unfold uncached.
  apply (@filter_length_strict _ _ _ pairs (k, T)); cbn [fst snd];
    [|exact Hp | rewrite N; reflexivity | rewrite S; reflexivity].
  intros [k' T'] _. cbn [fst snd].
  destruct (cloneNameIn fs cache k' T') as [y|] eqn:E; [|reflexivity].
  rewrite (G k' T' y E). intro H. exact H.
Qed.

Lemma uncached_bound (fs : list Function) (cache : list (string * list string))
      (pairs : list (string * FunctionType)) :
  uncached fs cache pairs <= length pairs.
Proof. unfold uncached. apply filter_length_le. Qed.

Lemma cacheGrows_cloneName (s s' : BCState) :
  (forall k T x, cloneName s k T = Some x -> cloneName s' k T = Some x) ->
  cacheGrows (allFunctions (cursor s)) (bitcastFunctionMap s)
             (allFunctions (cursor s')) (bitcastFunctionMap s').
Proof. intros H k T x E. rewrite <- cloneName_eq in *. apply H, E. Qed.

Lemma cacheGrows_eq (s s' : BCState) :
  (forall k T, cloneName s' k T = cloneName s k T) ->
  cacheGrows (allFunctions (cursor s)) (bitcastFunctionMap s)
             (allFunctions (cursor s')) (bitcastFunctionMap s').
Proof. intros H k T x E. rewrite <- cloneName_eq in *. rewrite H. exact E. Qed.

(** ** The body of the loop *)

Lemma redirectCall_measure (pInstCall : Instruction) (callee : Value)
      (args : list Value) (cc : CallingConv) (name : string) (pDstFunc : Function)
      (s : BCState) :
  remaining (cursor (redirectCall pInstCall callee args cc name pDstFunc s))
  <= remaining (cursor s)
  /\ coveredL (statePairs (cursor s))
              (statePairs (cursor (redirectCall pInstCall callee args cc name
                                                pDstFunc s))).
Proof.
  unfold redirectCall. cbv zeta. cbn [cursor bitcastFunctionMap bcGlobals].
  set (newCI := mkInst (nextId (cursor s)) (getReturnType (ftype pDstFunc)) 0
                       (Call (VFunc (fname pDstFunc) (ftype pDstFunc)) args
                             (ftype pDstFunc) cc)).
  set (c3 := dropAllReferences
               (replaceAllUsesWith (iid pInstCall) newCI
                  (takeId (insertBefore newCI (cursor s))))).
  assert (R3 : remaining c3 <= remaining (cursor s)).
  { unfold c3. eapply Nat.le_trans; [apply remaining_dropAllReferences|].
    unfold replaceAllUsesWith. rewrite remaining_mapAll
      by (intro i; apply castPair_replaceUse). apply Nat.le_refl. }
  assert (C3 : coveredL (statePairs (cursor s)) (statePairs c3)).
  { unfold c3. eapply coveredL_trans; [|apply covered_dropAllReferences].
    unfold replaceAllUsesWith.
    eapply coveredL_trans;
      [|apply covered_mapAll; intro i; apply castPair_replaceUse].
    exact (@covered_insertBefore newCI (cursor s) eq_refl). }
  destruct (use_empty name (mkBC c3 (bitcastFunctionMap s) (bcGlobals s))
            && negb (isNestedCast callee)).
  - split.
    + eapply Nat.le_trans; [|exact R3]. exact (remaining_eraseFunction name c3).
    + eapply coveredL_trans; [exact C3|]. exact (covered_eraseFunction name c3).
  - split; [exact R3 | exact C3].
Qed.

Lemma fpost_replaceFunction (g d : Function) (c : RWState) :
  fname g = fname d -> ~ In (fname d) (map fname (allFunctions c)) ->
  fpost (replaceFunction g (addFunction d c)) = fpost c ++ [g].
Proof.
  intros E N. unfold allFunctions, replaceFunction, addFunction in *.
  cbn [fpost fpre] in *. rewrite map_app in N. cbn [map] in N.
  rewrite in_app_iff in N. cbn [In] in N.
  assert (K : forall l, ~ In (fname d) (map fname l) ->
                map (fun f => if String.eqb (fname f) (fname g) then g else f) l = l).
  { intros l Hl. rewrite <- (map_id l) at 2. apply map_ext_in. intros x Hx.
    destruct (String.eqb (fname x) (fname g)) eqn:Ex; [|reflexivity].
    apply String.eqb_eq in Ex. exfalso. apply Hl. rewrite <- E, <- Ex.
    apply in_map. exact Hx. }
  rewrite map_app, K by tauto. cbn [map]. rewrite E, String.eqb_refl. reflexivity.
Qed.

Lemma allFunctions_addFunction (d : Function) (c : RWState) :
  allFunctions (addFunction d c) = allFunctions c ++ [d].
Proof.
  unfold allFunctions, addFunction. cbn [fpre fpost].
  change (currentFunction (mkRW _ _ _ _ _ _ _ _ _)) with (currentFunction c).
  rewrite <- app_assoc. reflexivity.
Qed.

Lemma boundedL_snoc (pairs : list (string * FunctionType))
      (L : list (list (string * FunctionType))) (l l0 : list (string * FunctionType)) :
  boundedL pairs L -> In l0 L -> incl l l0 -> length l <= length l0 ->
  boundedL pairs (L ++ [l]).
Proof.
  intros B H0 I N x Hx. apply in_app_or in Hx. destruct Hx as [Hx|[<-|[]]];
    [exact (B x Hx)|]. destruct (B l0 H0) as [I0 N0].
  split; [eapply incl_tran; eassumption | lia].
Qed.

Section MeasureStep.
Variable pairs : list (string * FunctionType).

Lemma measure_after_advance (t : BCState) (bound : nat) :
  cacheInvariant t ->
  boundedL pairs (statePairs (cursor t)) ->
  remaining (advance (cursor t))
  + S (length pairs) * uncached (allFunctions (cursor t)) (bitcastFunctionMap t) pairs
  <= bound ->
  cacheInvariant (onCursor advance t)
  /\ boundedL pairs (statePairs (cursor (onCursor advance t)))
  /\ measureAt pairs (onCursor advance t) <= bound.
Proof.
  intros I B M.
  destruct (onCursor_invariant advance (refines_advance _) I) as [I2 E2].
  split; [exact I2|]. split.
  - unfold onCursor. cbn [cursor]. rewrite statePairs_advance. exact B.
  - unfold measureAt.
    pose proof (uncached_le pairs (cacheGrows_eq t (onCursor advance t) E2)) as U.
    unfold onCursor at 1. cbn [cursor].
    assert (X : S (length pairs)
                * uncached (allFunctions (cursor (onCursor advance t)))
                           (bitcastFunctionMap (onCursor advance t)) pairs
                <= S (length pairs)
                   * uncached (allFunctions (cursor t)) (bitcastFunctionMap t) pairs)
      by (apply Nat.mul_le_mono_l; exact U).
    lia.
Qed.

Lemma repair_step (pInstCall : Instruction) (s : BCState) (rest : list Instruction) :
  cacheInvariant s ->
  boundedL pairs (statePairs (cursor s)) ->
  ipost (cursor s) = pInstCall :: rest ->
  cacheInvariant (onCursor advance (repairCall pInstCall s))
  /\ boundedL pairs (statePairs (cursor (onCursor advance (repairCall pInstCall s))))
  /\ measureAt pairs (onCursor advance (repairCall pInstCall s)) <= measureAt pairs s.
Proof.
  intros Inv B P.
  destruct (repairCall_invariant Inv P) as [I1 E1].
  pose proof (uncached_le pairs (cacheGrows_cloneName s _ E1)) as U1.
  assert (Skip : repairCall pInstCall s = s ->
            cacheInvariant (onCursor advance (repairCall pInstCall s))
            /\ boundedL pairs
                 (statePairs (cursor (onCursor advance (repairCall pInstCall s))))
            /\ measureAt pairs (onCursor advance (repairCall pInstCall s))
               <= measureAt pairs s).
  { intros ->. apply measure_after_advance; [exact Inv | exact B|].
    unfold measureAt. pose proof (remaining_advance (cursor s)). lia. }
  destruct (ikind pInstCall) as [callee args callTy cc| | |] eqn:K;
    try (apply Skip; unfold repairCall; rewrite K; reflexivity).
  destruct callee as [| | | | | |v ty|];
    try (apply Skip; unfold repairCall; rewrite K; reflexivity).
  destruct (stripPointerCasts (VBitCast v ty)) as [| | | | |name fty| |] eqn:St;
    try (apply Skip; unfold repairCall; rewrite K; cbv zeta; rewrite St; reflexivity).
  destruct (findFunction (cursor s) name) as [f|] eqn:F;
    [|apply Skip; unfold repairCall; rewrite K; cbv zeta; rewrite St, F; reflexivity].
  destruct (isDeclaration f) eqn:D;
    [apply Skip; unfold repairCall; rewrite K; cbv zeta; rewrite St, F, D; reflexivity|].
  clear Skip.
  assert (CP : castPair pInstCall = Some (name, callTy))
    by (unfold castPair; rewrite K, St; reflexivity).
  assert (Cur : In (pairsOf (currentFunction (cursor s))) (statePairs (cursor s)))
    by (rewrite statePairs_split; apply in_or_app; right; left; reflexivity).
  assert (InP : In (name, callTy) pairs).
  { apply (proj1 (B _ Cur)). rewrite pairsOf_current, P.
    change (pInstCall :: rest) with ([pInstCall] ++ rest).
    rewrite castPairs_app, castPairs_one, CP, !in_app_iff. right. left. right. left.
    left. reflexivity. }
  apply measure_after_advance; [exact I1| |].
  - (* the calls of the functions *)
    destruct (lookupClone s name callTy) as [d|] eqn:L.
    + rewrite (repairCall_hit _ _ K St F D L).
      eapply boundedL_covered; [exact B|]. apply redirectCall_measure.
    + destruct (Nat.eq_dec (length (params callTy)) (arg_size f)) as [A|A].
      * rewrite (repairCall_miss _ _ K St F D L A).
        eapply boundedL_covered; [|apply redirectCall_measure].
        unfold statePairs. rewrite (@functions_s2 s callTy name f), map_app.
        cbn [map]. rewrite pairsOf_cloneInto.
        apply (@boundedL_snoc pairs _ _ (pairsOf f) B);
          [apply in_map, (findFunction_In _ _ F) | apply incl_refl | lia].
      * rewrite (repairCall_mismatch _ _ K St F D L A). cbn [cursor].
        unfold statePairs.
        rewrite allFunctions_addFunction, map_app.
        apply (@boundedL_snoc pairs _ _ (pairsOf f) B);
          [apply in_map, (findFunction_In _ _ F) | intros p [] | cbn; lia].
  - (* the measure *)
    unfold measureAt.
    destruct (lookupClone s name callTy) as [d|] eqn:L.
    + pose proof (proj1 (redirectCall_measure pInstCall (VBitCast v ty) args cc name
                                              d s)) as R.
      rewrite <- (repairCall_hit _ _ K St F D L) in R.
      pose proof (remaining_advance (cursor (repairCall pInstCall s))) as Ad.
      assert (X : S (length pairs)
                  * uncached (allFunctions (cursor (repairCall pInstCall s)))
                             (bitcastFunctionMap (repairCall pInstCall s)) pairs
                  <= S (length pairs)
                     * uncached (allFunctions (cursor s)) (bitcastFunctionMap s) pairs)
        by (apply Nat.mul_le_mono_l; exact U1).
      lia.
    + destruct (Nat.eq_dec (length (params callTy)) (arg_size f)) as [A|A].
      * pose proof (repairCall_miss _ _ K St F D L A) as Eq.
        destruct (@invariant_s2 s Inv callTy name f F L) as (I2 & New & E2).
        match type of Eq with
        | _ = redirectCall _ _ _ _ _ ?clone ?s2 =>
            pose proof (proj1 (redirectCall_measure pInstCall (VBitCast v ty) args cc
                                                    name clone s2)) as R;
              destruct (@redirectCall_invariant pInstCall (VBitCast v ty) args cc name
                          clone s2 rest I2 P (repair_target pInstCall K St))
                as [_ E3];
              pose proof (uncached_le pairs (cacheGrows_eq s2 _ E3)) as U3;
              assert (U2 : uncached (allFunctions (cursor s2)) (bitcastFunctionMap s2)
                                    pairs
                           < uncached (allFunctions (cursor s)) (bitcastFunctionMap s)
                                      pairs)
                by (apply (@uncached_lt _ _ _ _ pairs name callTy (fname clone));
                    [apply cacheGrows_cloneName; exact E2
                    | exact InP
                    | rewrite <- cloneName_eq; apply lookupClone_None; exact L
                    | rewrite <- cloneName_eq; exact New]);
              assert (R2 : remaining (cursor s2)
                           = remaining (cursor s) + S (castCalls clone))
                by (unfold remaining; cbn [cursor];
                    change (ipost (setNextId _ (replaceFunction _ (addFunction _ ?c))))
                      with (ipost c);
                    change (bpost (setNextId _ (replaceFunction _ (addFunction _ ?c))))
                      with (bpost c);
                    change (fpost (setNextId _ ?c)) with (fpost c);
                    rewrite (@fpost_replaceFunction clone
                               (fst (Function_Create callTy (flinkage f) (fname f)
                                                     (cursor s)))
                               (cursor s) eq_refl
                               (Function_Create_fresh callTy (flinkage f) (fname f)
                                                      (cursor s))),
                      weights_app; cbn [weights fold_right]; lia);
              assert (CC : castCalls clone <= length pairs)
                by (unfold castCalls; rewrite pairsOf_cloneInto;
                    apply (B (pairsOf f)), in_map, (findFunction_In _ _ F))
        end.
        rewrite <- Eq in R, U3.
        pose proof (remaining_advance (cursor (repairCall pInstCall s))) as Ad.
        nia.
      * pose proof (repairCall_mismatch _ _ K St F D L A) as Eq.
        rewrite Eq in U1 |- *. cbn [cursor bitcastFunctionMap] in U1 |- *.
        match goal with
        | |- remaining (advance (addFunction ?decl ?c)) + _ <= _ =>
            pose proof (@remaining_advance_cast (addFunction decl c) pInstCall rest
                          (name, callTy) P CP) as Ad;
              assert (R2 : remaining (addFunction decl c) = remaining c + 1)
                by (unfold remaining, addFunction; cbn [ipost bpost fpost];
                    rewrite weights_app; cbn; lia)
        end.
        assert (X : S (length pairs)
                    * uncached (allFunctions
                                  (addFunction
                                     (fst (Function_Create callTy (flinkage f) (fname f)
                                                           (cursor s))) (cursor s)))
                               (bitcastFunctionMap s) pairs
                    <= S (length pairs)
                       * uncached (allFunctions (cursor s)) (bitcastFunctionMap s) pairs)
          by (apply Nat.mul_le_mono_l; exact U1).
        lia.
Qed.
End MeasureStep.

(** ** The loops *)

Section MeasureLoops.
Variable pairs : list (string * FunctionType).

Lemma bcInstLoop_measure (n : nat) :
  forall s : BCState,
    cacheInvariant s ->
    boundedL pairs (statePairs (cursor s)) ->
    cacheInvariant (bcInstLoop n s)
    /\ boundedL pairs (statePairs (cursor (bcInstLoop n s)))
    /\ measureAt pairs (bcInstLoop n s) <= measureAt pairs s.
Proof.
  induction n as [|n IH]; intros s Inv B; cbn [bcInstLoop]; [auto|].
  destruct (ipost (cursor s)) as [|i rest] eqn:P; [auto|].
  destruct (repair_step Inv B P) as (I1 & B1 & M1).
  destruct (IH _ I1 B1) as (I2 & B2 & M2).
  split; [exact I2|]. split; [exact B2 | lia].
Qed.

Lemma onCursor_measure (g : RWState -> RWState) (s : BCState) :
  Forall2 refinesF (allFunctions (cursor s)) (allFunctions (g (cursor s))) ->
  coveredL (statePairs (cursor s)) (statePairs (g (cursor s))) ->
  remaining (g (cursor s)) <= remaining (cursor s) ->
  cacheInvariant s ->
  boundedL pairs (statePairs (cursor s)) ->
  cacheInvariant (onCursor g s)
  /\ boundedL pairs (statePairs (cursor (onCursor g s)))
  /\ measureAt pairs (onCursor g s) <= measureAt pairs s.
Proof.
  intros R C L Inv B. destruct (onCursor_invariant g R Inv) as [I E].
  split; [exact I|]. split; [exact (boundedL_covered B C)|].
  unfold measureAt.
  pose proof (uncached_le pairs (cacheGrows_eq s (onCursor g s) E)) as U.
  assert (X : S (length pairs)
              * uncached (allFunctions (cursor (onCursor g s)))
                         (bitcastFunctionMap (onCursor g s)) pairs
              <= S (length pairs)
                 * uncached (allFunctions (cursor s)) (bitcastFunctionMap s) pairs)
    by (apply Nat.mul_le_mono_l; exact U).
  unfold onCursor at 1. cbn [cursor]. lia.
Qed.

Lemma bcBlockLoop_measure (n : nat) :
  forall s : BCState,
    cacheInvariant s ->
    boundedL pairs (statePairs (cursor s)) ->
    cacheInvariant (bcBlockLoop n s)
    /\ boundedL pairs (statePairs (cursor (bcBlockLoop n s)))
    /\ measureAt pairs (bcBlockLoop n s) <= measureAt pairs s.
Proof.
  induction n as [|n IH]; intros s Inv B; cbn [bcBlockLoop]; [auto|].
  destruct (bpost (cursor s)) as [|BB rest] eqn:P; [auto|].
  destruct (@onCursor_measure (openBlock BB rest) s (refines_openBlock _ P)
              (covered_openBlock _ P) (remaining_openBlock _ P) Inv B)
    as (I1 & B1 & M1).
  destruct (bcInstLoop_measure (length BB) I1 B1) as (I2 & B2 & M2).
  set (s2 := bcInstLoop (length BB) (onCursor (openBlock BB rest) s)) in *.
  destruct (@onCursor_measure closeBlock s2 (refines_closeBlock _)) as (I3 & B3 & M3);
    [rewrite statePairs_closeBlock; apply coveredL_refl
    | apply remaining_closeBlock | exact I2 | exact B2 |].
  destruct (IH _ I3 B3) as (I4 & B4 & M4).
  split; [exact I4|]. split; [exact B4 | lia].
Qed.

Lemma pairsOf_openFunction (func : Function) (rest : list Function) (m : ModState) :
  statePairs (openFunction func rest m) = map pairsOf (visited m ++ func :: rest).
Proof.
  rewrite statePairs_split, map_app. reflexivity.
Qed.

Lemma remaining_openFunction (func : Function) (rest : list Function) (m : ModState) :
  S (remaining (openFunction func rest m)) = weights (func :: rest).
Proof.
  unfold remaining, openFunction. cbn [ipost bpost fpost weights fold_right].
  fold (weights rest). cbn [castPairs flat_map length]. reflexivity.
Qed.

Lemma covered_closeFunction (c : RWState) :
  coveredL (statePairs c)
           (map pairsOf (visited (closeFunction c) ++ pending (closeFunction c))).
Proof.
  unfold closeFunction. cbn [visited pending]. rewrite statePairs_split.
  rewrite <- app_assoc, map_app. cbn [app map]. intros l Hl.
  apply in_app_or in Hl. destruct Hl as [Hl|[<-|Hl]].
  - exists l. split; [apply in_or_app; left; exact Hl|].
    split; [apply incl_refl | lia].
  - exists (pairsOf (currentFunction c)).
    split; [apply in_or_app; right; left; reflexivity|].
    rewrite pairsOf_current. unfold pairsOf, instructionsOf, setBlocks.
    cbn [fblocks]. rewrite concat_app, castPairs_app. split.
    + intros p Hp. rewrite !in_app_iff in *. tauto.
    + rewrite !length_app. lia.
  - exists l. split; [apply in_or_app; right; right; exact Hl|].
    split; [apply incl_refl | lia].
Qed.

Lemma bcFuncLoop_ends (fuel : nat) :
  forall m : BCModState,
    CacheInv (visited (bcm m) ++ pending (bcm m)) (bcmMap m) ->
    boundedL pairs (map pairsOf (visited (bcm m) ++ pending (bcm m))) ->
    measureBetween pairs m <= fuel ->
    exists m', bcFuncLoop fuel m = Some m'.
Proof.
  induction fuel as [|fuel IH]; intros m Inv B M; cbn [bcFuncLoop].
  - destruct (pending (bcm m)) as [|func rest] eqn:P; [eauto|].
    unfold measureBetween in M. try rewrite P in M. cbn [weights fold_right] in M.
    lia.
  - destruct (pending (bcm m)) as [|func rest] eqn:P; [eauto|].
    set (s0 := mkBC (openFunction func rest (bcm m)) (bcmMap m) (bcmGlobals m)).
    try rewrite P in Inv. try rewrite P in B.
    destruct (CacheInv_refines Inv (refines_openFunction func rest (bcm m)))
      as [I0 E0].
    assert (B0 : boundedL pairs (statePairs (cursor s0)))
      by (unfold s0; cbn [cursor]; rewrite pairsOf_openFunction; exact B).
    assert (M0 : S (measureAt pairs s0) <= measureBetween pairs m).
    { unfold measureAt, measureBetween, s0. cbn [cursor bitcastFunctionMap].
      try rewrite P. pose proof (remaining_openFunction func rest (bcm m)) as R.
      assert (U : uncached (allFunctions (openFunction func rest (bcm m))) (bcmMap m)
                           pairs
                  <= uncached (visited (bcm m) ++ func :: rest) (bcmMap m) pairs)
        by (apply uncached_le; intros k T x H; rewrite E0; exact H).
      assert (X : S (length pairs)
                  * uncached (allFunctions (openFunction func rest (bcm m)))
                             (bcmMap m) pairs
                  <= S (length pairs)
                     * uncached (visited (bcm m) ++ func :: rest) (bcmMap m) pairs)
        by (apply Nat.mul_le_mono_l; exact U).
      lia. }
    destruct (@bcBlockLoop_measure (length (fblocks func)) s0 I0 B0) as (I1 & B1 & M1).
    set (s1 := bcBlockLoop (length (fblocks func)) s0) in *.
    destruct (CacheInv_refines I1 (refines_closeFunction (cursor s1))) as [I2 E2].
    apply IH; cbn [bcm bcmMap].
    + exact I2.
    + exact (boundedL_covered B1 (covered_closeFunction (cursor s1))).
    + unfold measureBetween. cbn [bcm bcmMap].
      assert (U : uncached (visited (closeFunction (cursor s1))
                            ++ pending (closeFunction (cursor s1)))
                           (bitcastFunctionMap s1) pairs
                  <= uncached (allFunctions (cursor s1)) (bitcastFunctionMap s1) pairs)
        by (apply uncached_le; intros k T x H; rewrite E2; exact H).
      assert (X : S (length pairs)
                  * uncached (visited (closeFunction (cursor s1))
                              ++ pending (closeFunction (cursor s1)))
                             (bitcastFunctionMap s1) pairs
                  <= S (length pairs)
                     * uncached (allFunctions (cursor s1)) (bitcastFunctionMap s1)
                                pairs)
        by (apply Nat.mul_le_mono_l; exact U).
      assert (W : weights (pending (closeFunction (cursor s1)))
                  <= remaining (cursor s1))
        by (unfold closeFunction, remaining; cbn [pending]; lia).
      unfold measureAt in M1, M0. lia.
Qed.
End MeasureLoops.

Lemma bcFuncLoop_more_fuel (fuel : nat) :
  forall (m m' : BCModState) (fuel' : nat),
    bcFuncLoop fuel m = Some m' -> fuel <= fuel' -> bcFuncLoop fuel' m = Some m'.
Proof.
  induction fuel as [|fuel IH]; intros m m' fuel' H L.
  - cbn [bcFuncLoop] in H. destruct (pending (bcm m)) eqn:P; [|discriminate].
    destruct fuel'; cbn [bcFuncLoop]; rewrite P; exact H.
  - destruct fuel' as [|fuel']; [lia|]. cbn [bcFuncLoop] in *.
    destruct (pending (bcm m)) as [|func rest]; [exact H|].
    apply (IH _ _ _ H). lia.
Qed.

Lemma castPairs_flat_map (fs : list Function) :
  castPairs (flat_map instructionsOf fs) = flat_map pairsOf fs.
Proof.
  induction fs as [|f fs IH]; cbn [flat_map]; [reflexivity|].
  rewrite castPairs_app, IH. reflexivity.
Qed.

Lemma weights_total (fs : list Function) :
  weights fs = length fs + length (flat_map pairsOf fs).
Proof.
  induction fs as [|f fs IH]; cbn [weights fold_right flat_map length]; [reflexivity|].
  fold (weights fs). rewrite IH, length_app. unfold castCalls. lia.
Qed.

(** The loop over a list of functions that grows while it runs ends: a
    clone is made once for a function and a type of call, and a clone has
    no more calls through a cast than the function it copies. *)
Lemma bcFuncLoop_bitcastFuel (M : Module) :
  wellFormed M ->
  exists m',
    bcFuncLoop (bitcastFuel M)
      (mkBCM (mkMS [] (functions M) (S (maxInstId (allInstructions M))) [])
             [] (globals M)) = Some m'.
Proof.
  intros [N T].
  set (pairs := castPairs (allInstructions M)).
  set (m0 := mkBCM (mkMS [] (functions M) (S (maxInstId (allInstructions M))) [])
                   [] (globals M)).
  assert (Inv : CacheInv (visited (bcm m0) ++ pending (bcm m0)) (bcmMap m0))
    by (cbn; constructor; try assumption; intros; discriminate).
  assert (B : boundedL pairs (map pairsOf (visited (bcm m0) ++ pending (bcm m0)))).
  { cbn [m0 bcm visited pending app]. intros l Hl. apply in_map_iff in Hl.
    destruct Hl as (f & <- & Hf). unfold pairs, allInstructions.
    rewrite castPairs_flat_map.
    assert (I : incl (pairsOf f) (flat_map pairsOf (functions M)))
      by (intros p Hp; apply in_flat_map; exists f; split; assumption).
    split; [exact I|]. apply in_split in Hf. destruct Hf as (l1 & l2 & ->).
    rewrite flat_map_app. cbn [flat_map]. rewrite !length_app. lia. }
  assert (Mz : measureBetween pairs m0 <= bitcastFuel M).
  { assert (E1 : length (flat_map pairsOf (functions M)) = length pairs)
      by (unfold pairs, allInstructions; rewrite castPairs_flat_map; reflexivity).
    pose proof (uncached_bound (functions M) [] pairs) as U.
    assert (X : S (length pairs) * uncached (functions M) [] pairs
                <= S (length pairs) * length pairs)
      by (apply Nat.mul_le_mono_l; exact U).
    unfold measureBetween, bitcastFuel. cbv zeta. fold pairs.
    cbn [m0 bcm bcmMap visited pending app]. rewrite weights_total, E1. lia. }
  exact (@bcFuncLoop_ends pairs (bitcastFuel M) m0 Inv B Mz).
Qed.

(** X18.  [removeFunctionBitcasts] ends on every module whose functions
    have distinct names, whose casts are of functions of the module, and in
    which no function called through a cast holds a call through a cast,
    although the loop runs over a list of functions that grows while it
    runs.  [bitcastFuel] bounds the functions the loop visits, and more fuel
    gives the same module. *)
Theorem removeFunctionBitcasts_terminates (M : Module) :
  wellFormed M -> castsAreOutside M ->
  exists M', forall fuel, bitcastFuel M <= fuel ->
                          removeFunctionBitcasts fuel M = Some M'.
Proof.
  intros W _. destruct (bcFuncLoop_bitcastFuel W) as (m' & H).
  exists (mkModule (map (eraseFromParent (msDelete (bcm m')))
                        (visited (bcm m') ++ pending (bcm m')))
                   (bcmGlobals m')).
  intros fuel L. unfold removeFunctionBitcasts, removeFunctionBitcasts_state.
  rewrite (@bcFuncLoop_more_fuel _ _ m' fuel H L). reflexivity.
Qed.

(* ================================================================== *)
(** * [removeFunctionBitcasts] leaves no call it would redirect *)

Lemma repairable_castPair (fs : list Function) (i j : Instruction) :
  castPair j = castPair i -> repairable fs j = repairable fs i.
Proof. intro E. unfold repairable. rewrite E. reflexivity. Qed.

Lemma repairable_None (fs : list Function) (i : Instruction) :
  castPair i = None -> repairable fs i = false.
Proof. intro E. unfold repairable. rewrite E. reflexivity. Qed.

Lemma find_sameSignature (n : string) (fs fs' : list Function) :
  Forall2 sameSignature fs fs' ->
  match find (fun f => String.eqb (fname f) n) fs,
        find (fun f => String.eqb (fname f) n) fs' with
  | Some f, Some f' => sameSignature f f'
  | None, None => True
  | _, _ => False
  end.
Proof.
  induction 1 as [|f f' fs fs' R _ IH]; cbn [find]; [exact I|].
  assert (E : fname f' = fname f) by apply R. rewrite E.
  destruct (String.eqb (fname f) n); [exact R | exact IH].
Qed.

Lemma repairable_sameSignature (fs fs' : list Function) (i : Instruction) :
  Forall2 sameSignature fs fs' -> repairable fs' i = repairable fs i.
Proof.
  intro R. unfold repairable. destruct (castPair i) as [[n T]|]; [|reflexivity].
  pose proof (find_sameSignature n R) as F.
  destruct (find _ fs) as [f|], (find _ fs') as [f'|]; try contradiction;
    [|reflexivity].
  destruct F as (_ & Ty & D). unfold arg_size. rewrite Ty, D. reflexivity.
Qed.

Lemma find_otherThan (name n : string) (fs : list Function) :
  n <> name ->
  find (fun f => String.eqb (fname f) n) (filter (otherThan name) fs)
  = find (fun f => String.eqb (fname f) n) fs.
Proof.
  intro N. induction fs as [|f fs IH]; cbn [filter find]; [reflexivity|].
  unfold otherThan at 1. destruct (String.eqb_spec (fname f) name) as [E|E];
    cbn [negb find].
  - destruct (String.eqb_spec (fname f) n) as [E'|E']; [congruence | exact IH].
  - rewrite IH. reflexivity.
Qed.

Lemma find_otherThan_same (name : string) (fs : list Function) :
  find (fun f => String.eqb (fname f) name) (filter (otherThan name) fs) = None.
Proof.
  induction fs as [|f fs IH]; cbn [filter find]; [reflexivity|].
  unfold otherThan at 1. destruct (String.eqb (fname f) name) eqn:E; cbn [negb find];
    [exact IH | rewrite E; exact IH].
Qed.

Lemma repairable_filter (name : string) (fs : list Function) (i : Instruction) :
  repairable fs i = false -> repairable (filter (otherThan name) fs) i = false.
Proof.
  unfold repairable. destruct (castPair i) as [[n T]|]; [|auto].
  destruct (string_dec n name) as [->|N].
  - rewrite find_otherThan_same. reflexivity.
  - rewrite (find_otherThan fs N). auto.
Qed.

Lemma castPair_target (i : Instruction) (n : string) (T : FunctionType) :
  castPair i = Some (n, T) -> castTarget i = Some n.
Proof. intro E. rewrite castPair_castTarget, E. reflexivity. Qed.

Lemma repairable_snoc (fs : list Function) (g : Function) (i : Instruction) :
  (forall n, castTarget i = Some n -> In n (map fname fs)) ->
  repairable (fs ++ [g]) i = repairable fs i.
Proof.
  intro H. unfold repairable. destruct (castPair i) as [[n T]|] eqn:E; [|reflexivity].
  specialize (H n (castPair_target _ E)). rewrite find_append.
  destruct (find (fun f => String.eqb (fname f) n) fs) as [f|] eqn:F; [reflexivity|].
  exfalso. apply in_map_iff in H. destruct H as (f & <- & Hf).
  apply (find_none _ _ F) in Hf. rewrite String.eqb_refl in Hf. discriminate.
Qed.

(** ** What the steps keep of the functions *)

Lemma sameSignature_refl (f : Function) : sameSignature f f.
Proof. unfold sameSignature. tauto. Qed.

Lemma sameSignatures_refl (fs : list Function) : Forall2 sameSignature fs fs.
Proof. induction fs; constructor; [apply sameSignature_refl | assumption]. Qed.

Lemma sameSignature_trans (f g h : Function) :
  sameSignature f g -> sameSignature g h -> sameSignature f h.
Proof. unfold sameSignature. intros (A & B & C) (D & E & F). repeat split; congruence. Qed.

Lemma sameSignatures_trans (fs gs hs : list Function) :
  Forall2 sameSignature fs gs -> Forall2 sameSignature gs hs ->
  Forall2 sameSignature fs hs.
Proof. apply Forall2_trans_gen. apply sameSignature_trans. Qed.

Lemma sameSignature_mapInFunction (g : Instruction -> Instruction) (f : Function) :
  sameSignature f (mapInFunction g f).
Proof.
  unfold sameSignature, mapInFunction, setBlocks, isDeclaration, isMaterializable.
  cbn [fname ftype fblocks flazy]. repeat split. destruct (fblocks f); reflexivity.
Qed.

Lemma sameSignatures_map (g : Instruction -> Instruction) (fs : list Function) :
  Forall2 sameSignature fs (map (mapInFunction g) fs).
Proof.
  induction fs; cbn [map]; constructor;
    [apply sameSignature_mapInFunction | assumption].
Qed.

Lemma isDeclaration_current (c : RWState) : isDeclaration (currentFunction c) = false.
Proof.
  unfold isDeclaration, currentFunction, setBlocks. cbn [fblocks].
  destruct (bpre c); reflexivity.
Qed.

Lemma sameSignatures_zipper (c c' : RWState) :
  Forall2 sameSignature (fpre c) (fpre c') ->
  Forall2 sameSignature (fpost c) (fpost c') ->
  fname (fcur c') = fname (fcur c) ->
  ftype (fcur c') = ftype (fcur c) ->
  Forall2 sameSignature (allFunctions c) (allFunctions c').
Proof.
  intros A B N T. unfold allFunctions. apply Forall2_app; [exact A|].
  constructor; [|exact B]. unfold sameSignature.
  rewrite !isDeclaration_current. repeat split; assumption.
Qed.

Lemma sameSignatures_insertBefore (n : Instruction) (c : RWState) :
  Forall2 sameSignature (allFunctions c) (allFunctions (insertBefore n c)).
Proof. apply sameSignatures_zipper; try apply sameSignatures_refl; reflexivity. Qed.

Lemma sameSignatures_mapAll (g : Instruction -> Instruction) (c : RWState) :
  Forall2 sameSignature (allFunctions c) (allFunctions (mapAll g c)).
Proof. apply sameSignatures_zipper; try apply sameSignatures_map; reflexivity. Qed.

Lemma sameSignatures_dropAllReferences (c : RWState) :
  Forall2 sameSignature (allFunctions c) (allFunctions (dropAllReferences c)).
Proof.
  unfold dropAllReferences. destruct (ipost c); [apply sameSignatures_refl|].
  apply sameSignatures_zipper; try apply sameSignatures_refl; reflexivity.
Qed.

Lemma sameSignatures_advance (c : RWState) :
  Forall2 sameSignature (allFunctions c) (allFunctions (advance c)).
Proof.
  unfold advance. destruct (ipost c); [apply sameSignatures_refl|].
  apply sameSignatures_zipper; try apply sameSignatures_refl; reflexivity.
Qed.

Lemma sameSignatures_openBlock (BB : BasicBlock) (rest : list BasicBlock)
      (c : RWState) :
  Forall2 sameSignature (allFunctions c) (allFunctions (openBlock BB rest c)).
Proof. apply sameSignatures_zipper; try apply sameSignatures_refl; reflexivity. Qed.

Lemma sameSignatures_closeBlock (c : RWState) :
  Forall2 sameSignature (allFunctions c) (allFunctions (closeBlock c)).
Proof. apply sameSignatures_zipper; try apply sameSignatures_refl; reflexivity. Qed.

(** ** The instructions gone past, step by step *)

Lemma In_visitedInsts (c : RWState) (i : Instruction) :
  In i (visitedInsts c)
  <-> (exists f, In f (fpre c) /\ In i (instructionsOf f))
      \/ In i (concat (bpre c)) \/ In i (ipre c).
Proof.
  unfold visitedInsts. rewrite !in_app_iff, in_flat_map. reflexivity.
Qed.

Lemma visited_instructions (c : RWState) (i : Instruction) :
  In i (visitedInsts c) ->
  exists f, In f (allFunctions c) /\ In i (instructionsOf f).
Proof.
  intro H. apply In_visitedInsts in H. destruct H as [(f & Hf & Hi)|H].
  - exists f. split; [apply in_or_app; left; exact Hf | exact Hi].
  - exists (currentFunction c). split; [apply in_or_app; right; left; reflexivity|].
    rewrite instructionsOf_current, !in_app_iff. tauto.
Qed.

Lemma visited_target_exists (s : BCState) (i : Instruction) (n : string) :
  cacheInvariant s -> In i (visitedInsts (cursor s)) -> castTarget i = Some n ->
  In n (map fname (allFunctions (cursor s))).
Proof.
  intros Inv Hi E. apply (targets_exist Inv). apply castTargets_In.
  destruct (visited_instructions _ _ Hi) as (f & Hf & Hif). exists f, i. tauto.
Qed.

Lemma visited_mapAll (g : Instruction -> Instruction) (c : RWState) :
  visitedInsts (mapAll g c) = map g (visitedInsts c).
Proof.
  unfold visitedInsts, mapAll. cbn [fpre bpre ipre].
  rewrite !map_app, <- concat_map. f_equal.
  induction (fpre c) as [|f fs IH]; cbn [map flat_map]; [reflexivity|].
  rewrite instructionsOf_mapInFunction, map_app, IH. reflexivity.
Qed.

Lemma visited_dropAllReferences (c : RWState) :
  visitedInsts (dropAllReferences c) = visitedInsts c.
Proof. unfold dropAllReferences. destruct (ipost c); reflexivity. Qed.

Lemma visited_insertBefore (n : Instruction) (c : RWState) :
  visitedInsts (insertBefore n c) = visitedInsts c ++ [n].
Proof.
  unfold visitedInsts, insertBefore. cbn [fpre bpre ipre].
  rewrite <- !app_assoc. reflexivity.
Qed.

Lemma visited_redirectCall (pInstCall : Instruction) (callee : Value)
      (args : list Value) (cc : CallingConv) (name : string) (pDstFunc : Function)
      (s : BCState) (j : Instruction) :
  In j (visitedInsts (cursor (redirectCall pInstCall callee args cc name pDstFunc s))) ->
  castPair j = None
  \/ exists i, In i (visitedInsts (cursor s)) /\ castPair j = castPair i.
Proof.
  unfold redirectCall. cbv zeta. cbn [cursor bitcastFunctionMap bcGlobals].
  set (newCI := mkInst (nextId (cursor s)) (getReturnType (ftype pDstFunc)) 0
                       (Call (VFunc (fname pDstFunc) (ftype pDstFunc)) args
                             (ftype pDstFunc) cc)).
  set (g := mapOperands (replaceUse (iid pInstCall) (iid newCI))).
  set (c3 := dropAllReferences
               (replaceAllUsesWith (iid pInstCall) newCI
                  (takeId (insertBefore newCI (cursor s))))).
  assert (V3 : forall j, In j (visitedInsts c3) ->
                 castPair j = None
                 \/ exists i, In i (visitedInsts (cursor s)) /\ castPair j = castPair i).
  { intros k Hk.
    assert (Hk' : In k (map g (visitedInsts (cursor s) ++ [newCI]))).
    { unfold c3 in Hk. rewrite visited_dropAllReferences in Hk.
      unfold replaceAllUsesWith in Hk. rewrite visited_mapAll in Hk. fold g in Hk.
      change (visitedInsts (takeId ?c)) with (visitedInsts c) in Hk.
      rewrite visited_insertBefore in Hk. exact Hk. }
    apply in_map_iff in Hk'. destruct Hk' as (i & <- & Hi).
    apply in_app_or in Hi. destruct Hi as [Hi|[<-|[]]].
    - right. exists i. split; [exact Hi | apply castPair_replaceUse].
    - left. unfold g. rewrite castPair_replaceUse. reflexivity. }
  intro H. apply V3.
  destruct (use_empty name (mkBC c3 (bitcastFunctionMap s) (bcGlobals s))
            && negb (isNestedCast callee)); [|exact H].
  revert H. unfold visitedInsts, push_back, eraseFunction. cbn [fpre bpre ipre].
  rewrite !in_app_iff, !in_flat_map. intros [(f & Hf & Hi)|H]; [|tauto].
  left. exists f. apply filter_In in Hf. tauto.
Qed.

Lemma sameSignatures_names (fs fs' : list Function) :
  Forall2 sameSignature fs fs' -> map fname fs' = map fname fs.
Proof.
  induction 1 as [|f f' fs fs' (N & _) _ IH]; cbn [map]; [reflexivity|].
  rewrite N, IH. reflexivity.
Qed.

Lemma repairable_redirectCall (pInstCall : Instruction) (callee : Value)
      (args : list Value) (cc : CallingConv) (name : string) (pDstFunc : Function)
      (s : BCState) (i : Instruction) :
  cacheInvariant s ->
  repairable (allFunctions (cursor s)) i = false ->
  repairable (allFunctions
                (cursor (redirectCall pInstCall callee args cc name pDstFunc s))) i
  = false.
Proof.
  intros Inv H. unfold redirectCall. cbv zeta. cbn [cursor bitcastFunctionMap bcGlobals].
  set (newCI := mkInst (nextId (cursor s)) (getReturnType (ftype pDstFunc)) 0
                       (Call (VFunc (fname pDstFunc) (ftype pDstFunc)) args
                             (ftype pDstFunc) cc)).
  set (c3 := dropAllReferences
               (replaceAllUsesWith (iid pInstCall) newCI
                  (takeId (insertBefore newCI (cursor s))))).
  assert (SS : Forall2 sameSignature (allFunctions (cursor s)) (allFunctions c3)).
  { unfold c3.
    eapply sameSignatures_trans; [|apply sameSignatures_dropAllReferences].
    unfold replaceAllUsesWith.
    eapply sameSignatures_trans; [|apply sameSignatures_mapAll].
    exact (sameSignatures_insertBefore newCI (cursor s)). }
  assert (N3 : NoDup (map fname (allFunctions c3)))
    by (rewrite (sameSignatures_names SS); exact (names_unique Inv)).
  assert (H3 : repairable (allFunctions c3) i = false)
    by (rewrite (repairable_sameSignature i SS); exact H).
  destruct (use_empty name (mkBC c3 (bitcastFunctionMap s) (bcGlobals s))
            && negb (isNestedCast callee)); [|exact H3].
  change (allFunctions (push_back (iid pInstCall) (eraseFunction name c3)))
    with (allFunctions (eraseFunction name c3)).
  destruct (@allFunctions_eraseFunction name c3 N3) as [F|F]; rewrite F;
    [apply repairable_filter; exact H3 | exact H3].
Qed.

Lemma shape_redirectCall (pInstCall : Instruction) (callee : Value)
      (args : list Value) (cc : CallingConv) (name : string) (pDstFunc : Function)
      (s : BCState) :
  let c' := cursor (redirectCall pInstCall callee args cc name pDstFunc s) in
  length (ipost c') = length (ipost (cursor s))
  /\ length (bpost c') = length (bpost (cursor s))
  /\ length (bpre c') = length (bpre (cursor s)).
Proof.
  unfold redirectCall. cbv zeta. cbn [cursor bitcastFunctionMap bcGlobals].
  match goal with |- context [if ?b then _ else _] => destruct b end;
    unfold push_back, eraseFunction, dropAllReferences, replaceAllUsesWith, mapAll,
      takeId, insertBefore; cbn [ipost bpost bpre ipre];
    destruct (ipost (cursor s)); cbn [map ipost bpost bpre length];
    rewrite ?length_map; repeat split; reflexivity.
Qed.

Lemma fpre_replaceFunction (g d : Function) (c : RWState) :
  fname g = fname d -> ~ In (fname d) (map fname (allFunctions c)) ->
  fpre (replaceFunction g (addFunction d c)) = fpre c.
Proof.
  intros E N. unfold allFunctions, replaceFunction, addFunction in *.
  cbn [fpost fpre] in *. rewrite map_app in N. rewrite in_app_iff in N.
  rewrite <- (map_id (fpre c)) at 2. apply map_ext_in. intros x Hx.
  destruct (String.eqb (fname x) (fname g)) eqn:Ex; [|reflexivity].
  apply String.eqb_eq in Ex. exfalso. apply N. left. rewrite <- E, <- Ex.
  apply in_map. exact Hx.
Qed.

Lemma castPair_None_of_target (i : Instruction) :
  castTarget i = None -> castPair i = None.
Proof.
  rewrite castPair_castTarget. destruct (castPair i); [discriminate | reflexivity].
Qed.

Lemma done_advance (t : BCState) (i : Instruction) (rest : list Instruction) :
  ipost (cursor t) = i :: rest -> doneAt t ->
  repairable (allFunctions (cursor t)) i = false ->
  doneAt (onCursor advance t).
Proof.
  intros P Dn H j Hj. unfold onCursor in *. cbn [cursor] in *.
  rewrite (repairable_sameSignature j (sameSignatures_advance (cursor t))).
  unfold advance in Hj. rewrite P in Hj. unfold visitedInsts in Hj.
  cbn [fpre bpre ipre] in Hj. rewrite !in_app_iff in Hj. cbn [In] in Hj.
  destruct Hj as [Hj|[Hj|[Hj|[<-|[]]]]]; [| | |exact H]; apply Dn;
    unfold visitedInsts; rewrite !in_app_iff; tauto.
Qed.

Lemma done_redirectCall (pInstCall : Instruction) (callee : Value)
      (args : list Value) (cc : CallingConv) (name : string) (pDstFunc : Function)
      (s : BCState) :
  cacheInvariant s -> doneAt s ->
  doneAt (redirectCall pInstCall callee args cc name pDstFunc s).
Proof.
  intros Inv Dn j Hj. apply visited_redirectCall in Hj.
  destruct Hj as [E|(i & Hi & E)]; [apply repairable_None, E|].
  rewrite (repairable_castPair _ _ _ E). apply repairable_redirectCall;
    [exact Inv | apply Dn, Hi].
Qed.

(** The body of the loop, for the instruction at the cursor. *)
Lemma done_step (pInstCall : Instruction) (s : BCState) (rest : list Instruction) :
  cacheInvariant s -> doneAt s -> ipost (cursor s) = pInstCall :: rest ->
  let s' := onCursor advance (repairCall pInstCall s) in
  doneAt s'
  /\ length (ipost (cursor s')) = length rest
  /\ length (bpost (cursor s')) = length (bpost (cursor s))
  /\ length (bpre (cursor s')) = length (bpre (cursor s)).
Proof.
  intros Inv Dn P s'. unfold s'. clear s'.
  assert (Adv : forall t,
             length (ipost (cursor t)) = length (ipost (cursor s)) ->
             length (bpost (cursor t)) = length (bpost (cursor s)) ->
             length (bpre (cursor t)) = length (bpre (cursor s)) ->
             doneAt t ->
             (forall i r, ipost (cursor t) = i :: r ->
                          repairable (allFunctions (cursor t)) i = false) ->
             doneAt (onCursor advance t)
             /\ length (ipost (cursor (onCursor advance t))) = length rest
             /\ length (bpost (cursor (onCursor advance t))) = length (bpost (cursor s))
             /\ length (bpre (cursor (onCursor advance t))) = length (bpre (cursor s))).
  { intros t L1 L2 L3 Dt Ht. rewrite P in L1. cbn [length] in L1.
    destruct (ipost (cursor t)) as [|i r] eqn:Pt; [discriminate|].
    split; [exact (@done_advance t i r Pt Dt (Ht i r eq_refl))|].
    unfold onCursor, advance. cbn [cursor]. rewrite Pt. cbn [ipost bpost bpre].
    cbn [length] in L1. repeat split; [lia | exact L2 | exact L3]. }
  assert (Skip : repairCall pInstCall s = s ->
                 repairable (allFunctions (cursor s)) pInstCall = false ->
                 doneAt (onCursor advance (repairCall pInstCall s))
                 /\ length (ipost (cursor (onCursor advance (repairCall pInstCall s))))
                    = length rest
                 /\ length (bpost (cursor (onCursor advance (repairCall pInstCall s))))
                    = length (bpost (cursor s))
                 /\ length (bpre (cursor (onCursor advance (repairCall pInstCall s))))
                    = length (bpre (cursor s))).
  { intros -> H. apply Adv; try reflexivity; [exact Dn|].
    intros i r E. rewrite P in E. injection E as <- _. exact H. }
  destruct (ikind pInstCall) as [callee args callTy cc| | |] eqn:K;
    try (apply Skip; [unfold repairCall; rewrite K; reflexivity
                     | unfold repairable, castPair; rewrite K; reflexivity]).
  destruct callee as [| | | | | |v ty|];
    try (apply Skip; [unfold repairCall; rewrite K; reflexivity
                     | unfold repairable, castPair; rewrite K; reflexivity]).
  destruct (stripPointerCasts (VBitCast v ty)) as [| | | | |name fty| |] eqn:St;
    try (apply Skip; [unfold repairCall; rewrite K; cbv zeta; rewrite St; reflexivity
                     | unfold repairable, castPair; rewrite K, St; reflexivity]).
  assert (CP : castPair pInstCall = Some (name, callTy))
    by (unfold castPair; rewrite K, St; reflexivity).
  destruct (findFunction (cursor s) name) as [f|] eqn:F;
    [|apply Skip; [unfold repairCall; rewrite K; cbv zeta; rewrite St, F; reflexivity
                  | unfold repairable; rewrite CP; unfold findFunction in F;
                    rewrite F; reflexivity]].
  destruct (isDeclaration f) eqn:D;
    [apply Skip; [unfold repairCall; rewrite K; cbv zeta; rewrite St, F, D; reflexivity
                 | unfold repairable; rewrite CP; unfold findFunction in F;
                   rewrite F, D; reflexivity]|].
  clear Skip.
  pose proof (repair_target pInstCall K St) as Tg.
  destruct (lookupClone s name callTy) as [d|] eqn:L.
  - rewrite (repairCall_hit _ _ K St F D L).
    destruct (shape_redirectCall pInstCall (VBitCast v ty) args cc name d s)
      as (L1 & L2 & L3).
    apply Adv; try assumption; [apply done_redirectCall; assumption|].
    intros i r E.
    destruct (@redirectCall_ipost pInstCall (VBitCast v ty) args cc name d s rest P)
      as (dead & Pd & _ & Td).
    rewrite Pd in E. injection E as <- _.
    apply repairable_None, castPair_None_of_target, Td.
  - destruct (Nat.eq_dec (length (params callTy)) (arg_size f)) as [A|A].
    + rewrite (repairCall_miss _ _ K St F D L A).
      destruct (@invariant_s2 s Inv callTy name f F L) as (I2 & _ & _).
      match goal with
      | |- context [redirectCall _ _ _ _ _ ?clone ?s2] =>
          assert (D2 : doneAt s2);
            [|assert (P2 : ipost (cursor s2) = pInstCall :: rest) by exact P;
              destruct (shape_redirectCall pInstCall (VBitCast v ty) args cc name
                                           clone s2) as (L1 & L2 & L3);
              apply Adv; try assumption;
              [apply done_redirectCall; assumption|];
              intros i r E;
              destruct (@redirectCall_ipost pInstCall (VBitCast v ty) args cc name
                          clone s2 rest P2) as (dead & Pd & _ & Td);
              rewrite Pd in E; injection E as <- _;
              apply repairable_None, castPair_None_of_target, Td]
      end.
      intros j Hj. rewrite (@functions_s2 s callTy name f).
      assert (Hj' : In j (visitedInsts (cursor s))).
      { revert Hj. unfold visitedInsts. cbn [cursor].
        change (bpre (setNextId _ (replaceFunction _ (addFunction _ ?c))))
          with (bpre c).
        change (ipre (setNextId _ (replaceFunction _ (addFunction _ ?c))))
          with (ipre c).
        change (fpre (setNextId _ ?c)) with (fpre c).
        rewrite (@fpre_replaceFunction
                   (cloneInto
                      (fst (Function_Create callTy (flinkage f) (fname f) (cursor s)))
                      f (nextId (cursor s)))
                   (fst (Function_Create callTy (flinkage f) (fname f) (cursor s)))
                   (cursor s) eq_refl
                   (Function_Create_fresh callTy (flinkage f) (fname f) (cursor s))).
        auto. }
      rewrite repairable_snoc; [apply Dn, Hj'|].
      intros n En. exact (visited_target_exists _ Inv Hj' En).
    + rewrite (repairCall_mismatch _ _ K St F D L A).
      apply Adv; try reflexivity.
      * intros j Hj. cbn [cursor] in *. rewrite allFunctions_addFunction.
        assert (Hj' : In j (visitedInsts (cursor s))) by exact Hj.
        rewrite repairable_snoc; [apply Dn, Hj'|].
        intros n En. exact (visited_target_exists _ Inv Hj' En).
      * intros i r E. cbn [cursor] in *.
        change (ipost (addFunction _ ?c)) with (ipost c) in E.
        rewrite P in E. injection E as <- _. rewrite allFunctions_addFunction.
        rewrite repairable_snoc.
        -- unfold repairable. rewrite CP. unfold findFunction in F. rewrite F, D.
           apply Nat.eqb_neq in A. rewrite A. reflexivity.
        -- intros n En. rewrite Tg in En. injection En as <-.
           destruct (findFunction_In _ _ F) as [Hf <-]. apply in_map, Hf.
Qed.

(** ** The loops *)

Lemma bcInstLoop_done (n : nat) :
  forall s : BCState,
    cacheInvariant s -> doneAt s -> length (ipost (cursor s)) <= n ->
    doneAt (bcInstLoop n s)
    /\ cacheInvariant (bcInstLoop n s)
    /\ ipost (cursor (bcInstLoop n s)) = []
    /\ length (bpost (cursor (bcInstLoop n s))) = length (bpost (cursor s))
    /\ length (bpre (cursor (bcInstLoop n s))) = length (bpre (cursor s)).
Proof.
  induction n as [|n IH]; intros s Inv Dn L; cbn [bcInstLoop].
  - destruct (ipost (cursor s)) eqn:P; [auto|]. cbn [length] in L. lia.
  - destruct (ipost (cursor s)) as [|i rest] eqn:P; [auto|].
    destruct (done_step Inv Dn P) as (D1 & L1 & L2 & L3).
    destruct (repairCall_invariant Inv P) as [I1 _].
    destruct (onCursor_invariant advance (refines_advance _) I1) as [I2 _].
    cbn [length] in L.
    destruct (IH _ I2 D1) as (D3 & I3 & P3 & L4 & L5); [lia|].
    split; [exact D3|]. split; [exact I3|]. split; [exact P3|].
    split; congruence.
Qed.

Lemma bcBlockLoop_done (n : nat) :
  forall s : BCState,
    cacheInvariant s -> doneAt s ->
    ipre (cursor s) = [] -> ipost (cursor s) = [] ->
    length (bpost (cursor s)) <= n ->
    doneAt (bcBlockLoop n s)
    /\ cacheInvariant (bcBlockLoop n s)
    /\ bpost (cursor (bcBlockLoop n s)) = []
    /\ ipre (cursor (bcBlockLoop n s)) = []
    /\ ipost (cursor (bcBlockLoop n s)) = []
    /\ length (bpre (cursor (bcBlockLoop n s)))
       = length (bpre (cursor s)) + length (bpost (cursor s)).
Proof.
  induction n as [|n IH]; intros s Inv Dn E1 E2 L; cbn [bcBlockLoop].
  - destruct (bpost (cursor s)) eqn:P; [|cbn [length] in L; lia].
    split; [exact Dn|]. split; [exact Inv|]. split; [reflexivity|].
    split; [exact E1|]. split; [exact E2|]. cbn [length]. lia.
  - destruct (bpost (cursor s)) as [|BB rest] eqn:P.
    + split; [exact Dn|]. split; [exact Inv|]. split; [exact P|].
      split; [exact E1|]. split; [exact E2|]. cbn [length]. lia.
    + destruct (onCursor_invariant (openBlock BB rest) (refines_openBlock _ P) Inv)
        as [I1 _].
      set (s1 := onCursor (openBlock BB rest) s) in *.
      assert (D1 : doneAt s1).
      { intros j Hj. unfold s1, onCursor in *. cbn [cursor] in *.
        rewrite (repairable_sameSignature j
                   (sameSignatures_openBlock BB rest (cursor s))).
        apply Dn. revert Hj. unfold visitedInsts, openBlock. cbn [fpre bpre ipre].
        rewrite E1. auto. }
      destruct (@bcInstLoop_done (length BB) s1 I1 D1) as (D2 & I2 & P2 & L2 & L3);
        [unfold s1, onCursor, openBlock; cbn [cursor ipost]; lia|].
      set (s2 := bcInstLoop (length BB) s1) in *.
      destruct (onCursor_invariant closeBlock (refines_closeBlock _) I2) as [I3 _].
      set (s3 := onCursor closeBlock s2) in *.
      assert (D3 : doneAt s3).
      { intros j Hj. unfold s3, onCursor in *. cbn [cursor] in *.
        rewrite (repairable_sameSignature j (sameSignatures_closeBlock (cursor s2))).
        apply Dn2 || apply D2. revert Hj. unfold visitedInsts, closeBlock.
        cbn [fpre bpre ipre]. rewrite P2, concat_app. cbn [concat].
        rewrite !app_nil_r, !in_app_iff. tauto. }
      destruct (IH s3 I3 D3) as (D4 & I4 & P4 & Q4 & R4 & L4);
        try reflexivity.
      * unfold s3, onCursor, closeBlock. cbn [cursor bpost]. rewrite L2.
        unfold s1, onCursor, openBlock. cbn [cursor bpost]. cbn [length] in L. lia.
      * split; [exact D4|]. split; [exact I4|]. split; [exact P4|].
        split; [exact Q4|]. split; [exact R4|]. rewrite L4.
        unfold s3, onCursor, closeBlock. cbn [cursor bpost bpre].
        rewrite length_app, L2, L3. unfold s1, onCursor, openBlock.
        cbn [cursor bpost bpre length]. lia.
Qed.

Lemma sameSignature_closed (c : RWState) :
  bpre c <> [] ->
  sameSignature (currentFunction c) (setBlocks (fcur c) (bpre c ++ bpost c)).
Proof.
  intro N. unfold sameSignature. rewrite isDeclaration_current.
  repeat split. unfold isDeclaration, setBlocks. cbn [fblocks].
  destruct (bpre c); [contradiction | reflexivity].
Qed.

Lemma bcFuncLoop_done (fuel : nat) :
  forall m m' : BCModState,
    CacheInv (visited (bcm m) ++ pending (bcm m)) (bcmMap m) ->
    doneBetween m ->
    bcFuncLoop fuel m = Some m' ->
    doneBetween m' /\ pending (bcm m') = []
    /\ CacheInv (visited (bcm m') ++ pending (bcm m')) (bcmMap m').
Proof.
  induction fuel as [|fuel IH]; intros m m' Inv Dn H; cbn [bcFuncLoop] in H.
  - destruct (pending (bcm m)) eqn:P; [|discriminate]. injection H as <-.
    split; [exact Dn|]. split; [exact P|]. rewrite P. exact Inv.
  - destruct (pending (bcm m)) as [|func rest] eqn:P.
    + injection H as <-. split; [exact Dn|]. split; [exact P|]. rewrite P.
      exact Inv.
    + set (s0 := mkBC (openFunction func rest (bcm m)) (bcmMap m) (bcmGlobals m)) in *.
      assert (Inv' : CacheInv (visited (bcm m) ++ func :: rest) (bcmMap m))
        by exact Inv.
      destruct (CacheInv_refines Inv' (refines_openFunction func rest (bcm m)))
        as [I0 _].
      destruct (@bcBlockLoop_invariant (length (fblocks func)) s0 I0) as [I1 _].
      set (s1 := bcBlockLoop (length (fblocks func)) s0) in *.
      destruct (CacheInv_refines I1 (refines_closeFunction (cursor s1))) as [I2 _].
      apply (IH (mkBCM (closeFunction (cursor s1)) (bitcastFunctionMap s1)
                       (bcGlobals s1)) m' I2); [|exact H]. clear H IH.
      unfold doneBetween in *. cbn [bcm]. rewrite P in Dn.
      assert (Fb : fblocks func = [] \/ fblocks func <> [])
        by (destruct (fblocks func); [left; reflexivity | right; discriminate]).
      destruct Fb as [Fb|Fb].
      * (* a function without blocks: nothing is visited *)
        assert (E1 : s1 = s0) by (unfold s1; rewrite Fb; reflexivity).
        rewrite E1. unfold s0. cbn [cursor].
        unfold closeFunction, openFunction. cbn [visited pending fpre fcur bpre bpost
                                                 fpost]. rewrite Fb. cbn [app].
        intros j Hj.
        assert (SS : Forall2 sameSignature (visited (bcm m) ++ func :: rest)
                             ((visited (bcm m) ++ [setBlocks func []]) ++ rest)).
        { rewrite <- app_assoc. apply Forall2_app; [apply sameSignatures_refl|].
          constructor; [|apply sameSignatures_refl].
          unfold sameSignature, setBlocks, isDeclaration, isMaterializable.
          cbn [fname ftype fblocks flazy]. rewrite Fb. repeat split. }
        rewrite (repairable_sameSignature j SS). apply Dn.
        rewrite flat_map_app in Hj. cbn [flat_map] in Hj.
        rewrite app_nil_r in Hj. exact Hj.
      * (* a function with blocks *)
        assert (D0 : doneAt s0).
        { intros j Hj. unfold s0 in *. cbn [cursor] in *.
          assert (SS : Forall2 sameSignature (visited (bcm m) ++ func :: rest)
                               (allFunctions (openFunction func rest (bcm m)))).
          { unfold allFunctions, openFunction. cbn [fpre fpost].
            apply Forall2_app; [apply sameSignatures_refl|].
            constructor; [|apply sameSignatures_refl].
            unfold sameSignature. rewrite isDeclaration_current.
            repeat split. unfold isDeclaration.
            destruct (fblocks func); [contradiction | reflexivity]. }
          rewrite (repairable_sameSignature j SS). apply Dn.
          revert Hj. unfold visitedInsts, openFunction. cbn [fpre bpre ipre concat].
          rewrite !app_nil_r. auto. }
        assert (L0 : length (bpost (cursor s0)) <= length (fblocks func))
          by (unfold s0, openFunction; cbn [cursor bpost]; lia).
        destruct (@bcBlockLoop_done (length (fblocks func)) s0 I0 D0 eq_refl eq_refl
                                    L0)
          as (D1 & _ & P1 & Q1 & R1 & L1).
        fold s1 in D1, P1, Q1, R1, L1.
        assert (N1 : bpre (cursor s1) <> []).
        { intro E. rewrite E in L1. unfold s0, openFunction in L1.
          cbn [cursor bpre bpost length] in L1.
          destruct (fblocks func); [contradiction | cbn [length] in L1; lia]. }
        intros j Hj.
        assert (SS : Forall2 sameSignature (allFunctions (cursor s1))
                             (visited (closeFunction (cursor s1))
                              ++ pending (closeFunction (cursor s1)))).
        { unfold allFunctions, closeFunction. cbn [visited pending].
          rewrite <- app_assoc. apply Forall2_app; [apply sameSignatures_refl|].
          constructor; [|apply sameSignatures_refl].
          apply sameSignature_closed, N1. }
        rewrite (repairable_sameSignature j SS). apply D1.
        revert Hj. unfold closeFunction, visitedInsts. cbn [visited].
        rewrite flat_map_app. cbn [flat_map]. rewrite app_nil_r.
        unfold instructionsOf at 2. unfold setBlocks. cbn [fblocks].
        rewrite P1, app_nil_r, !in_app_iff. tauto.
Qed.

Lemma sameSignature_eraseFromParent (del : list InstId) (f : Function) :
  sameSignature f (eraseFromParent del f).
Proof.
  unfold sameSignature, eraseFromParent, setBlocks, isDeclaration, isMaterializable.
  cbn [fname ftype fblocks flazy]. repeat split. destruct (fblocks f); reflexivity.
Qed.

Lemma sameSignatures_eraseFromParent (del : list InstId) (fs : list Function) :
  Forall2 sameSignature fs (map (eraseFromParent del) fs).
Proof.
  induction fs; cbn [map]; constructor;
    [apply sameSignature_eraseFromParent | assumption].
Qed.

(** X19.  What [removeFunctionBitcasts] achieves.  On a module whose
    functions have distinct names and whose casts are of functions of the
    module, the module the pass leaves has no call it would redirect: every
    call through a cast of a function that is left is a call of a
    declaration, or of a function whose number of parameters is not that of
    the type of the call; the calls in the clones are redirected too. *)
Theorem no_repairable_call_is_left (fuel : nat) (M M' : Module) :
  wellFormed M ->
  removeFunctionBitcasts fuel M = Some M' ->
  forall j, In j (allInstructions M') -> repairable (functions M') j = false.
Proof.
  intros [N T] H j Hj. unfold removeFunctionBitcasts in H.
  destruct (removeFunctionBitcasts_state fuel M) as [m|] eqn:E; [|discriminate].
  injection H as <-. unfold removeFunctionBitcasts_state in E.
  apply bcFuncLoop_done in E.
  - destruct E as (Dn & P & _). cbn [functions] in *. rewrite P, app_nil_r in *.
    rewrite (repairable_sameSignature j
               (sameSignatures_eraseFromParent (msDelete (bcm m)) (visited (bcm m)))).
    unfold doneBetween in Dn. rewrite P, app_nil_r in Dn. apply Dn.
    unfold allInstructions in Hj. cbn [functions] in Hj.
    apply in_flat_map in Hj. destruct Hj as (f' & Hf' & Hi).
    apply in_map_iff in Hf'. destruct Hf' as (f & <- & Hf).
    apply in_flat_map. exists f. split; [exact Hf|].
    unfold instructionsOf, eraseFromParent, setBlocks in *. cbn [fblocks] in Hi.
    apply in_concat in Hi. destruct Hi as (b & Hb & Hi).
    apply in_map_iff in Hb. destruct Hb as (b0 & <- & Hb0).
    apply filter_In in Hi. apply in_concat. exists b0. tauto.
  - cbn. constructor; try assumption; intros; discriminate.
  - intros i Hi. destruct Hi.
Qed.

End Properties.

(* ================================================================== *)
(** * The claims on the example modules *)

(** The examples are of the build that keeps the assertions, unless they
    name the other. *)
#[local] Existing Instance withAssertions.

Lemma sampleModule_NoDup : NoDup (map iid (allInstructions sampleModule)).
Proof. vm_compute. repeat constructor; simpl; intuition discriminate. Qed.

Lemma OneMap_call_is_replaced_witness :
  exists M' F' n,
    @runOnModule withAssertions sampleTarget sampleModule = Ok M'
    /\ nth_error (functions M') 0 = Some F'
    /\ nth_error (fblocks F') 0
       = Some (@residue withAssertions sampleTarget sampleModule
                        (@nextIdAt withAssertions sampleModule [] [] []) []
               ++ n :: @residue withAssertions sampleTarget sampleModule (S (iid n))
                                [callDtoi; callCtlz; callPointer; callMul; storeAll])
    /\ n = @callTo (@intrinsicDeclaration sampleTarget fma [FloatTy]) (iid n)
                   (map (finalValue sampleModule)
                        [VArg 0 FloatTy; VArg 0 FloatTy; VInst 5 FloatTy]) 11
    /\ ~ In (iid n) (map iid (allInstructions sampleModule))
    /\ (forall j, In j (allInstructions M') -> iid j <> 1)
    /\ (forall t, finalValue sampleModule (VInst 1 t) = VInst (iid n) t)
    /\ (forall j v t, In j (allInstructions M') -> In v (operands j) ->
                      v <> VInst 1 t)
    /\ (forall u, In u (allInstructions sampleModule) ->
                  erases (classify u) = false ->
                  In (mapOperands (finalValue sampleModule) u) (allInstructions M')).
Proof.
  exact (@OneMap_call_is_replaced withAssertions sampleTarget sampleModule [] kernel [definedFma]
           [] [] callFma [callDtoi; callCtlz; callPointer; callMul; storeAll] []
           "__builtin_IB_fma" fmaTy [VArg 0 FloatTy; VArg 0 FloatTy; VInst 5 FloatTy]
           fmaTy 0 fma eq_refl eq_refl eq_refl eq_refl sampleModule_NoDup eq_refl).
Defined.

Lemma TwoMap_call_is_replaced_witness :
  exists M' F' n0 n1,
    @runOnModule withAssertions sampleTarget sampleModule = Ok M'
    /\ nth_error (functions M') 0 = Some F'
    /\ nth_error (fblocks F') 0
       = Some (@residue withAssertions sampleTarget sampleModule
                        (@nextIdAt withAssertions sampleModule [] [] []) [callFma]
               ++ n0 :: n1
               :: @residue withAssertions sampleTarget sampleModule (S (iid n1))
                           [callCtlz; callPointer; callMul; storeAll])
    /\ n0 = @callTo (@intrinsicDeclaration sampleTarget genx_rndd [DoubleTy]) (iid n0)
                    (map (finalValue sampleModule) [VArg 1 DoubleTy]) 12
    /\ n1 = @callTo (@intrinsicDeclaration sampleTarget genx_fptosi_sat [i32; ity n0])
                    (iid n1) [asValue n0] 12
    /\ ~ In (iid n0) (map iid (allInstructions sampleModule))
    /\ ~ In (iid n1) (map iid (allInstructions sampleModule))
    /\ iid n0 <> iid n1
    /\ (forall j, In j (allInstructions M') -> iid j <> 2)
    /\ (forall t, finalValue sampleModule (VInst 2 t) = VInst (iid n1) t)
    /\ (forall j v t, In j (allInstructions M') -> In v (operands j) ->
                      v <> VInst 2 t)
    /\ (forall u, In u (allInstructions sampleModule) ->
                  erases (classify u) = false ->
                  In (mapOperands (finalValue sampleModule) u) (allInstructions M')).
Proof.
  exact (@TwoMap_call_is_replaced withAssertions sampleTarget sampleModule [] kernel [definedFma]
           [] [callFma] callDtoi [callCtlz; callPointer; callMul; storeAll] []
           "__builtin_IB_dtoi32_rtn" dtoiTy (VArg 1 DoubleTy) [] dtoiTy 0
           (genx_rndd, genx_fptosi_sat)
           eq_refl eq_refl eq_refl eq_refl sampleModule_NoDup eq_refl).
Defined.



Lemma rewriter_dispatches_on_callee_name_witness :
  (exists M' F' (news : list Instruction),
      @runOnModule withAssertions sampleTarget sampleModule = Ok M'
      /\ nth_error (functions M') 0 = Some F'
      /\ news <> []
      /\ (forall j, In j (allInstructions M') -> iid j <> 1))
  /\ (exists M' F' c',
         @runOnModule withAssertions sampleTarget sampleModule = Ok M'
         /\ nth_error (functions M') 0 = Some F'
         /\ iid c' = 4
         /\ ikind c' = Call (finalValue sampleModule (VArg 3 (PointerTy 0)))
                            (map (finalValue sampleModule) [VInst 1 FloatTy]) fmaTy 0).
Proof.
  split.
  - destruct (@rewriter_dispatches_on_callee_name withAssertions sampleTarget sampleModule
                [] kernel [definedFma] [] [] callFma
                [callDtoi; callCtlz; callPointer; callMul; storeAll] []
                (VFunc "__builtin_IB_fma" fmaTy)
                [VArg 0 FloatTy; VArg 0 FloatTy; VInst 5 FloatTy] fmaTy 0
                eq_refl eq_refl eq_refl sampleModule_NoDup eq_refl) as [H _].
    destruct (H "__builtin_IB_fma" fmaTy definedFma eq_refl eq_refl eq_refl eq_refl)
      as (M' & F' & news & R & HF & _ & Hn & G & _).
    exists M', F', news. repeat split; assumption.
  - destruct (@rewriter_dispatches_on_callee_name withAssertions sampleTarget sampleModule
                [] kernel [definedFma] [] [callFma; callDtoi; callCtlz] callPointer
                [callMul; storeAll] []
                (VArg 3 (PointerTy 0)) [VInst 1 FloatTy] fmaTy 0
                eq_refl eq_refl eq_refl sampleModule_NoDup eq_refl) as [_ H].
    destruct H as (M' & F' & c' & R & HF & _ & Hi & Hk); [intros; discriminate|].
    exists M', F', c'. repeat split; assumption.
Defined.

(** What [runOnModule] makes of the kernel. *)
Example runOnModule_sampleModule :
  option_map (fun M' => map (map iid) (flat_map fblocks (functions M')))
             (match @runOnModule withAssertions sampleTarget sampleModule with
              | Ok M' => Some M' | Abort _ _ => None end)
  = Some [[8; 9; 10; 11; 4; 12; 13; 6]; [7]].
Proof. vm_compute. reflexivity. Qed.

Example runOnModule_sampleModule_store :
  match @runOnModule withAssertions sampleTarget sampleModule with
  | Ok M' => find (fun i => Nat.eqb (iid i) 6) (allInstructions M')
  | Abort _ _ => None
  end
  = Some (mkInst 6 VoidTy 16
            (OtherInst 31 [VInst 8 FloatTy; VInst 10 i32; VInst 11 i32; VInst 13 FloatTy])).
Proof. vm_compute. reflexivity. Qed.

Lemma unresolved_callee_is_skipped_witness :
  ExploreCallees (Explore 2) (InMain, "f") [(InMain, "ext"); (InMain, "g")] walkState
  = ExploreCallees (Explore 2) (InMain, "f") [(InMain, "g")] walkState
  /\ ExploreCallees (Explore 2) (InMain, "f") [(InMain, "ext")] walkState
     = Some (Ok walkState).
Proof.
  apply (@unresolved_callee_is_skipped withAssertions (Explore 2) (InMain, "f") (InMain, "ext")
           [(InMain, "g")] walkState (declare_ "ext") eq_refl eq_refl).
  intros F H. vm_compute in H. discriminate.
Defined.


(** The whole pass on that module, in the build that keeps the assertions:
    the failure is its outcome. *)
Example CMImportBiF_brokenMain :
  @CMImportBiF withAssertions sampleTarget sampleReader sampleLinker 5 brokenMain walkBiF
  = Some (Abort ("===> Materialize Failure: Malformed block" ++ newline)%string
                "0 && Failed to materialize Global Variables").
Proof. vm_compute. reflexivity. Qed.


Lemma defined_callee_is_explored_when_loaded_now_witness :
  ExploreCallees (Explore 2) (InMain, "f") [(InMain, "g"); (InMain, "ext")] walkState
  = ExploreCallees (Explore 2) (InMain, "f") [(InMain, "ext")] walkState.
Proof.
  destruct (@defined_callee_is_explored_when_loaded_now withAssertions (Explore 2) (InMain, "f")
              (InMain, "g") [(InMain, "ext")] walkState
              (define_ "g" 0 [callTo_ 4 "h"; ret 5]) eq_refl eq_refl) as [H _].
  exact (H eq_refl).
Defined.

(** C3 as the specification states it: the loop would call [Explore] for a
    callee that is defined in the main module.  On [walkState] it does not:
    [g] is defined and calls [h]; had the loop of the root [f] called
    [Explore] for [g], the body of [h] would be loaded. *)
Lemma defined_callee_is_not_explored :
  ExploreCallees (Explore 2) (InMain, "f") [(InMain, "g")] walkState
  <> match Explore 2 (InMain, "g") walkState with
     | Some (Ok st') => ExploreCallees (Explore 2) (InMain, "f") [] st'
     | other => other
     end.
Proof. vm_compute. discriminate. Qed.

Example Explore_g_loads_h :
  match Explore 2 (InMain, "g") walkState with
  | Some (Ok st') => option_map isMaterializable (getFunction (BiFModule st') "h")
  | _ => None
  end = Some false.
Proof. vm_compute. reflexivity. Qed.

Example Explore_f_leaves_h :
  match Explore 2 (InMain, "f") walkState with
  | Some (Ok st') => option_map isMaterializable (getFunction (BiFModule st') "h")
  | _ => None
  end = Some true.
Proof. vm_compute. reflexivity. Qed.



Example removeFunctionBitcasts_sharedModule :
  removeFunctionBitcasts 3 sharedModule
  = Some (mkModule
            [define_ "main" 0
               [mkInst 8 VoidTy 0
                  (Call (VFunc "callee.1" floatUnaryTy) [VConst FloatTy 1] floatUnaryTy 0);
                mkInst 9 VoidTy 0
                  (Call (VFunc "callee.1" floatUnaryTy) [VConst FloatTy 2] floatUnaryTy 0);
                ret 5];
             mkFunction "callee.1" floatUnaryTy ExternalLinkage false 0 0 ["x"] None
               [[mkInst 6 VoidTy 0 (OtherInst 31 [VArg 0 FloatTy]); ret 7]]]
            []).
Proof. vm_compute. reflexivity. Qed.

Lemma arity_mismatch_leaves_a_declaration_witness :
  exists pDstFunc : Function,
    allFunctions (cursor (repairCall mismatchCall mismatchAtCall))
    = allFunctions (cursor mismatchAtCall) ++ [pDstFunc]
    /\ ~ In (fname pDstFunc) (map fname (allFunctions (cursor mismatchAtCall)))
    /\ ftype pDstFunc = binaryTy
    /\ isDeclaration pDstFunc = true
    /\ ipost (cursor (repairCall mismatchCall mismatchAtCall)) = [mismatchCall; ret 4].
Proof.
  destruct (@arity_mismatch_leaves_a_declaration mismatchAtCall mismatchCall
              (VFunc "callee" unaryTy) (PointerTy 0) [VConst i32 1; VConst i32 2]
              binaryTy 0 "callee" unaryTy calleeFunction
              eq_refl eq_refl eq_refl eq_refl eq_refl)
    as (pDstFunc & H1 & H2 & H3 & H4 & _ & H6 & _).
  - simpl. discriminate.
  - exists pDstFunc. repeat split; assumption.
Defined.

(** The pass on the module whose call has an argument too many: the call is
    as it was and the module has the declaration [callee.1]. *)
Example removeFunctionBitcasts_mismatchModule :
  removeFunctionBitcasts 3 mismatchModule
  = Some (mkModule
            (functions mismatchModule
             ++ [mkFunction "callee.1" binaryTy ExternalLinkage false 0 0 [""; ""]
                            None []])
            []).
Proof. vm_compute. reflexivity. Qed.

(** The two passes on the examples. *)
Lemma rewrite_passes_only_internalize_witness :
  @rewritePasses withAssertions sampleTarget 5 walkMain
  = Some (Ok (mkModule (map internalizeFunction (functions walkMain))
                       (map internalizeGlobal (globals walkMain)))).
Proof.
  apply (@rewrite_passes_only_internalize withAssertions sampleTarget walkMain 5).
  - assert (H : forallb untouched (allInstructions walkMain) = true)
      by (vm_compute; reflexivity).
    rewrite forallb_forall in H. exact H.
  - simpl. lia.
Defined.

Lemma rewrite_passes_change_the_linkage :
  (forall i, In i (allInstructions plainModule) -> untouched i = true)
  /\ @rewritePasses withAssertions sampleTarget 1 plainModule
     = Some (Ok (mkModule [setLinkage plainFunction InternalLinkage] []))
  /\ flinkage plainFunction = ExternalLinkage
  /\ mkModule [setLinkage plainFunction InternalLinkage] [] <> plainModule.
Proof.
  split; [intros i [<-|[]]; reflexivity|].
  split; [vm_compute; reflexivity|].
  split; [reflexivity | discriminate].
Qed.

(** The converter drops a lifetime marker, whose name is in no table. *)
Example runOnModule_markedModule :
  @runOnModule withAssertions sampleTarget markedModule
  = Ok (mkModule [setBlocks markedFunction [[mkInst 2 VoidTy 0 (OtherInst 1 [])]]] []).
Proof. vm_compute. reflexivity. Qed.

(* ================================================================== *)
(** * The further properties on the example modules *)

Lemma closedModule_NoDup : NoDup (map iid (allInstructions closedModule)).
Proof. vm_compute. repeat constructor; simpl; intuition discriminate. Qed.

Lemma lifetime_marker_is_dropped_witness :
  exists M' F',
    @runOnModule withAssertions sampleTarget markedModule = Ok M'
    /\ nth_error (functions M') 0 = Some F'
    /\ nth_error (fblocks F') 0
       = Some (@residue withAssertions sampleTarget markedModule
                        (@nextIdAt withAssertions markedModule [] [] []) []
               ++ @residue withAssertions sampleTarget markedModule
                           (@nextIdAt withAssertions markedModule [] [] []) [ret 2])
    /\ (forall j, In j (allInstructions M') -> iid j <> 1).
Proof.
  exact (@lifetime_marker_is_dropped withAssertions sampleTarget markedModule [] markedFunction []
           [] [] (mkInst 1 VoidTy 0
                    (Call (VFunc "llvm.lifetime.start.p0i8" lifetimeTy)
                          [VConst (IntegerTy 64) 4; VArg 0 (PointerTy 0)] lifetimeTy 0))
           [ret 2] [] "llvm.lifetime.start.p0i8" lifetimeTy
           [VConst (IntegerTy 64) 4; VArg 0 (PointerTy 0)] lifetimeTy 0
           eq_refl eq_refl eq_refl (or_introl eq_refl) eq_refl).
Defined.

Lemma itof_call_becomes_a_cast_witness :
  exists M' F' n,
    @runOnModule withAssertions sampleTarget closedModule = Ok M'
    /\ nth_error (functions M') 0 = Some F'
    /\ nth_error (fblocks F') 0
       = Some (@residue withAssertions sampleTarget closedModule
                        (@nextIdAt withAssertions closedModule [] [] []) []
               ++ n :: @residue withAssertions sampleTarget closedModule (S (iid n))
                                [callFmaOfItof; storeItof])
    /\ n = mkInst (iid n) FloatTy 21 (Cast SIToFP (finalValue closedModule (VArg 0 i32)))
    /\ ~ In (iid n) (map iid (allInstructions closedModule))
    /\ (forall j, In j (allInstructions M') -> iid j <> 1)
    /\ (forall t, finalValue closedModule (VInst 1 t) = VInst (iid n) t)
    /\ (forall j v t, In j (allInstructions M') -> In v (operands j) ->
                      v <> VInst 1 t).
Proof.
  exact (@itof_call_becomes_a_cast withAssertions sampleTarget closedModule [] convKernel
           [itofDeclaration; definedFma] [] [] callItof [callFmaOfItof; storeItof] []
           "__builtin_IB_itof_f32" itofTy (VArg 0 i32) [] itofTy 0 SIToFP
           eq_refl eq_refl eq_refl (or_introl (conj eq_refl eq_refl))
           closedModule_NoDup eq_refl).
Defined.

(** What [runOnModule] makes of that module. *)
Example runOnModule_closedModule :
  option_map (fun M' => (map ikind (allInstructions M'), map fname (functions M')))
             (match @runOnModule withAssertions sampleTarget closedModule with
              | Ok M' => Some M' | Abort _ _ => None end)
  = Some ([Cast SIToFP (VArg 0 i32);
           Call (VFunc "llvm.fma.f32" fmaTy)
                [VInst 8 FloatTy; VInst 8 FloatTy; VInst 8 FloatTy] fmaTy 0;
           OtherInst 31 [VInst 8 FloatTy; VInst 9 FloatTy];
           OtherInst 1 [VArg 0 FloatTy]],
          ["conv"; "__builtin_IB_itof_f32"; "__builtin_IB_fma"; "llvm.fma.f32"]).
Proof. vm_compute. reflexivity. Qed.

Lemma rtz_call_becomes_rounded_arithmetic_witness :
  exists M' F' n0 n1,
    @runOnModule withAssertions sampleTarget sampleModule = Ok M'
    /\ nth_error (functions M') 0 = Some F'
    /\ nth_error (fblocks F') 0
       = Some (@residue withAssertions sampleTarget sampleModule
                        (@nextIdAt withAssertions sampleModule [] [] [])
                        [callFma; callDtoi; callCtlz; callPointer]
               ++ n0 :: n1 :: @residue withAssertions sampleTarget sampleModule (S (iid n1)) [storeAll])
    /\ n0 = mkInst (iid n0) FloatTy 15
                   (BinaryOperator FMul (finalValue sampleModule (VInst 4 FloatTy))
                                   (finalValue sampleModule (VArg 0 FloatTy)))
    /\ n1 = @callTo (@intrinsicDeclaration sampleTarget genx_rndz [FloatTy]) (iid n1)
                    [asValue n0] 15
    /\ ~ In (iid n0) (map iid (allInstructions sampleModule))
    /\ ~ In (iid n1) (map iid (allInstructions sampleModule))
    /\ iid n0 <> iid n1
    /\ (forall j, In j (allInstructions M') -> iid j <> 5)
    /\ (forall t, finalValue sampleModule (VInst 5 t) = VInst (iid n1) t)
    /\ (forall j v t, In j (allInstructions M') -> In v (operands j) ->
                      v <> VInst 5 t).
Proof.
  exact (@rtz_call_becomes_rounded_arithmetic withAssertions sampleTarget sampleModule [] kernel
           [definedFma] [] [callFma; callDtoi; callCtlz; callPointer] callMul
           [storeAll] [] "__builtin_IB_mul_rtz_f32" fmaTy (VInst 4 FloatTy)
           (VArg 0 FloatTy) [] fmaTy 0 FMul
           eq_refl eq_refl eq_refl (or_introl (conj eq_refl eq_refl))
           sampleModule_NoDup eq_refl).
Defined.

Lemma no_builtin_call_is_left_witness :
  exists M' j,
    @runOnModule withAssertions sampleTarget closedModule = Ok M'
    /\ In j (allInstructions M')
    /\ ikind j = Call (VFunc "llvm.fma.f32" fmaTy)
                      [VInst 8 FloatTy; VInst 8 FloatTy; VInst 8 FloatTy] fmaTy 0
    /\ isBuiltinName "llvm.fma.f32" = false
    /\ lookupIntrinsicID "llvm.fma.f32" <> lifetime_start
    /\ lookupIntrinsicID "llvm.fma.f32" <> lifetime_end
    /\ lookupIntrinsicID "llvm.fma.f32" <> ctlz.
Proof.
  destruct (@runOnModule withAssertions sampleTarget closedModule) as [M'|d m] eqn:R;
    [|vm_compute in R; discriminate].
  assert (H : exists j, In j (allInstructions M')
                        /\ ikind j = Call (VFunc "llvm.fma.f32" fmaTy)
                                          [VInst 8 FloatTy; VInst 8 FloatTy;
                                           VInst 8 FloatTy] fmaTy 0).
  { vm_compute in R. injection R as <-. eexists. split; [right; left; reflexivity|].
    reflexivity. }
  destruct H as (j & Hj & Hk). exists M', j.
  split; [reflexivity|]. split; [exact Hj|]. split; [exact Hk|].
  exact (@no_builtin_call_is_left withAssertions sampleTarget closedModule M' j "llvm.fma.f32" fmaTy
           [VInst 8 FloatTy; VInst 8 FloatTy; VInst 8 FloatTy] fmaTy 0 R Hj Hk).
Defined.

Lemma runOnModule_idempotent_witness :
  exists M', @runOnModule withAssertions sampleTarget sampleModule = Ok M'
             /\ @runOnModule withAssertions sampleTarget M' = Ok M'.
Proof.
  destruct (@runOnModule withAssertions sampleTarget sampleModule) as [M'|d m] eqn:R;
    [|vm_compute in R; discriminate].
  exists M'. split; [reflexivity|].
  exact (@runOnModule_idempotent withAssertions sampleTarget sampleModule M' R).
Defined.

Lemma runOnModule_keeps_the_functions_witness :
  exists M' kept decls,
    @runOnModule withAssertions sampleTarget sampleModule = Ok M'
    /\ functions M' = kept ++ decls
    /\ Forall2 sameHeader (functions sampleModule) kept
    /\ (forall d, In d decls ->
          isDeclaration d = true
          /\ getIntrinsicID d <> not_intrinsic
          /\ ~ In (fname d) (map fname (functions sampleModule)))
    /\ NoDup (map fname decls)
    /\ (NoDup (map fname (functions sampleModule)) -> NoDup (map fname (functions M')))
    /\ Forall2 sameGlobal (globals sampleModule) (globals M').
Proof.
  destruct (@runOnModule withAssertions sampleTarget sampleModule) as [M'|d m] eqn:R;
    [|vm_compute in R; discriminate].
  destruct (@runOnModule_keeps_the_functions withAssertions sampleTarget sampleModule M' R)
    as (kept & decls & H).
  exists M', kept, decls. split; [reflexivity | exact H].
Defined.

Lemma runOnModule_sets_the_linkage_witness :
  exists M' kept decls,
    @runOnModule withAssertions sampleTarget sampleModule = Ok M'
    /\ functions M' = kept ++ decls
    /\ Forall2 (fun F F' =>
                  flinkage F'
                  = if IntrinsicID_eqb (getIntrinsicID F) not_intrinsic
                       && negb (isDeclaration F) && negb (fdllexport F)
                    then InternalLinkage else flinkage F)
               (functions sampleModule) kept
    /\ Forall2 (fun G G' =>
                  glinkage G'
                  = if Global_isDeclaration G then glinkage G else InternalLinkage)
               (globals sampleModule) (globals M').
Proof.
  destruct (@runOnModule withAssertions sampleTarget sampleModule) as [M'|d m] eqn:R;
    [|vm_compute in R; discriminate].
  destruct (@runOnModule_sets_the_linkage withAssertions sampleTarget sampleModule M' R)
    as (kept & decls & H).
  exists M', kept, decls. split; [reflexivity | exact H].
Defined.

Lemma closedModule_callees (i : Instruction) name ty args fty cc :
  In i (allInstructions closedModule) ->
  ikind i = Call (VFunc name ty) args fty cc ->
  In name (map fname (functions closedModule)).
Proof.
  intros Hi Hk. unfold closedModule, allInstructions in Hi.
  cbn [functions flat_map instructionsOf fblocks convKernel itofDeclaration
       definedFma concat app] in Hi.
  cbn [In] in Hi.
  destruct Hi as [<-|[<-|[<-|[<-|[]]]]]; cbn [ikind callItof callFmaOfItof storeItof] in Hk;
    try discriminate; injection Hk as <- _ _ _ _; vm_compute; tauto.
Qed.

Lemma created_calls_are_declared_witness :
  exists M',
    @runOnModule withAssertions sampleTarget closedModule = Ok M'
    /\ forall j name ty args fty cc,
         In j (allInstructions M') -> ikind j = Call (VFunc name ty) args fty cc ->
         In name (map fname (functions M')).
Proof.
  destruct (@runOnModule withAssertions sampleTarget closedModule) as [M'|d m] eqn:R;
    [|vm_compute in R; discriminate].
  exists M'. split; [reflexivity|].
  exact (@created_calls_are_declared withAssertions sampleTarget closedModule M' R closedModule_callees).
Defined.

Lemma GetCalledFunctions_lists_the_callees_witness :
  NoDup [(InMain, "g"); (InMain, "ext")]
  /\ (forall p, In p [(InMain, "g"); (InMain, "ext")]
                <-> fst p = InMain
                    /\ exists i, In i [callTo_ 1 "g"; callTo_ 2 "ext"; ret 3]
                                 /\ getCalledFunction i = Some (snd p))
  /\ (exists F',
        deref (fst (GetCalledFunctions (InMain, "f") walkState)) (InMain, "f")
        = Some F'
        /\ setBlocks F' [[callTo_ 1 "g"; callTo_ 2 "ext"; ret 3]]
           = define_ "f" 7 [callTo_ 1 "g"; callTo_ 2 "ext"; ret 3]
        /\ Forall2 (Forall2 (callGets 7))
                   [[callTo_ 1 "g"; callTo_ 2 "ext"; ret 3]] (fblocks F'))
  /\ (forall q, q <> (InMain, "f") ->
                deref (fst (GetCalledFunctions (InMain, "f") walkState)) q
                = deref walkState q)
  /\ errs (fst (GetCalledFunctions (InMain, "f") walkState)) = errs walkState.
Proof.
  exact (@GetCalledFunctions_lists_the_callees (InMain, "f") walkState
           (fst (GetCalledFunctions (InMain, "f") walkState))
           (define_ "f" 7 [callTo_ 1 "g"; callTo_ 2 "ext"; ret 3])
           [(InMain, "g"); (InMain, "ext")] eq_refl eq_refl).
Defined.

(** The calls of [f] before and after: the calling convention 0 has become
    that of [f], 7. *)
Example GetCalledFunctions_walkState :
  option_map (fun F' => map (map ikind) (fblocks F'))
             (deref (fst (GetCalledFunctions (InMain, "f") walkState)) (InMain, "f"))
  = Some [[Call (VFunc "g" voidTy) [] voidTy 7; Call (VFunc "ext" voidTy) [] voidTy 7;
           OtherInst 1 []]].
Proof. vm_compute. reflexivity. Qed.

Lemma walk_keeps_the_modules_witness :
  exists st',
    ExploreAll (map fname (functions walkMain)) walkState = Some (Ok st')
    /\ walkKeepsModule walkMain (MainModule st')
    /\ walkKeepsModule walkBiF (BiFModule st').
Proof.
  destruct (ExploreAll (map fname (functions walkMain)) walkState)
    as [[st'|d m]|] eqn:R; try (vm_compute in R; discriminate).
  exists st'. split; [reflexivity|].
  exact (@walk_keeps_the_modules withAssertions (map fname (functions walkMain)) walkState st' R).
Defined.

(** What the walk loads on that state: the body of [h], which [g] calls,
    and no other. *)
Example ExploreAll_walkState :
  match ExploreAll (map fname (functions walkMain)) walkState with
  | Some (Ok st') => map (fun f => (fname f, isMaterializable f)) (functions (BiFModule st'))
  | _ => []
  end = [("h", false); ("broken", true); ("unused", true)].
Proof. vm_compute. reflexivity. Qed.



Lemma walkMain_bodies : bodiesNonEmpty walkMain.
Proof.
  intros f Hf body L. cbn in Hf.
  repeat (destruct Hf as [<-|Hf]; [discriminate L|]). destruct Hf.
Qed.

Lemma walkBiF_bodies : bodiesNonEmpty walkBiF.
Proof.
  intros f Hf body L. cbn in Hf.
  repeat (destruct Hf as [<-|Hf];
          [first [discriminate L | injection L as <-; discriminate]|]).
  destruct Hf.
Qed.

Lemma walkBiF_not_loaded (name : string) :
  callsPending (mkLink walkMain walkBiF) (InBiF, name) = false.
Proof.
  unfold callsPending, deref, getFunction, mkLink.
  cbn [fst snd moduleOf BiFModule walkBiF functions find lazy_ fname].
  repeat (destruct (String.eqb _ name); [reflexivity|]). reflexivity.
Qed.

Lemma walk_loads_every_callee_witness :
  exists st',
    ExploreAll (map fname (functions walkMain)) (mkLink walkMain walkBiF)
    = Some (Ok st')
    /\ forall p, callsPending st' p = false.
Proof.
  destruct (ExploreAll (map fname (functions walkMain)) (mkLink walkMain walkBiF))
    as [[st'|d m]|] eqn:R; try (vm_compute in R; discriminate).
  exists st'. split; [reflexivity|].
  exact (@walk_loads_every_callee withAssertions walkMain walkBiF st'
           walkMain_bodies walkBiF_bodies (or_introl eq_refl) walkBiF_not_loaded R).
Defined.

(** In a build with [NDEBUG] the walk over [brokenMain] ends with [f], whose
    body is in memory, calling [broken], which still waits for its body. *)
Example walk_leaves_a_broken_callee :
  match @ExploreAll withNDEBUG (map fname (functions brokenMain))
                    (mkLink brokenMain walkBiF) with
  | Some (Ok st') => Some (callsPending st' (InMain, "f"))
  | _ => None
  end = Some true.
Proof. vm_compute. reflexivity. Qed.

Lemma sharedModule_wellFormed : wellFormed sharedModule.
Proof.
  split.
  - apply nodupb_NoDup. vm_compute. reflexivity.
  - intros n Hn. vm_compute in Hn. vm_compute. tauto.
Qed.

Lemma removeFunctionBitcasts_keeps_well_formed_witness :
  exists M', removeFunctionBitcasts 3 sharedModule = Some M' /\ wellFormed M'.
Proof.
  destruct (removeFunctionBitcasts 3 sharedModule) as [M'|] eqn:R;
    [|vm_compute in R; discriminate].
  exists M'. split; [reflexivity|].
  exact (@removeFunctionBitcasts_keeps_well_formed 3 sharedModule M'
           sharedModule_wellFormed R).
Defined.

Lemma sharedModule_castsAreOutside : castsAreOutside sharedModule.
Proof.
  intros f [<-|[<-|[]]] H; [reflexivity|]. exfalso. vm_compute in H.
  destruct H as [H|[H|[]]]; discriminate H.
Qed.

Lemma removeFunctionBitcasts_terminates_witness :
  exists M', forall fuel, bitcastFuel sharedModule <= fuel ->
                          removeFunctionBitcasts fuel sharedModule = Some M'.
Proof.
  exact (@removeFunctionBitcasts_terminates sharedModule sharedModule_wellFormed
           sharedModule_castsAreOutside).
Defined.

(** The bound on that module, which has two functions and two calls through
    a cast; three functions are visited. *)
Example bitcastFuel_sharedModule : bitcastFuel sharedModule = 10.
Proof. vm_compute. reflexivity. Qed.

Lemma no_repairable_call_is_left_witness :
  exists M',
    removeFunctionBitcasts 3 sharedModule = Some M'
    /\ forall j, In j (allInstructions M') -> repairable (functions M') j = false.
Proof.
  destruct (removeFunctionBitcasts 3 sharedModule) as [M'|] eqn:R;
    [|vm_compute in R; discriminate].
  exists M'. split; [reflexivity|].
  exact (@no_repairable_call_is_left 3 sharedModule M' sharedModule_wellFormed R).
Defined.

(** Before the pass both calls of [sharedModule] are calls it redirects;
    the call of [mismatchModule], with an argument too many, is none. *)
Example repairable_sharedModule :
  map (repairable (functions sharedModule)) (allInstructions sharedModule)
  = [false; false; true; true; false].
Proof. vm_compute. reflexivity. Qed.

Example repairable_mismatchModule :
  map (repairable (functions mismatchModule)) (allInstructions mismatchModule)
  = [false; false; false; false].
Proof. vm_compute. reflexivity. Qed.
